(** * nvtt::TexImage (src/nvtt/TexImage.cpp): a shallow embedding

    The development follows the translation unit top-down: the file-local
    helpers of the anonymous namespace first, then the heap of reference
    counted payloads and float images that [TexImage] handles point into,
    then the member functions, and finally the properties of the
    specification that are settled against them. *)

From Stdlib Require Import ZArith List Bool Lia SpecFloat.
From Equations Require Import Equations.
From stdpp Require Import base option list.
Import ListNotations.

Local Open Scope Z_scope.

(** ** Machine integers

    [int] and [uint] are 32 bits wide.  Values are kept in [Z]; the
    conversions below are written wherever the C++ code converts or may
    wrap. *)

Module Int.

Definition modulus : Z := 2 ^ 32.

(** Conversion to [uint] (also the result of unsigned arithmetic). *)
Definition to_uint (z : Z) : Z := z mod modulus.

(** Conversion to [int] (two's complement). *)
Definition to_int (z : Z) : Z :=
  let u := to_uint z in
  if u <? 2 ^ 31 then u else u - modulus.

End Int.

(** ** Helpers of the anonymous namespace *)

(** Modelled from the spec: [nextPowerOfTwo] is declared in nvcore and not
    part of this translation unit.  The specification and the comment on
    [previousPowerOfTwo] ("1 -> 1, 2 -> 2, 3 -> 2, 4 -> 4, 5 -> 4") fix it
    as the least power of two that is not below its argument; the result
    is a [uint]. *)
Definition nextPowerOfTwo (v : Z) : Z := Int.to_uint (2 ^ Z.log2_up v).

(** [static uint previousPowerOfTwo(const uint v)] *)
Definition previousPowerOfTwo (v : Z) : Z :=
  nextPowerOfTwo (Int.to_uint (v + 1)) / 2.

(** [static uint nearestPowerOfTwo(const uint v)]: the two distances are
    unsigned differences. *)
Definition nearestPowerOfTwo (v : Z) : Z :=
  let np2 := nextPowerOfTwo v in
  let pp2 := previousPowerOfTwo v in
  if Int.to_uint (np2 - v) <=? Int.to_uint (v - pp2) then np2 else pp2.

(** Modelled from the spec: the [nvtt::Format] enumeration is declared in
    nvtt.h.  The constructors are the distinct values this file names;
    [Format_BC1], [Format_BC2] and [Format_BC3] are the block-compression
    names of DXT1, DXT3 and DXT5 (the specification gives BC1 a block of 8
    bytes and BC2/BC3 one of 16, which [blockSize] only does under these
    identifications). *)
Inductive Format :=
| Format_RGB
| Format_DXT1
| Format_DXT1a
| Format_DXT3
| Format_DXT5
| Format_DXT5n
| Format_BC4
| Format_BC5
| Format_DXT1n
| Format_CTX1.

Definition Format_BC1 := Format_DXT1.
Definition Format_BC2 := Format_DXT3.
Definition Format_BC3 := Format_DXT5.

Definition Format_eqb (a b : Format) : bool :=
  match a, b with
  | Format_RGB, Format_RGB | Format_DXT1, Format_DXT1
  | Format_DXT1a, Format_DXT1a | Format_DXT3, Format_DXT3
  | Format_DXT5, Format_DXT5 | Format_DXT5n, Format_DXT5n
  | Format_BC4, Format_BC4 | Format_BC5, Format_BC5
  | Format_DXT1n, Format_DXT1n | Format_CTX1, Format_CTX1 => true
  | _, _ => false
  end.

(** [static int blockSize(Format format)] *)
Definition blockSize (format : Format) : Z :=
  if Format_eqb format Format_DXT1 || Format_eqb format Format_DXT1a
     || Format_eqb format Format_DXT1n then 8
  else if Format_eqb format Format_DXT3 then 16
  else if Format_eqb format Format_DXT5 || Format_eqb format Format_DXT5n then 16
  else if Format_eqb format Format_BC4 then 8
  else if Format_eqb format Format_BC5 then 16
  else if Format_eqb format Format_CTX1 then 8
  else 0.

(** [static uint countMipmaps(int w, int h, int d)].

    The [while] loop is a recursion on the three extents with the counter
    as accumulator.  Integer division truncates ([Z.quot]).  After one
    round every extent is at least 1, and from then on an extent other
    than 1 strictly decreases; [mip_weight] measures that. *)

Definition mip_halve (x : Z) : Z := Z.max 1 (Z.quot x 2).

Definition mip_weight (x : Z) : nat :=
  if x =? 1 then 0%nat else Z.to_nat (Z.max x 2).

(** The loop condition [w != 1 || h != 1 || d != 1]. *)
Definition mip_pending (w h d : Z) :
  {w <> 1 \/ h <> 1 \/ d <> 1} + {w = 1 /\ h = 1 /\ d = 1}.
Proof.
  destruct (Z.eq_dec w 1); [| left; tauto].
  destruct (Z.eq_dec h 1); [| left; tauto].
  destruct (Z.eq_dec d 1); [right; tauto | left; tauto].
Defined.

Equations? countMipmaps_loop (w h d : Z) (mipmap : Z) : Z
  by wf (mip_weight w + mip_weight h + mip_weight d)%nat lt :=
  countMipmaps_loop w h d mipmap with mip_pending w h d => {
    | left _ := countMipmaps_loop (mip_halve w) (mip_halve h) (mip_halve d)
                  (Int.to_uint (mipmap + 1));
    | right _ := mipmap }.
Proof.
  assert (Hle : forall x, (mip_weight (mip_halve x) <= mip_weight x)%nat).
  { intros x. unfold mip_weight, mip_halve.
    destruct (Z.eqb_spec x 1) as [-> | Hx]; [reflexivity |].
    destruct (Z.eqb_spec (Z.max 1 (x ÷ 2)) 1); [lia |].
    destruct (Z.le_gt_cases x 0).
    - assert (x ÷ 2 <= 0) by (apply Z.quot_le_upper_bound; lia). lia.
    - assert (x ÷ 2 < x) by (apply Z.quot_lt; lia). lia. }
  assert (Hlt : forall x, x <> 1 ->
                          (mip_weight (mip_halve x) < mip_weight x)%nat).
  { intros x Hx. unfold mip_weight, mip_halve.
    destruct (Z.eqb_spec x 1) as [-> | _]; [congruence |].
    destruct (Z.eqb_spec (Z.max 1 (x ÷ 2)) 1); [lia |].
    destruct (Z.le_gt_cases x 0).
    - assert (x ÷ 2 <= 0) by (apply Z.quot_le_upper_bound; lia). lia.
    - assert (x ÷ 2 < x) by (apply Z.quot_lt; lia). lia. }
  pose proof (Hle w). pose proof (Hle h). pose proof (Hle d).
  destruct o as [Hw | [Hh | Hd]].
  - pose proof (Hlt w Hw). lia.
  - pose proof (Hlt h Hh). lia.
  - pose proof (Hlt d Hd). lia.
Qed.

Definition countMipmaps (w h d : Z) : Z :=
  Int.to_uint (countMipmaps_loop w h d 0 + 1).

(** ** Floating point

    [float] is IEEE binary32 and [double] is IEEE binary64, both taken from
    the executable specification of the Standard Library ([spec_float],
    round to nearest even). *)

Definition float := spec_float.
Definition double := spec_float.

Module F32.
Definition prec : Z := 24.
Definition emax : Z := 128.
Definition of_Z (z : Z) : float := binary_normalize prec emax z 0 false.
Definition add : float -> float -> float := SFadd prec emax.
Definition sub : float -> float -> float := SFsub prec emax.
Definition mul : float -> float -> float := SFmul prec emax.
Definition div : float -> float -> float := SFdiv prec emax.
Definition zero : float := S754_zero false.
Definition one : float := of_Z 1.
(** [FLT_MAX] of <float.h>: (2^24 - 1) * 2^104. *)
Definition FLT_MAX : float := S754_finite false (2 ^ 24 - 1) 104.
(** Narrowing conversion [float(d)] of a [double]. *)
Definition of_double (d : double) : float :=
  match d with
  | S754_finite s m e => binary_round prec emax s m e
  | _ => d
  end.
End F32.

Module F64.
Definition prec : Z := 53.
Definition emax : Z := 1024.
Definition of_Z (z : Z) : double := binary_normalize prec emax z 0 false.
Definition add : double -> double -> double := SFadd prec emax.
Definition div : double -> double -> double := SFdiv prec emax.
Definition sqrt : double -> double := SFsqrt prec emax.
Definition zero : double := S754_zero false.
(** Widening conversion [double(f)] of a [float]; it is exact. *)
Definition of_float (f : float) : double :=
  match f with
  | S754_finite s m e => binary_round prec emax s m e
  | _ => f
  end.
End F64.

Definition is_nan (f : spec_float) : bool :=
  match f with S754_nan => true | _ => false end.

(** ** Enumerations of nvtt.h used by this file *)

Inductive TextureType := TextureType_2D | TextureType_Cube.
Inductive WrapMode := WrapMode_Clamp | WrapMode_Repeat | WrapMode_Mirror.
Inductive AlphaMode := AlphaMode_None | AlphaMode_Transparency.
Inductive InputFormat := InputFormat_BGRA_8UB | InputFormat_RGBA_32F.
Inductive Decoder := Decoder_Reference | Decoder_NV5x.
Inductive MipmapFilter :=
  MipmapFilter_Box | MipmapFilter_Triangle | MipmapFilter_Kaiser.

Definition TextureType_eqb (a b : TextureType) : bool :=
  match a, b with
  | TextureType_2D, TextureType_2D | TextureType_Cube, TextureType_Cube => true
  | _, _ => false
  end.

Definition WrapMode_eqb (a b : WrapMode) : bool :=
  match a, b with
  | WrapMode_Clamp, WrapMode_Clamp | WrapMode_Repeat, WrapMode_Repeat
  | WrapMode_Mirror, WrapMode_Mirror => true
  | _, _ => false
  end.

Definition AlphaMode_eqb (a b : AlphaMode) : bool :=
  match a, b with
  | AlphaMode_None, AlphaMode_None
  | AlphaMode_Transparency, AlphaMode_Transparency => true
  | _, _ => false
  end.

(** The face count [setTextureType] gives each type. *)
Definition faceCountOf (type : TextureType) : Z :=
  match type with TextureType_2D => 1 | TextureType_Cube => 6 end.

(** ** nv::FloatImage *)

(** Modelled from the spec: [nv::FloatImage] is declared in nvimage.  It is
    a dense per-channel float buffer: [m_mem] holds [m_componentNum]
    planes of [m_width * m_height] floats, channel [c] starting at offset
    [c * m_width * m_height] (what [channel(c)] points to), and the sample
    (x, y, c) at [(c * m_height + y) * m_width + x]. *)
Record FloatImage := mkFloatImage {
  m_width : Z;
  m_height : Z;
  m_componentNum : Z;
  m_mem : list float }.

Module Image.

(** Reading and writing [m_mem] at a linear index; [None] when the index
    is outside the buffer. *)
Definition read (img : FloatImage) (idx : Z) : option float :=
  if idx <? 0 then None else m_mem img !! Z.to_nat idx.

Definition write (img : FloatImage) (idx : Z) (v : float) : option FloatImage :=
  if (0 <=? idx) && (idx <? Z.of_nat (length (m_mem img))) then
    Some (mkFloatImage (m_width img) (m_height img) (m_componentNum img)
            (<[Z.to_nat idx := v]> (m_mem img)))
  else None.

(** Offset of [channel(c)]. *)
Definition channel (img : FloatImage) (c : Z) : Z :=
  c * m_width img * m_height img.

(** Index of [pixel(x, y, c)]. *)
Definition index (img : FloatImage) (x y c : Z) : Z :=
  (c * m_height img + y) * m_width img + x.

(** The buffer is as large as the extents say. *)
Definition sized (img : FloatImage) : bool :=
  (0 <=? m_width img) && (0 <=? m_height img) && (0 <=? m_componentNum img)
  && (Z.of_nat (length (m_mem img))
      =? m_componentNum img * m_width img * m_height img).

(** [resizeChannelCount(c)]: the buffer is cut or padded with zeros to
    [c] planes. *)
Definition resizeChannelCount (c : Z) (img : FloatImage) : FloatImage :=
  if m_componentNum img =? c then img
  else
    let count := Z.to_nat (m_width img * m_height img * c) in
    mkFloatImage (m_width img) (m_height img) c
      (take count (m_mem img)
         ++ replicate (count - length (m_mem img)) F32.zero).

End Image.

(** ** The heap: payloads and images behind pointers

    A [TexImage] is a pointer [m] to a reference counted [Private]
    payload, which holds pointers to its face images.  Both kinds of
    object live in a heap; an address is an index into the corresponding
    table, [None] in a table marks a deleted object, and [None] as a
    pointer is [NULL]. *)

Abbreviation ptr := nat (only parsing).

Module Private.
(** [struct TexImage::Private : public RefCounted].  [refCount] is the
    counter of the [RefCounted] base. *)
Record t := mk {
  refCount : Z;
  type : TextureType;
  wrapMode : WrapMode;
  alphaMode : AlphaMode;
  isNormalMap : bool;
  imageArray : list (option ptr) }.

Definition set_refCount (c : Z) (p : t) : t :=
  mk c (type p) (wrapMode p) (alphaMode p) (isNormalMap p) (imageArray p).
Definition set_type (x : TextureType) (p : t) : t :=
  mk (refCount p) x (wrapMode p) (alphaMode p) (isNormalMap p) (imageArray p).
Definition set_wrapMode (x : WrapMode) (p : t) : t :=
  mk (refCount p) (type p) x (alphaMode p) (isNormalMap p) (imageArray p).
Definition set_alphaMode (x : AlphaMode) (p : t) : t :=
  mk (refCount p) (type p) (wrapMode p) x (isNormalMap p) (imageArray p).
Definition set_isNormalMap (x : bool) (p : t) : t :=
  mk (refCount p) (type p) (wrapMode p) (alphaMode p) x (imageArray p).
Definition set_imageArray (x : list (option ptr)) (p : t) : t :=
  mk (refCount p) (type p) (wrapMode p) (alphaMode p) (isNormalMap p) x.
End Private.

Record Heap := mkHeap {
  images : list (option FloatImage);
  payloads : list (option Private.t) }.

Definition empty_heap : Heap := mkHeap [] [].

(** What stops a run short of a result: undefined behaviour of the C++
    program, or a failed [nvCheck]. *)
Inductive fault :=
| NullPointer      (* dereference of NULL *)
| Dangling         (* use of a deleted object *)
| OutOfBounds      (* access outside a buffer or an array *)
| CheckFailed      (* nvCheck *)
| WrongBuffer.     (* the caller's buffer is not of the announced kind *)

Inductive outcome (A : Type) :=
| Done (a : A)
| Fault (f : fault).
Arguments Done {A} a.
Arguments Fault {A} f.

(** Computations on the heap that may fault. *)
Definition M (A : Type) : Type := Heap -> outcome (A * Heap).

Definition ret {A} (a : A) : M A := fun h => Done (a, h).

Definition bind {A B} (c : M A) (k : A -> M B) : M B :=
  fun h => match c h with
           | Done (a, h') => k a h'
           | Fault f => Fault f
           end.

Definition raise {A} (f : fault) : M A := fun _ => Fault f.

Declare Scope heap_scope.
Delimit Scope heap_scope with heap.
Notation "x <- c ;; k" := (bind c (fun x => k))
  (at level 100, c at next level, right associativity) : heap_scope.
Notation "c ;; k" := (bind c (fun _ => k))
  (at level 100, right associativity) : heap_scope.
Local Open Scope heap_scope.

(** [nvCheck(cond)] stops the program when [cond] fails.  [nvDebugCheck]
    is compiled out of release builds and is left out. *)
Definition nvCheck (cond : bool) : M unit :=
  if cond then ret tt else raise CheckFailed.

(** A [for] loop over the indices [idxs] with loop-carried state [s];
    the body either continues with a new state or returns [r] from the
    enclosing function. *)
Fixpoint for_fold {S R} (idxs : list Z) (body : Z -> S -> M (S + R)) (s : S)
  : M (S + R) :=
  match idxs with
  | [] => ret (inl s)
  | i :: rest =>
      x <- body i s ;;
      match x with
      | inl s' => for_fold rest body s'
      | inr r => ret (inr r)
      end
  end.

(** A loop without state that may return early. *)
Definition for_each {R} (idxs : list Z) (body : Z -> M (option R)) : M (option R) :=
  x <- for_fold idxs
         (fun i (_ : unit) =>
            r <- body i ;;
            ret (match r with Some v => inr v | None => inl tt end)) tt ;;
  ret (match x with inl _ => None | inr v => Some v end).

(** [nv::Array<T>::operator[]]. *)
Definition Array_at {A} (l : list A) (i : Z) : M A :=
  if i <? 0 then raise OutOfBounds
  else match l !! Z.to_nat i with
       | Some x => ret x
       | None => raise OutOfBounds
       end.

(** [nv::Array<T>::resize(count, val)]: cut, or pad with [val]. *)
Definition Array_resize {A} (count : Z) (val : A) (l : list A) : list A :=
  let n := Z.to_nat count in
  take n l ++ replicate (n - length l) val.

(** *** Images on the heap *)

(** [new FloatImage(...)] *)
Definition Image_new (img : FloatImage) : M ptr :=
  fun h => Done (length (images h),
                 mkHeap (images h ++ [Some img]) (payloads h)).

(** [*p] for a [FloatImage * p]. *)
Definition Image_get (p : option ptr) : M FloatImage :=
  fun h => match p with
           | None => Fault NullPointer
           | Some a => match images h !! a with
                       | Some (Some img) => Done (img, h)
                       | _ => Fault Dangling
                       end
           end.

(** Writing the object behind a [FloatImage *]. *)
Definition Image_put (p : option ptr) (img : FloatImage) : M unit :=
  fun h => match p with
           | None => Fault NullPointer
           | Some a => match images h !! a with
                       | Some (Some _) =>
                           Done (tt, mkHeap (<[a := Some img]> (images h)) (payloads h))
                       | _ => Fault Dangling
                       end
           end.

(** [delete p]; deleting [NULL] does nothing. *)
Definition Image_delete (p : option ptr) : M unit :=
  fun h => match p with
           | None => Done (tt, h)
           | Some a => match images h !! a with
                       | Some (Some _) =>
                           Done (tt, mkHeap (<[a := None]> (images h)) (payloads h))
                       | _ => Fault Dangling
                       end
           end.

(** *** Payloads on the heap *)

Definition Private_alloc (p : Private.t) : M ptr :=
  fun h => Done (length (payloads h),
                 mkHeap (images h) (payloads h ++ [Some p])).

Definition Private_get (m : option ptr) : M Private.t :=
  fun h => match m with
           | None => Fault NullPointer
           | Some a => match payloads h !! a with
                       | Some (Some p) => Done (p, h)
                       | _ => Fault Dangling
                       end
           end.

Definition Private_put (m : option ptr) (p : Private.t) : M unit :=
  fun h => match m with
           | None => Fault NullPointer
           | Some a => match payloads h !! a with
                       | Some (Some _) =>
                           Done (tt, mkHeap (images h) (<[a := Some p]> (payloads h)))
                       | _ => Fault Dangling
                       end
           end.

Definition Private_free (m : option ptr) : M unit :=
  fun h => match m with
           | None => Done (tt, h)
           | Some a => match payloads h !! a with
                       | Some (Some _) =>
                           Done (tt, mkHeap (images h) (<[a := None]> (payloads h)))
                       | _ => Fault Dangling
                       end
           end.

(** [m->field = x] *)
Definition Private_modify (m : option ptr) (f : Private.t -> Private.t) : M unit :=
  p <- Private_get m ;; Private_put m (f p).

(** Modelled from the spec: the [RefCounted] base of nvcore.  A new object
    starts without holders ([detach] checks that one [addRef] on a new
    payload gives a count of 1), [addRef] adds a holder, and [release]
    drops one and frees the payload when its last holder releases it;
    "releasing deletes all owned face images". *)
Definition RefCounted_init : Z := 0.

Definition addRef (m : option ptr) : M unit :=
  Private_modify m (fun p => Private.set_refCount (Private.refCount p + 1) p).

Definition release (m : option ptr) : M unit :=
  p <- Private_get m ;;
  let c := Private.refCount p - 1 in
  if c =? 0 then
    for_each (seqZ 0 (Z.of_nat (length (Private.imageArray p))))
      (fun i => f <- Array_at (Private.imageArray p) i ;;
                Image_delete f ;;
                ret (@None unit)) ;;
    Private_free m
  else Private_put m (Private.set_refCount c p).

(** Modelled from the spec: the constructors of [TexImage::Private] are in
    TexImage.h.  A texture "is created empty (no faces)"; the
    specification leaves the initial scalar fields open, they are given
    the values nvtt documents as defaults and nothing below depends on
    them. *)
Definition Private_new : M ptr :=
  Private_alloc
    (Private.mk RefCounted_init TextureType_2D WrapMode_Mirror AlphaMode_None
       false []).

(** Modelled from the spec: the copy constructor "clones the entire
    payload (deep-copies metadata and duplicates ownership of all face
    images)": every populated face gets an image of its own with the same
    content. *)
Fixpoint clone_faces (faces : list (option ptr)) : M (list (option ptr)) :=
  match faces with
  | [] => ret []
  | None :: rest => rest' <- clone_faces rest ;; ret (None :: rest')
  | Some a :: rest =>
      img <- Image_get (Some a) ;;
      a' <- Image_new img ;;
      rest' <- clone_faces rest ;;
      ret (Some a' :: rest')
  end.

Definition Private_copy (p : Private.t) : M ptr :=
  faces <- clone_faces (Private.imageArray p) ;;
  Private_alloc
    (Private.mk RefCounted_init (Private.type p) (Private.wrapMode p)
       (Private.alphaMode p) (Private.isNormalMap p) faces).

(** ** TexImage *)

(** The handle: its only member is the payload pointer [m]. *)
Record TexImage := Tex { m : option ptr }.

(** [TexImage::TexImage() : m(new TexImage::Private())], with an empty
    body. *)
Definition TexImage_new : M TexImage :=
  a <- Private_new ;; ret (Tex (Some a)).

(** [TexImage::TexImage(const TexImage & tex) : m(tex.m)] *)
Definition TexImage_copy (tex : TexImage) : M TexImage :=
  (if m tex is Some _ then addRef (m tex) else ret tt) ;;
  ret (Tex (m tex)).

(** [TexImage::~TexImage()] *)
Definition TexImage_destroy (this : TexImage) : M TexImage :=
  (if m this is Some _ then release (m this) else ret tt) ;;
  ret (Tex None).

(** [void TexImage::operator=(const TexImage & tex)] *)
Definition TexImage_assign (tex : TexImage) (this : TexImage) : M TexImage :=
  (if m tex is Some _ then addRef (m tex) else ret tt) ;;
  (if m this is Some _ then release (m this) else ret tt) ;;
  ret (Tex (m tex)).

(** [void TexImage::detach()] *)
Definition detach (this : TexImage) : M TexImage :=
  p <- Private_get (m this) ;;
  if 1 <? Private.refCount p then
    release (m this) ;;
    p <- Private_get (m this) ;;
    a <- Private_copy p ;;
    addRef (Some a) ;;
    ret (Tex (Some a))
  else ret this.

(** [void TexImage::setTextureType(TextureType type)] *)
Definition setTextureType (type : TextureType) (this : TexImage) : M TexImage :=
  p <- Private_get (m this) ;;
  if negb (TextureType_eqb (Private.type p) type) then
    this <- detach this ;;
    Private_modify (m this) (Private.set_type type) ;;
    count <- match type with
             | TextureType_2D => ret 1
             | _ => nvCheck (TextureType_eqb type TextureType_Cube) ;; ret 6
             end ;;
    (* Delete all but the first 'count' images. *)
    p <- Private_get (m this) ;;
    let imageCount := Z.of_nat (length (Private.imageArray p)) in
    for_each (seqZ count (imageCount - count))
      (fun i => p <- Private_get (m this) ;;
                f <- Array_at (Private.imageArray p) i ;;
                Image_delete f ;;
                ret (@None unit)) ;;
    Private_modify (m this)
      (fun p => Private.set_imageArray
                  (Array_resize count None (Private.imageArray p)) p) ;;
    ret this
  else ret this.

(** [void TexImage::setWrapMode(WrapMode wrapMode)] *)
Definition setWrapMode (wrapMode : WrapMode) (this : TexImage) : M TexImage :=
  p <- Private_get (m this) ;;
  if negb (WrapMode_eqb (Private.wrapMode p) wrapMode) then
    this <- detach this ;;
    Private_modify (m this) (Private.set_wrapMode wrapMode) ;;
    ret this
  else ret this.

(** [void TexImage::setAlphaMode(AlphaMode alphaMode)] *)
Definition setAlphaMode (alphaMode : AlphaMode) (this : TexImage) : M TexImage :=
  p <- Private_get (m this) ;;
  if negb (AlphaMode_eqb (Private.alphaMode p) alphaMode) then
    this <- detach this ;;
    Private_modify (m this) (Private.set_alphaMode alphaMode) ;;
    ret this
  else ret this.

(** [void TexImage::setNormalMap(bool isNormalMap)] *)
Definition setNormalMap (isNormalMap : bool) (this : TexImage) : M TexImage :=
  p <- Private_get (m this) ;;
  if negb (Bool.eqb (Private.isNormalMap p) isNormalMap) then
    this <- detach this ;;
    Private_modify (m this) (Private.set_isNormalMap isNormalMap) ;;
    ret this
  else ret this.

(** [int TexImage::width() const] and [height()]: the extents of face 0,
    which is dereferenced without a test. *)
Definition width (this : TexImage) : M Z :=
  p <- Private_get (m this) ;;
  if 0 <? Z.of_nat (length (Private.imageArray p)) then
    f <- Array_at (Private.imageArray p) 0 ;;
    img <- Image_get f ;;
    ret (Int.to_int (m_width img))
  else ret 0.

Definition height (this : TexImage) : M Z :=
  p <- Private_get (m this) ;;
  if 0 <? Z.of_nat (length (Private.imageArray p)) then
    f <- Array_at (Private.imageArray p) 0 ;;
    img <- Image_get f ;;
    ret (Int.to_int (m_height img))
  else ret 0.

Definition depth (this : TexImage) : M Z := ret 1.

(** [int TexImage::faceCount() const] *)
Definition faceCount (this : TexImage) : M Z :=
  p <- Private_get (m this) ;;
  ret (Int.to_int (Z.of_nat (length (Private.imageArray p)))).

Definition textureType (this : TexImage) : M TextureType :=
  p <- Private_get (m this) ;; ret (Private.type p).

Definition wrapMode (this : TexImage) : M WrapMode :=
  p <- Private_get (m this) ;; ret (Private.wrapMode p).

Definition alphaMode (this : TexImage) : M AlphaMode :=
  p <- Private_get (m this) ;; ret (Private.alphaMode p).

Definition isNormalMap (this : TexImage) : M bool :=
  p <- Private_get (m this) ;; ret (Private.isNormalMap p).

(** [int TexImage::countMipmaps() const] *)
Definition TexImage_countMipmaps (this : TexImage) : M Z :=
  w <- width this ;; h <- height this ;; d <- depth this ;;
  ret (Int.to_int (countMipmaps w h d)).

(** [bool TexImage::load(const char * fileName)].  [loaded] is what
    [ImageIO::loadFloat(fileName)] produced: an image, or [None] for
    [NULL]. *)
Definition load (loaded : option FloatImage) (this : TexImage)
  : M (bool * TexImage) :=
  match loaded with
  | None => ret (false, this)
  | Some file =>
      img <- Image_new file ;;
      this <- detach this ;;
      i <- Image_get (Some img) ;;
      Image_put (Some img) (Image.resizeChannelCount 4 i) ;;
      Private_modify (m this)
        (fun p => Private.set_imageArray
                    (Array_resize 1 None (Private.imageArray p)) p) ;;
      Private_modify (m this)
        (fun p => Private.set_imageArray
                    (<[0%nat := Some img]> (Private.imageArray p)) p) ;;
      ret (true, this)
  end.

(** *** Ingestion *)

(** Modelled from the spec: [nv::Color32] of nvmath, four 8-bit
    components stored in the order B, G, R, A. *)
Module Color32.
Record t := mk { b : Z; g : Z; r : Z; a : Z }.
End Color32.

(** The caller's buffer behind a [const void *]: bytes or floats. *)
Inductive Buffer :=
| ByteBuffer (bytes : list Z)
| FloatBuffer (vals : list float).

(** [((const Color32 * )data)[i]] *)
Definition Color32_at (bytes : list Z) (i : Z) : option Color32.t :=
  if i <? 0 then None
  else
    let k := Z.to_nat (4 * i) in
    b ← bytes !! k; g ← bytes !! S k; r ← bytes !! S (S k);
    a ← bytes !! S (S (S k));
    Some (Color32.mk b g r a).

(** [l[i]] for a buffer [l]. *)
Definition at_index {A} (l : list A) (i : Z) : option A :=
  if i <? 0 then None else l !! Z.to_nat i.

(** The [n] elements of [l] from offset [off] on. *)
Definition read_run {A} (l : list A) (off n : Z) : option (list A) :=
  if (0 <=? off) && (0 <=? n) && (off + n <=? Z.of_nat (length l)) then
    Some (take (Z.to_nat n) (drop (Z.to_nat off) l))
  else None.

(** A pure [for] loop over [idxs] on local state; [None] when an access
    of the body leaves its buffer. *)
Fixpoint fold_range {S} (idxs : list Z) (body : Z -> S -> option S) (s : S)
  : option S :=
  match idxs with
  | [] => Some s
  | i :: rest => s' ← body i s; fold_range rest body s'
  end.

Definition in_bounds {A} (o : option A) : M A :=
  match o with Some x => ret x | None => raise OutOfBounds end.

(** [dst[i] = v] for [dst = img->channel(c)]. *)
Definition store_channel (c i : Z) (v : float) (img : FloatImage)
  : option FloatImage :=
  Image.write img (Image.channel img c + i) v.

(** [memcpy(img->channel(c), src, count * sizeof(float))] *)
Definition memcpy_channel (c : Z) (src : list float) (count : Z) (img : FloatImage)
  : option FloatImage :=
  vals ← read_run src 0 count;
  _ ← read_run (m_mem img) (Image.channel img c) count;
  Some (mkFloatImage (m_width img) (m_height img) (m_componentNum img)
          (take (Z.to_nat (Image.channel img c)) (m_mem img) ++ vals
             ++ drop (Z.to_nat (Image.channel img c + count)) (m_mem img))).

(** [bool TexImage::setImage2D(InputFormat format, int w, int h, int idx,
    const void * data)].  [img] is read from the payload before
    [detach()] and the pixel loops write through it. *)
Definition setImage2D (format : InputFormat) (w h idx : Z) (data : Buffer)
    (this : TexImage) : M (bool * TexImage) :=
  p <- Private_get (m this) ;;
  if (idx <? 0)
     || (Z.of_nat (length (Private.imageArray p)) <=? Int.to_uint idx)
  then ret (false, this)
  else
    img <- Array_at (Private.imageArray p) idx ;;
    i <- Image_get img ;;
    if negb (m_width i =? Int.to_uint w) || negb (m_height i =? Int.to_uint h)
    then ret (false, this)
    else
      this <- detach this ;;
      let count := Int.to_int (w * h) in
      i <- Image_get img ;;
      match format, data with
      | InputFormat_BGRA_8UB, ByteBuffer src =>
          i' <- in_bounds
                  (fold_range (seqZ 0 count)
                     (fun k i =>
                        c ← Color32_at src k;
                        i ← store_channel 0 k (F32.of_Z (Color32.r c)) i;
                        i ← store_channel 1 k (F32.of_Z (Color32.g c)) i;
                        i ← store_channel 2 k (F32.of_Z (Color32.b c)) i;
                        store_channel 3 k (F32.of_Z (Color32.a c)) i) i) ;;
          Image_put img i' ;;
          ret (true, this)
      | InputFormat_RGBA_32F, FloatBuffer src =>
          i' <- in_bounds
                  (fold_range (seqZ 0 count)
                     (fun k i =>
                        r ← at_index src (4 * k + 0);
                        i ← store_channel 0 k r i;
                        g ← at_index src (4 * k + 1);
                        i ← store_channel 1 k g i;
                        b ← at_index src (4 * k + 2);
                        i ← store_channel 2 k b i;
                        a ← at_index src (4 * k + 3);
                        store_channel 3 k a i) i) ;;
          Image_put img i' ;;
          ret (true, this)
      | _, _ => raise WrongBuffer
      end.

(** [bool TexImage::setImage2D(InputFormat format, int w, int h, int idx,
    const void * r, const void * g, const void * b, const void * a)] *)
Definition setImage2D_planar (format : InputFormat) (w h idx : Z)
    (r g b a : Buffer) (this : TexImage) : M (bool * TexImage) :=
  p <- Private_get (m this) ;;
  if (idx <? 0)
     || (Z.of_nat (length (Private.imageArray p)) <=? Int.to_uint idx)
  then ret (false, this)
  else
    img <- Array_at (Private.imageArray p) idx ;;
    i <- Image_get img ;;
    if negb (m_width i =? Int.to_uint w) || negb (m_height i =? Int.to_uint h)
    then ret (false, this)
    else
      this <- detach this ;;
      let count := Int.to_int (w * h) in
      i <- Image_get img ;;
      match format, r, g, b, a with
      | InputFormat_BGRA_8UB,
        ByteBuffer rsrc, ByteBuffer gsrc, ByteBuffer bsrc, ByteBuffer asrc =>
          let plane c src i :=
            fold_range (seqZ 0 count)
              (fun k i =>
                 x ← at_index src k;
                 store_channel c k (F32.div (F32.of_Z x) (F32.of_Z 255)) i) i in
          i' <- in_bounds
                  (i ← plane 0 rsrc i; i ← plane 1 gsrc i;
                   i ← plane 2 bsrc i; plane 3 asrc i) ;;
          Image_put img i' ;;
          ret (true, this)
      | InputFormat_RGBA_32F,
        FloatBuffer rsrc, FloatBuffer gsrc, FloatBuffer bsrc, FloatBuffer asrc =>
          i' <- in_bounds
                  (i ← memcpy_channel 0 rsrc count i;
                   i ← memcpy_channel 1 gsrc count i;
                   i ← memcpy_channel 2 bsrc count i;
                   memcpy_channel 3 asrc count i) ;;
          Image_put img i' ;;
          ret (true, this)
      | _, _, _, _, _ => raise WrongBuffer
      end.

(** Modelled from the spec: what this file takes from nvimage without
    defining it.  [decodeBlock format decoder bytes] is the 4x4 block of
    colours that [BlockDXT1], [BlockDXT3] or [BlockDXT5] decodes from the
    bytes of one block, row by row; [resample] is the kernel-based
    filtering of an image to new extents, with the alpha channel for the
    alpha-weighted variant, and [boxDownSample] the dedicated 2x box
    filter.  The kernel mathematics is outside this file. *)
Inductive Filter :=
| BoxFilter
| TriangleFilter
| KaiserFilter (width : Z)
| MitchellFilter.

Class Collaborators := {
  decodeBlock : Format -> Decoder -> list Z -> list Color32.t;
  resample : Filter -> WrapMode -> option Z -> FloatImage -> Z -> Z -> list float;
  boxDownSample : FloatImage -> Z -> Z -> list float }.

Section WithCollaborators.

Context `{Collaborators}.

(** Modelled from the spec: [FloatImage::downSample] and
    [FloatImage::fastDownSample] produce the next-coarser level, each
    extent halved (floor, minimum 1), as a new image. *)
Definition Image_downSample (filter : Filter) (wm : WrapMode) (alpha : option Z)
    (img : FloatImage) : FloatImage :=
  let w := Z.max 1 (m_width img / 2) in
  let h := Z.max 1 (m_height img / 2) in
  mkFloatImage w h (m_componentNum img) (resample filter wm alpha img w h).

Definition Image_fastDownSample (img : FloatImage) : FloatImage :=
  let w := Z.max 1 (m_width img / 2) in
  let h := Z.max 1 (m_height img / 2) in
  mkFloatImage w h (m_componentNum img) (boxDownSample img w h).

(** [bool TexImage::setImage2D(Format format, Decoder decoder, int w,
    int h, int idx, const void * data)] *)
Definition setImage2D_compressed (format : Format) (decoder : Decoder)
    (w h idx : Z) (data : list Z) (this : TexImage) : M (bool * TexImage) :=
  p <- Private_get (m this) ;;
  if (idx <? 0)
     || (Z.of_nat (length (Private.imageArray p)) <=? Int.to_uint idx)
  then ret (false, this)
  else if negb (Format_eqb format Format_BC1) && negb (Format_eqb format Format_BC2)
          && negb (Format_eqb format Format_BC3)
  then ret (false, this)
  else
    img <- Array_at (Private.imageArray p) idx ;;
    i <- Image_get img ;;
    if negb (m_width i =? Int.to_uint w) || negb (m_height i =? Int.to_uint h)
    then ret (false, this)
    else
      this <- detach this ;;
      let bw := Z.quot (w + 3) 4 in
      let bh := Z.quot (h + 3) 4 in
      let bs := Int.to_uint (blockSize format) in
      i <- Image_get img ;;
      let texel (x y : Z) (colors : list Color32.t) (yy xx : Z) (i : FloatImage) :=
        c ← at_index colors (yy * 4 + xx);
        if (x * 4 + xx <? w) && (y * 4 + yy <? h) then
          let scaled v := F32.div (F32.mul (F32.of_Z v) F32.one) (F32.of_Z 255) in
          i ← Image.write i (Image.index i (x * 4 + xx) (y * 4 + yy) 0)
                (scaled (Color32.r c));
          i ← Image.write i (Image.index i (x * 4 + xx) (y * 4 + yy) 1)
                (scaled (Color32.g c));
          i ← Image.write i (Image.index i (x * 4 + xx) (y * 4 + yy) 2)
                (scaled (Color32.b c));
          Image.write i (Image.index i (x * 4 + xx) (y * 4 + yy) 3)
            (scaled (Color32.a c))
        else Some i in
      let block (y x : Z) (s : FloatImage * Z) :=
        let '(i, ptr) := s in
        bytes ← read_run data ptr bs;
        let colors := decodeBlock format decoder bytes in
        i ← fold_range (seqZ 0 4)
              (fun yy i => fold_range (seqZ 0 4) (texel x y colors yy) i) i;
        Some (i, ptr + bs) in
      s <- in_bounds
             (fold_range (seqZ 0 bh)
                (fun y s => fold_range (seqZ 0 bw) (block y) s) (i, 0)) ;;
      Image_put img (fst s) ;;
      ret (true, this).

(** *** Mipmap generation *)

(** The body of the loop over the faces in [buildNextMipmap]: face [i]
    is replaced with its next-coarser level and the old image deleted. *)
Definition buildNextMipmap_face (filter : MipmapFilter) (wrapMode : WrapMode)
    (this : TexImage) (i : Z) : M (option unit) :=
  p <- Private_get (m this) ;;
  img <- Array_at (Private.imageArray p) i ;;
  match img with
  | None => ret (@None unit)
  | Some _ =>
      src <- Image_get img ;;
      img' <- match Private.alphaMode p, filter with
              | AlphaMode_Transparency, MipmapFilter_Box =>
                  Image_new (Image_downSample BoxFilter wrapMode (Some 3) src)
              | AlphaMode_Transparency, MipmapFilter_Triangle =>
                  Image_new (Image_downSample TriangleFilter wrapMode (Some 3) src)
              | AlphaMode_Transparency, MipmapFilter_Kaiser =>
                  Image_new (Image_downSample (KaiserFilter 3) wrapMode (Some 3) src)
              | AlphaMode_None, MipmapFilter_Box =>
                  Image_new (Image_fastDownSample src)
              | AlphaMode_None, MipmapFilter_Triangle =>
                  Image_new (Image_downSample TriangleFilter wrapMode None src)
              | AlphaMode_None, MipmapFilter_Kaiser =>
                  Image_new (Image_downSample (KaiserFilter 3) wrapMode None src)
              end ;;
      p <- Private_get (m this) ;;
      old <- Array_at (Private.imageArray p) i ;;
      Image_delete old ;;
      Private_modify (m this)
        (fun p => Private.set_imageArray
                    (<[Z.to_nat i := Some img']> (Private.imageArray p)) p) ;;
      ret None
  end.

(** [bool TexImage::buildNextMipmap(MipmapFilter filter)] *)
Definition buildNextMipmap (filter : MipmapFilter) (this : TexImage)
  : M (bool * TexImage) :=
  p <- Private_get (m this) ;;
  stop <- (if 0 <? Z.of_nat (length (Private.imageArray p)) then
             f <- Array_at (Private.imageArray p) 0 ;;
             img <- Image_get f ;;
             let w := Int.to_int (m_width img) in
             let h := Int.to_int (m_height img) in
             ret ((w =? 1) && (h =? 1))
           else ret false) ;;
  if stop then ret (false, this)
  else
    this <- detach this ;;
    p <- Private_get (m this) ;;
    let wrapMode := Private.wrapMode p in
    for_each (seqZ 0 (Z.of_nat (length (Private.imageArray p))))
      (buildNextMipmap_face filter wrapMode this) ;;
    ret (true, this).

End WithCollaborators.

(** *** Transforms *)

(** [void TexImage::fill(float red, float green, float blue, float alpha)]:
    like the other colour transforms, one [detach()] and then a loop over
    the faces that are read from the payload it left. *)
Definition fill (red green blue alpha : float) (this : TexImage) : M TexImage :=
  this <- detach this ;;
  p <- Private_get (m this) ;;
  for_each (seqZ 0 (Z.of_nat (length (Private.imageArray p))))
    (fun i =>
       p <- Private_get (m this) ;;
       img <- Array_at (Private.imageArray p) i ;;
       match img with
       | None => ret (@None unit)
       | Some _ =>
           f <- Image_get img ;;
           let count := Int.to_int (m_width f * m_height f) in
           f' <- in_bounds
                   (fold_range (seqZ 0 count)
                      (fun k f =>
                         f ← store_channel 0 k red f;
                         f ← store_channel 1 k green f;
                         f ← store_channel 2 k blue f;
                         store_channel 3 k alpha f) f) ;;
           Image_put img f' ;;
           ret None
       end) ;;
  ret this.

(** *** Error metrics *)

(** One round of the pixel loop of [rootMeanSquaredError_rgb]: sample [i]
    of [img] against [ref] with the indexing of the source,
    [pixel(4 * i + count * c)]. *)
Definition rgb_error_step (weighted : bool) (img ref : FloatImage) (count : Z)
    (i : Z) (mse : double) : option double :=
  r0 ← Image.read img (Int.to_uint (4 * i + count * 0));
  g0 ← Image.read img (Int.to_uint (4 * i + count * 1));
  b0 ← Image.read img (Int.to_uint (4 * i + count * 2));
  a0 ← Image.read img (Int.to_uint (4 * i + count * 3));
  r1 ← Image.read ref (Int.to_uint (4 * i + count * 0));
  g1 ← Image.read ref (Int.to_uint (4 * i + count * 1));
  b1 ← Image.read ref (Int.to_uint (4 * i + count * 2));
  a1 ← Image.read ref (Int.to_uint (4 * i + count * 3));
  let r := F32.sub r0 r1 in
  let g := F32.sub g0 g1 in
  let b := F32.sub b0 b1 in
  let a := F32.sub a0 a1 in
  if weighted then
    let mse := F64.add mse (F64.div (F64.of_float (F32.mul (F32.mul r r) a1))
                              (F64.of_Z 255)) in
    let mse := F64.add mse (F64.div (F64.of_float (F32.mul (F32.mul g g) a1))
                              (F64.of_Z 255)) in
    Some (F64.add mse (F64.div (F64.of_float (F32.mul (F32.mul b b) a1))
                         (F64.of_Z 255)))
  else
    let mse := F64.add mse (F64.of_float (F32.mul r r)) in
    let mse := F64.add mse (F64.of_float (F32.mul g g)) in
    Some (F64.add mse (F64.of_float (F32.mul b b))).

(** [float TexImage::rootMeanSquaredError_rgb(const TexImage & reference)
    const].  The loop state is [(totalCount, mse)]. *)
Definition rootMeanSquaredError_rgb (reference : TexImage) (this : TexImage)
  : M float :=
  faceCount_ <- faceCount this ;;
  refCount_ <- faceCount reference ;;
  if negb (faceCount_ =? refCount_) then ret F32.FLT_MAX
  else
    x <- for_fold (seqZ 0 faceCount_)
           (fun f (s : Z * double) =>
              let '(totalCount, mse) := s in
              p <- Private_get (m this) ;;
              img <- Array_at (Private.imageArray p) f ;;
              q <- Private_get (m reference) ;;
              ref <- Array_at (Private.imageArray q) f ;;
              match img, ref with
              | Some _, Some _ =>
                  img <- Image_get img ;;
                  ref <- Image_get ref ;;
                  nvCheck (m_componentNum img =? 4) ;;
                  nvCheck (m_componentNum ref =? 4) ;;
                  let count := Int.to_uint (m_width img * m_height img) in
                  let totalCount := Int.to_int (totalCount + count) in
                  mode <- alphaMode reference ;;
                  mse <- in_bounds
                           (fold_range (seqZ 0 count)
                              (rgb_error_step
                                 (AlphaMode_eqb mode AlphaMode_Transparency)
                                 img ref count) mse) ;;
                  ret (inl (totalCount, mse))
              | _, _ => ret (inr F32.FLT_MAX)
              end) (0, F64.zero) ;;
    match x with
    | inr v => ret v
    | inl (totalCount, mse) =>
        ret (F32.of_double (F64.sqrt (F64.div mse (F64.of_Z totalCount))))
    end.

Definition alpha_error_step (img ref : FloatImage) (count : Z)
    (i : Z) (mse : double) : option double :=
  a0 ← Image.read img (Int.to_uint (4 * i + count * 3));
  a1 ← Image.read ref (Int.to_uint (4 * i + count * 3));
  let a := F32.sub a0 a1 in
  Some (F64.add mse (F64.of_float (F32.mul a a))).

(** [float TexImage::rootMeanSquaredError_alpha(const TexImage &
    reference) const] *)
Definition rootMeanSquaredError_alpha (reference : TexImage) (this : TexImage)
  : M float :=
  faceCount_ <- faceCount this ;;
  refCount_ <- faceCount reference ;;
  if negb (faceCount_ =? refCount_) then ret F32.FLT_MAX
  else
    x <- for_fold (seqZ 0 faceCount_)
           (fun f (s : Z * double) =>
              let '(totalCount, mse) := s in
              p <- Private_get (m this) ;;
              img <- Array_at (Private.imageArray p) f ;;
              q <- Private_get (m reference) ;;
              ref <- Array_at (Private.imageArray q) f ;;
              match img, ref with
              | Some _, Some _ =>
                  img <- Image_get img ;;
                  ref <- Image_get ref ;;
                  nvCheck (m_componentNum img =? 4) ;;
                  nvCheck (m_componentNum ref =? 4) ;;
                  let count := Int.to_uint (m_width img * m_height img) in
                  let totalCount := Int.to_int (totalCount + count) in
                  mse <- in_bounds
                           (fold_range (seqZ 0 count)
                              (alpha_error_step img ref count) mse) ;;
                  ret (inl (totalCount, mse))
              | _, _ => ret (inr F32.FLT_MAX)
              end) (0, F64.zero) ;;
    match x with
    | inr v => ret v
    | inl (totalCount, mse) =>
        ret (F32.of_double (F64.sqrt (F64.div mse (F64.of_Z totalCount))))
    end.

(** *** Channel copy *)

(** [memcpy(dst->channel(dstChannel), src->channel(srcChannel),
    w*h*sizeof(float))] *)
Definition copy_plane (dst : FloatImage) (dstChannel : Z) (src : FloatImage)
    (srcChannel : Z) (n : Z) : option FloatImage :=
  vals ← read_run (m_mem src) (Image.channel src (Int.to_uint srcChannel)) n;
  _ ← read_run (m_mem dst) (Image.channel dst (Int.to_uint dstChannel)) n;
  let off := Image.channel dst (Int.to_uint dstChannel) in
  Some (mkFloatImage (m_width dst) (m_height dst) (m_componentNum dst)
          (take (Z.to_nat off) (m_mem dst) ++ vals
             ++ drop (Z.to_nat (off + n)) (m_mem dst))).

(** The body of the loop over the faces in [copyChannel]: [Some false]
    when the function returns false at pair [i], [None] when the loop
    goes on. *)
Definition copyChannel_face (srcImage : TexImage) (srcChannel dstChannel : Z)
    (this : TexImage) (i : Z) : M (option bool) :=
  p <- Private_get (m this) ;;
  dst <- Array_at (Private.imageArray p) i ;;
  q <- Private_get (m srcImage) ;;
  src <- Array_at (Private.imageArray q) i ;;
  match dst, src with
  | Some _, Some _ =>
      s <- Image_get src ;;
      d <- Image_get dst ;;
      nvCheck (m_componentNum s =? 4) ;;
      nvCheck (m_componentNum d =? 4) ;;
      let w := m_width s in
      let h := m_height s in
      if negb (w =? m_width d) || negb (h =? m_height d)
      then ret (Some false)
      else
        d' <- in_bounds
                (copy_plane d dstChannel s srcChannel
                   (Int.to_uint (w * h))) ;;
        Image_put dst d' ;;
        ret None
  | _, _ => ret (Some false)
  end.

(** [bool TexImage::copyChannel(const TexImage & srcImage, int srcChannel,
    int dstChannel)] *)
Definition copyChannel (srcImage : TexImage) (srcChannel dstChannel : Z)
    (this : TexImage) : M (bool * TexImage) :=
  faceCount_ <- faceCount this ;;
  srcCount_ <- faceCount srcImage ;;
  if negb (faceCount_ =? srcCount_) then ret (false, this)
  else
    this <- detach this ;;
    p <- Private_get (m this) ;;
    x <- for_each (seqZ 0 (Z.of_nat (length (Private.imageArray p))))
           (copyChannel_face srcImage srcChannel dstChannel this) ;;
    match x with
    | Some r => ret (r, this)
    | None => ret (true, this)
    end.

(** [bool TexImage::copyChannel(const TexImage & srcImage, int srcChannel)] *)
Definition copyChannel_same (srcImage : TexImage) (srcChannel : Z)
    (this : TexImage) : M (bool * TexImage) :=
  copyChannel srcImage srcChannel srcChannel this.

(** [src[i]] for [src = img->channel(c)]. *)
Definition load_channel (c i : Z) (img : FloatImage) : option float :=
  Image.read img (Image.channel img c + i).

(** The pixel loop of [premultiplyAlpha] on one face: [r[i] *= a[i]],
    [g[i] *= a[i]], [b[i] *= a[i]] for [i] below [count]. *)
Definition premultiplied_pixels (f : FloatImage) : option FloatImage :=
  let count := Int.to_int (m_width f * m_height f) in
  fold_range (seqZ 0 count)
    (fun k f =>
       r ← load_channel 0 k f; a ← load_channel 3 k f;
       f ← store_channel 0 k (F32.mul r a) f;
       g ← load_channel 1 k f; a ← load_channel 3 k f;
       f ← store_channel 1 k (F32.mul g a) f;
       b ← load_channel 2 k f; a ← load_channel 3 k f;
       store_channel 2 k (F32.mul b a) f) f.

(** [void TexImage::premultiplyAlpha()] *)
Definition premultiplyAlpha (this : TexImage) : M TexImage :=
  this <- detach this ;;
  p <- Private_get (m this) ;;
  for_each (seqZ 0 (Z.of_nat (length (Private.imageArray p))))
    (fun i =>
       p <- Private_get (m this) ;;
       img <- Array_at (Private.imageArray p) i ;;
       match img with
       | None => ret (@None unit)
       | Some _ =>
           f <- Image_get img ;;
           f' <- in_bounds (premultiplied_pixels f) ;;
           Image_put img f' ;;
           ret None
       end) ;;
  ret this.

(** The four scales of [toGreyScale] after [redScale /= sum] and so on,
    with [sum = redScale + greenScale + blueScale + alphaScale]. *)
Definition normalized_scales (st : float * float * float * float)
  : float * float * float * float :=
  let '(redScale, greenScale, blueScale, alphaScale) := st in
  let sum := F32.add (F32.add (F32.add redScale greenScale) blueScale) alphaScale in
  (F32.div redScale sum, F32.div greenScale sum, F32.div blueScale sum,
   F32.div alphaScale sum).

(** The pixel loop of [toGreyScale] on one face, with the scales [st]:
    [a[i] = b[i] = g[i] = r[i] = grey]. *)
Definition greyscale_pixels (st : float * float * float * float) (f : FloatImage)
  : option FloatImage :=
  let '(redScale, greenScale, blueScale, alphaScale) := st in
  let count := Int.to_int (m_width f * m_height f) in
  fold_range (seqZ 0 count)
    (fun k f =>
       r ← load_channel 0 k f; g ← load_channel 1 k f;
       b ← load_channel 2 k f; a ← load_channel 3 k f;
       let grey :=
         F32.add
           (F32.add
              (F32.add (F32.mul r redScale) (F32.mul g greenScale))
              (F32.mul b blueScale))
           (F32.mul a alphaScale) in
       f ← store_channel 0 k grey f;
       f ← store_channel 1 k grey f;
       f ← store_channel 2 k grey f;
       store_channel 3 k grey f) f.

(** [void TexImage::toGreyScale(float redScale, float greenScale,
    float blueScale, float alphaScale)].  The scales are divided by their
    sum inside the loop over the faces, once for every populated face:
    they are the state of that loop. *)
Definition toGreyScale (redScale greenScale blueScale alphaScale : float)
    (this : TexImage) : M TexImage :=
  this <- detach this ;;
  p <- Private_get (m this) ;;
  for_fold (R := unit) (seqZ 0 (Z.of_nat (length (Private.imageArray p))))
    (fun i (st : float * float * float * float) =>
       p <- Private_get (m this) ;;
       img <- Array_at (Private.imageArray p) i ;;
       match img with
       | None => ret (inl st)
       | Some _ =>
           f <- Image_get img ;;
           let st := normalized_scales st in
           f' <- in_bounds (greyscale_pixels st f) ;;
           Image_put img f' ;;
           ret (inl st)
       end) (redScale, greenScale, blueScale, alphaScale) ;;
  ret this.

(** [img->pixel(x, y, c) = v] *)
Definition store_pixel (x y c : Z) (v : float) (img : FloatImage)
  : option FloatImage :=
  Image.write img (Image.index img x y c) v.

(** The two pixel loops of [setBorder] on one face: the top and bottom
    rows, then the left and right columns. *)
Definition border_pixels (r g b a : float) (f : FloatImage) : option FloatImage :=
  let w := Int.to_int (m_width f) in
  let h := Int.to_int (m_height f) in
  f ← fold_range (seqZ 0 w)
         (fun i f =>
            f ← store_pixel i 0 0 r f;
            f ← store_pixel i 0 1 g f;
            f ← store_pixel i 0 2 b f;
            f ← store_pixel i 0 3 a f;
            f ← store_pixel i (h - 1) 0 r f;
            f ← store_pixel i (h - 1) 1 g f;
            f ← store_pixel i (h - 1) 2 b f;
            store_pixel i (h - 1) 3 a f) f;
  fold_range (seqZ 0 h)
    (fun i f =>
       f ← store_pixel 0 i 0 r f;
       f ← store_pixel 0 i 1 g f;
       f ← store_pixel 0 i 2 b f;
       f ← store_pixel 0 i 3 a f;
       f ← store_pixel (w - 1) i 0 r f;
       f ← store_pixel (w - 1) i 1 g f;
       f ← store_pixel (w - 1) i 2 b f;
       store_pixel (w - 1) i 3 a f) f.

(** [void TexImage::setBorder(float r, float g, float b, float a)] *)
Definition setBorder (r g b a : float) (this : TexImage) : M TexImage :=
  this <- detach this ;;
  p <- Private_get (m this) ;;
  for_each (seqZ 0 (Z.of_nat (length (Private.imageArray p))))
    (fun i =>
       p <- Private_get (m this) ;;
       img <- Array_at (Private.imageArray p) i ;;
       match img with
       | None => ret (@None unit)
       | Some _ =>
           f <- Image_get img ;;
           f' <- in_bounds (border_pixels r g b a f) ;;
           Image_put img f' ;;
           ret None
       end) ;;
  ret this.

(** *** Resizing and coverage *)

(** Modelled from the spec: the [nvtt::ResizeFilter] and [nvtt::RoundMode]
    enumerations are declared in nvtt.h; the specification lists the
    "resize filter {Box, Triangle, Kaiser, Mitchell}" and the
    "power-of-two rounding policy {None, ToNext, ToNearest, ToPrevious}". *)
Inductive ResizeFilter :=
| ResizeFilter_Box
| ResizeFilter_Triangle
| ResizeFilter_Kaiser
| ResizeFilter_Mitchell.

Inductive RoundMode :=
| RoundMode_None
| RoundMode_ToNextPowerOfTwo
| RoundMode_ToNearestPowerOfTwo
| RoundMode_ToPreviousPowerOfTwo.

Definition RoundMode_eqb (a b : RoundMode) : bool :=
  match a, b with
  | RoundMode_None, RoundMode_None
  | RoundMode_ToNextPowerOfTwo, RoundMode_ToNextPowerOfTwo
  | RoundMode_ToNearestPowerOfTwo, RoundMode_ToNearestPowerOfTwo
  | RoundMode_ToPreviousPowerOfTwo, RoundMode_ToPreviousPowerOfTwo => true
  | _, _ => false
  end.

(** Modelled from the spec: [FloatImage::resize] and
    [FloatImage::alphaTestCoverage] belong to the float image, an
    "external collaborator ... treated as a capability, not reimplemented
    here".  This file calls [resize] on a face for its effect and uses no
    result of it, so what the call does to the heap is left open;
    [alphaTestCoverage] is a [const] method that returns a float. *)
Class FaceOperations := {
  Image_resize :
    Filter -> Z -> Z -> WrapMode -> option Z -> option ptr -> M unit;
  Image_alphaTestCoverage : float -> Z -> FloatImage -> float }.

(** The body of the loop over the faces in [resize]. *)
Definition resize_face `{FaceOperations} (w h : Z) (filter : ResizeFilter)
    (wrapMode : WrapMode) (this : TexImage) (i : Z) : M (option unit) :=
  p <- Private_get (m this) ;;
  img <- Array_at (Private.imageArray p) i ;;
  match img with
  | None => ret (@None unit)
  | Some _ =>
      p <- Private_get (m this) ;;
      face <- Array_at (Private.imageArray p) i ;;
      match Private.alphaMode p, filter with
      | AlphaMode_Transparency, ResizeFilter_Box =>
          Image_resize BoxFilter w h wrapMode (Some 3) face
      | AlphaMode_Transparency, ResizeFilter_Triangle =>
          Image_resize TriangleFilter w h wrapMode (Some 3) face
      | AlphaMode_Transparency, ResizeFilter_Kaiser =>
          Image_resize (KaiserFilter 3) w h wrapMode (Some 3) face
      | AlphaMode_Transparency, ResizeFilter_Mitchell =>
          Image_resize MitchellFilter w h wrapMode (Some 3) face
      | AlphaMode_None, ResizeFilter_Box =>
          Image_resize BoxFilter w h wrapMode None face
      | AlphaMode_None, ResizeFilter_Triangle =>
          Image_resize TriangleFilter w h wrapMode None face
      | AlphaMode_None, ResizeFilter_Kaiser =>
          Image_resize (KaiserFilter 3) w h wrapMode None face
      | AlphaMode_None, ResizeFilter_Mitchell =>
          Image_resize MitchellFilter w h wrapMode None face
      end ;;
      ret None
  end.

(** [void TexImage::resize(int w, int h, ResizeFilter filter)] *)
Definition resize `{FaceOperations} (w h : Z) (filter : ResizeFilter)
    (this : TexImage) : M TexImage :=
  p <- Private_get (m this) ;;
  same <- (if 0 <? Z.of_nat (length (Private.imageArray p)) then
             f <- Array_at (Private.imageArray p) 0 ;;
             img <- Image_get f ;;
             ret ((Int.to_uint w =? m_width img)
                  && (Int.to_uint h =? m_height img))
           else ret false) ;;
  if same then ret this
  else
    let h := if TextureType_eqb (Private.type p) TextureType_Cube then w else h in
    this <- detach this ;;
    p <- Private_get (m this) ;;
    let wrapMode := Private.wrapMode p in
    for_each (seqZ 0 (Z.of_nat (length (Private.imageArray p))))
      (resize_face w h filter wrapMode this) ;;
    ret this.

(** [void TexImage::resize(int maxExtent, RoundMode roundMode,
    ResizeFilter filter)].  Signed arithmetic wraps, as elsewhere in this
    model; the divisions [(w * maxExtent) / maxwh] are undefined when
    [maxwh] is 0, and the result is then [None]. *)
Definition resize_max `{FaceOperations} (maxExtent : Z) (roundMode : RoundMode)
    (filter : ResizeFilter) (this : TexImage) : M (option TexImage) :=
  p <- Private_get (m this) ;;
  if 0 <? Z.of_nat (length (Private.imageArray p)) then
    f <- Array_at (Private.imageArray p) 0 ;;
    img <- Image_get f ;;
    let w := Int.to_int (m_width img) in
    let h := Int.to_int (m_height img) in
    let maxExtent :=
      if negb (RoundMode_eqb roundMode RoundMode_None)
      then Int.to_int (previousPowerOfTwo (Int.to_uint maxExtent))
      else maxExtent in
    let maxwh := Z.max w h in
    if negb (maxExtent =? 0) && (maxExtent <? maxwh) && (maxwh =? 0)
    then ret None
    else
      let scale := negb (maxExtent =? 0) && (maxExtent <? maxwh) in
      let w := if scale
               then Z.max (Int.to_int (Int.to_int (w * maxExtent) ÷ maxwh)) 1
               else w in
      let h := if scale
               then Z.max (Int.to_int (Int.to_int (h * maxExtent) ÷ maxwh)) 1
               else h in
      let w' :=
        match roundMode with
        | RoundMode_ToNextPowerOfTwo =>
            Int.to_int (nextPowerOfTwo (Int.to_uint w))
        | RoundMode_ToNearestPowerOfTwo =>
            Int.to_int (nearestPowerOfTwo (Int.to_uint w))
        | RoundMode_ToPreviousPowerOfTwo =>
            Int.to_int (previousPowerOfTwo (Int.to_uint w))
        | RoundMode_None => w
        end in
      let h' :=
        match roundMode with
        | RoundMode_ToNextPowerOfTwo =>
            Int.to_int (nextPowerOfTwo (Int.to_uint h))
        | RoundMode_ToNearestPowerOfTwo =>
            Int.to_int (nearestPowerOfTwo (Int.to_uint h))
        | RoundMode_ToPreviousPowerOfTwo =>
            Int.to_int (previousPowerOfTwo (Int.to_uint h))
        | RoundMode_None => h
        end in
      p <- Private_get (m this) ;;
      let cube := TextureType_eqb (Private.type p) TextureType_Cube in
      let h'' := if cube then Z.max w' h' else h' in
      let w'' := if cube then h'' else w' in
      this <- resize w'' h'' filter this ;;
      ret (Some this)
  else ret (Some this).

(** [float TexImage::alphaTestCoverage(float alphaRef) const].  The loop
    state is [(imageCount, coverage)]. *)
Definition alphaTestCoverage `{FaceOperations} (alphaRef : float)
    (this : TexImage) : M float :=
  p <- Private_get (m this) ;;
  x <- for_fold (R := Empty_set)
         (seqZ 0 (Z.of_nat (length (Private.imageArray p))))
         (fun i (s : Z * float) =>
            p <- Private_get (m this) ;;
            img <- Array_at (Private.imageArray p) i ;;
            match img with
            | None => ret (inl s)
            | Some _ =>
                f <- Image_get img ;;
                ret (inl (Int.to_int (fst s + 1),
                          F32.add (snd s) (Image_alphaTestCoverage alphaRef 3 f)))
            end) (0, F32.zero) ;;
  match x with
  | inl (imageCount, coverage) =>
      if 0 <? imageCount then ret (F32.div coverage (F32.of_Z imageCount))
      else ret F32.zero
  | inr e => match e with end
  end.

(** [bool TexImage::save(const char * fileName) const].  [saved] is what
    [ImageIO::saveFloat(fileName, m->imageArray[0], 0, 4)] returns. *)
Definition save (saved : bool) (this : TexImage) : M bool :=
  p <- Private_get (m this) ;;
  if Z.of_nat (length (Private.imageArray p)) =? 0 then ret false
  else
    _ <- Array_at (Private.imageArray p) 0 ;;
    ret saved.

(** *** Transforms that call into nvimage and nvmath *)

(** [Vector4] and [Matrix] of nvmath, as far as this file builds them:
    four floats, and four rows. *)
Definition Vector4 : Type := float * float * float * float.
Definition Matrix : Type := Vector4 * Vector4 * Vector4 * Vector4.

(** Modelled from the spec: the float image is an "external collaborator
    ... supports resize, downsample, flip, per-channel transforms,
    channel swap.  Treated as a capability, not reimplemented here".
    Its methods [toLinear], [toGamma], [transform], [swizzle],
    [scaleBias], [scaleAlphaToCoverage], [packNormals] and [flip], and
    [nv::normalizeNormalMap], rewrite the image they are called on;
    [nv::createNormalMap] returns a new image.  [equal] and [lerp] are the
    helpers of nvmath.  What they compute is outside this file. *)
Class ImageMethods := {
  equal : float -> float -> bool;
  lerp : float -> float -> float -> float;
  Image_toLinear : Z -> Z -> float -> FloatImage -> FloatImage;
  Image_toGamma : Z -> Z -> float -> FloatImage -> FloatImage;
  Image_transform : Z -> Matrix -> Vector4 -> FloatImage -> FloatImage;
  Image_swizzle : Z -> Z -> Z -> Z -> Z -> FloatImage -> FloatImage;
  Image_scaleBias : Z -> Z -> float -> float -> FloatImage -> FloatImage;
  Image_scaleAlphaToCoverage : float -> float -> Z -> FloatImage -> FloatImage;
  Image_packNormals : Z -> FloatImage -> FloatImage;
  Image_flip : FloatImage -> FloatImage;
  createNormalMap : FloatImage -> WrapMode -> Vector4 -> FloatImage;
  normalizeNormalMap_image : FloatImage -> FloatImage }.

(** [face->method(...)] for a method that rewrites the image. *)
Definition Image_update (face : option ptr) (f : FloatImage -> FloatImage)
  : M unit :=
  img <- Image_get face ;; Image_put face (f img).

Section WithImageMethods.

Context `{ImageMethods}.

(** [void TexImage::toLinear(float gamma)] *)
Definition toLinear (gamma : float) (this : TexImage) : M TexImage :=
  if equal gamma F32.one then ret this
  else
    this <- detach this ;;
    p <- Private_get (m this) ;;
    for_each (seqZ 0 (Z.of_nat (length (Private.imageArray p))))
      (fun i =>
         p <- Private_get (m this) ;;
         img <- Array_at (Private.imageArray p) i ;;
         match img with
         | None => ret (@None unit)
         | Some _ =>
             p <- Private_get (m this) ;;
             face <- Array_at (Private.imageArray p) i ;;
             Image_update face (Image_toLinear 0 3 gamma) ;;
             ret None
         end) ;;
    ret this.

(** [void TexImage::toGamma(float gamma)] *)
Definition toGamma (gamma : float) (this : TexImage) : M TexImage :=
  if equal gamma F32.one then ret this
  else
    this <- detach this ;;
    p <- Private_get (m this) ;;
    for_each (seqZ 0 (Z.of_nat (length (Private.imageArray p))))
      (fun i =>
         p <- Private_get (m this) ;;
         img <- Array_at (Private.imageArray p) i ;;
         match img with
         | None => ret (@None unit)
         | Some _ =>
             p <- Private_get (m this) ;;
             face <- Array_at (Private.imageArray p) i ;;
             Image_update face (Image_toGamma 0 3 gamma) ;;
             ret None
         end) ;;
    ret this.

(** [void TexImage::transform(const float w0[4], const float w1[4],
    const float w2[4], const float w3[4], const float offset[4])] *)
Definition transform (w0 w1 w2 w3 offset : Vector4) (this : TexImage)
  : M TexImage :=
  this <- detach this ;;
  let xform : Matrix := (w0, w1, w2, w3) in
  let voffset : Vector4 := offset in
  p <- Private_get (m this) ;;
  for_each (seqZ 0 (Z.of_nat (length (Private.imageArray p))))
    (fun i =>
       p <- Private_get (m this) ;;
       img <- Array_at (Private.imageArray p) i ;;
       match img with
       | None => ret (@None unit)
       | Some _ =>
           p <- Private_get (m this) ;;
           face <- Array_at (Private.imageArray p) i ;;
           Image_update face (Image_transform 0 xform voffset) ;;
           ret None
       end) ;;
  ret this.

(** [void TexImage::swizzle(int r, int g, int b, int a)] *)
Definition swizzle (r g b a : Z) (this : TexImage) : M TexImage :=
  if (r =? 0) && (g =? 1) && (b =? 2) && (a =? 3) then ret this
  else
    this <- detach this ;;
    p <- Private_get (m this) ;;
    for_each (seqZ 0 (Z.of_nat (length (Private.imageArray p))))
      (fun i =>
         p <- Private_get (m this) ;;
         img <- Array_at (Private.imageArray p) i ;;
         match img with
         | None => ret (@None unit)
         | Some _ =>
             p <- Private_get (m this) ;;
             face <- Array_at (Private.imageArray p) i ;;
             Image_update face (Image_swizzle 0 r g b a) ;;
             ret None
         end) ;;
    ret this.

(** [void TexImage::scaleBias(int channel, float scale, float bias)] *)
Definition scaleBias (channel : Z) (scale bias : float) (this : TexImage)
  : M TexImage :=
  if equal scale F32.one && equal bias F32.zero then ret this
  else
    this <- detach this ;;
    p <- Private_get (m this) ;;
    for_each (seqZ 0 (Z.of_nat (length (Private.imageArray p))))
      (fun i =>
         p <- Private_get (m this) ;;
         img <- Array_at (Private.imageArray p) i ;;
         match img with
         | None => ret (@None unit)
         | Some _ =>
             p <- Private_get (m this) ;;
             face <- Array_at (Private.imageArray p) i ;;
             Image_update face (Image_scaleBias channel 1 scale bias) ;;
             ret None
         end) ;;
    ret this.

(** The constants [0.5f], [2.0f] and [-1.0f]. *)
Definition F32_half : float := F32.div F32.one (F32.of_Z 2).
Definition F32_two : float := F32.of_Z 2.
Definition F32_minus_one : float := F32.of_Z (-1).

(** [void TexImage::packNormal()] *)
Definition packNormal (this : TexImage) : M TexImage :=
  this <- scaleBias 0 F32_half F32_half this ;;
  this <- scaleBias 1 F32_half F32_half this ;;
  scaleBias 2 F32_half F32_half this.

(** [void TexImage::expandNormal()] *)
Definition expandNormal (this : TexImage) : M TexImage :=
  this <- scaleBias 0 F32_two F32_minus_one this ;;
  this <- scaleBias 1 F32_two F32_minus_one this ;;
  scaleBias 2 F32_two F32_minus_one this.

(** The pixel loop of [blend] on one face. *)
Definition blended_pixels (red green blue alpha t : float) (f : FloatImage)
  : option FloatImage :=
  let count := Int.to_int (m_width f * m_height f) in
  fold_range (seqZ 0 count)
    (fun k f =>
       r ← load_channel 0 k f;
       f ← store_channel 0 k (lerp r red t) f;
       g ← load_channel 1 k f;
       f ← store_channel 1 k (lerp g green t) f;
       b ← load_channel 2 k f;
       f ← store_channel 2 k (lerp b blue t) f;
       a ← load_channel 3 k f;
       store_channel 3 k (lerp a alpha t) f) f.

(** [void TexImage::blend(float red, float green, float blue, float alpha,
    float t)] *)
Definition blend (red green blue alpha t : float) (this : TexImage)
  : M TexImage :=
  this <- detach this ;;
  p <- Private_get (m this) ;;
  for_each (seqZ 0 (Z.of_nat (length (Private.imageArray p))))
    (fun i =>
       p <- Private_get (m this) ;;
       img <- Array_at (Private.imageArray p) i ;;
       match img with
       | None => ret (@None unit)
       | Some _ =>
           f <- Image_get img ;;
           f' <- in_bounds (blended_pixels red green blue alpha t f) ;;
           Image_put img f' ;;
           ret None
       end) ;;
  ret this.

(** [void TexImage::scaleAlphaToCoverage(float coverage, float alphaRef)] *)
Definition scaleAlphaToCoverage (coverage alphaRef : float) (this : TexImage)
  : M TexImage :=
  this <- detach this ;;
  p <- Private_get (m this) ;;
  for_each (seqZ 0 (Z.of_nat (length (Private.imageArray p))))
    (fun i =>
       p <- Private_get (m this) ;;
       img <- Array_at (Private.imageArray p) i ;;
       match img with
       | None => ret (@None unit)
       | Some _ =>
           Image_update img (Image_scaleAlphaToCoverage coverage alphaRef 3) ;;
           ret None
       end) ;;
  ret this.

(** [void TexImage::toNormalMap(float sm, float medium, float big,
    float large)] *)
Definition toNormalMap (sm medium big large : float) (this : TexImage)
  : M TexImage :=
  this <- detach this ;;
  let filterWeights : Vector4 := (sm, medium, big, large) in
  p <- Private_get (m this) ;;
  for_each (seqZ 0 (Z.of_nat (length (Private.imageArray p))))
    (fun i =>
       p <- Private_get (m this) ;;
       face <- Array_at (Private.imageArray p) i ;;
       match face with
       | None => ret (@None unit)
       | Some _ =>
           p <- Private_get (m this) ;;
           img <- Array_at (Private.imageArray p) i ;;
           src <- Image_get img ;;
           new <- Image_new
                    (createNormalMap src (Private.wrapMode p) filterWeights) ;;
           Private_modify (m this)
             (fun p => Private.set_imageArray
                         (<[Z.to_nat i := Some new]> (Private.imageArray p)) p) ;;
           p <- Private_get (m this) ;;
           packed <- Array_at (Private.imageArray p) i ;;
           Image_update packed (Image_packNormals 0) ;;
           Image_delete img ;;
           ret None
       end) ;;
  Private_modify (m this) (Private.set_isNormalMap true) ;;
  ret this.

(** [void TexImage::normalizeNormalMap()] *)
Definition normalizeNormalMap (this : TexImage) : M TexImage :=
  this <- detach this ;;
  p <- Private_get (m this) ;;
  for_each (seqZ 0 (Z.of_nat (length (Private.imageArray p))))
    (fun i =>
       p <- Private_get (m this) ;;
       img <- Array_at (Private.imageArray p) i ;;
       match img with
       | None => ret (@None unit)
       | Some _ =>
           p <- Private_get (m this) ;;
           face <- Array_at (Private.imageArray p) i ;;
           Image_update face normalizeNormalMap_image ;;
           ret None
       end) ;;
  ret this.

(** [void TexImage::flipVertically()] *)
Definition flipVertically (this : TexImage) : M TexImage :=
  this <- detach this ;;
  p <- Private_get (m this) ;;
  for_each (seqZ 0 (Z.of_nat (length (Private.imageArray p))))
    (fun i =>
       p <- Private_get (m this) ;;
       img <- Array_at (Private.imageArray p) i ;;
       match img with
       | None => ret (@None unit)
       | Some _ =>
           p <- Private_get (m this) ;;
           face <- Array_at (Private.imageArray p) i ;;
           Image_update face Image_flip ;;
           ret None
       end) ;;
  ret this.

End WithImageMethods.

(** ** What a handle shows

    The observable properties of a texture: the four scalar fields and,
    face by face, the image behind each slot. *)

Record Snapshot := mkSnapshot {
  s_type : TextureType;
  s_wrapMode : WrapMode;
  s_alphaMode : AlphaMode;
  s_isNormalMap : bool;
  s_faces : list (option FloatImage) }.

Definition face_at (h : Heap) (f : option ptr) : option (option FloatImage) :=
  match f with
  | None => Some None
  | Some a => match images h !! a with
              | Some (Some img) => Some (Some img)
              | _ => None
              end
  end.

Definition payload_at (h : Heap) (t : TexImage) : option Private.t :=
  a ← m t; o ← payloads h !! a; o.

(** [None] when the handle or one of its faces dangles. *)
Definition observe (t : TexImage) (h : Heap) : option Snapshot :=
  p ← payload_at h t;
  faces ← mapM (face_at h) (Private.imageArray p);
  Some (mkSnapshot (Private.type p) (Private.wrapMode p) (Private.alphaMode p)
          (Private.isNormalMap p) faces).


(** ** Vocabulary of the properties *)

(** [returns c h Q]: from heap [h] the computation [c] finishes without a
    fault, with a result and a heap that satisfy [Q]. *)
Definition returns {A} (c : M A) (h : Heap) (Q : A -> Heap -> Prop) : Prop :=
  exists a h', c h = Done (a, h') /\ Q a h'.

(** Every populated slot of [faces] points to a live image. *)
Definition faces_live (h : Heap) (faces : list (option ptr)) : Prop :=
  forall i x, faces !! i = Some (Some x) ->
              exists img, images h !! x = Some (Some img).

(** No image is in two slots. *)
Definition faces_distinct (faces : list (option ptr)) : Prop :=
  forall i j x, faces !! i = Some (Some x) -> faces !! j = Some (Some x) -> i = j.

(** [h'] has every live image of [h], unchanged. *)
Definition images_kept (h h' : Heap) : Prop :=
  forall x img, images h !! x = Some (Some img) ->
                images h' !! x = Some (Some img).

(** Slot by slot, [faces'] in [h'] holds what [faces] holds in [h]. *)
Definition same_faces (h : Heap) (faces : list (option ptr))
    (h' : Heap) (faces' : list (option ptr)) : Prop :=
  length faces' = length faces
  /\ (forall i, faces !! i = Some None -> faces' !! i = Some None)
  /\ (forall i x img,
         faces !! i = Some (Some x) -> images h !! x = Some (Some img) ->
         exists x', faces' !! i = Some (Some x')
                    /\ images h' !! x' = Some (Some img)).

(** The scalar fields of two payloads agree. *)
Definition same_fields (p q : Private.t) : Prop :=
  Private.type p = Private.type q
  /\ Private.wrapMode p = Private.wrapMode q
  /\ Private.alphaMode p = Private.alphaMode q
  /\ Private.isNormalMap p = Private.isNormalMap q.

(** Every live payload of [h] is live in [h'] with the same fields and
    faces (its holder count may differ). *)
Definition payloads_kept (h h' : Heap) : Prop :=
  forall b q, payloads h !! b = Some (Some q) ->
              exists q', payloads h' !! b = Some (Some q')
                         /\ same_fields q q'
                         /\ Private.imageArray q' = Private.imageArray q.

(** Extents of the image in slot 0. *)
Definition face0_extents (h : Heap) (p : Private.t) (w ht : Z) : Prop :=
  exists x img, Private.imageArray p !! 0%nat = Some (Some x)
                /\ images h !! x = Some (Some img)
                /\ m_width img = w /\ m_height img = ht.

(** What the mipmap loop keeps: the payload at [a] is live, it has [n]
    slots, and its populated slots hold distinct live images. *)
Definition owned (n : nat) (a : ptr) (h : Heap) (p : Private.t) : Prop :=
  payloads h !! a = Some (Some p)
  /\ length (Private.imageArray p) = n
  /\ faces_live h (Private.imageArray p)
  /\ faces_distinct (Private.imageArray p).

(** No image is in two slots of the payload of [t]. *)
Definition exclusive_faces (t : TexImage) (h : Heap) : bool :=
  match payload_at h t with
  | Some p => bool_decide (NoDup (omap id (Private.imageArray p)))
  | None => false
  end.

(** [triple P c Q]: when [c] starts in a heap with [P] and finishes, its
    result and heap satisfy [Q]. *)
Definition triple {A} (P : Heap -> Prop) (c : M A) (Q : A -> Heap -> Prop)
  : Prop :=
  forall h a h', c h = Done (a, h') -> P h -> Q a h'.

(** [c] keeps [P]. *)
Definition keeps {A} (P : Heap -> Prop) (c : M A) : Prop :=
  triple P c (fun _ => P).

(** The payload at [a] has type [t] and [n] face slots. *)
Definition payload_shape (a : ptr) (t : TextureType) (n : nat) (h : Heap) : Prop :=
  exists p, payloads h !! a = Some (Some p)
            /\ Private.type p = t /\ length (Private.imageArray p) = n.

(** Predicates that only look at the payloads. *)
Definition payloads_only (P : Heap -> Prop) : Prop :=
  forall h h', payloads h' = payloads h -> P h -> P h'.

(** The payload behind [this] has type [t] and [n] face slots. *)
Definition shape_of (t : TextureType) (n : nat) (this : TexImage) (h : Heap)
  : Prop :=
  exists a, m this = Some a /\ payload_shape a t n h.

(** Everything of an image but its samples. *)
Definition extents (img : FloatImage) : Z * Z * Z * nat :=
  (m_width img, m_height img, m_componentNum img, length (m_mem img)).

(** An image as the container holds it: four planes of width x height
    samples, with a sample count that fits a [uint]. *)
Definition Image_valid (img : FloatImage) : bool :=
  Image.sized img && (m_componentNum img =? 4)
  && (m_width img * m_height img <? 2 ^ 32).

Definition faces_valid (faces : list (option FloatImage)) : bool :=
  forallb (fun f => match f with Some img => Image_valid img | None => true end)
    faces.

(** A pair of faces that [copyChannel] rejects: one is absent, or width
    or height differ. *)
Definition pair_rejected (dst src : option FloatImage) : bool :=
  match dst, src with
  | Some d, Some s =>
      negb (m_width s =? m_width d) || negb (m_height s =? m_height d)
  | _, _ => true
  end.

(** Slot [f] of heap [h] is absent where [c] is, and otherwise holds an
    image with the extents of [c]. *)
Definition slot_like (h : Heap) (f : option ptr) (c : option FloatImage) : Prop :=
  match f, c with
  | None, None => True
  | Some x, Some img =>
      exists img', images h !! x = Some (Some img') /\ extents img' = extents img
  | _, _ => False
  end.

(** What the loop of [copyChannel] keeps: the payloads of destination
    and source, and in every slot an image with the extents it had at the
    start. *)
Definition copy_state (a1 asrc : ptr) (p1 q1 : Private.t)
    (dfaces sfaces : list (option FloatImage)) (h : Heap) : Prop :=
  payloads h !! a1 = Some (Some p1)
  /\ payloads h !! asrc = Some (Some q1)
  /\ Forall2 (slot_like h) (Private.imageArray p1) dfaces
  /\ Forall2 (slot_like h) (Private.imageArray q1) sfaces.

(** The formats the compressed overload decodes. *)
Definition supported_format (format : Format) : bool :=
  Format_eqb format Format_BC1 || Format_eqb format Format_BC2
  || Format_eqb format Format_BC3.

(** After [k] rounds of the loop that deletes the images of [faces] from
    heap [h]: the images of the first [k] slots are deleted and every
    other image is as it was. *)
Definition faces_deleted (h : Heap) (faces : list (option ptr)) (k : nat)
    (h' : Heap) : Prop :=
  payloads h' = payloads h
  /\ forall y, (y ∈ omap id (take k faces) -> images h' !! y = Some None)
               /\ (y ∉ omap id (take k faces) -> images h' !! y = images h !! y).

(** An image of four planes of [n] samples each. *)
Definition four_planes (n : Z) (f : FloatImage) : Prop :=
  m_componentNum f = 4 /\ m_width f * m_height f = n
  /\ Z.of_nat (length (m_mem f)) = 4 * n /\ 0 <= n.

(** After the rounds below [k] of a loop over the pixels that gives pixel
    [j] the samples [F j 0 .. F j 3]: the pixels below [k] are done and
    the others are as in [img0]. *)
Definition pixels_done (img0 : FloatImage) (n : Z) (F : Z -> Z -> float)
    (k : Z) (f : FloatImage) : Prop :=
  extents f = extents img0
  /\ forall c j, 0 <= c < 4 -> 0 <= j < n ->
       load_channel c j f
       = if j <? k then Some (F j c) else load_channel c j img0.

(** What a loop over the faces that rewrites every populated face with
    [G], threading a state from face to face, leaves of the contents
    [contents]; [None] when [G] fails on a face. *)
Fixpoint fold_faces {St} (G : St -> FloatImage -> option (St * FloatImage)) (st : St)
    (contents : list (option FloatImage))
  : option (St * list (option FloatImage)) :=
  match contents with
  | [] => Some (st, [])
  | None :: rest =>
      r ← fold_faces G st rest; Some (r.1, None :: r.2)
  | Some img :: rest =>
      x ← G st img;
      r ← fold_faces G x.1 rest;
      Some (r.1, Some x.2 :: r.2)
  end.

(** The same without a state: every populated face [img] becomes
    [G img]. *)
Definition faces_rewritten (G : FloatImage -> option FloatImage)
    (contents contents' : list (option FloatImage)) : Prop :=
  Forall2 (fun c c' => match c, c' with
                       | None, None => True
                       | Some img, Some img' => G img = Some img'
                       | _, _ => False
                       end) contents contents'.

(** Face by face, absent stays absent and a populated face [img] goes to
    an image [img'] with [R img img']. *)
Definition faces_related (R : FloatImage -> FloatImage -> Prop)
    (contents contents' : list (option FloatImage)) : Prop :=
  Forall2 (fun c c' => match c, c' with
                       | None, None => True
                       | Some img, Some img' => R img img'
                       | _, _ => False
                       end) contents contents'.

(** Faces as the pixel loops of the transforms expect them: four planes,
    and a pixel count that fits the [int] the loops count with. *)
Definition Image_ready (img : FloatImage) : bool :=
  Image_valid img && (m_width img * m_height img <? 2 ^ 31).

Definition faces_ready (faces : list (option FloatImage)) : bool :=
  forallb (fun f => match f with Some img => Image_ready img | None => true end)
    faces.

(** The colour of channel [c] in a constant image. *)
Definition channel_colour (red green blue alpha : float) (c : Z) : float :=
  if c =? 0 then red else if c =? 1 then green else if c =? 2 then blue
  else alpha.

(** Sample [k] of channel [c] of [img], or 0.0 outside the image. *)
Definition sample (img : FloatImage) (c k : Z) : float :=
  default F32.zero (load_channel c k img).

(** The grey value [toGreyScale] computes for pixel [k] of [img] with the
    scales [st]. *)
Definition grey_sample (st : float * float * float * float) (img : FloatImage)
    (k : Z) : float :=
  let '(redScale, greenScale, blueScale, alphaScale) := st in
  F32.add
    (F32.add
       (F32.add (F32.mul (sample img 0 k) redScale)
          (F32.mul (sample img 1 k) greenScale))
       (F32.mul (sample img 2 k) blueScale))
    (F32.mul (sample img 3 k) alphaScale).

(** The pixel loop of the error metrics on a pair of faces stays inside
    both buffers: it reads up to index [7 * count - 4]. *)
Definition scan_in_bounds (img ref : FloatImage) : Prop :=
  let count := Int.to_uint (m_width img * m_height img) in
  count = 0
  \/ (count < 2 ^ 29
      /\ 7 * count - 4 < Z.of_nat (length (m_mem img))
      /\ 7 * count - 4 < Z.of_nat (length (m_mem ref))).

(** The pair of faces [i] of two payloads, when both are populated: two
    live images of four channels. *)
Definition pair_comparable (h : Heap) (p q : Private.t) (i : nat) : Prop :=
  forall x y, Private.imageArray p !! i = Some (Some x) ->
              Private.imageArray q !! i = Some (Some y) ->
              exists img ref,
                images h !! x = Some (Some img)
                /\ images h !! y = Some (Some ref)
                /\ m_componentNum img = 4 /\ m_componentNum ref = 4.

(** The pixel loops stay inside the buffers on every populated pair of
    faces of two payloads. *)
Definition scans_in_bounds (h : Heap) (p q : Private.t) : Prop :=
  forall i x y img ref,
    Private.imageArray p !! i = Some (Some x) ->
    Private.imageArray q !! i = Some (Some y) ->
    images h !! x = Some (Some img) -> images h !! y = Some (Some ref) ->
    scan_in_bounds img ref.

(** The scales [toGreyScale] uses on face [i] of [faces], from the given
    scales [st]: they are divided by their sum once for face [i] and once
    for every populated face in front of it. *)
Definition scales_of_face (st : float * float * float * float)
    (faces : list (option FloatImage)) (i : nat)
  : float * float * float * float :=
  Nat.iter (S (length (omap id (take i faces)))) normalized_scales st.

(** The pixels of the outermost ring of a [w] x [h] image. *)
Definition on_border (w h x y : Z) : bool :=
  (x =? 0) || (x =? w - 1) || (y =? 0) || (y =? h - 1).

(** The samples [pixel(x, y, c)] for the four channels [c] that one
    round of the loops of [setBorder] stores. *)
Definition ring_touched (img : FloatImage) (x y x' y' : Z) (j : Z) : bool :=
  (j =? Image.index img x' y' 3) || ((j =? Image.index img x' y' 2)
  || ((j =? Image.index img x' y' 1) || ((j =? Image.index img x' y' 0)
  || ((j =? Image.index img x y 3) || ((j =? Image.index img x y 2)
  || ((j =? Image.index img x y 1) || (j =? Image.index img x y 0))))))).

(** A face with at least one pixel that the pixel loops can count. *)
Definition Image_drawable (img : FloatImage) : bool :=
  Image_ready img && (1 <=? m_width img) && (1 <=? m_height img).

Definition faces_drawable (faces : list (option FloatImage)) : bool :=
  forallb (fun f => match f with Some img => Image_drawable img | None => true end)
    faces.

(** The buffer of the planar overload that goes into channel [c]. *)
Definition planar_source {A} (r g b a : list A) (c : Z) : list A :=
  if c =? 0 then r else if c =? 1 then g else if c =? 2 then b else a.

(** The next-coarser level that [buildNextMipmap] puts in place of
    [src]: the alpha mode and the filter choose the downsampling. *)
Definition mipmap_of `{Collaborators} (mode : AlphaMode) (filter : MipmapFilter)
    (wm : WrapMode) (src : FloatImage) : FloatImage :=
  match mode, filter with
  | AlphaMode_Transparency, MipmapFilter_Box =>
      Image_downSample BoxFilter wm (Some 3) src
  | AlphaMode_Transparency, MipmapFilter_Triangle =>
      Image_downSample TriangleFilter wm (Some 3) src
  | AlphaMode_Transparency, MipmapFilter_Kaiser =>
      Image_downSample (KaiserFilter 3) wm (Some 3) src
  | AlphaMode_None, MipmapFilter_Box => Image_fastDownSample src
  | AlphaMode_None, MipmapFilter_Triangle =>
      Image_downSample TriangleFilter wm None src
  | AlphaMode_None, MipmapFilter_Kaiser =>
      Image_downSample (KaiserFilter 3) wm None src
  end.

(** The faces [cs] with [g] applied to the first [k] of them. *)
Definition first_mapped {A} (g : A -> A) (k : nat) (cs : list A) : list A :=
  map g (take k cs) ++ drop k cs.

(** After the rounds below [k] of the loop of [buildNextMipmap] over the
    payload at [a], started from the payload [p1] in the heap [h1] whose
    faces held [cs]: the first [k] faces hold their next level, the
    images they had are deleted, and nothing else has changed. *)
Definition mip_rounds `{Collaborators} (filter : MipmapFilter) (a : ptr)
    (h1 : Heap) (p1 : Private.t) (cs : list (option FloatImage)) (k : nat)
    (h : Heap) : Prop :=
  exists p,
    payloads h !! a = Some (Some p)
    /\ same_fields p1 p
    /\ Private.refCount p = Private.refCount p1
    /\ Forall2 (fun f c => face_at h f = Some c) (Private.imageArray p)
         (first_mapped
            (option_map (mipmap_of (Private.alphaMode p1) filter
                           (Private.wrapMode p1))) k cs)
    /\ faces_distinct (Private.imageArray p)
    /\ (forall i, (k <= i)%nat ->
          Private.imageArray p !! i = Private.imageArray p1 !! i)
    /\ (length (images h1) <= length (images h))%nat
    /\ (forall y, y ∈ omap id (take k (Private.imageArray p1)) ->
          images h !! y = Some None)
    /\ (forall y, (y < length (images h1))%nat ->
          y ∉ omap id (take k (Private.imageArray p1)) ->
          images h !! y = images h1 !! y)
    /\ (forall b, b <> a -> payloads h !! b = payloads h1 !! b).

(** [d'] is [d] with plane [dc] replaced by plane [sc] of [s]. *)
Definition plane_copied (dc sc : Z) (d s d' : FloatImage) : Prop :=
  extents d' = extents d
  /\ forall c k, 0 <= c < 4 -> 0 <= k < m_width d * m_height d ->
       load_channel c k d'
       = if c =? dc then load_channel sc k s else load_channel c k d.

(** Pairs of faces that [copyChannel] accepts: both populated, of four
    planes, with the same width and height. *)
Definition faces_paired (ds cs : list (option FloatImage)) : Prop :=
  Forall2 (fun d s => match d, s with
                      | Some d, Some s =>
                          Image_valid d = true /\ Image_valid s = true
                          /\ m_width s = m_width d /\ m_height s = m_height d
                      | _, _ => False
                      end) ds cs.

(** After the rounds below [k] of the loop of [copyChannel] over the
    slots [dfaces], started in heap [h] where the destination faces held
    [ds] and the source faces [cs]. *)
Definition copy_rounds (dc sc : Z) (h : Heap) (dfaces : list (option ptr))
    (ds cs : list (option FloatImage)) (k : nat) (hk : Heap) : Prop :=
  payloads hk = payloads h
  /\ (forall i x d s, (i < k)%nat ->
        dfaces !! i = Some (Some x) ->
        ds !! i = Some (Some d) -> cs !! i = Some (Some s) ->
        exists d', images hk !! x = Some (Some d') /\ plane_copied dc sc d s d')
  /\ (forall y, (forall i, (i < k)%nat -> dfaces !! i <> Some (Some y)) ->
        images hk !! y = images h !! y).

(** The bound [resize] with a maximal extent works with: the extent
    itself, or with a rounding policy the greatest power of two that is
    not above it. *)
Definition extent_bound (roundMode : RoundMode) (maxExtent : Z) : Z :=
  match roundMode with
  | RoundMode_None => maxExtent
  | _ => 2 ^ Z.log2 maxExtent
  end.

Definition power_of_two (v : Z) : Prop := exists j, 0 <= j /\ v = 2 ^ j.

(** The mean of the coverage of the images [imgs]. *)
Definition mean_coverage `{FaceOperations} (alphaRef : float)
    (imgs : list FloatImage) : float :=
  match imgs with
  | [] => F32.zero
  | _ =>
      F32.div
        (fold_left (fun c img => F32.add c (Image_alphaTestCoverage alphaRef 3 img))
           imgs F32.zero)
        (F32.of_Z (Z.of_nat (length imgs)))
  end.

(** ** Calls on a texture *)

(** The calls that change a texture or make a handle: copy construction
    and the member functions of this file that are not [const].
    [operator=] and [resize] with a maximal extent have a result of
    their own kind and are treated beside [perform]. *)
Inductive call :=
| Call_copy
| Call_setTextureType (type : TextureType)
| Call_setWrapMode (wrapMode : WrapMode)
| Call_setAlphaMode (alphaMode : AlphaMode)
| Call_setNormalMap (isNormalMap : bool)
| Call_load (loaded : option FloatImage)
| Call_setImage2D (format : InputFormat) (w h idx : Z) (data : Buffer)
| Call_setImage2D_planar (format : InputFormat) (w h idx : Z) (r g b a : Buffer)
| Call_setImage2D_compressed (format : Format) (decoder : Decoder)
    (w h idx : Z) (data : list Z)
| Call_buildNextMipmap (filter : MipmapFilter)
| Call_fill (red green blue alpha : float)
| Call_copyChannel (srcImage : TexImage) (srcChannel dstChannel : Z)
| Call_copyChannel_same (srcImage : TexImage) (srcChannel : Z)
| Call_resize (w h : Z) (filter : ResizeFilter)
| Call_toLinear (gamma : float)
| Call_toGamma (gamma : float)
| Call_transform (w0 w1 w2 w3 offset : Vector4)
| Call_swizzle (r g b a : Z)
| Call_scaleBias (channel : Z) (scale bias : float)
| Call_packNormal
| Call_expandNormal
| Call_blend (red green blue alpha t : float)
| Call_premultiplyAlpha
| Call_toGreyScale (redScale greenScale blueScale alphaScale : float)
| Call_setBorder (r g b a : float)
| Call_scaleAlphaToCoverage (coverage alphaRef : float)
| Call_toNormalMap (sm medium big large : float)
| Call_normalizeNormalMap
| Call_flipVertically.

(** The call on [this]; the result is the handle afterwards (for
    [Call_copy], the new handle). *)
Definition perform `{Collaborators} `{FaceOperations} `{ImageMethods}
    (c : call) (this : TexImage) : M TexImage :=
  match c with
  | Call_copy => TexImage_copy this
  | Call_setTextureType type => setTextureType type this
  | Call_setWrapMode wrapMode => setWrapMode wrapMode this
  | Call_setAlphaMode alphaMode => setAlphaMode alphaMode this
  | Call_setNormalMap isNormalMap => setNormalMap isNormalMap this
  | Call_load loaded => r <- load loaded this ;; ret (snd r)
  | Call_setImage2D format w h idx data =>
      r <- setImage2D format w h idx data this ;; ret (snd r)
  | Call_setImage2D_planar format w h idx r g b a =>
      r <- setImage2D_planar format w h idx r g b a this ;; ret (snd r)
  | Call_setImage2D_compressed format decoder w h idx data =>
      r <- setImage2D_compressed format decoder w h idx data this ;; ret (snd r)
  | Call_buildNextMipmap filter =>
      r <- buildNextMipmap filter this ;; ret (snd r)
  | Call_fill red green blue alpha => fill red green blue alpha this
  | Call_copyChannel srcImage srcChannel dstChannel =>
      r <- copyChannel srcImage srcChannel dstChannel this ;; ret (snd r)
  | Call_copyChannel_same srcImage srcChannel =>
      r <- copyChannel_same srcImage srcChannel this ;; ret (snd r)
  | Call_resize w h filter => resize w h filter this
  | Call_toLinear gamma => toLinear gamma this
  | Call_toGamma gamma => toGamma gamma this
  | Call_transform w0 w1 w2 w3 offset => transform w0 w1 w2 w3 offset this
  | Call_swizzle r g b a => swizzle r g b a this
  | Call_scaleBias channel scale bias => scaleBias channel scale bias this
  | Call_packNormal => packNormal this
  | Call_expandNormal => expandNormal this
  | Call_blend red green blue alpha t => blend red green blue alpha t this
  | Call_premultiplyAlpha => premultiplyAlpha this
  | Call_toGreyScale redScale greenScale blueScale alphaScale =>
      toGreyScale redScale greenScale blueScale alphaScale this
  | Call_setBorder r g b a => setBorder r g b a this
  | Call_scaleAlphaToCoverage coverage alphaRef =>
      scaleAlphaToCoverage coverage alphaRef this
  | Call_toNormalMap sm medium big large =>
      toNormalMap sm medium big large this
  | Call_normalizeNormalMap => normalizeNormalMap this
  | Call_flipVertically => flipVertically this
  end.

(** The [const] member functions of this file. *)
Inductive query :=
| Query_width
| Query_height
| Query_depth
| Query_faceCount
| Query_textureType
| Query_wrapMode
| Query_alphaMode
| Query_isNormalMap
| Query_countMipmaps
| Query_alphaTestCoverage (alphaRef : float)
| Query_save (saved : bool)
| Query_rootMeanSquaredError_rgb (reference : TexImage)
| Query_rootMeanSquaredError_alpha (reference : TexImage).

(** The query on [this], with its result dropped. *)
Definition ask `{FaceOperations} (q : query) (this : TexImage) : M unit :=
  match q with
  | Query_width => width this ;; ret tt
  | Query_height => height this ;; ret tt
  | Query_depth => depth this ;; ret tt
  | Query_faceCount => faceCount this ;; ret tt
  | Query_textureType => textureType this ;; ret tt
  | Query_wrapMode => wrapMode this ;; ret tt
  | Query_alphaMode => alphaMode this ;; ret tt
  | Query_isNormalMap => isNormalMap this ;; ret tt
  | Query_countMipmaps => TexImage_countMipmaps this ;; ret tt
  | Query_alphaTestCoverage alphaRef => alphaTestCoverage alphaRef this ;; ret tt
  | Query_save saved => save saved this ;; ret tt
  | Query_rootMeanSquaredError_rgb reference =>
      rootMeanSquaredError_rgb reference this ;; ret tt
  | Query_rootMeanSquaredError_alpha reference =>
      rootMeanSquaredError_alpha reference this ;; ret tt
  end.

(** Type and number of face slots after a call that finishes, from type
    [t] and [n] slots before. *)
Definition shape_after (c : call) (t : TextureType) (n : nat)
  : TextureType * nat :=
  match c with
  | Call_setTextureType type =>
      if TextureType_eqb t type then (t, n)
      else (type, Z.to_nat (faceCountOf type))
  | Call_load (Some _) => (t, 1%nat)
  | _ => (t, n)
  end.

(** The face-slot count of a payload is the one its type mandates. *)
Definition face_count_ok (p : Private.t) : Prop :=
  Z.of_nat (length (Private.imageArray p)) = faceCountOf (Private.type p).

(** ** Concrete textures and runs

    Small inputs on which the operations are evaluated below. *)

(** An image of [w] x [h] RGBA samples, all [v]. *)
Definition plain (w h : Z) (v : float) : FloatImage :=
  mkFloatImage w h 4 (replicate (Z.to_nat (4 * w * h)) v).

(** What a Plane texture with the default metadata and one face shows. *)
Definition shot (img : FloatImage) : Snapshot :=
  mkSnapshot TextureType_2D WrapMode_Mirror AlphaMode_None false [Some img].

Definition snapshot (t : TexImage) : M (option Snapshot) :=
  fun h => Done (observe t h, h).

(** A new texture that has loaded [img]. *)
Definition loaded_texture (img : FloatImage) : M TexImage :=
  t <- TexImage_new ;;
  r <- load (Some img) t ;;
  ret (snd r).

(** A new Cube texture whose face 0 is [img] and whose other five faces
    are absent. *)
Definition cube_with_face0 (img : FloatImage) : M TexImage :=
  t <- loaded_texture img ;;
  setTextureType TextureType_Cube t.

(** [A] loads a black pixel, [B] is copy-constructed from [A], and [B]
    ingests a white pixel.  Reported: what [A] shows before, the result
    of the call, and what [A] and [B] show after. *)
Definition copy_then_setImage2D
  : M (option Snapshot * bool * option Snapshot * option Snapshot) :=
  A <- loaded_texture (plain 1 1 F32.zero) ;;
  B <- TexImage_copy A ;;
  before <- snapshot A ;;
  r <- setImage2D InputFormat_RGBA_32F 1 1 0
         (FloatBuffer [F32.one; F32.one; F32.one; F32.one]) B ;;
  afterA <- snapshot A ;;
  afterB <- snapshot (snd r) ;;
  ret (before, fst r, afterA, afterB).

(** The same with a third handle [C] on the payload, so that the holder
    count is above 1 when [B] is written. *)
Definition copy_twice_then_setImage2D
  : M (option Snapshot * bool * option Snapshot * option Snapshot) :=
  A <- loaded_texture (plain 1 1 F32.zero) ;;
  B <- TexImage_copy A ;;
  C <- TexImage_copy A ;;
  before <- snapshot A ;;
  r <- setImage2D InputFormat_RGBA_32F 1 1 0
         (FloatBuffer [F32.one; F32.one; F32.one; F32.one]) B ;;
  afterA <- snapshot A ;;
  afterB <- snapshot (snd r) ;;
  ret (before, fst r, afterA, afterB).

(** [B] is copy-constructed from a new [A] and its wrap mode is set. *)
Definition copy_then_setWrapMode : M (option Snapshot * option Snapshot) :=
  A <- TexImage_new ;;
  B <- TexImage_copy A ;;
  before <- snapshot A ;;
  B <- setWrapMode WrapMode_Clamp B ;;
  afterA <- snapshot A ;;
  ret (before, afterA).

(** With three handles on the payload [fill] on [B] leaves [A] alone. *)
Definition copy_twice_then_fill
  : M (option Snapshot * option Snapshot * option Snapshot) :=
  A <- loaded_texture (plain 1 1 F32.zero) ;;
  B <- TexImage_copy A ;;
  C <- TexImage_copy A ;;
  before <- snapshot A ;;
  B <- fill F32.one F32.one F32.one F32.one B ;;
  afterA <- snapshot A ;;
  afterB <- snapshot B ;;
  ret (before, afterA, afterB).

(** One opaque red pixel, B G R A = 0 0 255 255, ingested into a 1 x 1
    face through the interleaved and through the planar overload. *)
Definition ingest_red_pixel : M (bool * option Snapshot) :=
  A <- loaded_texture (plain 1 1 F32.zero) ;;
  r <- setImage2D InputFormat_BGRA_8UB 1 1 0 (ByteBuffer [0; 0; 255; 255]) A ;;
  after <- snapshot (snd r) ;;
  ret (fst r, after).

Definition ingest_red_pixel_planar : M (bool * option Snapshot) :=
  A <- loaded_texture (plain 1 1 F32.zero) ;;
  r <- setImage2D_planar InputFormat_BGRA_8UB 1 1 0
         (ByteBuffer [255]) (ByteBuffer [0]) (ByteBuffer [0]) (ByteBuffer [255]) A ;;
  after <- snapshot (snd r) ;;
  ret (fst r, after).

(** A texture is made a Cube and then loads a file. *)
Definition cube_then_load : M (option Snapshot) :=
  A <- TexImage_new ;;
  A <- setTextureType TextureType_Cube A ;;
  r <- load (Some (plain 1 1 F32.zero)) A ;;
  snapshot (snd r).

(** Two Cube textures with only face 0 populated; the red channel of the
    white one is copied into the black one. *)
Definition copyChannel_into_cube
  : M (option Snapshot * bool * option Snapshot) :=
  D <- cube_with_face0 (plain 1 1 F32.zero) ;;
  S <- cube_with_face0 (plain 1 1 F32.one) ;;
  before <- snapshot D ;;
  r <- copyChannel S 0 0 D ;;
  after <- snapshot (snd r) ;;
  ret (before, fst r, after).

(** Two Plane textures of 2 x 1 pixels are compared. *)
Definition compare_2x1 : M float :=
  A <- loaded_texture (plain 2 1 F32.zero) ;;
  B <- loaded_texture (plain 2 1 F32.one) ;;
  rootMeanSquaredError_rgb B A.

(** Two Plane textures of one pixel are compared: black against a
    reference that is white and opaque. *)
Definition compare_1x1 (mode : AlphaMode) : M float :=
  A <- loaded_texture (plain 1 1 F32.zero) ;;
  B <- loaded_texture (plain 1 1 F32.one) ;;
  B <- setAlphaMode mode B ;;
  rootMeanSquaredError_rgb B A.

(** Two Cube textures whose face 0 has 2 x 1 pixels and whose face 1 is
    absent are compared. *)
Definition compare_cubes_rgb : M float :=
  A <- cube_with_face0 (plain 2 1 F32.zero) ;;
  B <- cube_with_face0 (plain 2 1 F32.zero) ;;
  rootMeanSquaredError_rgb B A.

Definition compare_cubes_alpha : M float :=
  A <- cube_with_face0 (plain 2 1 F32.zero) ;;
  B <- cube_with_face0 (plain 2 1 F32.zero) ;;
  rootMeanSquaredError_alpha B A.

(** Collaborators to run examples with: a decoder that repeats the colour
    spelled by the first four bytes of a block, and filters that sample
    the nearest source pixel. *)
Definition nearest_sample (img : FloatImage) (w h : Z) : list float :=
  c ← seqZ 0 (m_componentNum img);
  y ← seqZ 0 h;
  x ← seqZ 0 w;
  [default F32.zero
     (Image.read img
        (Image.index img (x * m_width img / w) (y * m_height img / h) c))].

#[export] Instance nearest_collaborators : Collaborators := {|
  decodeBlock := fun _ _ bytes =>
    replicate 16 (Color32.mk (default 0 (bytes !! 0%nat)) (default 0 (bytes !! 1%nat))
                    (default 0 (bytes !! 2%nat)) (default 0 (bytes !! 3%nat)));
  resample := fun _ _ _ img w h => nearest_sample img w h;
  boxDownSample := nearest_sample |}.

(** A Cube texture without populated faces is given a block of an
    unsupported format for face 0. *)
Definition compressed_into_absent_face : M (bool * TexImage) :=
  A <- TexImage_new ;;
  A <- setTextureType TextureType_Cube A ;;
  setImage2D_compressed Format_BC4 Decoder_Reference 4 4 0 [0; 0; 0; 0; 0; 0; 0; 0] A.

(** [n] successive calls of [buildNextMipmap]; the results in order. *)
Fixpoint buildMipmaps `{Collaborators} (n : nat) (filter : MipmapFilter)
    (this : TexImage) : M (list bool * TexImage) :=
  match n with
  | O => ret ([], this)
  | S n' =>
      r <- buildNextMipmap filter this ;;
      rs <- buildMipmaps n' filter (snd r) ;;
      ret (fst r :: fst rs, snd rs)
  end.


(** Two freshly constructed handles. *)
Definition two_new_textures : Heap :=
  mkHeap []
    [Some (Private.mk 0 TextureType_2D WrapMode_Mirror AlphaMode_None false []);
     Some (Private.mk 0 TextureType_2D WrapMode_Mirror AlphaMode_None false [])].


(** A Cube texture without populated faces. *)
Definition empty_cube : Heap :=
  mkHeap []
    [Some (Private.mk 0 TextureType_Cube WrapMode_Mirror AlphaMode_None false
             [None; None; None; None; None; None])].


(** A Plane texture that has loaded an image of 4 x 2 pixels. *)
Definition loaded_4x2 : Heap :=
  mkHeap [Some (plain 4 2 F32.one)]
    [Some (Private.mk 0 TextureType_2D WrapMode_Mirror AlphaMode_None false
             [Some 0%nat])].

(** A newly constructed texture. *)
Definition new_texture : Heap :=
  mkHeap []
    [Some (Private.mk 0 TextureType_2D WrapMode_Mirror AlphaMode_None false [])].

(** Two Cube textures with only face 0 populated, a black and a white
    pixel. *)
Definition two_cubes : Heap :=
  mkHeap [Some (plain 1 1 F32.zero); Some (plain 1 1 F32.one)]
    [Some (Private.mk 0 TextureType_Cube WrapMode_Mirror AlphaMode_None false
             [Some 0%nat; None; None; None; None; None]);
     Some (Private.mk 0 TextureType_Cube WrapMode_Mirror AlphaMode_None false
             [Some 1%nat; None; None; None; None; None])].

(** What a Cube texture with the default metadata and only face 0 shows. *)
Definition cube_shot (img : FloatImage) : Snapshot :=
  mkSnapshot TextureType_Cube WrapMode_Mirror AlphaMode_None false
    [Some img; None; None; None; None; None].

(** A Plane texture of one black pixel whose payload has [c] holders on
    record. *)
Definition held_texture (c : Z) : Heap :=
  mkHeap [Some (plain 1 1 F32.zero)]
    [Some (Private.mk c TextureType_2D WrapMode_Mirror AlphaMode_None false
             [Some 0%nat])].

(** A Plane texture that has loaded an image of 3 x 3 white pixels. *)
Definition loaded_3x3 : Heap :=
  mkHeap [Some (plain 3 3 F32.one)]
    [Some (Private.mk 0 TextureType_2D WrapMode_Mirror AlphaMode_None false
             [Some 0%nat])].

(** Two Plane textures of 2 x 1 pixels, a black and a white one. *)
Definition two_planes_2x1 : Heap :=
  mkHeap [Some (plain 2 1 F32.zero); Some (plain 2 1 F32.one)]
    [Some (Private.mk 1 TextureType_2D WrapMode_Mirror AlphaMode_None false
             [Some 0%nat]);
     Some (Private.mk 1 TextureType_2D WrapMode_Mirror AlphaMode_None false
             [Some 1%nat])].

(** Face operations to run examples with: a resize that leaves the heap
    alone, and a coverage of one half for every image. *)
#[export] Instance idle_face_operations : FaceOperations := {|
  Image_resize := fun _ _ _ _ _ _ => ret tt;
  Image_alphaTestCoverage := fun _ _ _ => F32.div F32.one (F32.of_Z 2) |}.

(** Image methods to run examples with: every method leaves the image as
    it is. *)
#[export] Instance idle_image_methods : ImageMethods := {|
  equal := fun _ _ => false;
  lerp := fun a _ _ => a;
  Image_toLinear := fun _ _ _ img => img;
  Image_toGamma := fun _ _ _ img => img;
  Image_transform := fun _ _ _ img => img;
  Image_swizzle := fun _ _ _ _ _ img => img;
  Image_scaleBias := fun _ _ _ _ img => img;
  Image_scaleAlphaToCoverage := fun _ _ _ img => img;
  Image_packNormals := fun _ img => img;
  Image_flip := fun img => img;
  createNormalMap := fun img _ _ => img;
  normalizeNormalMap_image := fun img => img |}.

(** * Properties *)

(** ** Enumerations *)

Lemma Format_eqb_eq a b : Format_eqb a b = true <-> a = b.
Proof. destruct a, b; simpl; split; intros H; congruence. Qed.

Lemma TextureType_eqb_eq a b : TextureType_eqb a b = true <-> a = b.
Proof. destruct a, b; simpl; split; congruence. Qed.


(** ** Machine integers *)

Lemma to_uint_range z : 0 <= Int.to_uint z < Int.modulus.
Proof. unfold Int.to_uint. apply Z.mod_pos_bound. reflexivity. Qed.

Lemma to_uint_small z : 0 <= z < 2 ^ 32 -> Int.to_uint z = z.
Proof. intros Hz. unfold Int.to_uint, Int.modulus. now apply Z.mod_small. Qed.

Lemma to_int_small z : 0 <= z < 2 ^ 31 -> Int.to_int z = z.
Proof.
  intros Hz. unfold Int.to_int. rewrite to_uint_small by lia.
  destruct (Z.ltb_spec z (2 ^ 31)); lia.
Qed.

(** ** Running heap computations *)

Lemma bind_Done {A B} (c : M A) (k : A -> M B) h a h' :
  c h = Done (a, h') -> bind c k h = k a h'.
Proof. intros Hc. unfold bind. now rewrite Hc. Qed.

Lemma bind_Fault {A B} (c : M A) (k : A -> M B) h f :
  c h = Fault f -> bind c k h = Fault f.
Proof. intros Hc. unfold bind. now rewrite Hc. Qed.

Lemma bind_Done_inv {A B} (c : M A) (k : A -> M B) h r :
  bind c k h = Done r -> exists a h', c h = Done (a, h') /\ k a h' = Done r.
Proof.
  unfold bind. destruct (c h) as [[a h'] | f]; [eauto | discriminate].
Qed.

(** [step H] runs the first command of the goal with the equation [H]. *)
Ltac step H := rewrite (bind_Done _ _ _ _ _ H).

(** [split_bind H as a h' Ha] turns a finished sequence into its first
    command and the rest. *)
Tactic Notation "split_bind" hyp(H) "as" ident(a) ident(h') ident(Ha) :=
  apply bind_Done_inv in H; destruct H as (a & h' & Ha & H).

Lemma Private_get_live h a p :
  payloads h !! a = Some (Some p) -> Private_get (Some a) h = Done (p, h).
Proof. intros Hp. unfold Private_get. now rewrite Hp. Qed.

Lemma Private_get_inv mp h p h' :
  Private_get mp h = Done (p, h') ->
  h' = h /\ exists a, mp = Some a /\ payloads h !! a = Some (Some p).
Proof.
  unfold Private_get. destruct mp as [a |]; [| discriminate].
  destruct (payloads h !! a) as [[q |] |] eqn:Hq; try discriminate.
  intros [= -> ->]. eauto.
Qed.

Lemma Private_put_live h a p0 p :
  payloads h !! a = Some (Some p0) ->
  Private_put (Some a) p h
  = Done (tt, mkHeap (images h) (<[a := Some p]> (payloads h))).
Proof. intros Hp. unfold Private_put. now rewrite Hp. Qed.

Lemma Private_modify_live h a p f :
  payloads h !! a = Some (Some p) ->
  Private_modify (Some a) f h
  = Done (tt, mkHeap (images h) (<[a := Some (f p)]> (payloads h))).
Proof.
  intros Hp. unfold Private_modify.
  step (Private_get_live h a p Hp). now apply Private_put_live with p.
Qed.

Lemma Private_modify_inv mp f h u h' :
  Private_modify mp f h = Done (u, h') ->
  exists a p, mp = Some a /\ payloads h !! a = Some (Some p)
              /\ h' = mkHeap (images h) (<[a := Some (f p)]> (payloads h)).
Proof.
  unfold Private_modify. intros Hr. split_bind Hr as p h1 Hget.
  apply Private_get_inv in Hget as (-> & a & -> & Hp).
  rewrite (Private_put_live _ _ _ _ Hp) in Hr. injection Hr as _ <-. eauto.
Qed.

Lemma Image_get_live h a img :
  images h !! a = Some (Some img) -> Image_get (Some a) h = Done (img, h).
Proof. intros Hi. unfold Image_get. now rewrite Hi. Qed.

Lemma Image_put_live h a img0 img :
  images h !! a = Some (Some img0) ->
  Image_put (Some a) img h
  = Done (tt, mkHeap (<[a := Some img]> (images h)) (payloads h)).
Proof. intros Hi. unfold Image_put. now rewrite Hi. Qed.

Lemma Image_delete_live h a img :
  images h !! a = Some (Some img) ->
  Image_delete (Some a) h
  = Done (tt, mkHeap (<[a := None]> (images h)) (payloads h)).
Proof. intros Hi. unfold Image_delete. now rewrite Hi. Qed.

Lemma Image_delete_payloads f h u h' :
  Image_delete f h = Done (u, h') -> payloads h' = payloads h.
Proof.
  unfold Image_delete. destruct f as [a |].
  - destruct (images h !! a) as [[img |] |]; try discriminate.
    now intros [= _ <-].
  - now intros [= _ <-].
Qed.

Lemma Array_at_lookup {A} (l : list A) (i : nat) x :
  l !! i = Some x -> forall h, Array_at l (Z.of_nat i) h = Done (x, h).
Proof.
  intros Hl h. unfold Array_at.
  destruct (Z.ltb_spec (Z.of_nat i) 0); [lia |].
  now rewrite Nat2Z.id, Hl.
Qed.

Lemma Array_at_inv {A} (l : list A) i h x h' :
  Array_at l i h = Done (x, h') ->
  h' = h /\ 0 <= i /\ l !! Z.to_nat i = Some x.
Proof.
  unfold Array_at. destruct (Z.ltb_spec i 0); [discriminate |].
  destruct (l !! Z.to_nat i) eqn:Hl; [| discriminate].
  intros [= -> ->]. auto.
Qed.

Lemma length_Array_resize {A} count (val : A) l :
  0 <= count -> Z.of_nat (length (Array_resize count val l)) = count.
Proof.
  intros Hc. unfold Array_resize.
  rewrite length_app, length_take, length_replicate. lia.
Qed.

Lemma payload_at_Some h t p :
  payload_at h t = Some p <->
  exists a, m t = Some a /\ payloads h !! a = Some (Some p).
Proof.
  unfold payload_at. destruct t as [[a |]]; simpl.
  - destruct (payloads h !! a) as [[q |] |] eqn:Hq; simpl; split.
    + intros [= ->]. eauto.
    + intros (b & [= <-] & Hb). congruence.
    + discriminate.
    + intros (b & [= <-] & Hb). congruence.
    + discriminate.
    + intros (b & [= <-] & Hb). congruence.
  - split; [discriminate | intros (b & Hb & _); discriminate].
Qed.

Lemma faceCount_live h t p :
  payload_at h t = Some p ->
  faceCount t h
  = Done (Int.to_int (Z.of_nat (length (Private.imageArray p))), h).
Proof.
  intros (a & Hm & Hp)%payload_at_Some. unfold faceCount. rewrite Hm.
  step (Private_get_live h a p Hp). reflexivity.
Qed.

(** ** Runs that finish *)

Lemma returns_ret {A} (a : A) h (Q : A -> Heap -> Prop) :
  Q a h -> returns (ret a) h Q.
Proof. intros HQ. exists a, h. auto. Qed.

Lemma returns_bind {A B} (c : M A) (k : A -> M B) h (Q : B -> Heap -> Prop) :
  returns c h (fun a h' => returns (k a) h' Q) -> returns (bind c k) h Q.
Proof.
  intros (a & h' & Hc & b & h'' & Hk & HQ).
  exists b, h''. split; [| exact HQ]. now step Hc.
Qed.

Lemma returns_weaken {A} (c : M A) h (P Q : A -> Heap -> Prop) :
  returns c h P -> (forall a h', P a h' -> Q a h') -> returns c h Q.
Proof. intros (a & h' & Hc & HP) HPQ. exists a, h'. auto. Qed.

Lemma returns_Done {A} (c : M A) h a h' (Q : A -> Heap -> Prop) :
  c h = Done (a, h') -> Q a h' -> returns c h Q.
Proof. intros Hc HQ. exists a, h'. auto. Qed.

Lemma for_each_nil {R} (body : Z -> M (option R)) h :
  for_each [] body h = Done (None, h).
Proof. reflexivity. Qed.

Lemma for_each_cons {R} i rest (body : Z -> M (option R)) h :
  for_each (i :: rest) body h
  = bind (body i)
      (fun r => match r with
                | Some v => ret (Some v)
                | None => for_each rest body
                end) h.
Proof.
  unfold for_each. simpl. unfold bind, ret.
  destruct (body i h) as [[[v |] h1] | f]; reflexivity.
Qed.

Lemma returns_for_each_cons {R} i rest (body : Z -> M (option R)) h
    (Q : option R -> Heap -> Prop) :
  returns (bind (body i)
             (fun r => match r with
                       | Some v => ret (Some v)
                       | None => for_each rest body
                       end)) h Q ->
  returns (for_each (i :: rest) body) h Q.
Proof. unfold returns. now rewrite for_each_cons. Qed.

Lemma seqZ_of_nat_S (k d : nat) :
  seqZ (Z.of_nat k) (Z.of_nat (S d))
  = Z.of_nat k :: seqZ (Z.of_nat (S k)) (Z.of_nat d).
Proof.
  rewrite seqZ_cons by lia. f_equal. f_equal; lia.
Qed.

(** ** Power-of-two rounding *)

Lemma nextPowerOfTwo_between v b :
  0 < b <= 31 -> 2 ^ Z.pred b < v <= 2 ^ b -> nextPowerOfTwo v = 2 ^ b.
Proof.
  intros Hb Hv. unfold nextPowerOfTwo.
  rewrite (Z.log2_up_unique v b) by lia.
  apply to_uint_small. split; [apply Z.pow_nonneg; lia |].
  apply Z.pow_lt_mono_r; lia.
Qed.

(** The comment of the source on [previousPowerOfTwo]. *)
Lemma previousPowerOfTwo_comment :
  map previousPowerOfTwo [1; 2; 3; 4; 5] = [1; 2; 2; 4; 4].
Proof. reflexivity. Qed.

(** C4, as stated, fails: on input 6 the helper does not return 4. *)
Lemma nearestPowerOfTwo_6_not_4 : nearestPowerOfTwo 6 <> 4.
Proof. vm_compute. discriminate. Qed.

(** C4, amended: the inputs at equal distance from the previous and the
    next power of two are the numbers 3 * 2^k, and on each of them
    [nearestPowerOfTwo] returns the next (larger) power of two, 2^(k+2);
    for 6 that is 8. *)
Theorem nearestPowerOfTwo_tie_goes_to_next (k : Z) :
  0 <= k <= 29 ->
  let v := 3 * 2 ^ k in
  nextPowerOfTwo v - v = v - previousPowerOfTwo v
  /\ nextPowerOfTwo v = 2 ^ (k + 2)
  /\ nearestPowerOfTwo v = 2 ^ (k + 2).
Proof.
  intros Hk v.
  assert (H2k : 0 < 2 ^ k) by (apply Z.pow_pos_nonneg; lia).
  assert (Hk1 : 2 ^ (k + 1) = 2 * 2 ^ k)
    by (rewrite Z.pow_add_r by lia; change (2 ^ 1) with 2; lia).
  assert (Hk2 : 2 ^ (k + 2) = 4 * 2 ^ k)
    by (rewrite Z.pow_add_r by lia; change (2 ^ 2) with 4; lia).
  assert (Hmax : 2 ^ k <= 2 ^ 29) by (apply Z.pow_le_mono_r; lia).
  assert (Hnext : nextPowerOfTwo v = 2 ^ (k + 2)).
  { apply nextPowerOfTwo_between; [lia |].
    replace (Z.pred (k + 2)) with (k + 1) by lia. subst v. lia. }
  assert (Hprev : previousPowerOfTwo v = 2 ^ (k + 1)).
  { unfold previousPowerOfTwo. rewrite to_uint_small by (subst v; lia).
    rewrite (nextPowerOfTwo_between (v + 1) (k + 2)).
    - rewrite Hk2, Hk1. replace (4 * 2 ^ k) with ((2 * 2 ^ k) * 2) by lia.
      apply Z.div_mul. lia.
    - lia.
    - replace (Z.pred (k + 2)) with (k + 1) by lia. subst v. lia. }
  split; [| split].
  - rewrite Hnext, Hprev. subst v. lia.
  - exact Hnext.
  - unfold nearestPowerOfTwo. fold v. rewrite Hnext, Hprev.
    rewrite !to_uint_small by (subst v; lia).
    destruct (Z.leb_spec (2 ^ (k + 2) - v) (v - 2 ^ (k + 1)));
      [reflexivity | subst v; lia].
Qed.

(** At [k = 1] the tie is 6, between 4 and 8. *)
Lemma nearestPowerOfTwo_tie_at_6 :
  0 <= 1 <= 29
  /\ (nextPowerOfTwo 6 - 6 = 6 - previousPowerOfTwo 6
      /\ nextPowerOfTwo 6 = 8 /\ nearestPowerOfTwo 6 = 8).
Proof.
  split; [lia |]. exact (nearestPowerOfTwo_tie_goes_to_next 1 ltac:(lia)).
Defined.

(** ** The payload a handle owns *)

Lemma faces_live_kept h h' faces :
  images_kept h h' -> faces_live h faces -> faces_live h' faces.
Proof.
  intros Hk Hl i x Hi. destruct (Hl i x Hi) as [img Himg]. eauto.
Qed.

Lemma faces_live_tail h f faces :
  faces_live h (f :: faces) -> faces_live h faces.
Proof. intros Hl i x Hi. exact (Hl (S i) x Hi). Qed.

Lemma images_kept_refl h : images_kept h h.
Proof. intros x img Hx. exact Hx. Qed.

Lemma images_kept_trans h1 h2 h3 :
  images_kept h1 h2 -> images_kept h2 h3 -> images_kept h1 h3.
Proof. intros H12 H23 x img Hx. auto. Qed.

Lemma images_kept_app h extra ps :
  images_kept h (mkHeap (images h ++ extra) ps).
Proof. intros x img Hx. simpl. now apply lookup_app_l_Some. Qed.

(** The copy constructor's loop over the faces: the clones are new,
    distinct, live images with the content of the originals, and nothing
    else changes. *)
Lemma clone_faces_returns faces : forall h,
  faces_live h faces ->
  returns (clone_faces faces) h
    (fun faces' h' =>
       payloads h' = payloads h
       /\ images_kept h h'
       /\ same_faces h faces h' faces'
       /\ faces_distinct faces'
       /\ (forall i x', faces' !! i = Some (Some x') ->
                        length (images h) <= x' < length (images h'))%nat
       /\ (length (images h) <= length (images h'))%nat).
Proof.
  induction faces as [| f faces IH]; intros h Hlive.
  - apply returns_ret.
    split; [reflexivity |]. split; [apply images_kept_refl |].
    split; [repeat split; intros; rewrite lookup_nil in *; discriminate |].
    split; [intros i j x Hi; rewrite lookup_nil in Hi; discriminate |].
    split; [intros i x Hi; rewrite lookup_nil in Hi; discriminate | lia].
  - destruct f as [a |]; simpl.
    + destruct (Hlive 0%nat a eq_refl) as [img Himg].
      apply returns_bind. eapply returns_Done; [exact (Image_get_live _ _ _ Himg) |].
      apply returns_bind. eapply returns_Done; [reflexivity |].
      set (h1 := mkHeap (images h ++ [Some img]) (payloads h)).
      assert (Hk1 : images_kept h h1) by apply images_kept_app.
      apply returns_bind.
      eapply returns_weaken;
        [apply (IH h1);
         exact (faces_live_kept _ _ _ Hk1 (faces_live_tail _ _ _ Hlive)) |].
      intros faces' h' (Hp & Hk & (Hlen & Hnull & Hpop) & Hdist & Hnew & Hgrow).
      assert (Hlen1 : length (images h1) = S (length (images h)))
        by (unfold h1; simpl; rewrite length_app; simpl; lia).
      assert (Hhead : images h1 !! length (images h) = Some (Some img))
        by (unfold h1; simpl; now rewrite lookup_app_r, Nat.sub_diag by lia).
      apply returns_ret.
      split; [exact Hp |].
      split; [exact (images_kept_trans _ _ _ Hk1 Hk) |].
      split; [split; [simpl; lia | split] |].
      * intros [| i] Hi; simpl in *; [discriminate | auto].
      * intros [| i] x ix Hi Hx; simpl in *.
        -- injection Hi as <-. exists (length (images h)).
           split; [reflexivity |]. apply Hk.
           replace ix with img by congruence. exact Hhead.
        -- apply (Hpop i x ix Hi). now apply Hk1.
      * split; [| split].
        -- intros [| i] [| j] x Hi Hj; simpl in Hi, Hj.
           ++ reflexivity.
           ++ injection Hi as <-. apply Hnew in Hj. lia.
           ++ injection Hj as <-. apply Hnew in Hi. lia.
           ++ f_equal. eauto.
        -- intros [| i] x Hi; simpl in Hi.
           ++ injection Hi as <-. lia.
           ++ apply Hnew in Hi. lia.
        -- lia.
    + apply returns_bind.
      eapply returns_weaken;
        [apply (IH h); exact (faces_live_tail _ _ _ Hlive) |].
      intros faces' h' (Hp & Hk & (Hlen & Hnull & Hpop) & Hdist & Hnew & Hgrow).
      apply returns_ret.
      split; [exact Hp |]. split; [exact Hk |].
      split; [split; [simpl; lia | split] |].
      * intros [| i] Hi; simpl in *; [reflexivity | auto].
      * intros [| i] x ix Hi Hx; simpl in *; [discriminate | eauto].
      * split; [| split].
        -- intros [| i] [| j] x Hi Hj; simpl in Hi, Hj; try discriminate.
           f_equal. eauto.
        -- intros [| i] x Hi; simpl in Hi; [discriminate | eauto].
        -- exact Hgrow.
Qed.

Lemma same_fields_refl p : same_fields p p.
Proof. repeat split. Qed.

Lemma same_faces_refl h faces : same_faces h faces h faces.
Proof. repeat split; eauto. Qed.

Lemma payloads_kept_refl h : payloads_kept h h.
Proof. intros b q Hq. exists q. repeat split; auto. Qed.

(** [detach] finishes on a live payload whose faces are live.  The
    handle then points to a payload with the same fields and, slot by
    slot, the same images; everything else on the heap is kept. *)
Lemma detach_returns h a p :
  payloads h !! a = Some (Some p) ->
  faces_live h (Private.imageArray p) ->
  returns (detach (Tex (Some a))) h
    (fun this' h' =>
       exists a' p',
         this' = Tex (Some a')
         /\ payloads h' !! a' = Some (Some p')
         /\ same_fields p p'
         /\ same_faces h (Private.imageArray p) h' (Private.imageArray p')
         /\ faces_live h' (Private.imageArray p')
         /\ (faces_distinct (Private.imageArray p) ->
             faces_distinct (Private.imageArray p'))
         /\ images_kept h h'
         /\ payloads_kept h h').
Proof.
  intros Hp Hlive. unfold detach. simpl.
  apply returns_bind. eapply returns_Done; [exact (Private_get_live _ _ _ Hp) |].
  destruct (Z.ltb_spec 1 (Private.refCount p)) as [Hshared | Hsole].
  - (* the payload is held more than once: release, clone, addRef *)
    apply returns_bind. unfold release.
    apply returns_bind. eapply returns_Done; [exact (Private_get_live _ _ _ Hp) |].
    destruct (Z.eqb_spec (Private.refCount p - 1) 0) as [Hz | _]; [lia |].
    eapply returns_Done; [exact (Private_put_live _ _ _ _ Hp) |].
    set (p1 := Private.set_refCount (Private.refCount p - 1) p).
    set (h1 := mkHeap (images h) (<[a := Some p1]> (payloads h))).
    assert (Ha : (a < length (payloads h))%nat) by (now apply lookup_lt_Some in Hp).
    assert (Hp1 : payloads h1 !! a = Some (Some p1))
      by (unfold h1; simpl; now apply list_lookup_insert_eq).
    apply returns_bind. eapply returns_Done; [exact (Private_get_live _ _ _ Hp1) |].
    apply returns_bind. unfold Private_copy.
    apply returns_bind.
    eapply returns_weaken; [apply (clone_faces_returns _ h1); exact Hlive |].
    intros faces' h2 (Hpay & Hkept & (Hlen & Hnull & Hpop) & Hdist & Hnew & _).
    change (Private.imageArray p1) with (Private.imageArray p) in Hlen, Hnull, Hpop.
    eapply returns_Done; [reflexivity |].
    set (q := Private.mk RefCounted_init (Private.type p1) (Private.wrapMode p1)
                (Private.alphaMode p1) (Private.isNormalMap p1) faces').
    set (h3 := mkHeap (images h2) (payloads h2 ++ [Some q])).
    assert (Hq : payloads h3 !! length (payloads h2) = Some (Some q))
      by (unfold h3; simpl; now rewrite lookup_app_r, Nat.sub_diag by lia).
    apply returns_bind. unfold addRef.
    eapply returns_Done; [exact (Private_modify_live _ _ _ _ Hq) |].
    apply returns_ret.
    exists (length (payloads h2)), (Private.set_refCount (Private.refCount q + 1) q).
    assert (Hlen2 : length (payloads h2) = length (payloads h))
      by (rewrite Hpay; unfold h1; simpl; apply length_insert).
    split; [reflexivity |]. split.
    { simpl. apply list_lookup_insert_eq. rewrite length_app. simpl. lia. }
    split; [repeat split |].
    split; [repeat split; simpl; auto |].
    split.
    { intros i x' Hi. simpl in Hi.
      assert (Hsome : exists f, Private.imageArray p !! i = Some f).
      { apply lookup_lt_is_Some. rewrite <- Hlen. now apply lookup_lt_Some in Hi. }
      destruct Hsome as [[x |] Hf].
      - destruct (Hlive i x Hf) as [img Himg].
        destruct (Hpop i x img Hf Himg) as (y & Hy & Hyimg).
        exists img. simpl. congruence.
      - apply Hnull in Hf. congruence. }
    split; [intros _; exact Hdist |].
    split; [exact Hkept |].
    intros b r Hb. simpl.
    assert (Hb' : (b < length (payloads h))%nat) by (now apply lookup_lt_Some in Hb).
    rewrite list_lookup_insert_ne by lia.
    rewrite lookup_app_l by lia. rewrite Hpay. unfold h1. simpl.
    destruct (decide (a = b)) as [<- | Hne].
    + rewrite list_lookup_insert_eq by lia. exists p1.
      replace r with p by congruence. repeat split.
    + rewrite list_lookup_insert_ne by exact Hne. exists r.
      split; [exact Hb |]. repeat split.
  - (* sole holder: nothing to do *)
    apply returns_ret. exists a, p.
    split; [reflexivity |]. split; [exact Hp |].
    split; [apply same_fields_refl |]. split; [apply same_faces_refl |].
    split; [exact Hlive |]. split; [auto |].
    split; [apply images_kept_refl | apply payloads_kept_refl].
Qed.

(** *** What a handle shows *)

Lemma NoDup_faces_distinct (faces : list (option ptr)) :
  NoDup (omap id faces) -> faces_distinct faces.
Proof.
  induction faces as [| f faces IH]; intros Hnd i j x Hi Hj.
  - rewrite lookup_nil in Hi. discriminate.
  - assert (Hin : forall k, faces !! k = Some (Some x) -> x ∈ omap id faces).
    { intros k Hk. apply list_elem_of_omap. exists (Some x).
      split; [| reflexivity]. eapply list_elem_of_lookup_2. exact Hk. }
    destruct f as [y |]; simpl in Hnd.
    + apply NoDup_cons in Hnd as [Hy Hnd].
      destruct i as [| i], j as [| j]; simpl in Hi, Hj.
      * reflexivity.
      * injection Hi as Heq. subst y. destruct Hy. exact (Hin _ Hj).
      * injection Hj as Heq. subst y. destruct Hy. exact (Hin _ Hi).
      * f_equal. exact (IH Hnd i j x Hi Hj).
    + destruct i as [| i], j as [| j]; simpl in Hi, Hj; try discriminate.
      f_equal. exact (IH Hnd i j x Hi Hj).
Qed.

Lemma observe_Some t h s :
  observe t h = Some s ->
  exists p, payload_at h t = Some p
            /\ Forall2 (fun f c => face_at h f = Some c)
                 (Private.imageArray p) (s_faces s)
            /\ s_type s = Private.type p.
Proof.
  unfold observe. intros Hobs.
  destruct (payload_at h t) as [p |]; [| discriminate]. simpl in Hobs.
  destruct (mapM (face_at h) (Private.imageArray p)) as [faces |] eqn:Hm;
    [| discriminate].
  injection Hobs as <-. exists p. split; [reflexivity |].
  split; [| reflexivity]. simpl. now apply mapM_Some.
Qed.

Lemma face_at_Some_Some h f img :
  face_at h f = Some (Some img) ->
  exists x, f = Some x /\ images h !! x = Some (Some img).
Proof.
  destruct f as [x |]; simpl; [| discriminate].
  destruct (images h !! x) as [[i |] |] eqn:Hx; try discriminate.
  intros [= ->]. eauto.
Qed.

Lemma observed_faces_live h faces contents :
  Forall2 (fun f c => face_at h f = Some c) faces contents ->
  faces_live h faces.
Proof.
  intros Hall i x Hi.
  destruct (Forall2_lookup_l _ _ _ _ _ Hall Hi) as (c & _ & Hc).
  simpl in Hc. destruct (images h !! x) as [[img |] |]; try discriminate. eauto.
Qed.

(** ** Copies and the original *)

(** C1 at a failing input: [B] is a copy of [A]; [B.setImage2D] succeeds
    and the pixel of [A] has changed from black to white. *)
Theorem setImage2D_on_copy_changes_original :
  exists h,
    copy_then_setImage2D empty_heap
    = Done ((Some (shot (plain 1 1 F32.zero)), true,
             Some (shot (plain 1 1 F32.one)),
             Some (shot (plain 1 1 F32.one))), h)
    /\ shot (plain 1 1 F32.zero) <> shot (plain 1 1 F32.one).
Proof. eexists. split; [vm_compute; reflexivity | discriminate]. Qed.

(** With a third holder [detach] does clone the payload of [B], but the
    pixels go through the pointer read before: [A] turns white and [B]
    stays black. *)
Lemma setImage2D_writes_through_stale_pointer :
  exists h,
    copy_twice_then_setImage2D empty_heap
    = Done ((Some (shot (plain 1 1 F32.zero)), true,
             Some (shot (plain 1 1 F32.one)),
             Some (shot (plain 1 1 F32.zero))), h).
Proof. eexists. vm_compute. reflexivity. Qed.

(** The constructor adds no holder: after one copy the count is 1,
    [detach] keeps the payload, and a setter on [B] shows through [A]. *)
Lemma setWrapMode_on_copy_changes_original :
  exists h,
    copy_then_setWrapMode empty_heap
    = Done ((Some (mkSnapshot TextureType_2D WrapMode_Mirror AlphaMode_None false []),
             Some (mkSnapshot TextureType_2D WrapMode_Clamp AlphaMode_None false [])),
            h).
Proof. eexists. vm_compute. reflexivity. Qed.

(** A transform that reads its faces after [detach], with the payload
    held more than once: [A] keeps its pixel. *)
Lemma fill_on_copy_keeps_original :
  exists h,
    copy_twice_then_fill empty_heap
    = Done ((Some (shot (plain 1 1 F32.zero)),
             Some (shot (plain 1 1 F32.zero)),
             Some (shot (plain 1 1 F32.one))), h).
Proof. eexists. vm_compute. reflexivity. Qed.

(** ** Ingestion *)

(** C2 at a failing input: the interleaved 8-bit overload stores the
    bytes of an opaque red pixel as 255.0, 0, 0, 255.0; byte 255 does not
    become 1.0. *)
Theorem setImage2D_BGRA_8UB_stores_bytes_unscaled :
  exists h,
    ingest_red_pixel empty_heap
    = Done ((true,
             Some (shot (mkFloatImage 1 1 4
                           [F32.of_Z 255; F32.zero; F32.zero; F32.of_Z 255]))), h)
    /\ F32.of_Z 255 <> F32.one.
Proof. eexists. split; [vm_compute; reflexivity | vm_compute; discriminate]. Qed.

(** The planar overload divides by 255 and stores 1.0 for the same
    pixel. *)
Lemma setImage2D_planar_scales_bytes :
  exists h,
    ingest_red_pixel_planar empty_heap
    = Done ((true,
             Some (shot (mkFloatImage 1 1 4
                           [F32.one; F32.zero; F32.zero; F32.one]))), h).
Proof. eexists. vm_compute. reflexivity. Qed.

(** Whatever the four bytes of the pixel are, the interleaved 8-bit
    overload stores each of them converted to [float] as it is, R, G, B,
    A in channels 0 to 3. *)
Lemma setImage2D_BGRA_8UB_one_pixel (b g r a : Z) :
  exists h,
    (A <- loaded_texture (plain 1 1 F32.zero) ;;
     x <- setImage2D InputFormat_BGRA_8UB 1 1 0 (ByteBuffer [b; g; r; a]) A ;;
     after <- snapshot (snd x) ;;
     ret (fst x, after)) empty_heap
    = Done ((true,
             Some (shot (mkFloatImage 1 1 4
                           [F32.of_Z r; F32.of_Z g; F32.of_Z b; F32.of_Z a]))), h).
Proof. eexists. reflexivity. Qed.

(** C9, as stated, fails for the compressed overload: at a valid index
    with an absent face and a format other than BC1, BC2, BC3 it returns
    false. *)
Lemma setImage2D_compressed_rejects_format_first :
  exists h,
    compressed_into_absent_face empty_heap = Done ((false, Tex (Some 0%nat)), h)
    /\ observe (Tex (Some 0%nat)) h
       = Some (mkSnapshot TextureType_Cube WrapMode_Mirror AlphaMode_None false
                 [None; None; None; None; None; None]).
Proof. eexists. split; vm_compute; reflexivity. Qed.

(** C9, amended: at a face index inside the face-slot range whose slot
    is absent, the interleaved and the planar overload dereference the
    absent face; the compressed overload first rejects a format other
    than BC1, BC2, BC3 by returning false, and dereferences the absent
    face for those three formats. *)
Theorem setImage2D_absent_face `{Collaborators} (this : TexImage) (h : Heap)
    (p : Private.t) (idx : Z) :
  payload_at h this = Some p ->
  0 <= idx < 2 ^ 31 ->
  Private.imageArray p !! Z.to_nat idx = Some None ->
  (forall format w ht data,
      setImage2D format w ht idx data this h = Fault NullPointer)
  /\ (forall format w ht r g b a,
         setImage2D_planar format w ht idx r g b a this h = Fault NullPointer)
  /\ (forall format decoder w ht data,
         setImage2D_compressed format decoder w ht idx data this h
         = if supported_format format then Fault NullPointer
           else Done ((false, this), h)).
Proof.
  intros (a & Hm & Hp)%payload_at_Some Hidx Hslot.
  assert (Hrange : (idx <? 0)
                   || (Z.of_nat (length (Private.imageArray p)) <=? Int.to_uint idx)
                   = false).
  { rewrite to_uint_small by lia. apply lookup_lt_Some in Hslot.
    destruct (Z.ltb_spec idx 0); [lia |].
    destruct (Z.leb_spec (Z.of_nat (length (Private.imageArray p))) idx);
      [lia | reflexivity]. }
  assert (Hat : forall h0, Array_at (Private.imageArray p) idx h0 = Done (None, h0)).
  { intros h0. rewrite <- (Z2Nat.id idx) by lia. now apply Array_at_lookup. }
  repeat split.
  - intros format w ht data. unfold setImage2D. rewrite Hm.
    step (Private_get_live h a p Hp). rewrite Hrange. step (Hat h).
    reflexivity.
  - intros format w ht r g b a0. unfold setImage2D_planar. rewrite Hm.
    step (Private_get_live h a p Hp). rewrite Hrange. step (Hat h).
    reflexivity.
  - intros format decoder w ht data. unfold setImage2D_compressed. rewrite Hm.
    step (Private_get_live h a p Hp). rewrite Hrange.
    unfold supported_format.
    destruct (Format_eqb format Format_BC1), (Format_eqb format Format_BC2),
      (Format_eqb format Format_BC3); simpl; try reflexivity;
      step (Hat h); reflexivity.
Qed.

(** The heap [empty_cube] is what making a new texture a Cube leaves. *)
Lemma empty_cube_constructed :
  (A <- TexImage_new ;; setTextureType TextureType_Cube A) empty_heap
  = Done (Tex (Some 0%nat), empty_cube).
Proof. reflexivity. Qed.

(** Face 3 of a Cube without populated faces. *)
Lemma setImage2D_absent_face_of_empty_cube :
  (forall format w ht data,
      setImage2D format w ht 3 data (Tex (Some 0%nat)) empty_cube
      = Fault NullPointer)
  /\ (forall format w ht r g b a,
         setImage2D_planar format w ht 3 r g b a (Tex (Some 0%nat)) empty_cube
         = Fault NullPointer)
  /\ (forall format decoder w ht data,
         setImage2D_compressed format decoder w ht 3 data (Tex (Some 0%nat))
           empty_cube
         = if supported_format format then Fault NullPointer
           else Done ((false, Tex (Some 0%nat)), empty_cube)).
Proof.
  apply (setImage2D_absent_face (Tex (Some 0%nat)) empty_cube _ 3 eq_refl);
    [lia | reflexivity].
Defined.

(** ** Face count and texture type

    The properties of this part are about runs that may stop at a fault:
    they say what holds if a run finishes. *)

Lemma triple_ret {A} (P : Heap -> Prop) (a : A) (Q : A -> Heap -> Prop) :
  (forall h, P h -> Q a h) -> triple P (ret a) Q.
Proof. intros HPQ h b h' [= <- <-]. auto. Qed.

Lemma triple_raise {A} (P : Heap -> Prop) f (Q : A -> Heap -> Prop) :
  triple P (raise f) Q.
Proof. intros h b h' Hr. discriminate. Qed.

Lemma triple_bind {A B} (P : Heap -> Prop) (R : A -> Heap -> Prop)
    (c : M A) (k : A -> M B) (Q : B -> Heap -> Prop) :
  triple P c R -> (forall a, triple (R a) (k a) Q) -> triple P (bind c k) Q.
Proof.
  intros Hc Hk h b h' Hrun HP. split_bind Hrun as a h1 Hfirst.
  exact (Hk a h1 b h' Hrun (Hc h a h1 Hfirst HP)).
Qed.

Lemma keeps_then {A B} (P : Heap -> Prop) (c : M A) (k : A -> M B)
    (Q : B -> Heap -> Prop) :
  keeps P c -> (forall a, triple P (k a) Q) -> triple P (bind c k) Q.
Proof. intros Hc Hk. exact (triple_bind P (fun _ => P) c k Q Hc Hk). Qed.

Lemma keeps_pure {A} (P : Heap -> Prop) (c : M A) :
  (forall h a h', c h = Done (a, h') -> h' = h) -> keeps P c.
Proof. intros Hc h a h' Hrun HP. now rewrite (Hc h a h' Hrun). Qed.

Lemma keeps_for_fold {S R} (P : Heap -> Prop) idxs (body : Z -> S -> M (S + R)) :
  (forall i s, keeps P (body i s)) -> forall s, keeps P (for_fold idxs body s).
Proof.
  intros Hbody. induction idxs as [| i rest IH]; intros s; simpl.
  - apply triple_ret. auto.
  - apply keeps_then; [apply Hbody |]. intros [s' | r].
    + apply IH.
    + apply triple_ret. auto.
Qed.

Lemma keeps_for_each {R} (P : Heap -> Prop) idxs (body : Z -> M (option R)) :
  (forall i, keeps P (body i)) -> keeps P (for_each idxs body).
Proof.
  intros Hbody. unfold for_each. apply keeps_then.
  - apply keeps_for_fold. intros i _. apply keeps_then; [apply Hbody |].
    intros r. apply triple_ret. auto.
  - intros x. apply triple_ret. auto.
Qed.

Lemma keeps_Private_get P mp : keeps P (Private_get mp).
Proof. apply keeps_pure. intros h p h' Hr. now apply Private_get_inv in Hr. Qed.

Lemma keeps_Array_at {A} P (l : list A) i : keeps P (Array_at l i).
Proof. apply keeps_pure. intros h x h' Hr. now apply Array_at_inv in Hr. Qed.

Lemma keeps_in_bounds {A} P (o : option A) : keeps P (in_bounds o).
Proof.
  apply keeps_pure. intros h x h'. destruct o; simpl; [| discriminate].
  now intros [= _ <-].
Qed.

Lemma keeps_nvCheck P cond : keeps P (nvCheck cond).
Proof.
  apply keeps_pure. intros h x h'. destruct cond; simpl; [| discriminate].
  now intros [= _ <-].
Qed.

Lemma keeps_Image_get P f : keeps P (Image_get f).
Proof.
  apply keeps_pure. intros h x h'. unfold Image_get.
  destruct f as [a |]; [| discriminate].
  destruct (images h !! a) as [[img |] |]; try discriminate. now intros [= _ <-].
Qed.

Lemma payload_shape_payloads_only a t n : payloads_only (payload_shape a t n).
Proof. intros h h' Heq (p & Hp & Hrest). exists p. now rewrite Heq. Qed.

Lemma same_payloads_payloads_only ps : payloads_only (fun h => payloads h = ps).
Proof. intros h h' Heq HP. congruence. Qed.

(** The image primitives leave the payloads alone. *)
Lemma keeps_Image_new P img : payloads_only P -> keeps P (Image_new img).
Proof. intros HP h x h' [= _ <-]. now apply HP. Qed.

Lemma keeps_Image_put P f img : payloads_only P -> keeps P (Image_put f img).
Proof.
  intros HP h x h'. unfold Image_put. destruct f as [b |]; [| discriminate].
  destruct (images h !! b) as [[i |] |]; try discriminate.
  intros [= _ <-]. now apply HP.
Qed.

Lemma keeps_Image_delete P f : payloads_only P -> keeps P (Image_delete f).
Proof.
  intros HP h x h' Hr. apply HP. exact (Image_delete_payloads _ _ _ _ Hr).
Qed.

(** A field update that keeps type and slot count keeps the shape. *)
Lemma keeps_shape_Private_modify a t n f :
  (forall p, Private.type (f p) = Private.type p
             /\ length (Private.imageArray (f p)) = length (Private.imageArray p)) ->
  keeps (payload_shape a t n) (Private_modify (Some a) f).
Proof.
  intros Hf h x h' Hr (p & Hp & Ht & Hn).
  apply Private_modify_inv in Hr as (b & q & [= <-] & Hq & ->).
  exists (f q). simpl.
  split; [apply list_lookup_insert_eq; now apply lookup_lt_Some in Hq |].
  destruct (Hf q) as [Hft Hfn]. replace q with p in * by congruence.
  split; congruence.
Qed.

(** Syntax-directed proof that a command keeps the shape of the payload
    at an address; it stops in front of [detach]. *)
Ltac keeps_shape_step :=
  lazymatch goal with
  | |- keeps _ _ => unfold keeps
  | |- triple _ (bind (detach _) _) _ => fail
  | |- triple _ (bind _ _) _ => apply keeps_then; [| intros ?]
  | |- triple _ (ret _) _ =>
      apply triple_ret; intros ? ?;
      first [ assumption | eexists; split; [reflexivity | eassumption] ]
  | |- triple _ (raise _) _ => apply triple_raise
  | |- triple _ (Private_get _) _ => apply keeps_Private_get
  | |- triple _ (Array_at _ _) _ => apply keeps_Array_at
  | |- triple _ (in_bounds _) _ => apply keeps_in_bounds
  | |- triple _ (nvCheck _) _ => apply keeps_nvCheck
  | |- triple _ (Image_get _) _ => apply keeps_Image_get
  | |- triple _ (Image_new _) _ =>
      apply keeps_Image_new; apply payload_shape_payloads_only
  | |- triple _ (Image_put _ _) _ =>
      apply keeps_Image_put; apply payload_shape_payloads_only
  | |- triple _ (Image_delete _) _ =>
      apply keeps_Image_delete; apply payload_shape_payloads_only
  | |- triple _ (Private_modify _ _) _ =>
      apply keeps_shape_Private_modify; intros ?; simpl;
      split; [reflexivity | try reflexivity; apply length_insert]
  | |- triple _ (for_each _ _) _ => apply keeps_for_each; intros ?
  | |- triple _ (for_fold _ _ _) _ => apply keeps_for_fold; intros ? ?
  | |- triple _ (if ?c then _ else _) _ => destruct c
  | |- triple _ (match ?x with _ => _ end) _ => destruct x
  end.

Ltac keeps_shape := cbv zeta; unfold keeps; repeat keeps_shape_step.

Lemma clone_faces_inv faces : forall h faces' h',
  clone_faces faces h = Done (faces', h') ->
  length faces' = length faces /\ payloads h' = payloads h.
Proof.
  induction faces as [| [a |] faces IH]; intros h faces' h' Hr; simpl in Hr.
  - injection Hr as <- <-. auto.
  - split_bind Hr as img h1 Hget. split_bind Hr as a' h2 Hnew.
    split_bind Hr as rest h3 Hrest. injection Hr as <- <-.
    destruct (IH _ _ _ Hrest) as [Hlen Hpay].
    unfold Image_get in Hget.
    destruct (images h !! a) as [[i |] |]; try discriminate.
    injection Hget as <- <-. injection Hnew as <- <-.
    simpl. split; [congruence | exact Hpay].
  - split_bind Hr as rest h1 Hrest. injection Hr as <- <-.
    destruct (IH _ _ _ Hrest) as [Hlen Hpay].
    simpl. split; [congruence | exact Hpay].
Qed.

(** [detach] hands the shape of the payload on to the payload it leaves
    the handle with. *)
Lemma detach_shape this h this' h' a t n :
  detach this h = Done (this', h') ->
  m this = Some a -> payload_shape a t n h ->
  exists a', m this' = Some a' /\ payload_shape a' t n h'.
Proof.
  intros Hr Hm (p & Hp & Ht & Hn). unfold detach in Hr. rewrite Hm in Hr.
  rewrite (bind_Done _ _ _ _ _ (Private_get_live _ _ _ Hp)) in Hr.
  destruct (Z.ltb_spec 1 (Private.refCount p)) as [Hshared | Hsole].
  - split_bind Hr as u h1 Hrel.
    unfold release in Hrel.
    rewrite (bind_Done _ _ _ _ _ (Private_get_live _ _ _ Hp)) in Hrel.
    destruct (Z.eqb_spec (Private.refCount p - 1) 0) as [Hz | _]; [lia |].
    rewrite (Private_put_live _ _ _ _ Hp) in Hrel. injection Hrel as _ <-.
    split_bind Hr as p1 h2 Hget.
    apply Private_get_inv in Hget as (-> & b & [= <-] & Hp1). simpl in Hp1.
    rewrite list_lookup_insert_eq in Hp1 by (now apply lookup_lt_Some in Hp).
    injection Hp1 as <-.
    split_bind Hr as a' h3 Hcopy. unfold Private_copy in Hcopy.
    split_bind Hcopy as faces' h4 Hclone.
    apply clone_faces_inv in Hclone as [Hlen Hpay].
    injection Hcopy as <- <-.
    split_bind Hr as u' h5 Hadd.
    apply Private_modify_inv in Hadd as (b & q & [= <-] & Hq & ->).
    injection Hr as <- <-. simpl in *.
    rewrite lookup_app_r, Nat.sub_diag in Hq by lia. injection Hq as <-.
    exists (length (payloads h4)). split; [reflexivity |].
    eexists. split.
    + simpl. apply list_lookup_insert_eq. rewrite length_app. simpl. lia.
    + simpl. split; congruence.
  - injection Hr as <- <-. exists a. split; [exact Hm |]. exists p. auto.
Qed.

Lemma detach_triple t n this :
  triple (shape_of t n this) (detach this) (fun this' h' => shape_of t n this' h').
Proof.
  intros h this' h' Hr (a & Hm & Hshape).
  exact (detach_shape _ _ _ _ _ _ _ Hr Hm Hshape).
Qed.

Lemma triple_shape_of {A} t n this (c : M A) (Q : A -> Heap -> Prop) :
  (forall a, this = Tex (Some a) -> triple (payload_shape a t n) c Q) ->
  triple (shape_of t n this) c Q.
Proof.
  intros Hc h x h' Hr (a & Hm & Hshape). destruct this as [mthis].
  simpl in Hm. subst mthis. exact (Hc a eq_refl h x h' Hr Hshape).
Qed.

(** After [detach] the rest of a mutator works on the payload at one
    address. *)
Ltac after_detach_at a :=
  refine (triple_bind _ _ _ _ _ (detach_triple _ _ _) _);
  intros ?; apply triple_shape_of; intros a ->; simpl m.

Ltac after_detach :=
  refine (triple_bind _ _ _ _ _ (detach_triple _ _ _) _);
  intros ?; apply triple_shape_of; intros ? ->; simpl m.

Section ShapeKept.

Context `{Collaborators} `{FaceOperations} `{ImageMethods}.
Variables (t : TextureType) (n : nat).

(** [FloatImage::resize] has no access to the payloads. *)
Hypothesis Hresize : forall filter w ht wm alpha face h u h',
  Image_resize filter w ht wm alpha face h = Done (u, h') ->
  payloads h' = payloads h.

Lemma keeps_Image_resize P filter w ht wm alpha face :
  payloads_only P -> keeps P (Image_resize filter w ht wm alpha face).
Proof. intros HP h u h' Hr. apply HP. exact (Hresize _ _ _ _ _ _ _ _ _ Hr). Qed.

Lemma setWrapMode_keeps_shape wm this :
  triple (shape_of t n this) (setWrapMode wm this)
    (fun this' h' => shape_of t n this' h').
Proof. unfold setWrapMode. keeps_shape. after_detach. keeps_shape. Qed.

Lemma setAlphaMode_keeps_shape am this :
  triple (shape_of t n this) (setAlphaMode am this)
    (fun this' h' => shape_of t n this' h').
Proof. unfold setAlphaMode. keeps_shape. after_detach. keeps_shape. Qed.

Lemma setNormalMap_keeps_shape b this :
  triple (shape_of t n this) (setNormalMap b this)
    (fun this' h' => shape_of t n this' h').
Proof. unfold setNormalMap. keeps_shape. after_detach. keeps_shape. Qed.

Lemma fill_keeps_shape r g b a this :
  triple (shape_of t n this) (fill r g b a this)
    (fun this' h' => shape_of t n this' h').
Proof. unfold fill. after_detach. keeps_shape. Qed.

Lemma setImage2D_keeps_shape format w ht idx data this :
  triple (shape_of t n this) (setImage2D format w ht idx data this)
    (fun r h' => shape_of t n (snd r) h').
Proof. unfold setImage2D. keeps_shape. after_detach. keeps_shape. Qed.

Lemma setImage2D_planar_keeps_shape format w ht idx r g b a this :
  triple (shape_of t n this) (setImage2D_planar format w ht idx r g b a this)
    (fun r h' => shape_of t n (snd r) h').
Proof. unfold setImage2D_planar. keeps_shape. after_detach. keeps_shape. Qed.

Lemma setImage2D_compressed_keeps_shape format decoder w ht idx data this :
  triple (shape_of t n this)
    (setImage2D_compressed format decoder w ht idx data this)
    (fun r h' => shape_of t n (snd r) h').
Proof.
  unfold setImage2D_compressed. keeps_shape. after_detach. keeps_shape.
Qed.

Lemma buildNextMipmap_keeps_shape filter this :
  triple (shape_of t n this) (buildNextMipmap filter this)
    (fun r h' => shape_of t n (snd r) h').
Proof.
  unfold buildNextMipmap. keeps_shape. after_detach.
  unfold buildNextMipmap_face. keeps_shape.
Qed.

Lemma copyChannel_keeps_shape src sc dc this :
  triple (shape_of t n this) (copyChannel src sc dc this)
    (fun r h' => shape_of t n (snd r) h').
Proof.
  unfold copyChannel, faceCount. keeps_shape. after_detach.
  unfold copyChannel_face. keeps_shape.
Qed.

Lemma premultiplyAlpha_keeps_shape this :
  triple (shape_of t n this) (premultiplyAlpha this)
    (fun this' h' => shape_of t n this' h').
Proof. unfold premultiplyAlpha. after_detach. keeps_shape. Qed.

Lemma toGreyScale_keeps_shape r g b a this :
  triple (shape_of t n this) (toGreyScale r g b a this)
    (fun this' h' => shape_of t n this' h').
Proof. unfold toGreyScale. after_detach. keeps_shape. Qed.

Lemma setBorder_keeps_shape r g b a this :
  triple (shape_of t n this) (setBorder r g b a this)
    (fun this' h' => shape_of t n this' h').
Proof. unfold setBorder. after_detach. keeps_shape. Qed.

Lemma resize_keeps_shape w ht filter this :
  triple (shape_of t n this) (resize w ht filter this)
    (fun this' h' => shape_of t n this' h').
Proof.
  unfold resize. keeps_shape. after_detach. unfold resize_face. keeps_shape.
  all: apply keeps_Image_resize, payload_shape_payloads_only.
Qed.

Lemma resize_max_keeps_shape maxExtent roundMode filter this :
  triple (shape_of t n this) (resize_max maxExtent roundMode filter this)
    (fun r h' => forall this', r = Some this' -> shape_of t n this' h').
Proof.
  unfold resize_max.
  apply keeps_then; [apply keeps_Private_get |]. intros p.
  destruct (0 <? Z.of_nat (length (Private.imageArray p))).
  - apply keeps_then; [apply keeps_Array_at |]. intros f.
    apply keeps_then; [apply keeps_Image_get |]. intros img. cbv zeta.
    match goal with |- triple _ (if ?c then _ else _) _ => destruct c end.
    + apply triple_ret. intros h0 _ this' [=].
    + apply keeps_then; [apply keeps_Private_get |]. intros q.
      eapply triple_bind; [apply resize_keeps_shape |]. intros this1.
      apply triple_ret. intros h0 Hs this' [= <-]. exact Hs.
  - apply triple_ret. intros h0 Hs this' [= <-]. exact Hs.
Qed.

Lemma toLinear_keeps_shape gamma this :
  triple (shape_of t n this) (toLinear gamma this)
    (fun this' h' => shape_of t n this' h').
Proof.
  unfold toLinear. keeps_shape. after_detach. unfold Image_update. keeps_shape.
Qed.

Lemma toGamma_keeps_shape gamma this :
  triple (shape_of t n this) (toGamma gamma this)
    (fun this' h' => shape_of t n this' h').
Proof.
  unfold toGamma. keeps_shape. after_detach. unfold Image_update. keeps_shape.
Qed.

Lemma transform_keeps_shape w0 w1 w2 w3 offset this :
  triple (shape_of t n this) (transform w0 w1 w2 w3 offset this)
    (fun this' h' => shape_of t n this' h').
Proof.
  unfold transform. after_detach. unfold Image_update. keeps_shape.
Qed.

Lemma swizzle_keeps_shape r g b a this :
  triple (shape_of t n this) (swizzle r g b a this)
    (fun this' h' => shape_of t n this' h').
Proof.
  unfold swizzle. keeps_shape. after_detach. unfold Image_update. keeps_shape.
Qed.

Lemma scaleBias_keeps_shape channel scale bias this :
  triple (shape_of t n this) (scaleBias channel scale bias this)
    (fun this' h' => shape_of t n this' h').
Proof.
  unfold scaleBias. keeps_shape. after_detach. unfold Image_update. keeps_shape.
Qed.

Lemma packNormal_keeps_shape this :
  triple (shape_of t n this) (packNormal this)
    (fun this' h' => shape_of t n this' h').
Proof.
  unfold packNormal.
  eapply triple_bind; [apply scaleBias_keeps_shape |]. intros this1.
  eapply triple_bind; [apply scaleBias_keeps_shape |]. intros this2.
  apply scaleBias_keeps_shape.
Qed.

Lemma expandNormal_keeps_shape this :
  triple (shape_of t n this) (expandNormal this)
    (fun this' h' => shape_of t n this' h').
Proof.
  unfold expandNormal.
  eapply triple_bind; [apply scaleBias_keeps_shape |]. intros this1.
  eapply triple_bind; [apply scaleBias_keeps_shape |]. intros this2.
  apply scaleBias_keeps_shape.
Qed.

Lemma blend_keeps_shape red green blue alpha w this :
  triple (shape_of t n this) (blend red green blue alpha w this)
    (fun this' h' => shape_of t n this' h').
Proof. unfold blend. after_detach. keeps_shape. Qed.

Lemma scaleAlphaToCoverage_keeps_shape coverage alphaRef this :
  triple (shape_of t n this) (scaleAlphaToCoverage coverage alphaRef this)
    (fun this' h' => shape_of t n this' h').
Proof.
  unfold scaleAlphaToCoverage. after_detach. unfold Image_update. keeps_shape.
Qed.

Lemma toNormalMap_keeps_shape sm medium big large this :
  triple (shape_of t n this) (toNormalMap sm medium big large this)
    (fun this' h' => shape_of t n this' h').
Proof.
  unfold toNormalMap. after_detach. unfold Image_update. keeps_shape.
Qed.

Lemma normalizeNormalMap_keeps_shape this :
  triple (shape_of t n this) (normalizeNormalMap this)
    (fun this' h' => shape_of t n this' h').
Proof.
  unfold normalizeNormalMap. after_detach. unfold Image_update. keeps_shape.
Qed.

Lemma flipVertically_keeps_shape this :
  triple (shape_of t n this) (flipVertically this)
    (fun this' h' => shape_of t n this' h').
Proof.
  unfold flipVertically. after_detach. unfold Image_update. keeps_shape.
Qed.

End ShapeKept.

(** A field update changes the shape as it changes type and slots. *)
Lemma Private_modify_shape a t n t' n' f :
  (forall p, Private.type p = t -> length (Private.imageArray p) = n ->
             Private.type (f p) = t' /\ length (Private.imageArray (f p)) = n') ->
  triple (payload_shape a t n) (Private_modify (Some a) f)
    (fun _ => payload_shape a t' n').
Proof.
  intros Hf h x h' Hr (p & Hp & Ht & Hn).
  apply Private_modify_inv in Hr as (b & q & [= <-] & Hq & ->).
  replace q with p in * by congruence.
  exists (f p). simpl.
  split; [apply list_lookup_insert_eq; now apply lookup_lt_Some in Hp |].
  exact (Hf p Ht Hn).
Qed.

Section FaceCount.

Context `{Collaborators} `{FaceOperations} `{ImageMethods}.

Hypothesis Hresize : forall filter w ht wm alpha face h u h',
  Image_resize filter w ht wm alpha face h = Done (u, h') ->
  payloads h' = payloads h.

Lemma shape_of_payloads_only t n this : payloads_only (shape_of t n this).
Proof.
  intros h h' Heq (a & Hm & Hs). exists a. split; [exact Hm |].
  exact (payload_shape_payloads_only a t n h h' Heq Hs).
Qed.

Lemma TexImage_copy_keeps_shape t n this :
  triple (shape_of t n this) (TexImage_copy this)
    (fun this' h' => shape_of t n this' h').
Proof.
  apply triple_shape_of. intros a ->. unfold TexImage_copy. simpl.
  apply keeps_then.
  - unfold addRef. keeps_shape.
  - intros _. keeps_shape.
Qed.

Lemma setTextureType_shape t n type this :
  triple (shape_of t n this) (setTextureType type this)
    (fun this' h' =>
       shape_of (fst (shape_after (Call_setTextureType type) t n))
         (snd (shape_after (Call_setTextureType type) t n)) this' h').
Proof.
  intros h this' h' Hrun (a & Hm & p & Hp & Ht & Hn).
  unfold setTextureType in Hrun. rewrite Hm in Hrun.
  rewrite (bind_Done _ _ _ _ _ (Private_get_live _ _ _ Hp)) in Hrun.
  rewrite Ht in Hrun. simpl.
  destruct (TextureType_eqb t type) eqn:Hsame; simpl in Hrun |- *.
  - injection Hrun as <- <-. exists a. split; [exact Hm |]. exists p. auto.
  - split_bind Hrun as this1 h1 Hdetach.
    destruct (detach_shape _ _ _ _ a t n Hdetach) as (a1 & Hm1 & Hshape1);
      [now rewrite <- Hm | exists p; auto |].
    destruct this1 as [m1]. simpl in Hm1. subst m1. simpl in Hrun.
    assert (Hrest :
      triple (payload_shape a1 t n)
        (Private_modify (Some a1) (Private.set_type type) ;;
         count <- match type with
                  | TextureType_2D => ret 1
                  | _ => nvCheck (TextureType_eqb type TextureType_Cube) ;; ret 6
                  end ;;
         p <- Private_get (Some a1) ;;
         (let imageCount := Z.of_nat (length (Private.imageArray p)) in
          for_each (seqZ count (imageCount - count))
            (fun i => p <- Private_get (Some a1) ;;
                      f <- Array_at (Private.imageArray p) i ;;
                      Image_delete f ;;
                      ret (@None unit))) ;;
         Private_modify (Some a1)
           (fun p => Private.set_imageArray
                       (Array_resize count None (Private.imageArray p)) p) ;;
         ret (Tex (Some a1)))
        (fun this' h' =>
           shape_of type (Z.to_nat (faceCountOf type)) this' h')).
    { refine (triple_bind _ (fun _ => payload_shape a1 type n) _ _ _ _ _).
      { apply Private_modify_shape. intros q _ Hq. simpl. auto. }
      intros _.
      refine (triple_bind _ (fun c h0 => c = faceCountOf type
                                         /\ payload_shape a1 type n h0) _ _ _ _ _).
      { destruct type.
        - apply triple_ret. auto.
        - apply keeps_then; [apply keeps_nvCheck |]. intros _.
          apply triple_ret. auto. }
      intros count h0 x h0' Hrun0 [-> Hshape0]. revert h0 x h0' Hrun0 Hshape0.
      change (triple (payload_shape a1 type n)
                (p <- Private_get (Some a1) ;;
                 (let imageCount := Z.of_nat (length (Private.imageArray p)) in
                  for_each (seqZ (faceCountOf type) (imageCount - faceCountOf type))
                    (fun i => p <- Private_get (Some a1) ;;
                              f <- Array_at (Private.imageArray p) i ;;
                              Image_delete f ;;
                              ret (@None unit))) ;;
                 Private_modify (Some a1)
                   (fun p => Private.set_imageArray
                               (Array_resize (faceCountOf type) None
                                  (Private.imageArray p)) p) ;;
                 ret (Tex (Some a1)))
                (fun this' h' =>
                   shape_of type (Z.to_nat (faceCountOf type)) this' h')).
      apply keeps_then; [apply keeps_Private_get |]. intros q.
      apply keeps_then; [keeps_shape |]. intros _.
      refine (triple_bind _ (fun _ => payload_shape a1 type
                                        (Z.to_nat (faceCountOf type))) _ _ _ _ _).
      { apply Private_modify_shape. intros r Hr _. simpl. split; [exact Hr |].
        apply Nat2Z.inj. rewrite length_Array_resize by (destruct type; simpl; lia).
        rewrite Z2Nat.id by (destruct type; simpl; lia). reflexivity. }
      intros _. apply triple_ret. intros h0 Hs. exists a1. auto. }
    exact (Hrest h1 this' h' Hrun Hshape1).
Qed.

Lemma load_shape t n loaded this :
  triple (shape_of t n this) (load loaded this)
    (fun r h' =>
       shape_of (fst (shape_after (Call_load loaded) t n))
         (snd (shape_after (Call_load loaded) t n)) (snd r) h').
Proof.
  unfold load. destruct loaded as [file |]; simpl.
  - apply keeps_then.
    { apply keeps_Image_new, shape_of_payloads_only. }
    intros img. after_detach_at a1.
    apply keeps_then; [keeps_shape |]. intros i.
    apply keeps_then; [keeps_shape |]. intros _.
    refine (triple_bind _ (fun _ => payload_shape a1 t 1%nat) _ _ _ _ _).
    { apply Private_modify_shape. intros r Hr _. simpl. split; [exact Hr |].
      apply Nat2Z.inj. now rewrite length_Array_resize by lia. }
    intros _. keeps_shape.
  - apply triple_ret. auto.
Qed.

(** Every call that finishes leaves the handle with the type and the
    number of face slots that [shape_after] gives. *)
Lemma perform_shape c t n this :
  triple (shape_of t n this) (perform c this)
    (fun this' h' =>
       shape_of (fst (shape_after c t n)) (snd (shape_after c t n)) this' h').
Proof.
  assert (Hsnd : forall (c0 : M (bool * TexImage)),
             triple (shape_of t n this) c0 (fun r h' => shape_of t n (snd r) h') ->
             triple (shape_of t n this) (r <- c0 ;; ret (snd r))
               (fun this' h' => shape_of t n this' h')).
  { intros c0 Hc0. eapply triple_bind; [exact Hc0 |].
    intros r. apply triple_ret. auto. }
  destruct c; simpl perform.
  - apply TexImage_copy_keeps_shape.
  - apply setTextureType_shape.
  - apply setWrapMode_keeps_shape.
  - apply setAlphaMode_keeps_shape.
  - apply setNormalMap_keeps_shape.
  - eapply triple_bind; [apply load_shape |].
    intros r. apply triple_ret. auto.
  - apply Hsnd, setImage2D_keeps_shape.
  - apply Hsnd, setImage2D_planar_keeps_shape.
  - apply Hsnd, setImage2D_compressed_keeps_shape.
  - apply Hsnd, buildNextMipmap_keeps_shape.
  - apply fill_keeps_shape.
  - apply Hsnd, copyChannel_keeps_shape.
  - apply Hsnd. unfold copyChannel_same. apply copyChannel_keeps_shape.
  - apply (resize_keeps_shape _ _ Hresize).
  - apply toLinear_keeps_shape.
  - apply toGamma_keeps_shape.
  - apply transform_keeps_shape.
  - apply swizzle_keeps_shape.
  - apply scaleBias_keeps_shape.
  - apply packNormal_keeps_shape.
  - apply expandNormal_keeps_shape.
  - apply blend_keeps_shape.
  - apply premultiplyAlpha_keeps_shape.
  - apply toGreyScale_keeps_shape.
  - apply setBorder_keeps_shape.
  - apply scaleAlphaToCoverage_keeps_shape.
  - apply toNormalMap_keeps_shape.
  - apply normalizeNormalMap_keeps_shape.
  - apply flipVertically_keeps_shape.
Qed.

End FaceCount.

Lemma shape_of_payload_at t n this h :
  shape_of t n this h <->
  exists p, payload_at h this = Some p
            /\ Private.type p = t /\ length (Private.imageArray p) = n.
Proof.
  unfold shape_of, payload_shape. split.
  - intros (a & Hm & p & Hp & Ht & Hn). exists p.
    split; [apply payload_at_Some; eauto | auto].
  - intros (p & (a & Hm & Hp)%payload_at_Some & Ht & Hn). eauto 10.
Qed.

(** A query that finishes leaves the heap as it found it. *)
Lemma ask_keeps `{FaceOperations} (P : Heap -> Prop) q this :
  keeps P (ask q this).
Proof.
  destruct q; cbn [ask];
    unfold rootMeanSquaredError_rgb, rootMeanSquaredError_alpha,
      alphaTestCoverage, save, TexImage_countMipmaps;
    unfold width, height, depth, faceCount, textureType, wrapMode, alphaMode,
      isNormalMap;
    keeps_shape.
Qed.

(** Writing or freeing the payload at one address leaves the payload at
    another as it is. *)
Lemma keeps_shape_Private_put_other a b t n p :
  a <> b -> keeps (payload_shape b t n) (Private_put (Some a) p).
Proof.
  intros Hne h u h' Hr (q & Hq & Hrest). unfold Private_put in Hr.
  destruct (payloads h !! a) as [[p0 |] |]; try discriminate.
  injection Hr as _ <-. exists q. simpl.
  now rewrite list_lookup_insert_ne by auto.
Qed.

Lemma keeps_shape_Private_free_other a b t n :
  a <> b -> keeps (payload_shape b t n) (Private_free (Some a)).
Proof.
  intros Hne h u h' Hr (q & Hq & Hrest). unfold Private_free in Hr.
  destruct (payloads h !! a) as [[p0 |] |]; try discriminate.
  injection Hr as _ <-. exists q. simpl.
  now rewrite list_lookup_insert_ne by auto.
Qed.

Lemma release_keeps_other a b t n :
  a <> b -> keeps (payload_shape b t n) (release (Some a)).
Proof.
  intros Hne. unfold release. keeps_shape.
  all: first [ now apply keeps_shape_Private_put_other
             | now apply keeps_shape_Private_free_other ].
Qed.

(** [operator=] leaves the handle on the payload of the assigned
    texture, with the type and the face slots that payload has. *)
Lemma TexImage_assign_shape tex this h this' h' p q :
  payload_at h this = Some p -> payload_at h tex = Some q ->
  m tex <> m this \/ Private.refCount p <> 0 ->
  TexImage_assign tex this h = Done (this', h') ->
  exists q', payload_at h' this' = Some q'
             /\ Private.type q' = Private.type q
             /\ length (Private.imageArray q') = length (Private.imageArray q).
Proof.
  intros (a & Hma & Hpa)%payload_at_Some (b & Hmb & Hqb)%payload_at_Some
    Hcase Hrun.
  unfold TexImage_assign in Hrun. rewrite Hmb, Hma in Hrun.
  split_bind Hrun as u h1 Hadd. split_bind Hrun as u2 h2 Hrel.
  injection Hrun as <- <-.
  unfold addRef in Hadd.
  apply Private_modify_inv in Hadd as (b' & q0 & [= <-] & Hq0 & ->).
  assert (q0 = q) by congruence. subst q0.
  set (q1 := Private.set_refCount (Private.refCount q + 1) q) in *.
  assert (Hb : (b < length (payloads h))%nat) by (now apply lookup_lt_Some in Hqb).
  assert (Hshape1 : payload_shape b (Private.type q)
                      (length (Private.imageArray q))
                      (mkHeap (images h) (<[b := Some q1]> (payloads h)))).
  { exists q1. simpl. split; [now apply list_lookup_insert_eq | auto]. }
  assert (Hafter : payload_shape b (Private.type q)
                     (length (Private.imageArray q)) h2).
  { destruct (decide (a = b)) as [-> | Hne].
    - assert (p = q) by congruence. subst p.
      assert (Hcount : Private.refCount q <> 0)
        by (destruct Hcase as [Hm | Hc]; [congruence | exact Hc]).
      destruct Hshape1 as (q1' & Hq1 & _).
      unfold release in Hrel.
      rewrite (bind_Done _ _ _ _ _ (Private_get_live _ _ _ Hq1)) in Hrel.
      simpl in Hq1. rewrite list_lookup_insert_eq in Hq1 by exact Hb.
      injection Hq1 as <-.
      replace (Private.refCount q1 - 1) with (Private.refCount q) in Hrel
        by (unfold q1; simpl; lia).
      destruct (Z.eqb_spec (Private.refCount q) 0); [contradiction |].
      unfold Private_put in Hrel. simpl in Hrel.
      rewrite list_lookup_insert_eq in Hrel by exact Hb.
      injection Hrel as _ <-.
      eexists. simpl. split; [apply list_lookup_insert_eq;
                              now rewrite length_insert |].
      simpl. auto.
    - exact (release_keeps_other a b _ _ Hne _ _ _ Hrel Hshape1). }
  destruct Hafter as (q2 & Hq2 & Ht & Hn).
  exists q2. split; [apply payload_at_Some; eauto | auto].
Qed.


(** The heap [new_texture] is what the constructor leaves. *)
Lemma new_texture_constructed :
  TexImage_new empty_heap = Done (Tex (Some 0%nat), new_texture).
Proof. reflexivity. Qed.



(** ** Mipmap chains *)

Section MipmapChain.

Context `{Collaborators}.

(** The image a face is replaced with, whatever the filter. *)
Lemma downsampled_image_returns (mode : AlphaMode) (filter : MipmapFilter)
    (wrapMode : WrapMode) (src : FloatImage) (h : Heap) :
  exists img',
    m_width img' = Z.max 1 (m_width src / 2)
    /\ m_height img' = Z.max 1 (m_height src / 2)
    /\ match mode, filter with
       | AlphaMode_Transparency, MipmapFilter_Box =>
           Image_new (Image_downSample BoxFilter wrapMode (Some 3) src)
       | AlphaMode_Transparency, MipmapFilter_Triangle =>
           Image_new (Image_downSample TriangleFilter wrapMode (Some 3) src)
       | AlphaMode_Transparency, MipmapFilter_Kaiser =>
           Image_new (Image_downSample (KaiserFilter 3) wrapMode (Some 3) src)
       | AlphaMode_None, MipmapFilter_Box =>
           Image_new (Image_fastDownSample src)
       | AlphaMode_None, MipmapFilter_Triangle =>
           Image_new (Image_downSample TriangleFilter wrapMode None src)
       | AlphaMode_None, MipmapFilter_Kaiser =>
           Image_new (Image_downSample (KaiserFilter 3) wrapMode None src)
       end h
       = Done (length (images h),
               mkHeap (images h ++ [Some img']) (payloads h)).
Proof.
  destruct mode, filter; eexists; (split; [| split]);
    try reflexivity; reflexivity.
Qed.

(** One round of the loop at slot [k]: the invariant is kept, and slot 0
    has its extents halved in round 0 and is left alone later. *)
Lemma buildNextMipmap_face_returns filter wm n a p h (k : nat) :
  owned n a h p -> (k < n)%nat ->
  returns (buildNextMipmap_face filter wm (Tex (Some a)) (Z.of_nat k)) h
    (fun r h' =>
       r = None
       /\ exists p', owned n a h' p'
                     /\ forall w ht, face0_extents h p w ht ->
                          face0_extents h' p'
                            (if k is O then Z.max 1 (w / 2) else w)
                            (if k is O then Z.max 1 (ht / 2) else ht)).
Proof.
  intros (Hp & Hn & Hlive & Hdist) Hk. unfold buildNextMipmap_face. simpl.
  apply returns_bind. eapply returns_Done; [exact (Private_get_live _ _ _ Hp) |].
  assert (Hslot : exists f, Private.imageArray p !! k = Some f)
    by (apply lookup_lt_is_Some; lia).
  destruct Hslot as [f Hf].
  apply returns_bind. eapply returns_Done; [exact (Array_at_lookup _ _ _ Hf h) |].
  destruct f as [x |].
  - destruct (Hlive k x Hf) as [src Hsrc].
    apply returns_bind. eapply returns_Done; [exact (Image_get_live _ _ _ Hsrc) |].
    destruct (downsampled_image_returns (Private.alphaMode p) filter wm src h)
      as (img' & Hw' & Hh' & Hnew).
    apply returns_bind. eapply returns_Done; [exact Hnew |].
    set (h1 := mkHeap (images h ++ [Some img']) (payloads h)).
    apply returns_bind.
    eapply returns_Done; [exact (Private_get_live h1 _ _ Hp) |].
    apply returns_bind.
    eapply returns_Done; [exact (Array_at_lookup _ _ _ Hf h1) |].
    assert (Hx1 : images h1 !! x = Some (Some src))
      by (unfold h1; simpl; now apply lookup_app_l_Some).
    apply returns_bind.
    eapply returns_Done; [exact (Image_delete_live _ _ _ Hx1) |].
    set (h2 := mkHeap (<[x := None]> (images h1)) (payloads h1)).
    apply returns_bind.
    eapply returns_Done; [exact (Private_modify_live h2 _ _ _ Hp) |].
    apply returns_ret. split; [reflexivity |].
    rewrite Nat2Z.id.
    set (fresh := length (images h)).
    set (p' := Private.set_imageArray
                 (<[k := Some fresh]> (Private.imageArray p)) p).
    assert (Hxlt : (x < fresh)%nat) by (now apply lookup_lt_Some in Hsrc).
    assert (Hfresh : <[x := None]> (images h1) !! fresh = Some (Some img')).
    { rewrite list_lookup_insert_ne by lia. unfold h1. simpl.
      now rewrite lookup_app_r, Nat.sub_diag by (unfold fresh; lia). }
    assert (Hold : forall y img, y <> x -> images h !! y = Some (Some img) ->
                     <[x := None]> (images h1) !! y = Some (Some img)).
    { intros y img HneHy. rewrite list_lookup_insert_ne by auto.
      unfold h1. simpl. now apply lookup_app_l_Some. }
    exists p'. split; [split; [| split; [| split]] |].
    + simpl. apply list_lookup_insert_eq. now apply lookup_lt_Some in Hp.
    + simpl. now rewrite length_insert.
    + intros i y Hi. simpl in Hi. simpl.
      destruct (decide (k = i)) as [<- | Hne].
      * rewrite list_lookup_insert_eq in Hi by lia. injection Hi as <-. eauto.
      * rewrite list_lookup_insert_ne in Hi by exact Hne.
        destruct (Hlive i y Hi) as [img Himg]. exists img.
        apply Hold; [| exact Himg].
        intros ->. apply Hne. exact (Hdist k i x Hf Hi).
    + intros i j y Hi Hj. simpl in Hi, Hj.
      destruct (decide (k = i)) as [<- | Hni], (decide (k = j)) as [<- | Hnj];
        try reflexivity.
      * rewrite list_lookup_insert_eq in Hi by lia. injection Hi as <-.
        rewrite list_lookup_insert_ne in Hj by exact Hnj.
        destruct (Hlive j _ Hj) as [img Himg]. apply lookup_lt_Some in Himg.
        unfold fresh in Himg. lia.
      * rewrite list_lookup_insert_eq in Hj by lia. injection Hj as <-.
        rewrite list_lookup_insert_ne in Hi by exact Hni.
        destruct (Hlive i _ Hi) as [img Himg]. apply lookup_lt_Some in Himg.
        unfold fresh in Himg. lia.
      * rewrite list_lookup_insert_ne in Hi by exact Hni.
        rewrite list_lookup_insert_ne in Hj by exact Hnj. eauto.
    + intros w ht (x0 & img0 & Hx0 & Himg0 & Hw0 & Hh0).
      destruct k as [| k].
      * assert (x0 = x) by congruence. subst x0.
        assert (img0 = src) by congruence. subst img0.
        exists fresh, img'. simpl.
        split; [destruct (Private.imageArray p); [discriminate | reflexivity] |].
        split; [exact Hfresh |]. split; congruence.
      * exists x0, img0. simpl.
        split; [rewrite list_lookup_insert_ne by lia; exact Hx0 |].
        split; [| auto]. apply Hold; [| exact Himg0].
        intros ->. discriminate (Hdist _ _ _ Hf Hx0).
  - apply returns_ret. split; [reflexivity |].
    exists p. split; [repeat split; assumption |].
    intros w ht (x0 & img0 & Hx0 & Himg0 & Hw0 & Hh0).
    destruct k as [| k]; [congruence |].
    exists x0, img0. auto.
Qed.


(** The rounds after the first keep the invariant and slot 0. *)
Lemma buildNextMipmap_tail_returns filter wm n a (d : nat) :
  forall (k : nat) h p,
    owned n a h p -> (1 <= k)%nat -> (k + d = n)%nat ->
    returns (for_each (seqZ (Z.of_nat k) (Z.of_nat d))
               (buildNextMipmap_face filter wm (Tex (Some a)))) h
      (fun r h' =>
         r = None
         /\ exists p', owned n a h' p'
                       /\ forall w ht, face0_extents h p w ht ->
                                       face0_extents h' p' w ht).
Proof.
  induction d as [| d IH]; intros k h p Hown Hk Hsum.
  - eapply returns_Done; [apply for_each_nil |]. split; [reflexivity |]. eauto.
  - rewrite seqZ_of_nat_S. apply returns_for_each_cons. apply returns_bind.
    eapply returns_weaken;
      [apply (buildNextMipmap_face_returns filter wm n a p h k Hown); lia |].
    intros r h1 (-> & p1 & Hown1 & Hface1).
    eapply returns_weaken; [apply (IH (S k) h1 p1 Hown1); lia |].
    intros r h2 (-> & p2 & Hown2 & Hface2).
    split; [reflexivity |]. exists p2. split; [exact Hown2 |].
    intros w ht Hf. apply Hface2. specialize (Hface1 w ht Hf).
    destruct k; [lia | exact Hface1].
Qed.

(** A call on a texture whose face 0 is not yet 1 x 1 succeeds and
    leaves face 0 with both extents halved. *)
Lemma buildNextMipmap_returns filter n a h p w ht :
  owned n a h p -> face0_extents h p w ht ->
  0 <= w < 2 ^ 31 -> 0 <= ht < 2 ^ 31 -> (w <> 1 \/ ht <> 1) ->
  returns (buildNextMipmap filter (Tex (Some a))) h
    (fun r h' =>
       fst r = true
       /\ exists a' p', snd r = Tex (Some a')
                        /\ owned n a' h' p'
                        /\ face0_extents h' p' (Z.max 1 (w / 2)) (Z.max 1 (ht / 2))).
Proof.
  intros (Hp & Hn & Hlive & Hdist) (x0 & img0 & Hx0 & Himg0 & Hw0 & Hh0) Hw Hht Hbig.
  unfold buildNextMipmap. simpl.
  apply returns_bind. eapply returns_Done; [exact (Private_get_live _ _ _ Hp) |].
  assert (Hpos : (0 < n)%nat) by (apply lookup_lt_Some in Hx0; lia).
  destruct (Z.ltb_spec 0 (Z.of_nat (length (Private.imageArray p)))); [| lia].
  apply returns_bind.
  apply returns_bind.
  eapply returns_Done; [exact (Array_at_lookup _ 0%nat _ Hx0 h) |].
  apply returns_bind.
  eapply returns_Done; [exact (Image_get_live _ _ _ Himg0) |].
  apply returns_ret.
  rewrite Hw0, Hh0, !to_int_small by lia.
  replace ((w =? 1) && (ht =? 1)) with false
    by (destruct (Z.eqb_spec w 1), (Z.eqb_spec ht 1); simpl; lia || reflexivity).
  apply returns_bind.
  eapply returns_weaken; [exact (detach_returns h a p Hp Hlive) |].
  intros this1 h1 (a1 & p1 & -> & Hp1 & _ & (Hlen & Hnull & Hpop) & Hlive1 & Hdist1 & _ & _).
  simpl.
  apply returns_bind. eapply returns_Done; [exact (Private_get_live _ _ _ Hp1) |].
  assert (Hn1 : length (Private.imageArray p1) = n) by congruence.
  assert (Hown1 : owned n a1 h1 p1).
  { split; [exact Hp1 |]. split; [exact Hn1 |]. split; auto. }
  assert (Hface1 : face0_extents h1 p1 w ht).
  { destruct (Hpop _ _ _ Hx0 Himg0) as (x1 & Hx1 & Himg1).
    exists x1, img0. auto. }
  rewrite Hn1. destruct n as [| n']; [lia |].
  apply returns_bind.
  change 0 with (Z.of_nat 0). rewrite seqZ_of_nat_S.
  apply returns_for_each_cons. apply returns_bind.
  eapply returns_weaken;
    [apply (buildNextMipmap_face_returns filter _ _ a1 p1 h1 0%nat Hown1); lia |].
  intros r h2 (-> & p2 & Hown2 & Hface2).
  eapply returns_weaken;
    [apply (buildNextMipmap_tail_returns filter _ _ a1 n' 1%nat h2 p2 Hown2); lia |].
  intros r h3 (-> & p3 & Hown3 & Hface3).
  apply returns_ret. split; [reflexivity |].
  exists a1, p3. split; [reflexivity |]. split; [exact Hown3 |].
  apply Hface3. exact (Hface2 w ht Hface1).
Qed.

(** A call on a texture whose face 0 is 1 x 1 returns false and changes
    nothing. *)
Lemma buildNextMipmap_stops filter n a h p :
  owned n a h p -> face0_extents h p 1 1 ->
  buildNextMipmap filter (Tex (Some a)) h = Done ((false, Tex (Some a)), h).
Proof.
  intros (Hp & Hn & Hlive & Hdist) (x0 & img0 & Hx0 & Himg0 & Hw0 & Hh0).
  unfold buildNextMipmap. simpl.
  step (Private_get_live _ _ _ Hp).
  assert (Hpos : (0 < n)%nat) by (apply lookup_lt_Some in Hx0; lia).
  destruct (Z.ltb_spec 0 (Z.of_nat (length (Private.imageArray p)))); [| lia].
  pose proof (Array_at_lookup _ 0%nat _ Hx0 h) as Hat.
  change (Z.of_nat 0) with 0 in Hat.
  rewrite (bind_Done _ _ h true h); [reflexivity |].
  step Hat. step (Image_get_live _ _ _ Himg0). now rewrite Hw0, Hh0.
Qed.

End MipmapChain.

Lemma countMipmaps_loop_step w h d acc :
  countMipmaps_loop w h d acc
  = if mip_pending w h d
    then countMipmaps_loop (mip_halve w) (mip_halve h) (mip_halve d)
           (Int.to_uint (acc + 1))
    else acc.
Proof.
  rewrite countMipmaps_loop_equation_1.
  destruct (mip_pending w h d); reflexivity.
Qed.

Lemma mip_halve_bounds (K : nat) x :
  1 <= x <= 2 ^ Z.of_nat (S K) ->
  1 <= mip_halve x <= 2 ^ Z.of_nat K /\ mip_halve x = Z.max 1 (x / 2).
Proof.
  intros Hx. unfold mip_halve. rewrite Z.quot_div_nonneg by lia.
  rewrite Nat2Z.inj_succ, Z.pow_succ_r in Hx by lia.
  assert (x / 2 <= 2 ^ Z.of_nat K) by (apply Z.div_le_upper_bound; lia).
  assert (0 < 2 ^ Z.of_nat K) by (apply Z.pow_pos_nonneg; lia).
  lia.
Qed.

Section MipmapChainLength.

Context `{Collaborators}.

(** From a face 0 of [w] x [ht] with both extents below 2^K the loop of
    [countMipmaps] makes some [n <= K] rounds, and [buildNextMipmap]
    succeeds [n] times and then fails. *)
Lemma buildMipmaps_counts (K : nat) :
  forall w ht acc,
    (K <= 31)%nat ->
    1 <= w <= 2 ^ Z.of_nat K -> 1 <= ht <= 2 ^ Z.of_nat K ->
    w < 2 ^ 31 -> ht < 2 ^ 31 ->
    0 <= acc -> acc + Z.of_nat K < 2 ^ 32 ->
    exists n : nat,
      (n <= K)%nat
      /\ countMipmaps_loop w ht 1 acc = acc + Z.of_nat n
      /\ forall filter cnt a h p,
           owned cnt a h p -> face0_extents h p w ht ->
           exists this' h',
             buildMipmaps (S n) filter (Tex (Some a)) h
             = Done ((replicate n true ++ [false], this'), h').
Proof.
  induction K as [| K IH]; intros w ht acc HK Hw Hht Hw31 Hh31 Hacc Hroom;
    rewrite countMipmaps_loop_step;
    (destruct (mip_pending w ht 1) as [Hmore | (-> & -> & _)];
     [| exists 0%nat; split; [lia |]; split; [lia |];
        intros filter cnt a h p Hown Hface;
        exists (Tex (Some a)), h; simpl;
        step (buildNextMipmap_stops filter cnt a h p Hown Hface);
        reflexivity]).
  - change (2 ^ Z.of_nat 0) with 1 in Hw, Hht. lia.
  - destruct (mip_halve_bounds K w Hw) as [Hw' Hwq].
    destruct (mip_halve_bounds K ht Hht) as [Hht' Hhq].
    change (mip_halve 1) with 1.
    rewrite to_uint_small by lia.
    assert (Hw'' : mip_halve w < 2 ^ 31)
      by (rewrite Hwq; assert (w / 2 <= w) by (apply Z.div_le_upper_bound; lia); lia).
    assert (Hh'' : mip_halve ht < 2 ^ 31)
      by (rewrite Hhq; assert (ht / 2 <= ht) by (apply Z.div_le_upper_bound; lia); lia).
    destruct (IH (mip_halve w) (mip_halve ht) (acc + 1) ltac:(lia) Hw' Hht'
                Hw'' Hh'' ltac:(lia) ltac:(lia)) as (n & Hn & Hloop & Hchain).
    exists (S n). split; [lia |]. split; [lia |].
    intros filter cnt a h p Hown Hface.
    destruct (buildNextMipmap_returns filter cnt a h p w ht Hown Hface
                ltac:(lia) ltac:(lia) ltac:(lia))
      as ([b this1] & h1 & Hcall & Htrue & a1 & p1 & Hthis1 & Hown1 & Hface1).
    simpl in Htrue, Hthis1. subst b this1.
    rewrite <- Hwq, <- Hhq in Hface1.
    destruct (Hchain filter cnt a1 h1 p1 Hown1 Hface1) as (this' & h' & Hrest).
    exists this', h'.
    change (buildMipmaps (S (S n)) filter (Tex (Some a)) h)
      with (bind (buildNextMipmap filter (Tex (Some a)))
              (fun r => bind (buildMipmaps (S n) filter (snd r))
                          (fun rs => ret (fst r :: fst rs, snd rs))) h).
    step Hcall. simpl snd. step Hrest. reflexivity.
Qed.

(** C7: a texture whose face 0 is 1 x 1 is left alone by
    [buildNextMipmap], which returns false; and from a populated texture
    of [w] x [h] pixels, [countMipmaps(w, h, 1) - 1] successive calls
    return true and the call after them returns false. *)
Theorem buildNextMipmap_chain (filter : MipmapFilter) (this : TexImage)
    (h : Heap) (s : Snapshot) (img0 : FloatImage) :
  observe this h = Some s ->
  exclusive_faces this h = true ->
  s_faces s !! 0%nat = Some (Some img0) ->
  1 <= m_width img0 < 2 ^ 31 ->
  1 <= m_height img0 < 2 ^ 31 ->
  let n := Z.to_nat (countMipmaps (m_width img0) (m_height img0) 1 - 1) in
  (m_width img0 = 1 /\ m_height img0 = 1 ->
   buildNextMipmap filter this h = Done ((false, this), h))
  /\ exists this' h',
       buildMipmaps (S n) filter this h
       = Done ((replicate n true ++ [false], this'), h').
Proof.
  intros Hobs Hexcl Hface0 Hw Hht n.
  destruct (observe_Some _ _ _ Hobs) as (p & Hp & Hall & _).
  unfold exclusive_faces in Hexcl. rewrite Hp in Hexcl.
  apply bool_decide_eq_true in Hexcl.
  apply payload_at_Some in Hp as (a & Hm & Hpa).
  destruct this as [mthis]. simpl in Hm. subst mthis.
  assert (Hown : owned (length (Private.imageArray p)) a h p).
  { split; [exact Hpa |]. split; [reflexivity |].
    split; [exact (observed_faces_live _ _ _ Hall) |].
    exact (NoDup_faces_distinct _ Hexcl). }
  assert (Hext : face0_extents h p (m_width img0) (m_height img0)).
  { destruct (Forall2_lookup_r _ _ _ _ _ Hall Hface0) as (f & Hf & Hat).
    apply face_at_Some_Some in Hat as (x & -> & Hx).
    exists x, img0. auto. }
  split.
  - intros [Hw1 Hh1]. rewrite Hw1, Hh1 in Hext.
    exact (buildNextMipmap_stops filter _ a h p Hown Hext).
  - destruct (buildMipmaps_counts 31 (m_width img0) (m_height img0) 0
                ltac:(lia) ltac:(simpl; lia) ltac:(simpl; lia) ltac:(lia)
                ltac:(lia) ltac:(lia) ltac:(reflexivity))
      as (k & Hk & Hloop & Hchain).
    assert (Hn : n = k).
    { unfold n, countMipmaps. rewrite Hloop, to_uint_small by lia. lia. }
    rewrite Hn. exact (Hchain filter _ a h p Hown Hext).
Qed.

End MipmapChainLength.

(** The heap [loaded_4x2] is what loading 4 x 2 pixels leaves. *)
Lemma loaded_4x2_constructed :
  loaded_texture (plain 4 2 F32.one) empty_heap
  = Done (Tex (Some 0%nat), loaded_4x2).
Proof. reflexivity. Qed.

(** From 4 x 2 pixels: 2 x 1, then 1 x 1, then the call that fails. *)
Lemma buildNextMipmap_chain_4x2 :
  observe (Tex (Some 0%nat)) loaded_4x2 = Some (shot (plain 4 2 F32.one))
  /\ exclusive_faces (Tex (Some 0%nat)) loaded_4x2 = true
  /\ countMipmaps 4 2 1 = 3
  /\ exists this' h',
       buildMipmaps 3 MipmapFilter_Box (Tex (Some 0%nat)) loaded_4x2
       = Done (([true; true; false], this'), h').
Proof.
  split; [reflexivity |]. split; [reflexivity |]. split; [reflexivity |].
  exact (proj2 (buildNextMipmap_chain MipmapFilter_Box (Tex (Some 0%nat))
                  loaded_4x2 (shot (plain 4 2 F32.one)) (plain 4 2 F32.one)
                  eq_refl eq_refl eq_refl ltac:(simpl; lia) ltac:(simpl; lia))).
Defined.

(** ** Channel copy *)

Lemma Image_valid_extents img img' :
  extents img' = extents img -> Image_valid img' = Image_valid img.
Proof.
  unfold extents, Image_valid, Image.sized. intros [= Hw Hh Hc Hl].
  now rewrite Hw, Hh, Hc, Hl.
Qed.

Lemma length_read_run {A} (l : list A) off n vals :
  read_run l off n = Some vals -> length vals = Z.to_nat n.
Proof.
  unfold read_run.
  destruct (Z.leb_spec 0 off), (Z.leb_spec 0 n),
    (Z.leb_spec (off + n) (Z.of_nat (length l))); simpl; try discriminate.
  intros [= <-]. rewrite length_take, length_drop. lia.
Qed.

(** On valid images of equal width and height the plane copy stays in
    bounds and keeps the extents of the destination. *)
Lemma copy_plane_in_bounds d s dc sc :
  Image_valid d = true -> Image_valid s = true ->
  m_width s = m_width d -> m_height s = m_height d ->
  0 <= sc < 4 -> 0 <= dc < 4 ->
  exists d', copy_plane d dc s sc (Int.to_uint (m_width s * m_height s)) = Some d'
             /\ extents d' = extents d.
Proof.
  unfold Image_valid, Image.sized. intros Hd Hs Hw Hh Hsc Hdc.
  repeat (apply andb_prop in Hd as [Hd ?]). repeat (apply andb_prop in Hs as [Hs ?]).
  repeat match goal with
         | H : (_ <=? _) = true |- _ => apply Z.leb_le in H
         | H : (_ <? _) = true |- _ => apply Z.ltb_lt in H
         | H : (_ =? _) = true |- _ => apply Z.eqb_eq in H
         end.
  set (n := m_width s * m_height s).
  assert (Hn : 0 <= n) by (unfold n; nia).
  unfold copy_plane, Image.channel. rewrite !(to_uint_small sc), !(to_uint_small dc),
    (to_uint_small n) by lia.
  assert (Hsrc : exists vals, read_run (m_mem s) (sc * m_width s * m_height s) n
                              = Some vals).
  { unfold read_run.
    destruct (Z.leb_spec 0 (sc * m_width s * m_height s)); [| nia].
    destruct (Z.leb_spec 0 n); [| lia].
    destruct (Z.leb_spec (sc * m_width s * m_height s + n)
                (Z.of_nat (length (m_mem s)))); [eauto | unfold n in *; nia]. }
  destruct Hsrc as [vals Hvals]. rewrite Hvals. simpl.
  assert (Hdst : exists old, read_run (m_mem d) (dc * m_width d * m_height d) n
                             = Some old).
  { unfold read_run.
    destruct (Z.leb_spec 0 (dc * m_width d * m_height d)); [| nia].
    destruct (Z.leb_spec 0 n); [| lia].
    destruct (Z.leb_spec (dc * m_width d * m_height d + n)
                (Z.of_nat (length (m_mem d)))); [eauto | unfold n in *; nia]. }
  destruct Hdst as [old Hold]. rewrite Hold. simpl.
  eexists. split; [reflexivity |].
  unfold extents. simpl. f_equal.
  apply length_read_run in Hvals.
  rewrite !length_app, length_take, length_drop, Hvals.
  unfold n in *. nia.
Qed.

Lemma slot_like_put h x cur new f c :
  images h !! x = Some (Some cur) -> extents new = extents cur ->
  slot_like h f c ->
  slot_like (mkHeap (<[x := Some new]> (images h)) (payloads h)) f c.
Proof.
  intros Hx Hext. unfold slot_like.
  destruct f as [y |], c as [img |]; try tauto.
  intros (img' & Hy & Himg'). simpl.
  destruct (decide (x = y)) as [<- | Hne].
  - exists new. rewrite list_lookup_insert_eq by (now apply lookup_lt_Some in Hx).
    split; [reflexivity |]. congruence.
  - exists img'. now rewrite list_lookup_insert_ne by exact Hne.
Qed.


Section CopyChannelLoop.

Variables (srcImage : TexImage) (srcChannel dstChannel : Z).
Variables (a1 asrc : ptr) (p1 q1 : Private.t).
Variables (dfaces sfaces : list (option FloatImage)).

Hypothesis Hsrc : m srcImage = Some asrc.
Hypothesis Hsc : 0 <= srcChannel < 4.
Hypothesis Hdc : 0 <= dstChannel < 4.
Hypothesis Hdvalid : faces_valid dfaces = true.
Hypothesis Hsvalid : faces_valid sfaces = true.

Lemma faces_valid_lookup faces k img :
  faces_valid faces = true -> faces !! k = Some (Some img) ->
  Image_valid img = true.
Proof.
  unfold faces_valid. rewrite forallb_forall. intros Hall Hk.
  apply (Hall (Some img)). apply list_elem_of_In.
  eapply list_elem_of_lookup_2. exact Hk.
Qed.

(** One pair: a rejected pair ends the loop with [false] and an
    untouched heap; an accepted pair is copied and the loop goes on. *)
Lemma copyChannel_face_returns h (k : nat) cd cs :
  copy_state a1 asrc p1 q1 dfaces sfaces h ->
  dfaces !! k = Some cd -> sfaces !! k = Some cs ->
  returns (copyChannel_face srcImage srcChannel dstChannel (Tex (Some a1))
             (Z.of_nat k)) h
    (fun r h' =>
       if pair_rejected cd cs then r = Some false /\ h' = h
       else r = None /\ copy_state a1 asrc p1 q1 dfaces sfaces h').
Proof.
  intros (Hp & Hq & Hd & Hs) Hcd Hcs. unfold copyChannel_face. simpl. rewrite Hsrc.
  destruct (Forall2_lookup_r _ _ _ _ _ Hd Hcd) as (fd & Hfd & Hlike_d).
  destruct (Forall2_lookup_r _ _ _ _ _ Hs Hcs) as (fs & Hfs & Hlike_s).
  apply returns_bind. eapply returns_Done; [exact (Private_get_live _ _ _ Hp) |].
  apply returns_bind. eapply returns_Done; [exact (Array_at_lookup _ _ _ Hfd h) |].
  apply returns_bind. eapply returns_Done; [exact (Private_get_live _ _ _ Hq) |].
  apply returns_bind. eapply returns_Done; [exact (Array_at_lookup _ _ _ Hfs h) |].
  unfold slot_like in Hlike_d, Hlike_s.
  destruct fd as [xd |], cd as [id |]; try contradiction;
    destruct fs as [xs |], cs as [ic |]; try contradiction;
    try (apply returns_ret; simpl; auto).
  destruct Hlike_d as (d & Hxd & Hed). destruct Hlike_s as (s & Hxs & Hes).
  pose proof (faces_valid_lookup _ _ _ Hdvalid Hcd) as Hvd.
  pose proof (faces_valid_lookup _ _ _ Hsvalid Hcs) as Hvs.
  rewrite <- (Image_valid_extents _ _ Hed) in Hvd.
  rewrite <- (Image_valid_extents _ _ Hes) in Hvs.
  assert (Hcomp : forall i, Image_valid i = true -> (m_componentNum i =? 4) = true).
  { intros i Hi. unfold Image_valid in Hi.
    apply andb_prop in Hi as [Hi _]. now apply andb_prop in Hi as [_ Hi]. }
  apply returns_bind. eapply returns_Done; [exact (Image_get_live _ _ _ Hxs) |].
  apply returns_bind. eapply returns_Done; [exact (Image_get_live _ _ _ Hxd) |].
  rewrite (Hcomp s Hvs), (Hcomp d Hvd).
  apply returns_bind. eapply returns_Done; [reflexivity |].
  apply returns_bind. eapply returns_Done; [reflexivity |].
  assert (Hrej : pair_rejected (Some id) (Some ic)
                 = negb (m_width s =? m_width d) || negb (m_height s =? m_height d)).
  { unfold extents in Hed, Hes. injection Hed as Hdw Hdh _ _.
    injection Hes as Hsw Hsh _ _. simpl. now rewrite <- Hdw, <- Hdh, <- Hsw, <- Hsh. }
  rewrite Hrej.
  destruct (negb (m_width s =? m_width d) || negb (m_height s =? m_height d))
    eqn:Hdims.
  - apply returns_ret. auto.
  - apply orb_false_elim in Hdims as [Hw Hh].
    apply negb_false_iff, Z.eqb_eq in Hw. apply negb_false_iff, Z.eqb_eq in Hh.
    destruct (copy_plane_in_bounds d s dstChannel srcChannel Hvd Hvs Hw Hh Hsc Hdc)
      as (d' & Hcopy & Hed').
    rewrite Hcopy.
    apply returns_bind. eapply returns_Done; [reflexivity |].
    apply returns_bind. eapply returns_Done; [exact (Image_put_live _ _ _ _ Hxd) |].
    apply returns_ret. split; [reflexivity |].
    split; [exact Hp |]. split; [exact Hq |].
    split; (eapply Forall2_impl; [eassumption |]); intros f c Hfc;
      exact (slot_like_put _ _ _ _ _ _ Hxd Hed' Hfc).
Qed.

(** With a rejected pair somewhere from slot [k] on, the loop returns
    [false]; if that pair is slot [k] itself, nothing is written. *)
Lemma copyChannel_loop_returns (d : nat) : forall (k : nat) h,
  copy_state a1 asrc p1 q1 dfaces sfaces h ->
  length dfaces = (k + d)%nat -> length sfaces = (k + d)%nat ->
  (exists i cd cs, (k <= i)%nat /\ dfaces !! i = Some cd /\ sfaces !! i = Some cs
                   /\ pair_rejected cd cs = true) ->
  returns (for_each (seqZ (Z.of_nat k) (Z.of_nat d))
             (copyChannel_face srcImage srcChannel dstChannel (Tex (Some a1)))) h
    (fun r h' =>
       r = Some false
       /\ (forall cd cs, dfaces !! k = Some cd -> sfaces !! k = Some cs ->
                         pair_rejected cd cs = true -> h' = h)).
Proof.
  induction d as [| d IH]; intros k h Hstate Hld Hls (i & cd & cs & Hi & Hcd & Hcs & Hrej).
  - apply lookup_lt_Some in Hcd. lia.
  - rewrite seqZ_of_nat_S. apply returns_for_each_cons. apply returns_bind.
    assert (Hkd : exists c, dfaces !! k = Some c)
      by (apply lookup_lt_is_Some; lia).
    assert (Hks : exists c, sfaces !! k = Some c)
      by (apply lookup_lt_is_Some; lia).
    destruct Hkd as [kd Hkd], Hks as [ks Hks].
    eapply returns_weaken;
      [exact (copyChannel_face_returns h k kd ks Hstate Hkd Hks) |].
    intros r h1 Hpost.
    destruct (pair_rejected kd ks) eqn:Hk.
    + destruct Hpost as [-> ->]. apply returns_ret. auto.
    + destruct Hpost as [-> Hstate1].
      assert (Hne : i <> k) by (intros ->; congruence).
      eapply returns_weaken;
        [apply (IH (S k) h1 Hstate1); [lia | lia |];
         exists i, cd, cs; repeat split; auto; lia |].
      intros r h2 [-> _]. split; [reflexivity |].
      intros cd' cs' Hcd' Hcs' Hrej'. congruence.
Qed.

End CopyChannelLoop.

Lemma face_at_slot_like h f c : face_at h f = Some c -> slot_like h f c.
Proof.
  unfold slot_like. destruct f as [x |]; simpl.
  - destruct (images h !! x) as [[img |] |]; try discriminate.
    intros [= <-]. eauto.
  - now intros [= <-].
Qed.

(** The faces [detach] leaves the handle with show what the faces before
    showed. *)
Lemma same_faces_observed h faces h' faces' contents :
  Forall2 (fun f c => face_at h f = Some c) faces contents ->
  same_faces h faces h' faces' ->
  Forall2 (fun f c => face_at h' f = Some c) faces' contents.
Proof.
  intros Hall (Hlen & Hnull & Hpop).
  apply Forall2_same_length_lookup_2.
  - apply Forall2_length in Hall. congruence.
  - intros i f' c Hf' Hc.
    destruct (Forall2_lookup_r _ _ _ _ _ Hall Hc) as (f & Hf & Hat).
    destruct f as [x |].
    + simpl in Hat. destruct (images h !! x) as [[img |] |] eqn:Hx; try discriminate.
      injection Hat as <-.
      destruct (Hpop i x img Hf Hx) as (x' & Hx' & Himg).
      replace f' with (Some x') by congruence. simpl. now rewrite Himg.
    + simpl in Hat. injection Hat as <-.
      apply Hnull in Hf. replace f' with (@None nat) by congruence. reflexivity.
Qed.

Lemma images_kept_observed h h' faces contents :
  Forall2 (fun f c => face_at h f = Some c) faces contents ->
  images_kept h h' ->
  Forall2 (fun f c => face_at h' f = Some c) faces contents.
Proof.
  intros Hall Hkept. eapply Forall2_impl; [exact Hall |].
  intros [x |] c; simpl; [| auto].
  destruct (images h !! x) as [[img |] |] eqn:Hx; try discriminate.
  intros [= <-]. now rewrite (Hkept _ _ Hx).
Qed.

Lemma observe_fields t h s p :
  observe t h = Some s -> payload_at h t = Some p ->
  s = mkSnapshot (Private.type p) (Private.wrapMode p) (Private.alphaMode p)
        (Private.isNormalMap p) (s_faces s).
Proof.
  unfold observe. intros Hobs Hp. rewrite Hp in Hobs. simpl in Hobs.
  destruct (mapM (face_at h) (Private.imageArray p)); [| discriminate].
  now injection Hobs as <-.
Qed.

(** C5, amended: [copyChannel] returns false whenever the face counts
    differ, and then nothing at all is written; with equal counts it
    returns false whenever some pair of corresponding faces has an absent
    face or differs in width or height, and the destination shows the
    same pixel data as before when the first pair is such a pair. *)
Theorem copyChannel_rejects (srcImage this : TexImage)
    (srcChannel dstChannel : Z) (h : Heap) (s ss : Snapshot) :
  observe this h = Some s ->
  observe srcImage h = Some ss ->
  faces_valid (s_faces s) = true ->
  faces_valid (s_faces ss) = true ->
  Z.of_nat (length (s_faces s)) < 2 ^ 31 ->
  Z.of_nat (length (s_faces ss)) < 2 ^ 31 ->
  0 <= srcChannel < 4 ->
  0 <= dstChannel < 4 ->
  (length (s_faces s) <> length (s_faces ss) ->
   copyChannel srcImage srcChannel dstChannel this h = Done ((false, this), h))
  /\ (length (s_faces s) = length (s_faces ss) ->
      existsb (fun dc => pair_rejected dc.1 dc.2) (zip (s_faces s) (s_faces ss))
      = true ->
      exists this' h',
        copyChannel srcImage srcChannel dstChannel this h
        = Done ((false, this'), h')
        /\ (forall d0 s0,
               s_faces s !! 0%nat = Some d0 -> s_faces ss !! 0%nat = Some s0 ->
               pair_rejected d0 s0 = true -> observe this' h' = Some s)).
Proof.
  intros Hobs Hobs_src Hvalid Hvalid_src Hlen Hlen_src Hsc Hdc.
  destruct (observe_Some _ _ _ Hobs) as (p & Hp & Hall & _).
  destruct (observe_Some _ _ _ Hobs_src) as (q & Hq & Hall_src & _).
  pose proof (Forall2_length _ _ _ Hall) as Hlp.
  pose proof (Forall2_length _ _ _ Hall_src) as Hlq.
  pose proof (faceCount_live _ _ _ Hp) as Hfc.
  pose proof (faceCount_live _ _ _ Hq) as Hfc_src.
  rewrite to_int_small in Hfc, Hfc_src by lia.
  split.
  - intros Hne. unfold copyChannel. step Hfc. step Hfc_src.
    destruct (Z.eqb_spec (Z.of_nat (length (Private.imageArray p)))
                (Z.of_nat (length (Private.imageArray q)))); [lia | reflexivity].
  - intros Heq Hsome.
    pose proof (observe_fields _ _ _ _ Hobs Hp) as Hfields.
    apply payload_at_Some in Hp as (a & Hm & Hpa).
    apply payload_at_Some in Hq as (asrc & Hmsrc & Hqa).
    destruct this as [mthis]. simpl in Hm. subst mthis.
    destruct (detach_returns h a p Hpa (observed_faces_live _ _ _ Hall))
      as (this1 & h1 & Hdetach & a1 & p1 & -> & Hp1 & Hsame_fields & Hsame
          & _ & _ & Hkept & Hpkept).
    destruct (Hpkept _ _ Hqa) as (q1 & Hq1 & _ & Hq1faces).
    pose proof (same_faces_observed _ _ _ _ _ Hall Hsame) as Hall1.
    pose proof (images_kept_observed _ _ _ _ Hall_src Hkept) as Hall_src1.
    rewrite <- Hq1faces in Hall_src1.
    assert (Hstate : copy_state a1 asrc p1 q1 (s_faces s) (s_faces ss) h1).
    { split; [exact Hp1 |]. split; [exact Hq1 |].
      split; (eapply Forall2_impl; [eassumption |]);
        intros f c; apply face_at_slot_like. }
    assert (Hrej : exists i cd cs,
               (0 <= i)%nat /\ s_faces s !! i = Some cd /\ s_faces ss !! i = Some cs
               /\ pair_rejected cd cs = true).
    { apply existsb_exists in Hsome as ([cd cs] & Hin & Hrej).
      apply list_elem_of_In, elem_of_lookup_zip_with in Hin
        as (i & cd' & cs' & [= <- <-] & Hcd & Hcs).
      exists i, cd, cs. repeat split; auto. lia. }
    pose proof (Forall2_length _ _ _ Hall1) as Hlp1.
    destruct (copyChannel_loop_returns srcImage srcChannel dstChannel a1 asrc
                p1 q1 (s_faces s) (s_faces ss) Hmsrc Hsc Hdc Hvalid Hvalid_src
                (length (s_faces s)) 0%nat h1 Hstate eq_refl (eq_sym Heq) Hrej)
      as (r & h2 & Hloop & -> & Hhead).
    exists (Tex (Some a1)), h2. split.
    + unfold copyChannel. step Hfc. step Hfc_src.
      destruct (Z.eqb_spec (Z.of_nat (length (Private.imageArray p)))
                  (Z.of_nat (length (Private.imageArray q)))); [| lia].
      cbn [negb]. step Hdetach. cbn [m].
      step (Private_get_live _ _ _ Hp1). rewrite Hlp1.
      change (Z.of_nat 0) with 0 in Hloop. step Hloop. reflexivity.
    + intros d0 s0 Hd0 Hs0 Hrej0.
      rewrite (Hhead d0 s0 Hd0 Hs0 Hrej0).
      unfold observe, payload_at. simpl. rewrite Hp1. simpl.
      apply mapM_Some in Hall1. rewrite Hall1. simpl.
      destruct Hsame_fields as (Ht & Hw & Ha & Hn).
      rewrite Hfields at 2. now rewrite Ht, Hw, Ha, Hn.
Qed.

(** The heap [two_cubes] is what building the two Cubes leaves. *)
Lemma two_cubes_constructed :
  (D <- cube_with_face0 (plain 1 1 F32.zero) ;;
   S <- cube_with_face0 (plain 1 1 F32.one) ;;
   ret (D, S)) empty_heap
  = Done ((Tex (Some 0%nat), Tex (Some 1%nat)), two_cubes).
Proof. reflexivity. Qed.

(** Between two Cubes whose faces 1 to 5 are absent. *)
Lemma copyChannel_rejects_between_cubes :
  observe (Tex (Some 0%nat)) two_cubes = Some (cube_shot (plain 1 1 F32.zero))
  /\ observe (Tex (Some 1%nat)) two_cubes = Some (cube_shot (plain 1 1 F32.one))
  /\ exists this' h',
       copyChannel (Tex (Some 1%nat)) 0 0 (Tex (Some 0%nat)) two_cubes
       = Done ((false, this'), h').
Proof.
  split; [reflexivity |]. split; [reflexivity |].
  destruct (copyChannel_rejects (Tex (Some 1%nat)) (Tex (Some 0%nat)) 0 0
              two_cubes (cube_shot (plain 1 1 F32.zero))
              (cube_shot (plain 1 1 F32.one))
              eq_refl eq_refl eq_refl eq_refl
              ltac:(simpl; lia) ltac:(simpl; lia) ltac:(lia) ltac:(lia))
    as [_ Hequal].
  destruct (Hequal eq_refl eq_refl) as (this' & h' & Hrun & _).
  exists this', h'. exact Hrun.
Defined.

(** C5, as stated, fails: face 1 of both Cubes is absent, [copyChannel]
    returns false, and face 0 of the destination has been written. *)
Lemma copyChannel_fails_after_writing :
  exists before after h,
    copyChannel_into_cube empty_heap = Done ((Some before, false, Some after), h)
    /\ s_faces before !! 0%nat = Some (Some (plain 1 1 F32.zero))
    /\ s_faces after !! 0%nat
       = Some (Some (mkFloatImage 1 1 4 [F32.one; F32.zero; F32.zero; F32.zero]))
    /\ s_faces before !! 1%nat = Some None.
Proof.
  eexists _, _, _. split; [vm_compute; reflexivity |].
  repeat split.
Qed.

(** ** Error metrics *)

(** C10: when neither texture has a face slot, both metrics pass the
    face-count test, add nothing up and return the square root of 0/0,
    which is a NaN and not the sentinel. *)
Theorem rootMeanSquaredError_without_faces (reference this : TexImage)
    (h : Heap) (p q : Private.t) :
  payload_at h this = Some p -> Private.imageArray p = [] ->
  payload_at h reference = Some q -> Private.imageArray q = [] ->
  rootMeanSquaredError_rgb reference this h = Done (S754_nan, h)
  /\ rootMeanSquaredError_alpha reference this h = Done (S754_nan, h)
  /\ is_nan S754_nan = true /\ S754_nan <> F32.FLT_MAX /\ S754_nan <> F32.zero.
Proof.
  intros Hp Hpe Hq Hqe.
  pose proof (faceCount_live _ _ _ Hp) as Hfc.
  pose proof (faceCount_live _ _ _ Hq) as Hfr.
  rewrite Hpe in Hfc. rewrite Hqe in Hfr.
  repeat split; try discriminate.
  - unfold rootMeanSquaredError_rgb. step Hfc. step Hfr. reflexivity.
  - unfold rootMeanSquaredError_alpha. step Hfc. step Hfr. reflexivity.
Qed.

(** The heap [two_new_textures] is what two constructor calls leave. *)
Lemma two_new_textures_constructed :
  (A <- TexImage_new ;; B <- TexImage_new ;; ret (A, B)) empty_heap
  = Done ((Tex (Some 0%nat), Tex (Some 1%nat)), two_new_textures).
Proof. reflexivity. Qed.

(** Two newly constructed textures compared with each other. *)
Lemma rootMeanSquaredError_of_new_textures :
  rootMeanSquaredError_rgb (Tex (Some 1%nat)) (Tex (Some 0%nat)) two_new_textures
  = Done (S754_nan, two_new_textures)
  /\ rootMeanSquaredError_alpha (Tex (Some 1%nat)) (Tex (Some 0%nat)) two_new_textures
     = Done (S754_nan, two_new_textures).
Proof.
  pose proof (rootMeanSquaredError_without_faces (Tex (Some 1%nat))
                (Tex (Some 0%nat)) two_new_textures _ _
                eq_refl eq_refl eq_refl eq_refl) as (Hrgb & Halpha & _).
  exact (conj Hrgb Halpha).
Defined.

Lemma fold_range_out_of_bounds {S} idxs (body : Z -> S -> option S) i :
  i ∈ idxs -> (forall s, body i s = None) ->
  forall s, fold_range idxs body s = None.
Proof.
  intros Hin Hfail. induction idxs as [| j rest IH]; intros s.
  - inversion Hin.
  - simpl. apply elem_of_cons in Hin as [<- | Hin].
    + now rewrite Hfail.
    + destruct (body j s) as [s' |]; simpl; auto.
Qed.

Lemma Image_read_beyond img idx :
  Z.of_nat (length (m_mem img)) <= idx -> Image.read img idx = None.
Proof.
  intros Hidx. unfold Image.read.
  destruct (Z.ltb_spec idx 0); [reflexivity |].
  apply lookup_ge_None. lia.
Qed.

(** With two or more samples per plane, the last round of the pixel loop
    reads its alpha sample at index [7 * count - 4], beyond the four
    planes. *)
Lemma rgb_error_step_last weighted img ref count mse :
  Z.of_nat (length (m_mem img)) = 4 * count -> 2 <= count < 2 ^ 29 ->
  rgb_error_step weighted img ref count (count - 1) mse = None.
Proof.
  intros Hlen Hcount. unfold rgb_error_step.
  destruct (Image.read img (Int.to_uint (4 * (count - 1) + count * 0)));
    [simpl | reflexivity].
  destruct (Image.read img (Int.to_uint (4 * (count - 1) + count * 1)));
    [simpl | reflexivity].
  destruct (Image.read img (Int.to_uint (4 * (count - 1) + count * 2)));
    [simpl | reflexivity].
  rewrite (Image_read_beyond img (Int.to_uint (4 * (count - 1) + count * 3)));
    [reflexivity |].
  rewrite to_uint_small by lia. lia.
Qed.

Lemma alpha_error_step_last img ref count mse :
  Z.of_nat (length (m_mem img)) = 4 * count -> 2 <= count < 2 ^ 29 ->
  alpha_error_step img ref count (count - 1) mse = None.
Proof.
  intros Hlen Hcount. unfold alpha_error_step.
  rewrite (Image_read_beyond img (Int.to_uint (4 * (count - 1) + count * 3)));
    [reflexivity |].
  rewrite to_uint_small by lia. lia.
Qed.

Lemma seqZ_last_elem count : 1 <= count -> count - 1 ∈ seqZ 0 count.
Proof. intros Hc. apply elem_of_seqZ. lia. Qed.

Lemma nvCheck_true h : nvCheck true h = Done (tt, h).
Proof. reflexivity. Qed.

Lemma alphaMode_live h t p :
  payload_at h t = Some p -> alphaMode t h = Done (Private.alphaMode p, h).
Proof.
  intros (a & Hm & Hp)%payload_at_Some. unfold alphaMode. rewrite Hm.
  step (Private_get_live h a p Hp). reflexivity.
Qed.

(** Whenever face 0 of both textures is populated and has two or more
    pixels, both metrics leave the buffer of face 0. *)
Lemma rootMeanSquaredError_out_of_bounds reference this h p q x y img ref :
  payload_at h this = Some p -> payload_at h reference = Some q ->
  length (Private.imageArray p) = length (Private.imageArray q) ->
  Z.of_nat (length (Private.imageArray p)) < 2 ^ 31 ->
  Private.imageArray p !! 0%nat = Some (Some x) ->
  Private.imageArray q !! 0%nat = Some (Some y) ->
  images h !! x = Some (Some img) -> images h !! y = Some (Some ref) ->
  m_componentNum img = 4 -> m_componentNum ref = 4 ->
  Z.of_nat (length (m_mem img)) = 4 * (m_width img * m_height img) ->
  2 <= m_width img * m_height img < 2 ^ 29 ->
  rootMeanSquaredError_rgb reference this h = Fault OutOfBounds
  /\ rootMeanSquaredError_alpha reference this h = Fault OutOfBounds.
Proof.
  intros Hp Hq Hlen Hsmall Hx Hy Himg Href Hci Hcr Hmem Hcount.
  pose proof (alphaMode_live _ _ _ Hq) as Hmode.
  pose proof (faceCount_live _ _ _ Hp) as Hfc.
  pose proof (faceCount_live _ _ _ Hq) as Hfr.
  rewrite to_int_small in Hfc, Hfr by lia.
  apply payload_at_Some in Hp as (a & Hm & Hpa).
  apply payload_at_Some in Hq as (b & Hmr & Hqb).
  assert (Hpos : 0 < Z.of_nat (length (Private.imageArray p)))
    by (apply lookup_lt_Some in Hx; lia).
  pose proof (Array_at_lookup _ 0%nat _ Hx h) as Hatx.
  pose proof (Array_at_lookup _ 0%nat _ Hy h) as Haty.
  change (Z.of_nat 0) with 0 in Hatx, Haty.
  set (count := m_width img * m_height img) in *.
  assert (Hu : Int.to_uint count = count) by (apply to_uint_small; lia).
  split.
  - unfold rootMeanSquaredError_rgb. step Hfc. step Hfr.
    rewrite Hlen, Z.eqb_refl. cbn [negb]. rewrite <- Hlen.
    apply bind_Fault. rewrite seqZ_cons by exact Hpos. cbn [for_fold].
    apply bind_Fault. rewrite Hm, Hmr.
    step (Private_get_live _ _ _ Hpa). step Hatx.
    step (Private_get_live _ _ _ Hqb). step Haty.
    step (Image_get_live _ _ _ Himg). step (Image_get_live _ _ _ Href).
    rewrite Hci, Hcr. change (4 =? 4) with true.
    step (nvCheck_true h). step (nvCheck_true h). step Hmode.
    apply bind_Fault. fold count. rewrite Hu.
    rewrite (fold_range_out_of_bounds _ _ (count - 1));
      [reflexivity | apply seqZ_last_elem; lia |].
    intros s. now apply rgb_error_step_last.
  - unfold rootMeanSquaredError_alpha. step Hfc. step Hfr.
    rewrite Hlen, Z.eqb_refl. cbn [negb]. rewrite <- Hlen.
    apply bind_Fault. rewrite seqZ_cons by exact Hpos. cbn [for_fold].
    apply bind_Fault. rewrite Hm, Hmr.
    step (Private_get_live _ _ _ Hpa). step Hatx.
    step (Private_get_live _ _ _ Hqb). step Haty.
    step (Image_get_live _ _ _ Himg). step (Image_get_live _ _ _ Href).
    rewrite Hci, Hcr. change (4 =? 4) with true.
    step (nvCheck_true h). step (nvCheck_true h).
    apply bind_Fault. fold count. rewrite Hu.
    rewrite (fold_range_out_of_bounds _ _ (count - 1));
      [reflexivity | apply seqZ_last_elem; lia |].
    intros s. now apply alpha_error_step_last.
Qed.

(** Textures with different face counts: the sentinel. *)
Lemma rootMeanSquaredError_face_counts_differ reference this h p q :
  payload_at h this = Some p -> payload_at h reference = Some q ->
  Z.of_nat (length (Private.imageArray p)) < 2 ^ 31 ->
  Z.of_nat (length (Private.imageArray q)) < 2 ^ 31 ->
  length (Private.imageArray p) <> length (Private.imageArray q) ->
  rootMeanSquaredError_rgb reference this h = Done (F32.FLT_MAX, h)
  /\ rootMeanSquaredError_alpha reference this h = Done (F32.FLT_MAX, h).
Proof.
  intros Hp Hq Hsp Hsq Hne.
  pose proof (faceCount_live _ _ _ Hp) as Hfc.
  pose proof (faceCount_live _ _ _ Hq) as Hfr.
  rewrite to_int_small in Hfc, Hfr by lia.
  split.
  - unfold rootMeanSquaredError_rgb. step Hfc. step Hfr.
    destruct (Z.eqb_spec (Z.of_nat (length (Private.imageArray p)))
                (Z.of_nat (length (Private.imageArray q)))); [lia | reflexivity].
  - unfold rootMeanSquaredError_alpha. step Hfc. step Hfr.
    destruct (Z.eqb_spec (Z.of_nat (length (Private.imageArray p)))
                (Z.of_nat (length (Private.imageArray q)))); [lia | reflexivity].
Qed.

(** Equal face counts and an absent face in the first pair: the
    sentinel. *)
Lemma rootMeanSquaredError_first_face_absent reference this h p q f g :
  payload_at h this = Some p -> payload_at h reference = Some q ->
  length (Private.imageArray p) = length (Private.imageArray q) ->
  Z.of_nat (length (Private.imageArray p)) < 2 ^ 31 ->
  Private.imageArray p !! 0%nat = Some f ->
  Private.imageArray q !! 0%nat = Some g ->
  f = None \/ g = None ->
  rootMeanSquaredError_rgb reference this h = Done (F32.FLT_MAX, h)
  /\ rootMeanSquaredError_alpha reference this h = Done (F32.FLT_MAX, h).
Proof.
  intros Hp Hq Hlen Hsmall Hf Hg Habsent.
  pose proof (faceCount_live _ _ _ Hp) as Hfc.
  pose proof (faceCount_live _ _ _ Hq) as Hfr.
  rewrite to_int_small in Hfc, Hfr by lia.
  apply payload_at_Some in Hp as (a & Hm & Hpa).
  apply payload_at_Some in Hq as (b & Hmr & Hqb).
  assert (Hpos : 0 < Z.of_nat (length (Private.imageArray p)))
    by (apply lookup_lt_Some in Hf; lia).
  pose proof (Array_at_lookup _ 0%nat _ Hf h) as Hatf.
  pose proof (Array_at_lookup _ 0%nat _ Hg h) as Hatg.
  change (Z.of_nat 0) with 0 in Hatf, Hatg.
  split.
  - unfold rootMeanSquaredError_rgb. step Hfc. step Hfr.
    rewrite Hlen, Z.eqb_refl. cbn [negb]. rewrite <- Hlen.
    rewrite seqZ_cons by exact Hpos. cbn [for_fold]. rewrite Hm, Hmr.
    rewrite (bind_Done _ _ h (inr F32.FLT_MAX) h); [reflexivity |].
    rewrite (bind_Done _ _ h (inr F32.FLT_MAX) h); [reflexivity |].
    step (Private_get_live _ _ _ Hpa). step Hatf.
    step (Private_get_live _ _ _ Hqb). step Hatg.
    destruct Habsent as [-> | ->]; [| destruct f]; reflexivity.
  - unfold rootMeanSquaredError_alpha. step Hfc. step Hfr.
    rewrite Hlen, Z.eqb_refl. cbn [negb]. rewrite <- Hlen.
    rewrite seqZ_cons by exact Hpos. cbn [for_fold]. rewrite Hm, Hmr.
    rewrite (bind_Done _ _ h (inr F32.FLT_MAX) h); [reflexivity |].
    rewrite (bind_Done _ _ h (inr F32.FLT_MAX) h); [reflexivity |].
    step (Private_get_live _ _ _ Hpa). step Hatf.
    step (Private_get_live _ _ _ Hqb). step Hatg.
    destruct Habsent as [-> | ->]; [| destruct f]; reflexivity.
Qed.

Lemma Image_read_within img idx :
  0 <= idx < Z.of_nat (length (m_mem img)) ->
  exists v, Image.read img idx = Some v.
Proof.
  intros Hidx. unfold Image.read.
  destruct (Z.ltb_spec idx 0); [lia |].
  apply lookup_lt_is_Some. lia.
Qed.

Lemma fold_range_within {S} idxs (body : Z -> S -> option S) :
  (forall i s, i ∈ idxs -> exists s', body i s = Some s') ->
  forall s, exists s', fold_range idxs body s = Some s'.
Proof.
  induction idxs as [| j rest IH]; intros Hbody s.
  - exists s. reflexivity.
  - destruct (Hbody j s ltac:(left)) as [s1 Hs1]. simpl. rewrite Hs1. simpl.
    apply IH. intros i s0 Hi. apply Hbody. now right.
Qed.

(** Inside the buffers every round of the two pixel loops goes
    through. *)
Lemma error_steps_within weighted img ref count i mse :
  0 <= i < count -> count < 2 ^ 29 ->
  7 * count - 4 < Z.of_nat (length (m_mem img)) ->
  7 * count - 4 < Z.of_nat (length (m_mem ref)) ->
  (exists mse', rgb_error_step weighted img ref count i mse = Some mse')
  /\ (exists mse', alpha_error_step img ref count i mse = Some mse').
Proof.
  intros Hi Hcount Himg Href.
  assert (Hread : forall f c, 0 <= c < 4 ->
             7 * count - 4 < Z.of_nat (length (m_mem f)) ->
             exists v, Image.read f (Int.to_uint (4 * i + count * c)) = Some v).
  { intros f c Hc Hf. apply Image_read_within.
    rewrite to_uint_small by nia. nia. }
  destruct (Hread img 0 ltac:(lia) Himg) as [r0 Hr0].
  destruct (Hread img 1 ltac:(lia) Himg) as [g0 Hg0].
  destruct (Hread img 2 ltac:(lia) Himg) as [b0 Hb0].
  destruct (Hread img 3 ltac:(lia) Himg) as [a0 Ha0].
  destruct (Hread ref 0 ltac:(lia) Href) as [r1 Hr1].
  destruct (Hread ref 1 ltac:(lia) Href) as [g1 Hg1].
  destruct (Hread ref 2 ltac:(lia) Href) as [b1 Hb1].
  destruct (Hread ref 3 ltac:(lia) Href) as [a1 Ha1].
  split.
  - unfold rgb_error_step.
    rewrite Hr0, Hg0, Hb0, Ha0, Hr1, Hg1, Hb1, Ha1. cbn [mbind option_bind].
    destruct weighted; eexists; reflexivity.
  - unfold alpha_error_step. rewrite Ha0, Ha1. cbn [mbind option_bind].
    eexists. reflexivity.
Qed.

Lemma pixel_loops_within weighted img ref mse :
  scan_in_bounds img ref ->
  let count := Int.to_uint (m_width img * m_height img) in
  (exists mse', fold_range (seqZ 0 count)
                  (rgb_error_step weighted img ref count) mse = Some mse')
  /\ (exists mse', fold_range (seqZ 0 count)
                     (alpha_error_step img ref count) mse = Some mse').
Proof.
  unfold scan_in_bounds. cbv zeta.
  set (count := Int.to_uint (m_width img * m_height img)).
  intros [Hzero | (Hcount & Himg & Href)].
  - rewrite Hzero. split; exists mse; reflexivity.
  - split; apply fold_range_within; intros i s Hi%elem_of_seqZ;
      apply (error_steps_within weighted img ref count i s); auto; lia.
Qed.

Section SentinelLoop.

(** A loop over the faces that returns [v] in round [k], when no round
    in front of [k] stops it with anything else: a round in front may
    go on, return [v] itself, or, unless [strict] holds, leave a
    buffer. *)
Context {St : Type}.
Variables (body : Z -> St -> M (St + float)) (h : Heap) (v : float) (k : nat)
  (strict : Prop).
Hypothesis Hlast : forall st, body (Z.of_nat k) st h = Done (inr v, h).
Hypothesis Hfront : forall i st, (i < k)%nat ->
  body (Z.of_nat i) st h = Done (inr v, h)
  \/ (exists st', body (Z.of_nat i) st h = Done (inl st', h))
  \/ (~ strict /\ body (Z.of_nat i) st h = Fault OutOfBounds).

Lemma sentinel_loop (d : nat) :
  forall (j r : nat) st,
    (j + d = k)%nat ->
    for_fold (seqZ (Z.of_nat j) (Z.of_nat (d + S r))) body st h
    = Done (inr v, h)
    \/ (~ strict
        /\ for_fold (seqZ (Z.of_nat j) (Z.of_nat (d + S r))) body st h
           = Fault OutOfBounds).
Proof.
  induction d as [| d IH]; intros j r st Hj.
  - replace j with k by lia. cbn [Nat.add]. rewrite seqZ_of_nat_S.
    cbn [for_fold]. left. now rewrite (bind_Done _ _ _ _ _ (Hlast st)).
  - replace (S d + S r)%nat with (S (d + S r)) by lia. rewrite seqZ_of_nat_S.
    cbn [for_fold].
    destruct (Hfront j st ltac:(lia)) as [Hstop | [[st' Hgo] | [Hloose Hout]]].
    + left. now rewrite (bind_Done _ _ _ _ _ Hstop).
    + rewrite (bind_Done _ _ _ _ _ Hgo). apply IH. lia.
    + right. split; [exact Hloose |]. now apply bind_Fault.
Qed.

End SentinelLoop.

Section Incomparable.

(** Two live textures with as many face slots, and a pair [k] with an
    absent face; the populated pairs in front of it are live images of
    four channels. *)
Variables (reference this : TexImage) (h : Heap) (p q : Private.t) (k : nat).
Hypothesis Hp : payload_at h this = Some p.
Hypothesis Hq : payload_at h reference = Some q.
Hypothesis Hlen : length (Private.imageArray p) = length (Private.imageArray q).
Hypothesis Hsmall : Z.of_nat (length (Private.imageArray p)) < 2 ^ 31.
Hypothesis Habsent :
  Private.imageArray p !! k = Some None \/ Private.imageArray q !! k = Some None.

Variable strict : Prop.
Hypothesis Hpairs : forall i, (i < k)%nat -> pair_comparable h p q i.
Hypothesis Hscans : strict -> scans_in_bounds h p q.

Lemma incomparable_slots (i : nat) :
  (i <= k)%nat ->
  exists f g, Private.imageArray p !! i = Some f
              /\ Private.imageArray q !! i = Some g.
Proof.
  intros Hi.
  assert (Hk : (k < length (Private.imageArray p))%nat).
  { destruct Habsent as [Hf | Hg]; apply lookup_lt_Some in Hf || apply lookup_lt_Some in Hg; lia. }
  destruct (lookup_lt_is_Some_2 (Private.imageArray p) i ltac:(lia)) as [f Hf].
  destruct (lookup_lt_is_Some_2 (Private.imageArray q) i ltac:(lia)) as [g Hg].
  eauto.
Qed.

Lemma rgb_round (i : nat) (st : Z * double) :
  (i <= k)%nat ->
  let body := fun f (s : Z * double) =>
    let '(totalCount, mse) := s in
    p <- Private_get (m this) ;;
    img <- Array_at (Private.imageArray p) f ;;
    q <- Private_get (m reference) ;;
    ref <- Array_at (Private.imageArray q) f ;;
    match img, ref with
    | Some _, Some _ =>
        img <- Image_get img ;;
        ref <- Image_get ref ;;
        nvCheck (m_componentNum img =? 4) ;;
        nvCheck (m_componentNum ref =? 4) ;;
        let count := Int.to_uint (m_width img * m_height img) in
        let totalCount := Int.to_int (totalCount + count) in
        mode <- alphaMode reference ;;
        mse <- in_bounds
                 (fold_range (seqZ 0 count)
                    (rgb_error_step
                       (AlphaMode_eqb mode AlphaMode_Transparency)
                       img ref count) mse) ;;
        ret (inl (totalCount, mse))
    | _, _ => ret (inr F32.FLT_MAX)
    end in
  (i = k -> body (Z.of_nat i) st h = Done (inr F32.FLT_MAX, h))
  /\ ((i < k)%nat ->
      body (Z.of_nat i) st h = Done (inr F32.FLT_MAX, h)
      \/ (exists st', body (Z.of_nat i) st h = Done (inl st', h))
      \/ (~ strict /\ body (Z.of_nat i) st h = Fault OutOfBounds)).
Proof.
  intros Hi body.
  destruct (incomparable_slots i Hi) as (f & g & Hf & Hg).
  pose proof (alphaMode_live _ _ _ Hq) as Hmode.
  pose proof Hp as (a & Hm & Hpa)%payload_at_Some.
  pose proof Hq as (b & Hmr & Hqb)%payload_at_Some.
  destruct st as [totalCount mse].
  assert (Hround :
    body (Z.of_nat i) (totalCount, mse) h
    = match f, g with
      | Some _, Some _ =>
          img <- Image_get f ;;
          ref <- Image_get g ;;
          nvCheck (m_componentNum img =? 4) ;;
          nvCheck (m_componentNum ref =? 4) ;;
          let count := Int.to_uint (m_width img * m_height img) in
          let totalCount := Int.to_int (totalCount + count) in
          mode <- alphaMode reference ;;
          mse <- in_bounds
                   (fold_range (seqZ 0 count)
                      (rgb_error_step
                         (AlphaMode_eqb mode AlphaMode_Transparency)
                         img ref count) mse) ;;
          ret (inl (totalCount, mse))
      | _, _ => ret (inr F32.FLT_MAX)
      end h).
  { unfold body. cbv beta iota. rewrite Hm, Hmr.
    step (Private_get_live _ _ _ Hpa).
    step (Array_at_lookup _ _ _ Hf h). step (Private_get_live _ _ _ Hqb).
    now step (Array_at_lookup _ _ _ Hg h). }
  rewrite Hround. clear Hround.
  split.
  - intros ->.
    destruct Habsent as [Hnone | Hnone].
    + assert (f = None) by congruence. subst f. reflexivity.
    + assert (g = None) by congruence. subst g. now destruct f.
  - intros Hlt.
    destruct f as [x |]; [| left; reflexivity].
    destruct g as [y |]; [| left; reflexivity].
    destruct (Hpairs i Hlt x y Hf Hg)
      as (img & ref & Himg & Href & Hci & Hcr).
    right.
    step (Image_get_live _ _ _ Himg). step (Image_get_live _ _ _ Href).
    rewrite Hci, Hcr. change (4 =? 4) with true.
    step (nvCheck_true h). step (nvCheck_true h). cbv zeta. step Hmode.
    destruct (fold_range
                (seqZ 0 (Int.to_uint (m_width img * m_height img)))
                (rgb_error_step
                   (AlphaMode_eqb (Private.alphaMode q) AlphaMode_Transparency)
                   img ref (Int.to_uint (m_width img * m_height img))) mse)
      as [mse' |] eqn:Hfold.
    + left. eexists. reflexivity.
    + right. split; [| reflexivity].
      intros Hs.
      destruct (pixel_loops_within
                  (AlphaMode_eqb (Private.alphaMode q) AlphaMode_Transparency)
                  img ref mse (Hscans Hs i x y img ref Hf Hg Himg Href))
        as [[mse' Hsome] _].
      cbv zeta in Hsome. congruence.
Qed.

Lemma alpha_round (i : nat) (st : Z * double) :
  (i <= k)%nat ->
  let body := fun f (s : Z * double) =>
    let '(totalCount, mse) := s in
    p <- Private_get (m this) ;;
    img <- Array_at (Private.imageArray p) f ;;
    q <- Private_get (m reference) ;;
    ref <- Array_at (Private.imageArray q) f ;;
    match img, ref with
    | Some _, Some _ =>
        img <- Image_get img ;;
        ref <- Image_get ref ;;
        nvCheck (m_componentNum img =? 4) ;;
        nvCheck (m_componentNum ref =? 4) ;;
        let count := Int.to_uint (m_width img * m_height img) in
        let totalCount := Int.to_int (totalCount + count) in
        mse <- in_bounds
                 (fold_range (seqZ 0 count)
                    (alpha_error_step img ref count) mse) ;;
        ret (inl (totalCount, mse))
    | _, _ => ret (inr F32.FLT_MAX)
    end in
  (i = k -> body (Z.of_nat i) st h = Done (inr F32.FLT_MAX, h))
  /\ ((i < k)%nat ->
      body (Z.of_nat i) st h = Done (inr F32.FLT_MAX, h)
      \/ (exists st', body (Z.of_nat i) st h = Done (inl st', h))
      \/ (~ strict /\ body (Z.of_nat i) st h = Fault OutOfBounds)).
Proof.
  intros Hi body.
  destruct (incomparable_slots i Hi) as (f & g & Hf & Hg).
  pose proof Hp as (a & Hm & Hpa)%payload_at_Some.
  pose proof Hq as (b & Hmr & Hqb)%payload_at_Some.
  destruct st as [totalCount mse].
  assert (Hround :
    body (Z.of_nat i) (totalCount, mse) h
    = match f, g with
      | Some _, Some _ =>
          img <- Image_get f ;;
          ref <- Image_get g ;;
          nvCheck (m_componentNum img =? 4) ;;
          nvCheck (m_componentNum ref =? 4) ;;
          let count := Int.to_uint (m_width img * m_height img) in
          let totalCount := Int.to_int (totalCount + count) in
          mse <- in_bounds
                   (fold_range (seqZ 0 count)
                      (alpha_error_step img ref count) mse) ;;
          ret (inl (totalCount, mse))
      | _, _ => ret (inr F32.FLT_MAX)
      end h).
  { unfold body. cbv beta iota. rewrite Hm, Hmr.
    step (Private_get_live _ _ _ Hpa).
    step (Array_at_lookup _ _ _ Hf h). step (Private_get_live _ _ _ Hqb).
    now step (Array_at_lookup _ _ _ Hg h). }
  rewrite Hround. clear Hround.
  split.
  - intros ->.
    destruct Habsent as [Hnone | Hnone].
    + assert (f = None) by congruence. subst f. reflexivity.
    + assert (g = None) by congruence. subst g. now destruct f.
  - intros Hlt.
    destruct f as [x |]; [| left; reflexivity].
    destruct g as [y |]; [| left; reflexivity].
    destruct (Hpairs i Hlt x y Hf Hg)
      as (img & ref & Himg & Href & Hci & Hcr).
    right.
    step (Image_get_live _ _ _ Himg). step (Image_get_live _ _ _ Href).
    rewrite Hci, Hcr. change (4 =? 4) with true.
    step (nvCheck_true h). step (nvCheck_true h). cbv zeta.
    destruct (fold_range
                (seqZ 0 (Int.to_uint (m_width img * m_height img)))
                (alpha_error_step img ref
                   (Int.to_uint (m_width img * m_height img))) mse)
      as [mse' |] eqn:Hfold.
    + left. eexists. reflexivity.
    + right. split; [| reflexivity].
      intros Hs.
      destruct (pixel_loops_within false img ref mse
                  (Hscans Hs i x y img ref Hf Hg Himg Href))
        as [_ [mse' Hsome]].
      cbv zeta in Hsome. congruence.
Qed.

(** Both metrics return the sentinel, or, unless [strict] holds, stop
    where a pixel loop leaves a buffer. *)
Lemma incomparable_metrics :
  (rootMeanSquaredError_rgb reference this h = Done (F32.FLT_MAX, h)
   \/ (~ strict
       /\ rootMeanSquaredError_rgb reference this h = Fault OutOfBounds))
  /\ (rootMeanSquaredError_alpha reference this h = Done (F32.FLT_MAX, h)
      \/ (~ strict
          /\ rootMeanSquaredError_alpha reference this h = Fault OutOfBounds)).
Proof.
  pose proof (faceCount_live _ _ _ Hp) as Hfc.
  pose proof (faceCount_live _ _ _ Hq) as Hfr.
  rewrite <- Hlen in Hfr. rewrite to_int_small in Hfc, Hfr by lia.
  assert (Hk : (k < length (Private.imageArray p))%nat).
  { destruct Habsent as [Hf | Hg];
      apply lookup_lt_Some in Hf || apply lookup_lt_Some in Hg; lia. }
  assert (Hn : length (Private.imageArray p)
               = (k + S (length (Private.imageArray p) - S k))%nat) by lia.
  split.
  - unfold rootMeanSquaredError_rgb. step Hfc. step Hfr.
    rewrite Z.eqb_refl. cbn [negb]. rewrite Hn.
    match goal with
    | |- context [for_fold _ ?body0 ?st0] =>
        destruct (sentinel_loop body0 h F32.FLT_MAX k strict
                    (fun st => proj1 (rgb_round k st (le_n k)) eq_refl)
                    (fun i st Hi => proj2 (rgb_round i st ltac:(lia)) Hi)
                    k 0%nat (length (Private.imageArray p) - S k)%nat st0
                    eq_refl) as [Hdone | [Hloose Hout]]
    end.
    + left. change (Z.of_nat 0) with 0 in Hdone. now step Hdone.
    + right. split; [exact Hloose |].
      change (Z.of_nat 0) with 0 in Hout. now apply bind_Fault.
  - unfold rootMeanSquaredError_alpha. step Hfc. step Hfr.
    rewrite Z.eqb_refl. cbn [negb]. rewrite Hn.
    match goal with
    | |- context [for_fold _ ?body0 ?st0] =>
        destruct (sentinel_loop body0 h F32.FLT_MAX k strict
                    (fun st => proj1 (alpha_round k st (le_n k)) eq_refl)
                    (fun i st Hi => proj2 (alpha_round i st ltac:(lia)) Hi)
                    k 0%nat (length (Private.imageArray p) - S k)%nat st0
                    eq_refl) as [Hdone | [Hloose Hout]]
    end.
    + left. change (Z.of_nat 0) with 0 in Hdone. now step Hdone.
    + right. split; [exact Hloose |].
      change (Z.of_nat 0) with 0 in Hout. now apply bind_Fault.
Qed.

End Incomparable.



(** C6 at a failing input: on two Plane textures of 2 x 1 pixels the
    pixel loop reads index 8 of a buffer of 8 floats. *)
Theorem rootMeanSquaredError_rgb_2x1_out_of_bounds :
  compare_2x1 empty_heap = Fault OutOfBounds.
Proof. vm_compute. reflexivity. Qed.

(** The defect of the pixel loop in front of the sentinel: face 1 of both
    Cubes is absent, and the scan of face 0 (2 x 1 pixels) leaves its
    buffer before face 1 is looked at. *)
Theorem rootMeanSquaredError_absent_face_not_reached :
  compare_cubes_rgb empty_heap = Fault OutOfBounds
  /\ compare_cubes_alpha empty_heap = Fault OutOfBounds.
Proof. split; vm_compute; reflexivity. Qed.

(** The pixel loop is right when a face has a single pixel: black
    against an opaque white reference gives the root of
    (1 + 1 + 1) / 1, and with the reference in Transparency mode the
    root of (3 / 255) / 1. *)
Lemma rootMeanSquaredError_rgb_single_pixel :
  (exists h, compare_1x1 AlphaMode_None empty_heap
             = Done (F32.of_double (F64.sqrt (F64.div (F64.of_Z 3) (F64.of_Z 1))), h))
  /\ (exists h, compare_1x1 AlphaMode_Transparency empty_heap
                = Done (F32.of_double
                          (F64.sqrt
                             (F64.div
                                (F64.add
                                   (F64.add (F64.div (F64.of_Z 1) (F64.of_Z 255))
                                      (F64.div (F64.of_Z 1) (F64.of_Z 255)))
                                   (F64.div (F64.of_Z 1) (F64.of_Z 255)))
                                (F64.of_Z 1))), h)).
Proof. split; eexists; vm_compute; reflexivity. Qed.

(** * Further properties of the translation unit *)

(** ** The helpers of the anonymous namespace *)

Lemma log2_up_succ v : 1 <= v -> Z.log2_up (v + 1) = Z.log2 v + 1.
Proof.
  intros Hv. unfold Z.log2_up.
  destruct (Z.compare_spec 1 (v + 1)); try lia.
  replace (Z.pred (v + 1)) with v by lia. lia.
Qed.

Lemma pow2_log2_bounds v :
  1 <= v < 2 ^ 31 ->
  0 <= Z.log2 v <= 30 /\ 2 ^ Z.log2 v <= v < 2 * 2 ^ Z.log2 v.
Proof.
  intros Hv.
  pose proof (Z.log2_nonneg v) as Hnn.
  destruct (Z.log2_spec v ltac:(lia)) as [Hlo Hhi].
  rewrite Z.pow_succ_r in Hhi by exact Hnn.
  assert (Z.log2 v < 31) by (apply Z.log2_lt_pow2; lia).
  lia.
Qed.

Lemma previousPowerOfTwo_log2 v :
  1 <= v < 2 ^ 31 -> previousPowerOfTwo v = 2 ^ Z.log2 v.
Proof.
  intros Hv. destruct (pow2_log2_bounds v Hv) as [Hl Hb].
  unfold previousPowerOfTwo. rewrite to_uint_small by lia.
  rewrite (nextPowerOfTwo_between (v + 1) (Z.log2 v + 1)).
  - rewrite Z.pow_add_r by lia. change (2 ^ 1) with 2.
    apply Z.div_mul. lia.
  - lia.
  - replace (Z.pred (Z.log2 v + 1)) with (Z.log2 v) by lia.
    rewrite Z.pow_add_r by lia. change (2 ^ 1) with 2. lia.
Qed.

(** [previousPowerOfTwo] returns the greatest power of two that is not
    above its argument, as its comment says (1 -> 1, 2 -> 2, 3 -> 2,
    4 -> 4, 5 -> 4), on every argument from 1 to 2^31 - 1. *)
Theorem previousPowerOfTwo_greatest_below (v : Z) :
  1 <= v < 2 ^ 31 ->
  previousPowerOfTwo v = 2 ^ Z.log2 v
  /\ previousPowerOfTwo v <= v < 2 * previousPowerOfTwo v.
Proof.
  intros Hv. destruct (pow2_log2_bounds v Hv) as [Hl Hb].
  rewrite (previousPowerOfTwo_log2 v Hv). auto.
Qed.

(** On 5: the previous power of two is 4. *)
Lemma previousPowerOfTwo_of_5 :
  1 <= 5 < 2 ^ 31
  /\ previousPowerOfTwo 5 = 2 ^ Z.log2 5
  /\ previousPowerOfTwo 5 <= 5 < 2 * previousPowerOfTwo 5.
Proof.
  split; [lia |]. exact (previousPowerOfTwo_greatest_below 5 ltac:(lia)).
Defined.

Lemma nextPowerOfTwo_least_above v :
  1 <= v < 2 ^ 31 ->
  nextPowerOfTwo v = 2 ^ Z.log2_up v /\ 0 <= Z.log2_up v <= 31
  /\ v <= 2 ^ Z.log2_up v.
Proof.
  intros Hv. pose proof (Z.log2_up_nonneg v) as Hnn.
  assert (Hle : Z.log2_up v <= 31) by (apply Z.log2_up_le_pow2; lia).
  assert (Hup : v <= 2 ^ Z.log2_up v).
  { destruct (Z.eq_dec v 1) as [-> | Hne]; [reflexivity |].
    apply Z.log2_up_spec. lia. }
  split; [| auto].
  unfold nextPowerOfTwo. apply to_uint_small.
  split; [apply Z.pow_nonneg; lia |].
  apply Z.le_lt_trans with (2 ^ 31); [apply Z.pow_le_mono_r; lia | lia].
Qed.

(** [nearestPowerOfTwo] returns a power of two, and no power of two is
    closer to the argument than the one it returns. *)
Theorem nearestPowerOfTwo_closest (v : Z) :
  1 <= v < 2 ^ 31 ->
  exists j, 0 <= j /\ nearestPowerOfTwo v = 2 ^ j
            /\ forall k, 0 <= k ->
                 Z.abs (nearestPowerOfTwo v - v) <= Z.abs (2 ^ k - v).
Proof.
  intros Hv.
  pose proof (previousPowerOfTwo_log2 v Hv) as Hprev.
  destruct (nextPowerOfTwo_least_above v Hv) as (Hnext & Hub & Hnb).
  destruct (pow2_log2_bounds v Hv) as [Hl Hb].
  assert (Hn32 : 2 ^ Z.log2_up v <= 2 ^ 31) by (apply Z.pow_le_mono_r; lia).
  assert (Hfar : forall k, 0 <= k ->
             (2 ^ k <= v -> 2 ^ k <= 2 ^ Z.log2 v)
             /\ (v < 2 ^ k -> 2 ^ Z.log2_up v <= 2 ^ k)).
  { intros k Hk. split; intros Hcmp.
    - apply Z.pow_le_mono_r; [lia |].
      apply Z.log2_le_pow2 in Hcmp; lia.
    - apply Z.pow_le_mono_r; [lia |].
      apply Z.log2_up_le_pow2; lia. }
  unfold nearestPowerOfTwo. rewrite Hnext, Hprev.
  rewrite !to_uint_small by lia.
  destruct (Z.leb_spec (2 ^ Z.log2_up v - v) (v - 2 ^ Z.log2 v)) as [Hle | Hgt].
  - exists (Z.log2_up v). split; [lia |]. split; [reflexivity |].
    intros k Hk. destruct (Hfar k Hk) as [Hlow Hhigh].
    destruct (Z.le_gt_cases (2 ^ k) v); [specialize (Hlow ltac:(lia)) |
                                         specialize (Hhigh ltac:(lia))]; lia.
  - exists (Z.log2 v). split; [lia |]. split; [reflexivity |].
    intros k Hk. destruct (Hfar k Hk) as [Hlow Hhigh].
    destruct (Z.le_gt_cases (2 ^ k) v); [specialize (Hlow ltac:(lia)) |
                                         specialize (Hhigh ltac:(lia))]; lia.
Qed.

(** On 5, between 4 and 8. *)
Lemma nearestPowerOfTwo_of_5 :
  nearestPowerOfTwo 5 = 4
  /\ exists j, 0 <= j /\ nearestPowerOfTwo 5 = 2 ^ j
               /\ forall k, 0 <= k ->
                    Z.abs (nearestPowerOfTwo 5 - 5) <= Z.abs (2 ^ k - 5).
Proof.
  split; [reflexivity |]. exact (nearestPowerOfTwo_closest 5 ltac:(lia)).
Defined.

Lemma half_max a b : Z.max a b / 2 = Z.max (a / 2) (b / 2).
Proof.
  destruct (Z.le_ge_cases a b) as [Hab | Hab].
  - pose proof (Z.div_le_mono a b 2 ltac:(lia) Hab).
    now rewrite !Z.max_r by assumption.
  - pose proof (Z.div_le_mono b a 2 ltac:(lia) Hab).
    now rewrite !Z.max_l by assumption.
Qed.

Lemma log2_half x : 2 <= x -> Z.log2 (x / 2) = Z.log2 x - 1.
Proof.
  intros Hx. change 2 with (2 ^ 1) at 1. rewrite <- Z.shiftr_div_pow2 by lia.
  rewrite Z.log2_shiftr by lia.
  assert (1 <= Z.log2 x) by (apply Z.log2_le_pow2; simpl; lia). lia.
Qed.

Lemma countMipmaps_loop_log2 (n : nat) :
  forall w h d acc,
    1 <= w -> 1 <= h -> 1 <= d ->
    Z.log2 (Z.max w (Z.max h d)) = Z.of_nat n ->
    0 <= acc -> acc + Z.of_nat n < 2 ^ 32 ->
    countMipmaps_loop w h d acc = acc + Z.of_nat n.
Proof.
  induction n as [| n IH]; intros w h d acc Hw Hh Hd Hlog Hacc Hroom;
    rewrite countMipmaps_loop_step;
    destruct (mip_pending w h d) as [Hmore | (-> & -> & ->)].
  - assert (Z.max w (Z.max h d) < 2 ^ 1)
      by (apply Z.log2_lt_pow2; simpl in *; lia).
    lia.
  - simpl. lia.
  - assert (Hbig : 2 <= Z.max w (Z.max h d)) by lia.
    assert (Hhalf : forall x, 1 <= x -> mip_halve x = Z.max 1 (x / 2)).
    { intros x Hx. unfold mip_halve. now rewrite Z.quot_div_nonneg by lia. }
    rewrite !Hhalf by lia. rewrite to_uint_small by lia.
    rewrite IH; try lia.
    replace (Z.max (Z.max 1 (w / 2)) (Z.max (Z.max 1 (h / 2)) (Z.max 1 (d / 2))))
      with (Z.max w (Z.max h d) / 2).
    + rewrite log2_half by lia. lia.
    + rewrite !half_max.
      assert (1 <= Z.max (w / 2) (Z.max (h / 2) (d / 2))).
      { rewrite <- !half_max. apply Z.div_le_lower_bound; lia. }
      lia.
  - simpl in Hlog. discriminate.
Qed.

(** [countMipmaps] counts the levels of a chain that halves every extent
    (at least 1) until all are 1: for extents from 1 to 2^31 - 1 that is
    [floor(log2(max(w, h, d))) + 1]. *)
Theorem countMipmaps_log2 (w h d : Z) :
  1 <= w < 2 ^ 31 -> 1 <= h < 2 ^ 31 -> 1 <= d < 2 ^ 31 ->
  countMipmaps w h d = Z.log2 (Z.max w (Z.max h d)) + 1.
Proof.
  intros Hw Hh Hd.
  assert (Hl : 0 <= Z.log2 (Z.max w (Z.max h d)) < 31).
  { split; [apply Z.log2_nonneg |]. apply Z.log2_lt_pow2; lia. }
  unfold countMipmaps.
  rewrite (countMipmaps_loop_log2 (Z.to_nat (Z.log2 (Z.max w (Z.max h d)))));
    try lia.
  rewrite Z2Nat.id by lia. apply to_uint_small. lia.
Qed.

(** A chain from 640 x 480: 10 levels. *)
Lemma countMipmaps_of_640x480 :
  countMipmaps 640 480 1 = 10
  /\ countMipmaps 640 480 1 = Z.log2 (Z.max 640 (Z.max 480 1)) + 1.
Proof.
  split; [reflexivity |].
  apply (countMipmaps_log2 640 480 1); lia.
Defined.

(** Extents below 1 count as 1 after the first round: when no extent is
    above 1 and not all are 1, [countMipmaps] returns 2. *)
Lemma countMipmaps_degenerate (w h d : Z) :
  w <= 1 -> h <= 1 -> d <= 1 -> w <> 1 \/ h <> 1 \/ d <> 1 ->
  countMipmaps w h d = 2.
Proof.
  intros Hw Hh Hd Hsome.
  assert (Hhalf : forall x, x <= 1 -> mip_halve x = 1).
  { intros x Hx. unfold mip_halve.
    destruct (Z.eq_dec x 1) as [-> | Hne]; [reflexivity |].
    assert (x ÷ 2 <= 0) by (apply Z.quot_le_upper_bound; lia). lia. }
  unfold countMipmaps. rewrite countMipmaps_loop_step.
  destruct (mip_pending w h d) as [_ | (-> & -> & ->)]; [| lia].
  rewrite !Hhalf by assumption. rewrite countMipmaps_loop_step.
  destruct (mip_pending 1 1 1) as [Hno | _]; [lia | reflexivity].
Qed.

(** ** Handles and their payload *)

Lemma Heap_eta h : mkHeap (images h) (payloads h) = h.
Proof. now destruct h. Qed.

Lemma Private_eta p :
  Private.mk (Private.refCount p) (Private.type p) (Private.wrapMode p)
    (Private.alphaMode p) (Private.isNormalMap p) (Private.imageArray p) = p.
Proof. now destruct p. Qed.

Lemma observe_intro t h p faces :
  payload_at h t = Some p ->
  Forall2 (fun f c => face_at h f = Some c) (Private.imageArray p) faces ->
  observe t h
  = Some (mkSnapshot (Private.type p) (Private.wrapMode p) (Private.alphaMode p)
            (Private.isNormalMap p) faces).
Proof.
  intros Hp Hall. unfold observe. rewrite Hp. simpl.
  apply mapM_Some in Hall. now rewrite Hall.
Qed.

(** What [detach] leaves, in terms of what the handle showed before. *)
Lemma detach_ready this h s :
  observe this h = Some s ->
  exists a' h' p',
    detach this h = Done (Tex (Some a'), h')
    /\ payloads h' !! a' = Some (Some p')
    /\ s = mkSnapshot (Private.type p') (Private.wrapMode p')
             (Private.alphaMode p') (Private.isNormalMap p') (s_faces s)
    /\ Forall2 (fun f c => face_at h' f = Some c) (Private.imageArray p') (s_faces s)
    /\ (exclusive_faces this h = true -> faces_distinct (Private.imageArray p'))
    /\ images_kept h h' /\ payloads_kept h h'.
Proof.
  intros Hobs.
  destruct (observe_Some _ _ _ Hobs) as (p & Hp & Hall & _).
  pose proof (observe_fields _ _ _ _ Hobs Hp) as Hfields.
  pose proof Hp as Hp0.
  apply payload_at_Some in Hp as (a & Hm & Hpa).
  destruct this as [mthis]. simpl in Hm. subst mthis.
  destruct (detach_returns h a p Hpa (observed_faces_live _ _ _ Hall))
    as (this1 & h1 & Hdetach & a1 & p1 & -> & Hp1 & (Ht & Hw & Ha & Hn) & Hsame
        & _ & Hdist & Hkept & Hpkept).
  exists a1, h1, p1. split; [exact Hdetach |]. split; [exact Hp1 |].
  split; [rewrite Hfields at 1; now rewrite Ht, Hw, Ha, Hn |].
  split; [exact (same_faces_observed _ _ _ _ _ Hall Hsame) |].
  split; [| auto].
  intros Hexcl. apply Hdist. unfold exclusive_faces in Hexcl.
  rewrite Hp0 in Hexcl. apply bool_decide_eq_true in Hexcl.
  now apply NoDup_faces_distinct.
Qed.

(** [detach] is invisible: the handle shows afterwards what it showed
    before, and so does every other handle; a payload that is not held
    more than once is left where it is. *)
Theorem detach_keeps_every_snapshot (this : TexImage) (h : Heap) (s : Snapshot) :
  observe this h = Some s ->
  exists this' h',
    detach this h = Done (this', h')
    /\ observe this' h' = Some s
    /\ (forall other s', observe other h = Some s' -> observe other h' = Some s')
    /\ (forall p, payload_at h this = Some p -> Private.refCount p <= 1 ->
                  this' = this /\ h' = h).
Proof.
  intros Hobs.
  destruct (detach_ready _ _ _ Hobs)
    as (a' & h' & p' & Hdetach & Hp' & Hs & Hfaces & _ & Hkept & Hpkept).
  exists (Tex (Some a')), h'. split; [exact Hdetach |]. split; [| split].
  - rewrite Hs. apply observe_intro; [| exact Hfaces].
    apply payload_at_Some. eauto.
  - intros other s' Hother.
    destruct (observe_Some _ _ _ Hother) as (q & Hq & Hall & _).
    pose proof (observe_fields _ _ _ _ Hother Hq) as Hfields.
    apply payload_at_Some in Hq as (b & Hmb & Hqb).
    destruct (Hpkept _ _ Hqb) as (q' & Hq' & (Ht & Hw & Ha & Hn) & Hfs).
    rewrite Hfields, Ht, Hw, Ha, Hn. apply observe_intro.
    + apply payload_at_Some. eauto.
    + rewrite Hfs. exact (images_kept_observed _ _ _ _ Hall Hkept).
  - intros p (a & Hm & Hpa)%payload_at_Some Hsole.
    destruct this as [mthis]. simpl in Hm. subst mthis.
    unfold detach in Hdetach. simpl in Hdetach.
    rewrite (bind_Done _ _ _ _ _ (Private_get_live _ _ _ Hpa)) in Hdetach.
    destruct (Z.ltb_spec 1 (Private.refCount p)); [lia |].
    injection Hdetach as <- <-. auto.
Qed.

(** On a texture that has loaded 4 x 2 pixels. *)
Lemma detach_keeps_loaded_4x2 :
  exists this' h',
    detach (Tex (Some 0%nat)) loaded_4x2 = Done (this', h')
    /\ observe this' h' = Some (shot (plain 4 2 F32.one)).
Proof.
  destruct (detach_keeps_every_snapshot (Tex (Some 0%nat)) loaded_4x2
              (shot (plain 4 2 F32.one)) eq_refl)
    as (this' & h' & Hrun & Hobs & _).
  exists this', h'. auto.
Defined.

Lemma WrapMode_eqb_eq a b : WrapMode_eqb a b = true <-> a = b.
Proof. destruct a, b; simpl; split; congruence. Qed.

Lemma AlphaMode_eqb_eq a b : AlphaMode_eqb a b = true <-> a = b.
Proof. destruct a, b; simpl; split; congruence. Qed.

Lemma payload_at_insert h a p q imgs :
  payloads h !! a = Some (Some p) ->
  payload_at (mkHeap imgs (<[a := Some q]> (payloads h))) (Tex (Some a)) = Some q.
Proof.
  intros Hp. unfold payload_at. simpl.
  rewrite list_lookup_insert_eq by (now apply lookup_lt_Some in Hp). reflexivity.
Qed.

(** A write to a field of the payload shows in that field only. *)
Lemma observe_after_modify h a p f faces :
  payloads h !! a = Some (Some p) ->
  Forall2 (fun x c => face_at h x = Some c) (Private.imageArray p) faces ->
  Private.imageArray (f p) = Private.imageArray p ->
  observe (Tex (Some a)) (mkHeap (images h) (<[a := Some (f p)]> (payloads h)))
  = Some (mkSnapshot (Private.type (f p)) (Private.wrapMode (f p))
            (Private.alphaMode (f p)) (Private.isNormalMap (f p)) faces).
Proof.
  intros Hp Hall Hfs. apply observe_intro.
  - now apply payload_at_insert with p.
  - rewrite Hfs. exact Hall.
Qed.

Section Setters.

Variables (this : TexImage) (h : Heap) (s : Snapshot).
Hypothesis Hobs : observe this h = Some s.

Lemma setter_run (f : Private.t -> Private.t) :
  (forall p, Private.imageArray (f p) = Private.imageArray p) ->
  exists this' h' p',
    (this <- detach this ;; Private_modify (m this) f ;; ret this) h
    = Done (this', h')
    /\ s = mkSnapshot (Private.type p') (Private.wrapMode p')
             (Private.alphaMode p') (Private.isNormalMap p') (s_faces s)
    /\ observe this' h'
       = Some (mkSnapshot (Private.type (f p')) (Private.wrapMode (f p'))
                 (Private.alphaMode (f p')) (Private.isNormalMap (f p'))
                 (s_faces s))
    /\ payload_at h' this' = Some (f p').
Proof.
  intros Hf.
  destruct (detach_ready _ _ _ Hobs)
    as (a' & h1 & p' & Hdetach & Hp' & Hs & Hfaces & _ & _ & _).
  eexists (Tex (Some a')), _, p'. split.
  - step Hdetach. cbn [m]. step (Private_modify_live _ _ _ f Hp'). reflexivity.
  - split; [exact Hs |]. split.
    + now apply observe_after_modify.
    + now apply payload_at_insert with p'.
Qed.

(** Each setter finishes on a texture whose payload and faces are live;
    afterwards the getter returns the value set, and the texture shows
    that value and otherwise what it showed before. *)
Theorem setters_set_one_field :
  (forall wm, exists this' h',
      setWrapMode wm this h = Done (this', h')
      /\ wrapMode this' h' = Done (wm, h')
      /\ observe this' h'
         = Some (mkSnapshot (s_type s) wm (s_alphaMode s) (s_isNormalMap s)
                   (s_faces s)))
  /\ (forall am, exists this' h',
         setAlphaMode am this h = Done (this', h')
         /\ alphaMode this' h' = Done (am, h')
         /\ observe this' h'
            = Some (mkSnapshot (s_type s) (s_wrapMode s) am (s_isNormalMap s)
                      (s_faces s)))
  /\ (forall nm, exists this' h',
         setNormalMap nm this h = Done (this', h')
         /\ isNormalMap this' h' = Done (nm, h')
         /\ observe this' h'
            = Some (mkSnapshot (s_type s) (s_wrapMode s) (s_alphaMode s) nm
                      (s_faces s))).
Proof.
  destruct (observe_Some _ _ _ Hobs) as (p & Hp & _ & _).
  pose proof (observe_fields _ _ _ _ Hobs Hp) as Hfields.
  pose proof Hp as Hp0.
  apply payload_at_Some in Hp as (a & Hm & Hpa).
  split; [| split].
  - intros wm. unfold setWrapMode. rewrite Hm.
    step (Private_get_live _ _ _ Hpa).
    destruct (WrapMode_eqb (Private.wrapMode p) wm) eqn:Hsame; cbn [negb].
    + apply WrapMode_eqb_eq in Hsame. exists this, h.
      split; [reflexivity |]. split.
      * unfold wrapMode. rewrite Hm. step (Private_get_live _ _ _ Hpa).
        now rewrite Hsame.
      * rewrite Hobs, Hfields. simpl. now rewrite Hsame.
    + destruct (setter_run (Private.set_wrapMode wm) ltac:(reflexivity))
        as (this' & h' & p' & Hrun & Hs & Hshow & Hp').
      exists this', h'. split; [exact Hrun |]. split.
      * apply payload_at_Some in Hp' as (a' & Hm' & Hpa').
        unfold wrapMode. rewrite Hm'. step (Private_get_live _ _ _ Hpa').
        reflexivity.
      * rewrite Hshow, Hs. reflexivity.
  - intros am. unfold setAlphaMode. rewrite Hm.
    step (Private_get_live _ _ _ Hpa).
    destruct (AlphaMode_eqb (Private.alphaMode p) am) eqn:Hsame; cbn [negb].
    + apply AlphaMode_eqb_eq in Hsame. exists this, h.
      split; [reflexivity |]. split.
      * unfold alphaMode. rewrite Hm. step (Private_get_live _ _ _ Hpa).
        now rewrite Hsame.
      * rewrite Hobs, Hfields. simpl. now rewrite Hsame.
    + destruct (setter_run (Private.set_alphaMode am) ltac:(reflexivity))
        as (this' & h' & p' & Hrun & Hs & Hshow & Hp').
      exists this', h'. split; [exact Hrun |]. split.
      * apply payload_at_Some in Hp' as (a' & Hm' & Hpa').
        unfold alphaMode. rewrite Hm'. step (Private_get_live _ _ _ Hpa').
        reflexivity.
      * rewrite Hshow, Hs. reflexivity.
  - intros nm. unfold setNormalMap. rewrite Hm.
    step (Private_get_live _ _ _ Hpa).
    destruct (Bool.eqb (Private.isNormalMap p) nm) eqn:Hsame; cbn [negb].
    + apply Bool.eqb_prop in Hsame. exists this, h.
      split; [reflexivity |]. split.
      * unfold isNormalMap. rewrite Hm. step (Private_get_live _ _ _ Hpa).
        now rewrite Hsame.
      * rewrite Hobs, Hfields. simpl. now rewrite Hsame.
    + destruct (setter_run (Private.set_isNormalMap nm) ltac:(reflexivity))
        as (this' & h' & p' & Hrun & Hs & Hshow & Hp').
      exists this', h'. split; [exact Hrun |]. split.
      * apply payload_at_Some in Hp' as (a' & Hm' & Hpa').
        unfold isNormalMap. rewrite Hm'. step (Private_get_live _ _ _ Hpa').
        reflexivity.
      * rewrite Hshow, Hs. reflexivity.
Qed.

End Setters.

(** On a texture that has loaded 4 x 2 pixels. *)
Lemma setWrapMode_on_loaded_4x2 :
  exists this' h',
    setWrapMode WrapMode_Clamp (Tex (Some 0%nat)) loaded_4x2 = Done (this', h')
    /\ wrapMode this' h' = Done (WrapMode_Clamp, h')
    /\ observe this' h'
       = Some (mkSnapshot TextureType_2D WrapMode_Clamp AlphaMode_None false
                 [Some (plain 4 2 F32.one)]).
Proof.
  exact (proj1 (setters_set_one_field (Tex (Some 0%nat)) loaded_4x2
                  (shot (plain 4 2 F32.one)) eq_refl) WrapMode_Clamp).
Defined.

(** *** Releasing a payload *)

Lemma in_taken_faces (faces : list (option nat)) k y :
  y ∈ omap id (take k faces) <->
  exists i, (i < k)%nat /\ faces !! i = Some (Some y).
Proof.
  rewrite list_elem_of_omap. split.
  - intros (o & Ho & Hid). simpl in Hid. subst o.
    apply list_elem_of_lookup in Ho as (i & Hi).
    apply lookup_take_Some in Hi as [Hi Hlt]. eauto.
  - intros (i & Hlt & Hi). exists (Some y). split; [| reflexivity].
    apply list_elem_of_lookup. exists i. apply lookup_take_Some. auto.
Qed.

Section DeleteLoop.

(** A loop whose round [c + k] deletes the image in slot [k] of [faces],
    started in heap [h]. *)
Variables (h : Heap) (faces : list (option nat)) (c : nat).
Variable body : Z -> M (option unit).
Hypothesis Hlive : faces_live h faces.
Hypothesis Hdistinct : faces_distinct faces.
Hypothesis Hbody : forall k f h',
  faces !! k = Some f -> payloads h' = payloads h ->
  body (Z.of_nat (c + k)) h' = (Image_delete f ;; ret (@None unit)) h'.

Lemma delete_faces_returns (d : nat) :
  forall (k : nat) h',
    (k + d = length faces)%nat ->
    faces_deleted h faces k h' ->
    returns (for_each (seqZ (Z.of_nat (c + k)) (Z.of_nat d)) body) h'
      (fun _ h'' => faces_deleted h faces (length faces) h'').
Proof.
  induction d as [| d IH]; intros k h' Hk Hinv.
  - apply returns_Done with None h'; [reflexivity |].
    now replace (length faces) with k by lia.
  - rewrite seqZ_of_nat_S. apply returns_for_each_cons.
    assert (Hsome : exists f, faces !! k = Some f)
      by (apply lookup_lt_is_Some; lia).
    destruct Hsome as [f Hf]. destruct Hinv as [Hpay Himgs].
    assert (Hnext : forall y,
               y ∈ omap id (take (S k) faces) <->
               y ∈ omap id (take k faces) \/ f = Some y).
    { intros y. rewrite (take_S_r _ _ _ Hf), omap_app, elem_of_app.
      destruct f as [x |]; simpl; [rewrite list_elem_of_singleton |
                                   rewrite elem_of_nil];
        split; intros [Hin | Hx]; auto; try (right; congruence);
        try discriminate; contradiction. }
    replace (S (c + k)) with (c + S k)%nat by lia.
    apply returns_bind. unfold returns. rewrite (Hbody k f h' Hf Hpay).
    destruct f as [x |].
    + destruct (Hlive k x Hf) as [img Himg].
      assert (Hfresh : x ∉ omap id (take k faces)).
      { intros (i & Hlt & Hi)%in_taken_faces.
        pose proof (Hdistinct i k x Hi Hf). lia. }
      assert (Hx : images h' !! x = Some (Some img))
        by (rewrite (proj2 (Himgs x) Hfresh); exact Himg).
      step (Image_delete_live _ _ _ Hx).
      eexists _, _. split; [reflexivity |]. apply IH; [lia |].
      split; [exact Hpay |]. intros y. simpl. rewrite Hnext.
      destruct (decide (y = x)) as [-> | Hne].
      * rewrite list_lookup_insert_eq by (now apply lookup_lt_Some in Hx).
        split; [reflexivity | intros Hno; destruct Hno; auto].
      * rewrite list_lookup_insert_ne by congruence.
        split; [intros [Hin | Heq]; [now apply Himgs | congruence] |].
        intros Hno. apply Himgs. tauto.
    + eexists _, _. split; [reflexivity |]. apply IH; [lia |].
      split; [exact Hpay |]. intros y. rewrite Hnext.
      split; [intros [Hin | Heq]; [now apply Himgs | discriminate] |].
      intros Hno. apply Himgs. tauto.
Qed.

End DeleteLoop.

(** [release] by the last holder deletes every face once and frees the
    payload; by any other holder it only lowers the count. *)
Lemma release_returns h a p :
  payloads h !! a = Some (Some p) ->
  faces_live h (Private.imageArray p) ->
  faces_distinct (Private.imageArray p) ->
  returns (release (Some a)) h
    (fun _ h' =>
       if Private.refCount p - 1 =? 0 then
         payloads h' = <[a := None]> (payloads h)
         /\ forall y,
              ((exists i, Private.imageArray p !! i = Some (Some y)) ->
               images h' !! y = Some None)
              /\ ((forall i, Private.imageArray p !! i <> Some (Some y)) ->
                  images h' !! y = images h !! y)
       else
         h' = mkHeap (images h)
                (<[a := Some (Private.set_refCount (Private.refCount p - 1) p)]>
                   (payloads h))).
Proof.
  intros Hp Hlive Hdist. unfold release.
  apply returns_bind. eapply returns_Done; [exact (Private_get_live _ _ _ Hp) |].
  destruct (Private.refCount p - 1 =? 0).
  - apply returns_bind.
    eapply returns_weaken;
      [apply (delete_faces_returns h (Private.imageArray p) 0%nat _ Hlive Hdist)
         with (d := length (Private.imageArray p)) (k := 0%nat) |].
    + intros k f h' Hf _. simpl.
      now rewrite (bind_Done _ _ _ _ _ (Array_at_lookup _ _ _ Hf h')).
    + reflexivity.
    + split; [reflexivity |]. intros y. simpl. rewrite elem_of_nil. tauto.
    + intros _ h1 [Hpay Himgs].
      assert (Hp1 : payloads h1 !! a = Some (Some p)) by (now rewrite Hpay).
      eapply returns_Done.
      { unfold Private_free. rewrite Hp1. reflexivity. }
      simpl. split; [now rewrite Hpay |].
      intros y. split.
      * intros [i Hi]. apply Himgs.
        apply in_taken_faces. exists i. split; [| exact Hi].
        now apply lookup_lt_Some in Hi.
      * intros Hno. apply Himgs. intros (i & _ & Hi)%in_taken_faces.
        exact (Hno i Hi).
  - eapply returns_Done; [exact (Private_put_live _ _ _ _ Hp) | reflexivity].
Qed.

(** The destructor of the last holder frees the payload and deletes the
    image of every face; every other image and payload is left as it
    is.  The destructor of any other holder only lowers the count. *)
Theorem TexImage_destroy_releases (this : TexImage) (h : Heap) (s : Snapshot)
    (a : nat) (p : Private.t) :
  observe this h = Some s ->
  exclusive_faces this h = true ->
  m this = Some a ->
  payloads h !! a = Some (Some p) ->
  exists h',
    TexImage_destroy this h = Done (Tex None, h')
    /\ (Private.refCount p = 1 ->
        payloads h' = <[a := None]> (payloads h)
        /\ (forall i y, Private.imageArray p !! i = Some (Some y) ->
                        images h' !! y = Some None)
        /\ (forall y, (forall i, Private.imageArray p !! i <> Some (Some y)) ->
                      images h' !! y = images h !! y))
    /\ (Private.refCount p <> 1 ->
        h' = mkHeap (images h)
               (<[a := Some (Private.set_refCount (Private.refCount p - 1) p)]>
                  (payloads h))).
Proof.
  intros Hobs Hexcl Hm Hpa.
  destruct (observe_Some _ _ _ Hobs) as (p0 & Hp0 & Hall & _).
  assert (p0 = p) as ->.
  { apply payload_at_Some in Hp0 as (b & Hb & Hpb). congruence. }
  unfold exclusive_faces in Hexcl. rewrite Hp0 in Hexcl.
  apply bool_decide_eq_true, NoDup_faces_distinct in Hexcl.
  destruct (release_returns h a p Hpa (observed_faces_live _ _ _ Hall) Hexcl)
    as ([] & h' & Hrel & Hpost).
  exists h'. split.
  - unfold TexImage_destroy. rewrite Hm. step Hrel. reflexivity.
  - split.
    + intros Hone. rewrite Hone in Hpost. simpl in Hpost.
      destruct Hpost as [Hpay Himgs]. split; [exact Hpay |]. split.
      * intros i y Hi. apply Himgs. eauto.
      * intros y Hno. now apply Himgs.
    + intros Hmore. destruct (Z.eqb_spec (Private.refCount p - 1) 0); [lia |].
      exact Hpost.
Qed.

(** The only holder of a texture of one pixel is destroyed. *)
Lemma TexImage_destroy_sole_holder :
  exists h',
    TexImage_destroy (Tex (Some 0%nat)) (held_texture 1) = Done (Tex None, h')
    /\ payloads h' = [None] /\ images h' !! 0%nat = Some None.
Proof.
  destruct (TexImage_destroy_releases (Tex (Some 0%nat)) (held_texture 1)
              (shot (plain 1 1 F32.zero)) 0%nat _ eq_refl eq_refl eq_refl eq_refl)
    as (h' & Hrun & Hlast & _).
  destruct (Hlast eq_refl) as (Hpay & Himgs & _).
  exists h'. split; [exact Hrun |]. split; [exact Hpay |].
  exact (Himgs 0%nat 0%nat eq_refl).
Defined.

(** Copying a handle and destroying the copy leaves the heap as it was,
    unless the payload had no holder on record. *)
Theorem copy_then_destroy (this : TexImage) (h : Heap) (p : Private.t) :
  payload_at h this = Some p ->
  Private.refCount p <> 0 ->
  exists B h1,
    TexImage_copy this h = Done (B, h1)
    /\ m B = m this
    /\ TexImage_destroy B h1 = Done (Tex None, h).
Proof.
  intros (a & Hm & Hpa)%payload_at_Some Hcount.
  set (p1 := Private.set_refCount (Private.refCount p + 1) p).
  set (h1 := mkHeap (images h) (<[a := Some p1]> (payloads h))).
  assert (Ha : (a < length (payloads h))%nat) by (now apply lookup_lt_Some in Hpa).
  assert (Hp1 : payloads h1 !! a = Some (Some p1))
    by (unfold h1; simpl; now apply list_lookup_insert_eq).
  exists (Tex (Some a)), h1. split; [| split].
  - unfold TexImage_copy, addRef. rewrite Hm.
    step (Private_modify_live _ _ _
            (fun p => Private.set_refCount (Private.refCount p + 1) p) Hpa).
    reflexivity.
  - now rewrite Hm.
  - assert (Hrel : release (Some a) h1 = Done (tt, h)).
    { unfold release. step (Private_get_live _ _ _ Hp1).
      replace (Private.refCount p1 - 1) with (Private.refCount p)
        by (unfold p1; simpl; lia).
      destruct (Z.eqb_spec (Private.refCount p) 0); [contradiction |].
      rewrite (Private_put_live _ _ _
                 (Private.set_refCount (Private.refCount p) p1) Hp1).
      unfold h1. simpl. rewrite list_insert_insert_eq.
      replace (Private.set_refCount (Private.refCount p) p1) with p
        by (now destruct p).
      rewrite list_insert_id by exact Hpa. now rewrite Heap_eta. }
    unfold TexImage_destroy. cbn [m]. step Hrel. reflexivity.
Qed.

(** On a texture held by two handles. *)
Lemma copy_then_destroy_shared :
  exists B h1,
    TexImage_copy (Tex (Some 0%nat)) (held_texture 2) = Done (B, h1)
    /\ m B = Some 0%nat
    /\ TexImage_destroy B h1 = Done (Tex None, (held_texture 2)).
Proof.
  exact (copy_then_destroy (Tex (Some 0%nat)) (held_texture 2) _ eq_refl
           ltac:(discriminate)).
Defined.

(** The default constructor records no holder.  When a handle it made is
    copied and the copy destroyed, the payload and its face images are
    freed: the original handle dangles. *)
Theorem copy_of_new_texture_destroyed (this : TexImage) (h : Heap)
    (s : Snapshot) (p : Private.t) :
  observe this h = Some s ->
  exclusive_faces this h = true ->
  payload_at h this = Some p ->
  Private.refCount p = 0 ->
  (exists B h1 h2,
      TexImage_copy this h = Done (B, h1)
      /\ TexImage_destroy B h1 = Done (Tex None, h2)
      /\ observe this h2 = None
      /\ faceCount this h2 = Fault Dangling
      /\ forall i y, Private.imageArray p !! i = Some (Some y) ->
                     images h2 !! y = Some None)
  /\ (forall h0, exists new h1 p0,
         TexImage_new h0 = Done (new, h1)
         /\ payload_at h1 new = Some p0 /\ Private.refCount p0 = 0).
Proof.
  intros Hobs Hexcl Hp Hzero. split.
  - destruct (observe_Some _ _ _ Hobs) as (p0 & Hp0 & Hall & _).
    assert (p0 = p) as -> by congruence. clear Hp0.
    pose proof Hp as Hp'.
    apply payload_at_Some in Hp' as (a & Hm & Hpa).
    unfold exclusive_faces in Hexcl. rewrite Hp in Hexcl.
    apply bool_decide_eq_true, NoDup_faces_distinct in Hexcl.
    set (p1 := Private.set_refCount (Private.refCount p + 1) p).
    set (h1 := mkHeap (images h) (<[a := Some p1]> (payloads h))).
    assert (Ha : (a < length (payloads h))%nat)
      by (now apply lookup_lt_Some in Hpa).
    assert (Hp1 : payloads h1 !! a = Some (Some p1))
      by (unfold h1; simpl; now apply list_lookup_insert_eq).
    destruct (release_returns h1 a p1 Hp1 (observed_faces_live _ _ _ Hall) Hexcl)
      as ([] & h2 & Hrel & Hpost).
    replace (Private.refCount p1 - 1 =? 0) with true in Hpost
      by (unfold p1; simpl; rewrite Hzero; reflexivity).
    destruct Hpost as [Hpay Himgs].
    assert (Hgone : payloads h2 !! a = Some None).
    { rewrite Hpay. unfold h1. simpl. rewrite list_insert_insert_eq.
      now apply list_lookup_insert_eq. }
    exists (Tex (Some a)), h1, h2. split; [| split; [| split; [| split]]].
    + unfold TexImage_copy, addRef. rewrite Hm.
      step (Private_modify_live _ _ _
              (fun p => Private.set_refCount (Private.refCount p + 1) p) Hpa).
      reflexivity.
    + unfold TexImage_destroy. cbn [m]. step Hrel. reflexivity.
    + unfold observe, payload_at. rewrite Hm. simpl. now rewrite Hgone.
    + unfold faceCount, Private_get, bind. rewrite Hm. now rewrite Hgone.
    + intros i y Hi. apply Himgs. eauto.
  - intros h0. eexists _, _, _. split; [reflexivity |].
    split; [unfold payload_at; simpl;
            rewrite lookup_app_r, Nat.sub_diag by lia; reflexivity |].
    reflexivity.
Qed.

(** On a texture that has loaded 4 x 2 pixels and was never copied. *)
Lemma copy_of_loaded_4x2_destroyed :
  exists B h1 h2,
    TexImage_copy (Tex (Some 0%nat)) loaded_4x2 = Done (B, h1)
    /\ TexImage_destroy B h1 = Done (Tex None, h2)
    /\ observe (Tex (Some 0%nat)) h2 = None
    /\ images h2 !! 0%nat = Some None.
Proof.
  destruct (proj1 (copy_of_new_texture_destroyed (Tex (Some 0%nat)) loaded_4x2
                     (shot (plain 4 2 F32.one)) _ eq_refl eq_refl eq_refl eq_refl))
    as (B & h1 & h2 & Hcopy & Hdestroy & Hobs & _ & Himgs).
  exists B, h1, h2. repeat split; try assumption.
  exact (Himgs 0%nat 0%nat eq_refl).
Defined.

(** ** Extents *)

(** A texture without face slots has width 0, height 0 and no faces, and
    [countMipmaps] reports 2 levels for it. *)
Theorem extents_without_faces (this : TexImage) (h : Heap) (p : Private.t) :
  payload_at h this = Some p ->
  Private.imageArray p = [] ->
  width this h = Done (0, h) /\ height this h = Done (0, h)
  /\ faceCount this h = Done (0, h)
  /\ TexImage_countMipmaps this h = Done (2, h).
Proof.
  intros Hp Hnone.
  pose proof (faceCount_live _ _ _ Hp) as Hfc. rewrite Hnone in Hfc.
  apply payload_at_Some in Hp as (a & Hm & Hpa).
  assert (Hw : width this h = Done (0, h)).
  { unfold width. rewrite Hm. step (Private_get_live _ _ _ Hpa).
    now rewrite Hnone. }
  assert (Hh : height this h = Done (0, h)).
  { unfold height. rewrite Hm. step (Private_get_live _ _ _ Hpa).
    now rewrite Hnone. }
  repeat split; try assumption.
  unfold TexImage_countMipmaps. step Hw. step Hh. reflexivity.
Qed.

(** A newly constructed texture. *)
Lemma extents_of_new_texture :
  width (Tex (Some 0%nat)) new_texture = Done (0, new_texture)
  /\ height (Tex (Some 0%nat)) new_texture = Done (0, new_texture)
  /\ faceCount (Tex (Some 0%nat)) new_texture = Done (0, new_texture)
  /\ TexImage_countMipmaps (Tex (Some 0%nat)) new_texture = Done (2, new_texture).
Proof.
  exact (extents_without_faces (Tex (Some 0%nat)) new_texture _ eq_refl eq_refl).
Defined.

Section AbsentFace0.

Context `{Collaborators}.

(** [width], [height], [countMipmaps] and [buildNextMipmap] read the
    extents of face 0 without testing it: on a texture whose slot 0 is
    absent they dereference a null pointer. *)
Theorem extents_of_absent_face (this : TexImage) (h : Heap) (p : Private.t) :
  payload_at h this = Some p ->
  Private.imageArray p !! 0%nat = Some None ->
  width this h = Fault NullPointer
  /\ height this h = Fault NullPointer
  /\ TexImage_countMipmaps this h = Fault NullPointer
  /\ forall filter, buildNextMipmap filter this h = Fault NullPointer.
Proof.
  intros (a & Hm & Hpa)%payload_at_Some Hslot.
  assert (Hpos : (0 <? Z.of_nat (length (Private.imageArray p))) = true).
  { apply lookup_lt_Some in Hslot. apply Z.ltb_lt. lia. }
  pose proof (Array_at_lookup _ 0%nat _ Hslot h) as Hat.
  change (Z.of_nat 0) with 0 in Hat.
  assert (Hw : width this h = Fault NullPointer).
  { unfold width. rewrite Hm. step (Private_get_live _ _ _ Hpa).
    rewrite Hpos. step Hat. reflexivity. }
  split; [exact Hw |]. split; [| split].
  - unfold height. rewrite Hm. step (Private_get_live _ _ _ Hpa).
    rewrite Hpos. step Hat. reflexivity.
  - unfold TexImage_countMipmaps. now apply bind_Fault.
  - intros filter. unfold buildNextMipmap. rewrite Hm.
    step (Private_get_live _ _ _ Hpa). rewrite Hpos.
    apply bind_Fault. step Hat. reflexivity.
Qed.

End AbsentFace0.

(** A new texture made a Cube: six absent faces. *)
Lemma extents_of_empty_cube :
  width (Tex (Some 0%nat)) empty_cube = Fault NullPointer
  /\ height (Tex (Some 0%nat)) empty_cube = Fault NullPointer
  /\ TexImage_countMipmaps (Tex (Some 0%nat)) empty_cube = Fault NullPointer
  /\ forall filter,
       buildNextMipmap filter (Tex (Some 0%nat)) empty_cube = Fault NullPointer.
Proof.
  exact (extents_of_absent_face (Tex (Some 0%nat)) empty_cube _ eq_refl eq_refl).
Defined.

(** ** Changing the texture type *)

Lemma seqZ_to_nat m len : seqZ m len = seqZ m (Z.of_nat (Z.to_nat len)).
Proof. unfold seqZ. now rewrite Nat2Z.id. Qed.

Lemma faceCountOf_nat type :
  faceCountOf type = Z.of_nat (Z.to_nat (faceCountOf type)).
Proof. now destruct type. Qed.

(** [setTextureType] with a type other than the current one keeps the
    first faces up to the count of the new type (1 or 6), pads with
    absent faces, and deletes the images of the faces it drops; the
    other fields are kept. *)
Theorem setTextureType_resizes_faces (type : TextureType) (this : TexImage)
    (h : Heap) (s : Snapshot) :
  observe this h = Some s ->
  exclusive_faces this h = true ->
  s_type s <> type ->
  exists this' h',
    setTextureType type this h = Done (this', h')
    /\ observe this' h'
       = Some (mkSnapshot type (s_wrapMode s) (s_alphaMode s) (s_isNormalMap s)
                 (Array_resize (faceCountOf type) None (s_faces s)))
    /\ forall p, payload_at h this = Some p -> Private.refCount p <= 1 ->
         forall i y, (Z.to_nat (faceCountOf type) <= i)%nat ->
                     Private.imageArray p !! i = Some (Some y) ->
                     images h' !! y = Some None.
Proof.
  intros Hobs Hexcl Hne.
  destruct (observe_Some _ _ _ Hobs) as (p & Hp & _ & Htype).
  pose proof Hp as Hp0.
  apply payload_at_Some in Hp as (a & Hm & Hpa).
  destruct (detach_ready _ _ _ Hobs)
    as (a' & h1 & p1 & Hdetach & Hp1 & Hs & Hfaces & Hdist & _ & _).
  specialize (Hdist Hexcl).
  set (count := faceCountOf type). set (c := Z.to_nat count).
  assert (Hcount : count = Z.of_nat c) by apply faceCountOf_nat.
  set (p2 := Private.set_type type p1).
  set (h2 := mkHeap (images h1) (<[a' := Some p2]> (payloads h1))).
  assert (Ha' : (a' < length (payloads h1))%nat)
    by (now apply lookup_lt_Some in Hp1).
  assert (Hp2 : payloads h2 !! a' = Some (Some p2))
    by (unfold h2; simpl; now apply list_lookup_insert_eq).
  set (fs := drop c (Private.imageArray p1)).
  assert (Hlive : faces_live h2 fs).
  { intros k x Hk. unfold fs in Hk. rewrite lookup_drop in Hk.
    exact (observed_faces_live _ _ _ Hfaces _ _ Hk). }
  assert (Hdistinct : faces_distinct fs).
  { intros i j x Hi Hj. unfold fs in Hi, Hj. rewrite lookup_drop in Hi, Hj.
    pose proof (Hdist _ _ _ Hi Hj). lia. }
  set (body := fun i : Z =>
                 p <- Private_get (Some a') ;;
                 f <- Array_at (Private.imageArray p) i ;;
                 Image_delete f ;;
                 ret (@None unit)).
  assert (Hbody : forall k f h',
             fs !! k = Some f -> payloads h' = payloads h2 ->
             body (Z.of_nat (c + k)) h' = (Image_delete f ;; ret (@None unit)) h').
  { intros k f h' Hf Hsame. unfold body.
    assert (Hget : payloads h' !! a' = Some (Some p2)) by (now rewrite Hsame).
    step (Private_get_live _ _ _ Hget).
    unfold fs in Hf. rewrite lookup_drop in Hf.
    now rewrite (bind_Done _ _ _ _ _ (Array_at_lookup _ _ _ Hf h')). }
  assert (Hinit : faces_deleted h2 fs 0 h2).
  { split; [reflexivity |]. intros y. simpl. rewrite elem_of_nil. tauto. }
  destruct (delete_faces_returns h2 fs c body Hlive Hdistinct Hbody
              (length fs) 0%nat h2 eq_refl Hinit)
    as (r & h3 & Hloop & Hpay & Himgs).
  replace (c + 0)%nat with c in Hloop by lia.
  assert (Hp3 : payloads h3 !! a' = Some (Some p2)) by (now rewrite Hpay).
  set (resized := fun p => Private.set_imageArray
                             (Array_resize count None (Private.imageArray p)) p).
  exists (Tex (Some a')), (mkHeap (images h3) (<[a' := Some (resized p2)]> (payloads h3))).
  assert (Hkept : forall i x,
             (i < c)%nat -> Private.imageArray p1 !! i = Some (Some x) ->
             images h3 !! x = images h1 !! x).
  { intros i x Hi Hx. rewrite (proj2 (Himgs x)); [reflexivity |].
    intros (j & _ & Hj)%in_taken_faces. unfold fs in Hj.
    rewrite lookup_drop in Hj. pose proof (Hdist _ _ _ Hx Hj). lia. }
  split; [| split].
  - unfold setTextureType. rewrite Hm. step (Private_get_live _ _ _ Hpa).
    replace (TextureType_eqb (Private.type p) type) with false.
    2:{ symmetry. destruct (TextureType_eqb (Private.type p) type) eqn:Heq;
          [| reflexivity].
        apply TextureType_eqb_eq in Heq. congruence. }
    cbn [negb]. step Hdetach. cbn [m].
    step (Private_modify_live _ _ _ (Private.set_type type) Hp1).
    fold p2. fold h2.
    rewrite (bind_Done _ _ h2 count h2) by (now destruct type).
    step (Private_get_live _ _ _ Hp2).
    rewrite seqZ_to_nat.
    replace (Z.to_nat (Z.of_nat (length (Private.imageArray p2)) - count))
      with (length fs)
      by (unfold fs; rewrite length_drop; change (Private.imageArray p2)
            with (Private.imageArray p1); lia).
    rewrite Hcount. fold body. step Hloop.
    rewrite <- Hcount.
    step (Private_modify_live _ _ _ resized Hp3). reflexivity.
  - destruct s as [st sw sa sn sf]. cbn [s_type s_wrapMode s_alphaMode
                                         s_isNormalMap s_faces] in *.
    injection Hs as -> -> -> ->.
    change (mkSnapshot type (Private.wrapMode p1) (Private.alphaMode p1)
              (Private.isNormalMap p1) (Array_resize count None sf))
      with (mkSnapshot (Private.type (resized p2)) (Private.wrapMode (resized p2))
              (Private.alphaMode (resized p2)) (Private.isNormalMap (resized p2))
              (Array_resize count None sf)).
    apply observe_intro; [now apply payload_at_insert with p2 |].
    change (Private.imageArray (resized p2))
      with (Array_resize count None (Private.imageArray p1)).
    unfold Array_resize. fold c.
    rewrite (Forall2_length _ _ _ Hfaces).
    apply Forall2_app.
    + apply Forall2_same_length_lookup_2.
      { rewrite !length_take. apply Forall2_length in Hfaces. lia. }
      intros i f cnt [Hf Hi]%lookup_take_Some [Hc _]%lookup_take_Some.
      pose proof (Forall2_lookup_lr _ _ _ _ _ _ Hfaces Hf Hc) as Hat.
      destruct f as [x |]; [| exact Hat].
      simpl in *. now rewrite (Hkept i x Hi Hf).
    + apply Forall2_replicate. reflexivity.
  - intros q Hq Hsole i y Hi Hy.
    assert (q = p) as -> by congruence.
    assert (Hid : Tex (Some a') = this /\ h1 = h).
    { unfold detach in Hdetach. rewrite Hm in Hdetach.
      rewrite (bind_Done _ _ _ _ _ (Private_get_live _ _ _ Hpa)) in Hdetach.
      destruct (Z.ltb_spec 1 (Private.refCount p)); [lia |].
      now injection Hdetach as <- <-. }
    destruct Hid as [Hthis ->].
    assert (p1 = p) as ->.
    { destruct this as [mt]. simpl in Hm. injection Hthis as <-.
      injection Hm as <-. congruence. }
    simpl. apply Himgs. apply in_taken_faces.
    exists (i - c)%nat. unfold fs. rewrite lookup_drop.
    replace (c + (i - c))%nat with i by lia. split; [| exact Hy].
    rewrite length_drop. apply lookup_lt_Some in Hy. lia.
Qed.

(** A Plane texture of 4 x 2 pixels made a Cube. *)
Lemma setTextureType_Cube_on_loaded_4x2 :
  exists this' h',
    setTextureType TextureType_Cube (Tex (Some 0%nat)) loaded_4x2
    = Done (this', h')
    /\ observe this' h' = Some (cube_shot (plain 4 2 F32.one)).
Proof.
  destruct (setTextureType_resizes_faces TextureType_Cube (Tex (Some 0%nat))
              loaded_4x2 (shot (plain 4 2 F32.one)) eq_refl eq_refl
              ltac:(discriminate))
    as (this' & h' & Hrun & Hobs & _).
  exists this', h'. auto.
Defined.

(** ** Loading a file *)

Lemma observe_kept t h h' s :
  observe t h = Some s ->
  images_kept h h' -> payloads h' = payloads h ->
  observe t h' = Some s.
Proof.
  intros Hobs Hkept Hpay.
  destruct (observe_Some _ _ _ Hobs) as (p & Hp & Hall & _).
  rewrite (observe_fields _ _ _ _ Hobs Hp). apply observe_intro.
  - unfold payload_at in *. now rewrite Hpay.
  - exact (images_kept_observed _ _ _ _ Hall Hkept).
Qed.

Lemma insert_0_Array_resize_1 {A} (x y : A) l :
  <[0%nat := x]> (Array_resize 1 y l) = [x].
Proof. unfold Array_resize. now destruct l. Qed.

(** A successful [load] leaves the texture with one face, the loaded
    image with four channels, and keeps type, wrap mode, alpha mode and
    normal-map flag.  It deletes no image: the faces the texture had
    before stay allocated. *)
Theorem load_replaces_faces (file : FloatImage) (this : TexImage) (h : Heap)
    (s : Snapshot) :
  observe this h = Some s ->
  exists this' h',
    load (Some file) this h = Done ((true, this'), h')
    /\ observe this' h'
       = Some (mkSnapshot (s_type s) (s_wrapMode s) (s_alphaMode s)
                 (s_isNormalMap s) [Some (Image.resizeChannelCount 4 file)])
    /\ images_kept h h'.
Proof.
  intros Hobs.
  set (x := length (images h)).
  set (h0 := mkHeap (images h ++ [Some file]) (payloads h)).
  assert (Hk0 : images_kept h h0) by apply images_kept_app.
  assert (Hobs0 : observe this h0 = Some s)
    by (now apply observe_kept with h).
  assert (Hx0 : images h0 !! x = Some (Some file))
    by (unfold h0, x; simpl; now rewrite lookup_app_r, Nat.sub_diag by lia).
  destruct (detach_ready _ _ _ Hobs0)
    as (a' & h1 & p1 & Hdetach & Hp1 & Hs & Hfaces & _ & Hk1 & _).
  pose proof (Hk1 _ _ Hx0) as Hx1.
  set (file4 := Image.resizeChannelCount 4 file).
  set (h2 := mkHeap (<[x := Some file4]> (images h1)) (payloads h1)).
  set (f1 := fun p => Private.set_imageArray
                        (Array_resize 1 None (Private.imageArray p)) p).
  set (f2 := fun p => Private.set_imageArray
                        (<[0%nat := Some x]> (Private.imageArray p)) p).
  assert (Hp2 : payloads h2 !! a' = Some (Some p1)) by exact Hp1.
  set (h3 := mkHeap (images h2) (<[a' := Some (f1 p1)]> (payloads h2))).
  assert (Ha' : (a' < length (payloads h1))%nat)
    by (now apply lookup_lt_Some in Hp1).
  assert (Hp3 : payloads h3 !! a' = Some (Some (f1 p1)))
    by (unfold h3; simpl; now apply list_lookup_insert_eq).
  exists (Tex (Some a')),
    (mkHeap (images h3) (<[a' := Some (f2 (f1 p1))]> (payloads h3))).
  split; [| split].
  - unfold load.
    rewrite (bind_Done _ _ h x h0) by reflexivity.
    step Hdetach. step (Image_get_live _ _ _ Hx1).
    step (Image_put_live _ _ _ file4 Hx1). cbn [m].
    step (Private_modify_live _ _ _ f1 Hp2).
    step (Private_modify_live _ _ _ f2 Hp3). reflexivity.
  - destruct s as [st sw sa sn sf]. cbn [s_type s_wrapMode s_alphaMode
                                          s_isNormalMap s_faces] in *.
    injection Hs as -> -> -> ->.
    change (mkSnapshot (Private.type p1) (Private.wrapMode p1)
              (Private.alphaMode p1) (Private.isNormalMap p1) [Some file4])
      with (mkSnapshot (Private.type (f2 (f1 p1))) (Private.wrapMode (f2 (f1 p1)))
              (Private.alphaMode (f2 (f1 p1))) (Private.isNormalMap (f2 (f1 p1)))
              [Some file4]).
    apply observe_intro; [now apply payload_at_insert with (f1 p1) |].
    change (Private.imageArray (f2 (f1 p1)))
      with (<[0%nat := Some x]> (Array_resize 1 None (Private.imageArray p1))).
    rewrite insert_0_Array_resize_1.
    constructor; [| constructor].
    simpl. rewrite list_lookup_insert_eq by (now apply lookup_lt_Some in Hx1).
    reflexivity.
  - intros y img Hy. simpl.
    assert (y <> x) by (apply lookup_lt_Some in Hy; unfold x; lia).
    rewrite list_lookup_insert_ne by congruence.
    apply Hk1, Hk0, Hy.
Qed.

(** A Cube with a black pixel in face 0 loads a white pixel. *)
Lemma load_into_cube :
  exists this' h',
    load (Some (plain 1 1 F32.one)) (Tex (Some 0%nat)) two_cubes
    = Done ((true, this'), h')
    /\ observe this' h'
       = Some (mkSnapshot TextureType_Cube WrapMode_Mirror AlphaMode_None false
                 [Some (plain 1 1 F32.one)])
    /\ images h' !! 0%nat = Some (Some (plain 1 1 F32.zero)).
Proof.
  destruct (load_replaces_faces (plain 1 1 F32.one) (Tex (Some 0%nat)) two_cubes
              (cube_shot (plain 1 1 F32.zero)) eq_refl)
    as (this' & h' & Hrun & Hobs & Hkept).
  exists this', h'. split; [exact Hrun |]. split; [exact Hobs |].
  exact (Hkept 0%nat _ eq_refl).
Defined.

(** ** Samples of an image *)

Lemma Image_valid_four_planes img :
  Image_valid img = true -> four_planes (m_width img * m_height img) img.
Proof.
  unfold Image_valid, Image.sized. intros Hv.
  repeat (apply andb_prop in Hv as [Hv ?]).
  repeat match goal with
         | H : (_ <=? _) = true |- _ => apply Z.leb_le in H
         | H : (_ =? _) = true |- _ => apply Z.eqb_eq in H
         | H : (_ <? _) = true |- _ => apply Z.ltb_lt in H
         end.
  unfold four_planes. repeat split; try lia; nia.
Qed.

Lemma four_planes_extents n f f' :
  extents f' = extents f -> four_planes n f -> four_planes n f'.
Proof.
  unfold extents, four_planes. intros [= Hw Hh Hc Hl]. now rewrite Hw, Hh, Hc, Hl.
Qed.

Lemma load_channel_extents f f' c k :
  extents f' = extents f -> m_mem f' = m_mem f ->
  load_channel c k f' = load_channel c k f.
Proof.
  unfold extents, load_channel, Image.read, Image.channel.
  intros [= Hw Hh _ _] Hmem. now rewrite Hw, Hh, Hmem.
Qed.

Lemma Image_write_read f i v :
  0 <= i < Z.of_nat (length (m_mem f)) ->
  exists f', Image.write f i v = Some f'
             /\ extents f' = extents f
             /\ forall j, Image.read f' j
                          = if j =? i then Some v else Image.read f j.
Proof.
  intros Hi. unfold Image.write.
  destruct (Z.leb_spec 0 i); [| lia].
  destruct (Z.ltb_spec i (Z.of_nat (length (m_mem f)))); [| lia].
  eexists. split; [reflexivity |]. split.
  - unfold extents. simpl. now rewrite length_insert.
  - intros j. unfold Image.read. simpl.
    destruct (Z.eqb_spec j i) as [-> | Hne].
    + destruct (Z.ltb_spec i 0); [lia |].
      apply list_lookup_insert_eq. lia.
    + destruct (Z.ltb_spec j 0); [reflexivity |].
      apply list_lookup_insert_ne. lia.
Qed.

Lemma channel_offset n f c :
  four_planes n f -> Image.channel f c = c * n.
Proof.
  intros (_ & Hn & _). unfold Image.channel. rewrite <- Hn. ring.
Qed.

Lemma load_channel_Some n f c k :
  four_planes n f -> 0 <= c < 4 -> 0 <= k < n ->
  exists v, load_channel c k f = Some v.
Proof.
  intros Hf Hc Hk. unfold load_channel, Image.read.
  rewrite (channel_offset n f c Hf).
  destruct Hf as (_ & _ & Hlen & _).
  destruct (Z.ltb_spec (c * n + k) 0); [nia |].
  apply lookup_lt_is_Some. nia.
Qed.

(** A store through [channel(c)] shows at that sample only. *)
Lemma store_channel_load n f c k v :
  four_planes n f -> 0 <= c < 4 -> 0 <= k < n ->
  exists f', store_channel c k v f = Some f'
             /\ extents f' = extents f
             /\ forall c' j, 0 <= c' < 4 -> 0 <= j < n ->
                  load_channel c' j f'
                  = if (c' =? c) && (j =? k) then Some v
                    else load_channel c' j f.
Proof.
  intros Hf Hc Hk. unfold store_channel.
  pose proof (channel_offset n f c Hf) as Hoff.
  destruct (Image_write_read f (Image.channel f c + k) v)
    as (f' & Hw & Hext & Hread).
  { rewrite Hoff. destruct Hf as (_ & _ & Hlen & _). nia. }
  exists f'. split; [exact Hw |]. split; [exact Hext |].
  intros c' j Hc' Hj. unfold load_channel.
  rewrite (channel_offset n f' c' (four_planes_extents _ _ _ Hext Hf)).
  rewrite (channel_offset n f c' Hf), Hread, Hoff.
  destruct (Z.eqb_spec c' c) as [-> | Hcc]; simpl.
  - destruct (Z.eqb_spec j k) as [-> | Hjk].
    + now rewrite Z.eqb_refl.
    + destruct (Z.eqb_spec (c * n + j) (c * n + k)); [lia | reflexivity].
  - destruct (Z.eqb_spec (c' * n + j) (c * n + k)); [nia | reflexivity].
Qed.

Section PixelLoop.

(** A loop over the pixels of [img0] whose round [k] gives pixel [k] the
    samples [F k 0 .. F k 3], looking at pixel [k] only. *)
Variables (img0 : FloatImage) (n : Z) (F : Z -> Z -> float).
Variable body : Z -> FloatImage -> option FloatImage.
Hypothesis Hplanes : four_planes n img0.
Hypothesis Hbody : forall k f,
  0 <= k < n -> extents f = extents img0 ->
  (forall c, 0 <= c < 4 -> load_channel c k f = load_channel c k img0) ->
  exists f', body k f = Some f'
             /\ extents f' = extents img0
             /\ forall c j, 0 <= c < 4 -> 0 <= j < n ->
                  load_channel c j f'
                  = if j =? k then Some (F k c) else load_channel c j f.

Lemma pixel_loop_rounds (d : nat) :
  forall k f,
    0 <= k -> k + Z.of_nat d = n ->
    pixels_done img0 n F k f ->
    exists f', fold_range (seqZ k (Z.of_nat d)) body f = Some f'
               /\ pixels_done img0 n F n f'.
Proof.
  induction d as [| d IH]; intros k f Hk Hd [Hext Hdone].
  - exists f. split; [reflexivity |]. split; [exact Hext |].
    intros c j Hc Hj. rewrite (Hdone c j Hc Hj).
    destruct (Z.ltb_spec j k), (Z.ltb_spec j n); try reflexivity; lia.
  - rewrite seqZ_cons by lia. simpl.
    destruct (Hbody k f ltac:(lia) Hext) as (f1 & Hrun & Hext1 & Hnew).
    { intros c Hc. rewrite (Hdone c k Hc ltac:(lia)).
      destruct (Z.ltb_spec k k); [lia | reflexivity]. }
    rewrite Hrun. simpl.
    replace (Z.pred (Z.of_nat (S d))) with (Z.of_nat d) by lia.
    apply IH; [lia | lia |]. split; [exact Hext1 |].
    intros c j Hc Hj. rewrite (Hnew c j Hc Hj).
    destruct (Z.eqb_spec j k) as [-> | Hne].
    + destruct (Z.ltb_spec k (Z.succ k)); [reflexivity | lia].
    + rewrite (Hdone c j Hc Hj).
      destruct (Z.ltb_spec j k), (Z.ltb_spec j (Z.succ k)); try reflexivity; lia.
Qed.

Lemma pixel_loop_returns :
  exists f', fold_range (seqZ 0 n) body img0 = Some f'
             /\ extents f' = extents img0
             /\ forall c j, 0 <= c < 4 -> 0 <= j < n ->
                  load_channel c j f' = Some (F j c).
Proof.
  assert (Hn : 0 <= n) by (destruct Hplanes as (_ & _ & _ & ?); assumption).
  destruct (pixel_loop_rounds (Z.to_nat n) 0 img0 ltac:(lia) ltac:(lia))
    as (f' & Hrun & Hext & Hdone).
  { split; [reflexivity |]. intros c j Hc Hj.
    destruct (Z.ltb_spec j 0); [lia | reflexivity]. }
  exists f'. rewrite Z2Nat.id in Hrun by lia.
  split; [exact Hrun |]. split; [exact Hext |].
  intros c j Hc Hj. rewrite (Hdone c j Hc Hj).
  destruct (Z.ltb_spec j n); [reflexivity | lia].
Qed.

End PixelLoop.

(** ** Loops over the faces *)

Section FaceLoop.

(** A loop over the slots [faces] whose round [i] rewrites the image in
    slot [i] with [G] and skips an absent face. *)
Context {St Rt : Type}.
Variables (h : Heap) (faces : list (option nat)).
Variable G : St -> FloatImage -> option (St * FloatImage).
Variable body : Z -> St -> M (St + Rt).
Hypothesis Hdistinct : faces_distinct faces.
Hypothesis Hbody : forall i f st h',
  faces !! i = Some f -> payloads h' = payloads h ->
  body (Z.of_nat i) st h'
  = match f with
    | None => ret (inl st) h'
    | Some _ =>
        (img <- Image_get f ;;
         r <- in_bounds (G st img) ;;
         Image_put f r.2 ;;
         ret (inl r.1)) h'
    end.

Lemma face_loop_rounds (d : nat) :
  forall (k : nat) st hk cs st' res,
    (k + d = length faces)%nat ->
    payloads hk = payloads h ->
    Forall2 (fun f c => face_at hk f = Some c) (drop k faces) cs ->
    fold_faces G st cs = Some (st', res) ->
    exists h',
      for_fold (seqZ (Z.of_nat k) (Z.of_nat d)) body st hk = Done (inl st', h')
      /\ payloads h' = payloads h
      /\ Forall2 (fun f c => face_at h' f = Some c) (drop k faces) res
      /\ forall y, (forall i, (k <= i)%nat -> faces !! i <> Some (Some y)) ->
                   images h' !! y = images hk !! y.
Proof.
  induction d as [| d IH]; intros k st hk cs st' res Hk Hpay Hall Hfold.
  - rewrite drop_ge in Hall |- * by lia. apply Forall2_nil_inv_l in Hall.
    subst cs. injection Hfold as <- <-.
    exists hk. split; [reflexivity |]. split; [exact Hpay |].
    split; [constructor | reflexivity].
  - assert (Hsome : exists f, faces !! k = Some f)
      by (apply lookup_lt_is_Some; lia).
    destruct Hsome as [f Hf].
    rewrite (drop_S _ _ _ Hf) in Hall |- *.
    apply Forall2_cons_inv_l in Hall as (c & cs' & Hc & Hrest & ->).
    rewrite seqZ_of_nat_S. cbn [for_fold].
    destruct f as [x |].
    + simpl in Hc.
      destruct (images hk !! x) as [[img |] |] eqn:Hx; try discriminate.
      injection Hc as <-. simpl in Hfold.
      destruct (G st img) as [[st1 img1] |] eqn:HG; [| discriminate].
      simpl in Hfold.
      destruct (fold_faces G st1 cs') as [[st2 res1] |] eqn:Hfold1;
        [| discriminate].
      injection Hfold as <- <-.
      set (h1 := mkHeap (<[x := Some img1]> (images hk)) (payloads hk)).
      assert (Hstep : body (Z.of_nat k) st hk = Done (inl st1, h1)).
      { rewrite (Hbody k (Some x) st hk Hf Hpay).
        step (Image_get_live _ _ _ Hx). rewrite HG. simpl.
        rewrite (bind_Done _ _ hk (st1, img1) hk) by reflexivity.
        step (Image_put_live _ _ _ img1 Hx). reflexivity. }
      step Hstep.
      assert (Hlater : forall i, (S k <= i)%nat -> faces !! i <> Some (Some x)).
      { intros i Hi Hix. pose proof (Hdistinct _ _ _ Hf Hix). lia. }
      destruct (IH (S k) st1 h1 cs' st2 res1 ltac:(lia) Hpay) as
        (h' & Hrun & Hpay' & Hres & Hframe).
      { eapply Forall2_impl; [| intros f c Hfc; exact Hfc].
        apply Forall2_same_length_lookup_2; [now apply Forall2_length in Hrest |].
        intros i f c Hi Hci.
        pose proof (Forall2_lookup_lr _ _ _ _ _ _ Hrest Hi Hci) as Hat.
        destruct f as [y |]; [| exact Hat]. simpl in *.
        rewrite lookup_drop in Hi.
        assert (y <> x) by (intros ->; exact (Hlater (S k + i)%nat ltac:(lia) Hi)).
        now rewrite list_lookup_insert_ne by congruence. }
      { exact Hfold1. }
      exists h'. split; [exact Hrun |]. split; [exact Hpay' |]. split.
      * constructor; [| exact Hres]. simpl.
        rewrite (Hframe x Hlater). unfold h1. simpl.
        rewrite list_lookup_insert_eq by (now apply lookup_lt_Some in Hx).
        reflexivity.
      * intros y Hy. rewrite Hframe by (intros i Hi; apply Hy; lia).
        unfold h1. simpl. apply list_lookup_insert_ne.
        intros ->. exact (Hy k ltac:(lia) Hf).
    + simpl in Hc. injection Hc as <-. simpl in Hfold.
      destruct (fold_faces G st cs') as [[st2 res1] |] eqn:Hfold1;
        [| discriminate].
      injection Hfold as <- <-.
      assert (Hstep : body (Z.of_nat k) st hk = Done (inl st, hk))
        by (now rewrite (Hbody k None st hk Hf Hpay)).
      step Hstep.
      destruct (IH (S k) st hk cs' st2 res1 ltac:(lia) Hpay Hrest Hfold1) as
        (h' & Hrun & Hpay' & Hres & Hframe).
      exists h'. split; [exact Hrun |]. split; [exact Hpay' |]. split.
      * constructor; [reflexivity | exact Hres].
      * intros y Hy. apply Hframe. intros i Hi. apply Hy. lia.
Qed.

End FaceLoop.

Lemma faces_rewritten_fold G contents contents' :
  faces_rewritten G contents contents' ->
  fold_faces (fun (_ : unit) img => img' ← G img; Some (tt, img')) tt contents
  = Some (tt, contents').
Proof.
  induction 1 as [| c c' cs cs' Hc _ IH]; [reflexivity |].
  destruct c as [img |], c' as [img' |]; try contradiction; simpl.
  - rewrite Hc. simpl. now rewrite IH.
  - now rewrite IH.
Qed.

Section Transform.

(** A transform of the shape the colour transforms share: [detach()],
    then a loop over the faces that skips absent faces and rewrites the
    others in place with [G]. *)
Variable G : FloatImage -> option FloatImage.
Variable body : TexImage -> Z -> M (option unit).
Hypothesis Hbody : forall a p i f h',
  payloads h' !! a = Some (Some p) ->
  Private.imageArray p !! i = Some f ->
  body (Tex (Some a)) (Z.of_nat i) h'
  = match f with
    | None => ret None h'
    | Some _ =>
        (img <- Image_get f ;;
         img' <- in_bounds (G img) ;;
         Image_put f img' ;;
         ret None) h'
    end.

Lemma transform_returns this h s contents' :
  observe this h = Some s ->
  exclusive_faces this h = true ->
  faces_rewritten G (s_faces s) contents' ->
  exists this' h',
    (this <- detach this ;;
     p <- Private_get (m this) ;;
     for_each (seqZ 0 (Z.of_nat (length (Private.imageArray p)))) (body this) ;;
     ret this) h
    = Done (this', h')
    /\ observe this' h'
       = Some (mkSnapshot (s_type s) (s_wrapMode s) (s_alphaMode s)
                 (s_isNormalMap s) contents').
Proof.
  intros Hobs Hexcl Hnew.
  destruct (detach_ready _ _ _ Hobs)
    as (a' & h1 & p1 & Hdetach & Hp1 & Hs & Hfaces & Hdist & _ & _).
  specialize (Hdist Hexcl).
  destruct (face_loop_rounds (St := unit) (Rt := unit) h1 (Private.imageArray p1)
              (fun _ img => img' ← G img; Some (tt, img'))
              (fun i (_ : unit) =>
                 r <- body (Tex (Some a')) i ;;
                 ret (match r with Some v => inr v | None => inl tt end))
              Hdist)
    with (d := length (Private.imageArray p1)) (k := 0%nat) (st := tt) (hk := h1)
         (cs := s_faces s) (st' := tt) (res := contents')
    as (h2 & Hloop & Hpay & Hres & _).
  - intros i f [] h' Hf Hsame.
    assert (Hget : payloads h' !! a' = Some (Some p1)) by (now rewrite Hsame).
    unfold bind at 1. rewrite (Hbody a' p1 i f h' Hget Hf).
    destruct f as [x |]; [| reflexivity].
    unfold bind, Image_get, in_bounds, Image_put, ret, raise.
    destruct (images h' !! x) as [[img |] |]; try reflexivity.
    destruct (G img) as [img' |]; simpl; [| reflexivity].
    destruct (images h' !! x) as [[img0 |] |]; reflexivity.
  - reflexivity.
  - reflexivity.
  - exact Hfaces.
  - now apply faces_rewritten_fold.
  - exists (Tex (Some a')), h2. split.
    + step Hdetach. cbn [m]. step (Private_get_live _ _ _ Hp1).
      unfold for_each. change (Z.of_nat 0) with 0 in Hloop.
      rewrite (bind_Done _ _ h1 None h2); [reflexivity |].
      now rewrite (bind_Done _ _ _ _ _ Hloop).
    + destruct s as [st sw sa sn sf]. cbn [s_type s_wrapMode s_alphaMode
                                            s_isNormalMap s_faces] in *.
      injection Hs as -> -> -> ->.
      apply observe_intro; [apply payload_at_Some; exists a'; split;
                            [reflexivity | now rewrite Hpay] |].
      exact Hres.
Qed.

End Transform.

Lemma rewrite_all_faces G (R : FloatImage -> FloatImage -> Prop) contents :
  (forall img, Image_ready img = true ->
               exists img', G img = Some img' /\ R img img') ->
  faces_ready contents = true ->
  exists contents',
    faces_rewritten G contents contents' /\ faces_related R contents contents'.
Proof.
  intros HG. induction contents as [| c cs IH]; intros Hready.
  - exists []. split; constructor.
  - simpl in Hready. apply andb_prop in Hready as [Hc Hcs].
    destruct (IH Hcs) as (cs' & Hrw & Hrel).
    destruct c as [img |].
    + destruct (HG img Hc) as (img' & Himg & HR).
      exists (Some img' :: cs'). split; constructor; assumption.
    + exists (None :: cs'). split; constructor; auto.
Qed.

Lemma Image_ready_count img :
  Image_ready img = true ->
  four_planes (m_width img * m_height img) img
  /\ Int.to_int (m_width img * m_height img) = m_width img * m_height img.
Proof.
  unfold Image_ready. intros [Hv Hs%Z.ltb_lt]%andb_prop.
  pose proof (Image_valid_four_planes img Hv) as Hp.
  split; [exact Hp |]. apply to_int_small.
  destruct Hp as (_ & _ & _ & ?). lia.
Qed.

(** ** Filling with a colour *)

(** The pixel loop of [fill] on one face. *)
Lemma fill_pixels red green blue alpha img :
  Image_ready img = true ->
  exists img',
    fold_range (seqZ 0 (Int.to_int (m_width img * m_height img)))
      (fun k f =>
         f ← store_channel 0 k red f;
         f ← store_channel 1 k green f;
         f ← store_channel 2 k blue f;
         store_channel 3 k alpha f) img
    = Some img'
    /\ extents img' = extents img
    /\ forall c k, 0 <= c < 4 -> 0 <= k < m_width img * m_height img ->
         load_channel c k img' = Some (channel_colour red green blue alpha c).
Proof.
  intros [Hplanes ->]%Image_ready_count.
  apply (pixel_loop_returns img _
           (fun _ c => channel_colour red green blue alpha c)); [exact Hplanes |].
  intros k f Hk Hext _.
  pose proof (four_planes_extents _ _ _ Hext Hplanes) as Hf.
  destruct (store_channel_load _ f 0 k red Hf ltac:(lia) Hk)
    as (f1 & -> & Hext1 & Hl1).
  pose proof (four_planes_extents _ _ _ Hext1 Hf) as Hf1.
  destruct (store_channel_load _ f1 1 k green Hf1 ltac:(lia) Hk)
    as (f2 & H2 & Hext2 & Hl2).
  pose proof (four_planes_extents _ _ _ Hext2 Hf1) as Hf2.
  destruct (store_channel_load _ f2 2 k blue Hf2 ltac:(lia) Hk)
    as (f3 & H3 & Hext3 & Hl3).
  pose proof (four_planes_extents _ _ _ Hext3 Hf2) as Hf3.
  destruct (store_channel_load _ f3 3 k alpha Hf3 ltac:(lia) Hk)
    as (f4 & H4 & Hext4 & Hl4).
  exists f4. simpl. rewrite H2. simpl. rewrite H3. simpl.
  split; [exact H4 |]. split; [congruence |].
  intros c j Hc Hj.
  rewrite (Hl4 c j Hc Hj), (Hl3 c j Hc Hj), (Hl2 c j Hc Hj), (Hl1 c j Hc Hj).
  unfold channel_colour.
  destruct (Z.eqb_spec j k); [| now rewrite !andb_false_r].
  rewrite !andb_true_r.
  destruct (Z.eqb_spec c 3), (Z.eqb_spec c 2), (Z.eqb_spec c 1),
    (Z.eqb_spec c 0); try reflexivity; lia.
Qed.

(** [fill] gives every sample of channel 0 of every populated face the
    value [red], and likewise [green], [blue] and [alpha] for the
    channels 1, 2 and 3; absent faces stay absent, and extents and the
    fields of the texture are kept. *)
Theorem fill_every_sample (red green blue alpha : float) (this : TexImage)
    (h : Heap) (s : Snapshot) :
  observe this h = Some s ->
  exclusive_faces this h = true ->
  faces_ready (s_faces s) = true ->
  exists this' h' faces',
    fill red green blue alpha this h = Done (this', h')
    /\ observe this' h'
       = Some (mkSnapshot (s_type s) (s_wrapMode s) (s_alphaMode s)
                 (s_isNormalMap s) faces')
    /\ faces_related
         (fun img img' =>
            extents img' = extents img
            /\ forall c k, 0 <= c < 4 -> 0 <= k < m_width img * m_height img ->
                 load_channel c k img'
                 = Some (channel_colour red green blue alpha c))
         (s_faces s) faces'.
Proof.
  intros Hobs Hexcl Hready.
  set (G := fun f : FloatImage =>
              fold_range (seqZ 0 (Int.to_int (m_width f * m_height f)))
                (fun k f =>
                   f ← store_channel 0 k red f;
                   f ← store_channel 1 k green f;
                   f ← store_channel 2 k blue f;
                   store_channel 3 k alpha f) f).
  destruct (rewrite_all_faces G _ (s_faces s)
              (fill_pixels red green blue alpha) Hready)
    as (faces' & Hrw & Hrel).
  destruct (transform_returns G
              (fun this i =>
                 p <- Private_get (m this) ;;
                 img <- Array_at (Private.imageArray p) i ;;
                 match img with
                 | None => ret (@None unit)
                 | Some _ =>
                     f <- Image_get img ;;
                     f' <- in_bounds (G f) ;;
                     Image_put img f' ;;
                     ret None
                 end)) with (this := this) (h := h) (s := s) (contents' := faces')
    as (this' & h' & Hrun & Hshow); try assumption.
  - intros a p i f h0 Hp Hf. cbn [m]. step (Private_get_live _ _ _ Hp).
    rewrite (bind_Done _ _ _ _ _ (Array_at_lookup _ _ _ Hf h0)).
    now destruct f.
  - exists this', h', faces'. split; [exact Hrun |]. split; [exact Hshow |].
    exact Hrel.
Qed.

(** A texture of 4 x 2 white pixels is filled with opaque red. *)
Lemma fill_loaded_4x2 :
  exists this' h' img',
    fill F32.one F32.zero F32.zero F32.one (Tex (Some 0%nat)) loaded_4x2
    = Done (this', h')
    /\ observe this' h' = Some (shot img')
    /\ load_channel 0 7 img' = Some F32.one
    /\ load_channel 1 7 img' = Some F32.zero.
Proof.
  destruct (fill_every_sample F32.one F32.zero F32.zero F32.one
              (Tex (Some 0%nat)) loaded_4x2 (shot (plain 4 2 F32.one))
              eq_refl eq_refl eq_refl)
    as (this' & h' & faces' & Hrun & Hobs & Hrel).
  apply Forall2_cons_inv_l in Hrel as (c & cs & Hc & Hcs & ->).
  apply Forall2_nil_inv_l in Hcs as ->.
  destruct c as [img' |]; [| contradiction].
  destruct Hc as [_ Hsamples].
  exists this', h', img'. split; [exact Hrun |]. split; [exact Hobs |].
  split; [exact (Hsamples 0 7 ltac:(lia) ltac:(simpl; lia)) |
          exact (Hsamples 1 7 ltac:(lia) ltac:(simpl; lia))].
Defined.

(** ** Premultiplied alpha *)

Lemma load_channel_sample n f c k :
  four_planes n f -> 0 <= c < 4 -> 0 <= k < n ->
  load_channel c k f = Some (sample f c k).
Proof.
  intros Hf Hc Hk. unfold sample.
  now destruct (load_channel_Some n f c k Hf Hc Hk) as [v ->].
Qed.

(** The pixel loop of [premultiplyAlpha] on one face. *)
Lemma premultiply_pixels img :
  Image_ready img = true ->
  exists img',
    premultiplied_pixels img = Some img'
    /\ extents img' = extents img
    /\ forall c k, 0 <= c < 4 -> 0 <= k < m_width img * m_height img ->
         load_channel c k img'
         = Some (if c =? 3 then sample img 3 k
                 else F32.mul (sample img c k) (sample img 3 k)).
Proof.
  unfold premultiplied_pixels.
  intros [Hplanes ->]%Image_ready_count.
  apply (pixel_loop_returns img _
           (fun k c => if c =? 3 then sample img 3 k
                       else F32.mul (sample img c k) (sample img 3 k)));
    [exact Hplanes |].
  intros k f Hk Hext Hsame.
  pose proof (four_planes_extents _ _ _ Hext Hplanes) as Hf.
  assert (Hload : forall c, 0 <= c < 4 ->
                            load_channel c k f = Some (sample img c k)).
  { intros c Hc. rewrite (Hsame c Hc).
    now apply load_channel_sample with (m_width img * m_height img). }
  rewrite (Hload 0), (Hload 3) by lia. simpl.
  destruct (store_channel_load _ f 0 k
              (F32.mul (sample img 0 k) (sample img 3 k)) Hf ltac:(lia) Hk)
    as (f1 & -> & Hext1 & Hl1).
  pose proof (four_planes_extents _ _ _ Hext1 Hf) as Hf1. simpl.
  rewrite (Hl1 1 k), (Hl1 3 k) by lia. simpl.
  rewrite (Hload 1), (Hload 3) by lia. simpl.
  destruct (store_channel_load _ f1 1 k
              (F32.mul (sample img 1 k) (sample img 3 k)) Hf1 ltac:(lia) Hk)
    as (f2 & -> & Hext2 & Hl2).
  pose proof (four_planes_extents _ _ _ Hext2 Hf1) as Hf2. simpl.
  rewrite (Hl2 2 k), (Hl2 3 k) by lia. simpl.
  rewrite (Hl1 2 k), (Hl1 3 k) by lia. simpl.
  rewrite (Hload 2), (Hload 3) by lia. simpl.
  destruct (store_channel_load _ f2 2 k
              (F32.mul (sample img 2 k) (sample img 3 k)) Hf2 ltac:(lia) Hk)
    as (f3 & H3 & Hext3 & Hl3).
  exists f3. split; [exact H3 |]. split; [congruence |].
  intros c j Hc Hj.
  rewrite (Hl3 c j Hc Hj), (Hl2 c j Hc Hj), (Hl1 c j Hc Hj).
  destruct (Z.eqb_spec j k) as [-> | Hne]; [| now rewrite !andb_false_r].
  rewrite !andb_true_r.
  destruct (Z.eqb_spec c 3) as [-> | H3']; [simpl; now apply Hload |].
  destruct (Z.eqb_spec c 2) as [-> | H2']; [reflexivity |].
  destruct (Z.eqb_spec c 1) as [-> | H1']; [reflexivity |].
  destruct (Z.eqb_spec c 0) as [-> | H0']; [reflexivity | lia].
Qed.

(** [premultiplyAlpha] multiplies every red, green and blue sample of
    every populated face with the alpha sample of its pixel and keeps the
    alpha samples. *)
Theorem premultiplyAlpha_every_pixel (this : TexImage) (h : Heap) (s : Snapshot) :
  observe this h = Some s ->
  exclusive_faces this h = true ->
  faces_ready (s_faces s) = true ->
  exists this' h' faces',
    premultiplyAlpha this h = Done (this', h')
    /\ observe this' h'
       = Some (mkSnapshot (s_type s) (s_wrapMode s) (s_alphaMode s)
                 (s_isNormalMap s) faces')
    /\ faces_related
         (fun img img' =>
            extents img' = extents img
            /\ forall c k, 0 <= c < 4 -> 0 <= k < m_width img * m_height img ->
                 load_channel c k img'
                 = Some (if c =? 3 then sample img 3 k
                         else F32.mul (sample img c k) (sample img 3 k)))
         (s_faces s) faces'.
Proof.
  intros Hobs Hexcl Hready.
  set (G := premultiplied_pixels).
  destruct (rewrite_all_faces G _ (s_faces s) premultiply_pixels Hready)
    as (faces' & Hrw & Hrel).
  destruct (transform_returns G
              (fun this i =>
                 p <- Private_get (m this) ;;
                 img <- Array_at (Private.imageArray p) i ;;
                 match img with
                 | None => ret (@None unit)
                 | Some _ =>
                     f <- Image_get img ;;
                     f' <- in_bounds (G f) ;;
                     Image_put img f' ;;
                     ret None
                 end)) with (this := this) (h := h) (s := s) (contents' := faces')
    as (this' & h' & Hrun & Hshow); try assumption.
  - intros a p i f h0 Hp Hf. cbn [m]. step (Private_get_live _ _ _ Hp).
    rewrite (bind_Done _ _ _ _ _ (Array_at_lookup _ _ _ Hf h0)).
    now destruct f.
  - exists this', h', faces'. split; [exact Hrun |]. split; [exact Hshow |].
    exact Hrel.
Qed.

(** A texture of 4 x 2 white, opaque pixels. *)
Lemma premultiplyAlpha_loaded_4x2 :
  exists this' h' img',
    premultiplyAlpha (Tex (Some 0%nat)) loaded_4x2 = Done (this', h')
    /\ observe this' h' = Some (shot img')
    /\ load_channel 0 5 img' = Some F32.one.
Proof.
  destruct (premultiplyAlpha_every_pixel (Tex (Some 0%nat)) loaded_4x2
              (shot (plain 4 2 F32.one)) eq_refl eq_refl eq_refl)
    as (this' & h' & faces' & Hrun & Hobs & Hrel).
  apply Forall2_cons_inv_l in Hrel as (c & cs & Hc & Hcs & ->).
  apply Forall2_nil_inv_l in Hcs as ->.
  destruct c as [img' |]; [| contradiction].
  destruct Hc as [_ Hsamples].
  exists this', h', img'. split; [exact Hrun |]. split; [exact Hobs |].
  exact (Hsamples 0 5 ltac:(lia) ltac:(simpl; lia)).
Defined.

(** ** Grey scale *)

Lemma fold_all_faces {St} (G : St -> FloatImage -> option (St * FloatImage))
    (R : St -> FloatImage -> FloatImage -> Prop) contents :
  (forall st img, Image_ready img = true ->
                  exists st' img', G st img = Some (st', img') /\ R st img img') ->
  faces_ready contents = true ->
  forall st,
    exists st' contents',
      fold_faces G st contents = Some (st', contents')
      /\ faces_related (fun img img' => exists st0, R st0 img img')
           contents contents'
      /\ forall img, contents !! 0%nat = Some (Some img) ->
           exists img', contents' !! 0%nat = Some (Some img') /\ R st img img'.
Proof.
  intros HG. induction contents as [| c cs IH]; intros Hready st.
  - exists st, []. split; [reflexivity |]. split; [constructor |].
    intros img Himg. discriminate.
  - simpl in Hready. apply andb_prop in Hready as [Hc Hcs].
    destruct c as [img |].
    + destruct (HG st img Hc) as (st1 & img1 & Himg & HR).
      destruct (IH Hcs st1) as (st' & cs' & Hfold & Hrel & _).
      exists st', (Some img1 :: cs'). simpl. rewrite Himg. simpl.
      rewrite Hfold. simpl. split; [reflexivity |]. split.
      * constructor; [eauto | exact Hrel].
      * intros img0 [= <-]. eauto.
    + destruct (IH Hcs st) as (st' & cs' & Hfold & Hrel & _).
      exists st', (None :: cs'). simpl. rewrite Hfold. simpl.
      split; [reflexivity |]. split; [constructor; auto |].
      intros img0 Himg0. discriminate.
Qed.

(** The same with the state of every round: when [G] steps the state
    with [next] on every populated face, face [i] is rewritten with the
    state after one step for itself and one for every populated face in
    front of it. *)
Lemma fold_faces_iterated {St} (G : St -> FloatImage -> option (St * FloatImage))
    (next : St -> St) (R : St -> FloatImage -> FloatImage -> Prop) contents :
  (forall st img, Image_ready img = true ->
                  exists img', G st img = Some (next st, img')
                               /\ R (next st) img img') ->
  faces_ready contents = true ->
  forall st,
    exists st' contents',
      fold_faces G st contents = Some (st', contents')
      /\ forall i img, contents !! i = Some (Some img) ->
           exists img',
             contents' !! i = Some (Some img')
             /\ R (Nat.iter (S (length (omap id (take i contents)))) next st)
                  img img'.
Proof.
  intros HG. induction contents as [| c cs IH]; intros Hready st.
  - exists st, []. split; [reflexivity |]. intros i img Hi.
    rewrite lookup_nil in Hi. discriminate.
  - simpl in Hready. apply andb_prop in Hready as [Hc Hcs].
    destruct c as [img |].
    + destruct (HG st img Hc) as (img1 & Himg & HR).
      destruct (IH Hcs (next st)) as (st' & cs' & Hfold & Hat).
      exists st', (Some img1 :: cs'). simpl. rewrite Himg. simpl.
      rewrite Hfold. simpl. split; [reflexivity |].
      intros [| i] img0 Hi.
      * injection Hi as <-. exists img1. split; [reflexivity | exact HR].
      * destruct (Hat i img0 Hi) as (img' & Hi' & HR').
        exists img'. split; [exact Hi' |].
        change (omap id (take (S i) (Some img :: cs)))
          with (img :: omap id (take i cs)).
        cbn [length]. rewrite Nat.iter_succ_r. exact HR'.
    + destruct (IH Hcs st) as (st' & cs' & Hfold & Hat).
      exists st', (None :: cs'). simpl. rewrite Hfold. simpl.
      split; [reflexivity |].
      intros [| i] img0 Hi; [discriminate Hi |].
      destruct (Hat i img0 Hi) as (img' & Hi' & HR').
      exists img'. split; [exact Hi' | exact HR'].
Qed.

Section TransformFold.

(** A transform whose loop over the faces carries a state. *)
Context {St : Type}.
Variable G : St -> FloatImage -> option (St * FloatImage).
Variable body : TexImage -> Z -> St -> M (St + unit).
Hypothesis Hbody : forall a p i f st h',
  payloads h' !! a = Some (Some p) ->
  Private.imageArray p !! i = Some f ->
  body (Tex (Some a)) (Z.of_nat i) st h'
  = match f with
    | None => ret (inl st) h'
    | Some _ =>
        (img <- Image_get f ;;
         r <- in_bounds (G st img) ;;
         Image_put f r.2 ;;
         ret (inl r.1)) h'
    end.

Lemma transform_fold_returns this h s st0 st' contents' :
  observe this h = Some s ->
  exclusive_faces this h = true ->
  fold_faces G st0 (s_faces s) = Some (st', contents') ->
  exists this' h',
    (this <- detach this ;;
     p <- Private_get (m this) ;;
     for_fold (seqZ 0 (Z.of_nat (length (Private.imageArray p))))
       (body this) st0 ;;
     ret this) h
    = Done (this', h')
    /\ observe this' h'
       = Some (mkSnapshot (s_type s) (s_wrapMode s) (s_alphaMode s)
                 (s_isNormalMap s) contents').
Proof.
  intros Hobs Hexcl Hfold.
  destruct (detach_ready _ _ _ Hobs)
    as (a' & h1 & p1 & Hdetach & Hp1 & Hs & Hfaces & Hdist & _ & _).
  specialize (Hdist Hexcl).
  destruct (face_loop_rounds h1 (Private.imageArray p1) G
              (body (Tex (Some a'))) Hdist)
    with (d := length (Private.imageArray p1)) (k := 0%nat) (st := st0) (hk := h1)
         (cs := s_faces s) (st' := st') (res := contents')
    as (h2 & Hloop & Hpay & Hres & _).
  - intros i f st h' Hf Hsame.
    assert (Hget : payloads h' !! a' = Some (Some p1)) by (now rewrite Hsame).
    exact (Hbody a' p1 i f st h' Hget Hf).
  - reflexivity.
  - reflexivity.
  - exact Hfaces.
  - exact Hfold.
  - exists (Tex (Some a')), h2. split.
    + step Hdetach. cbn [m]. step (Private_get_live _ _ _ Hp1).
      change (Z.of_nat 0) with 0 in Hloop. step Hloop. reflexivity.
    + destruct s as [st sw sa sn sf]. cbn [s_type s_wrapMode s_alphaMode
                                            s_isNormalMap s_faces] in *.
      injection Hs as -> -> -> ->.
      apply observe_intro; [apply payload_at_Some; exists a'; split;
                            [reflexivity | now rewrite Hpay] |].
      exact Hres.
Qed.

End TransformFold.

(** The pixel loop of [toGreyScale] on one face. *)
Lemma grey_pixels st img :
  Image_ready img = true ->
  exists img',
    greyscale_pixels st img = Some img'
    /\ extents img' = extents img
    /\ forall c k, 0 <= c < 4 -> 0 <= k < m_width img * m_height img ->
         load_channel c k img' = Some (grey_sample st img k).
Proof.
  destruct st as [[[redScale greenScale] blueScale] alphaScale].
  unfold greyscale_pixels.
  intros [Hplanes ->]%Image_ready_count.
  apply (pixel_loop_returns img _
           (fun k _ => grey_sample (redScale, greenScale, blueScale, alphaScale)
                         img k));
    [exact Hplanes |].
  intros k f Hk Hext Hsame.
  pose proof (four_planes_extents _ _ _ Hext Hplanes) as Hf.
  assert (Hload : forall c, 0 <= c < 4 ->
                            load_channel c k f = Some (sample img c k)).
  { intros c Hc. rewrite (Hsame c Hc).
    now apply load_channel_sample with (m_width img * m_height img). }
  rewrite (Hload 0), (Hload 1), (Hload 2), (Hload 3) by lia. simpl.
  fold (grey_sample (redScale, greenScale, blueScale, alphaScale) img k).
  set (grey := grey_sample (redScale, greenScale, blueScale, alphaScale) img k).
  destruct (store_channel_load _ f 0 k grey Hf ltac:(lia) Hk)
    as (f1 & -> & Hext1 & Hl1).
  pose proof (four_planes_extents _ _ _ Hext1 Hf) as Hf1. simpl.
  destruct (store_channel_load _ f1 1 k grey Hf1 ltac:(lia) Hk)
    as (f2 & -> & Hext2 & Hl2).
  pose proof (four_planes_extents _ _ _ Hext2 Hf1) as Hf2. simpl.
  destruct (store_channel_load _ f2 2 k grey Hf2 ltac:(lia) Hk)
    as (f3 & -> & Hext3 & Hl3).
  pose proof (four_planes_extents _ _ _ Hext3 Hf2) as Hf3. simpl.
  destruct (store_channel_load _ f3 3 k grey Hf3 ltac:(lia) Hk)
    as (f4 & H4 & Hext4 & Hl4).
  exists f4. split; [exact H4 |]. split; [congruence |].
  intros c j Hc Hj.
  rewrite (Hl4 c j Hc Hj), (Hl3 c j Hc Hj), (Hl2 c j Hc Hj), (Hl1 c j Hc Hj).
  destruct (Z.eqb_spec j k) as [-> | Hne]; [| now rewrite !andb_false_r].
  rewrite !andb_true_r.
  destruct (Z.eqb_spec c 3), (Z.eqb_spec c 2), (Z.eqb_spec c 1),
    (Z.eqb_spec c 0); try reflexivity; lia.
Qed.

(** [toGreyScale] gives the four channels of every pixel of every
    populated face one value, the weighted sum of the four samples the
    pixel had.  The weights of a face are the given scales divided by
    their sum, once for the face itself and once more for every
    populated face in front of it: the loop over the faces divides the
    scales again in every round on a populated face. *)
Theorem toGreyScale_equal_channels (redScale greenScale blueScale alphaScale : float)
    (this : TexImage) (h : Heap) (s : Snapshot) :
  observe this h = Some s ->
  exclusive_faces this h = true ->
  faces_ready (s_faces s) = true ->
  exists this' h' faces',
    toGreyScale redScale greenScale blueScale alphaScale this h = Done (this', h')
    /\ observe this' h'
       = Some (mkSnapshot (s_type s) (s_wrapMode s) (s_alphaMode s)
                 (s_isNormalMap s) faces')
    /\ faces_related (fun img img' => extents img' = extents img)
         (s_faces s) faces'
    /\ forall i img, s_faces s !! i = Some (Some img) ->
         exists img',
           faces' !! i = Some (Some img')
           /\ forall c k, 0 <= c < 4 -> 0 <= k < m_width img * m_height img ->
                load_channel c k img'
                = Some (grey_sample
                          (scales_of_face
                             (redScale, greenScale, blueScale, alphaScale)
                             (s_faces s) i)
                          img k).
Proof.
  intros Hobs Hexcl Hready.
  set (G := fun (st : float * float * float * float) (f : FloatImage) =>
              f' ← greyscale_pixels (normalized_scales st) f;
              Some (normalized_scales st, f')).
  destruct (fold_all_faces G
              (fun st img img' =>
                 extents img' = extents img
                 /\ forall c k, 0 <= c < 4 -> 0 <= k < m_width img * m_height img ->
                      load_channel c k img'
                      = Some (grey_sample (normalized_scales st) img k))
              (s_faces s)) with (st := (redScale, greenScale, blueScale, alphaScale))
    as (st' & faces' & Hfold & Hrel & _); [| exact Hready |].
  { intros st img Himg. unfold G.
    destruct (grey_pixels (normalized_scales st) img Himg)
      as (img' & -> & Hext & Hgrey).
    eexists _, img'. split; [reflexivity |]. auto. }
  destruct (fold_faces_iterated G normalized_scales
              (fun st img img' =>
                 forall c k, 0 <= c < 4 -> 0 <= k < m_width img * m_height img ->
                   load_channel c k img' = Some (grey_sample st img k))
              (s_faces s)) with (st := (redScale, greenScale, blueScale, alphaScale))
    as (st2 & faces2 & Hfold2 & Hat); [| exact Hready |].
  { intros st img Himg. unfold G.
    destruct (grey_pixels (normalized_scales st) img Himg)
      as (img' & -> & _ & Hgrey).
    exists img'. split; [reflexivity | exact Hgrey]. }
  rewrite Hfold in Hfold2. injection Hfold2 as <- <-.
  destruct (transform_fold_returns G
              (fun this i st =>
                 p <- Private_get (m this) ;;
                 img <- Array_at (Private.imageArray p) i ;;
                 match img with
                 | None => ret (inl st)
                 | Some _ =>
                     f <- Image_get img ;;
                     let st := normalized_scales st in
                     f' <- in_bounds (greyscale_pixels st f) ;;
                     Image_put img f' ;;
                     ret (inl st)
                 end))
    with (this := this) (h := h) (s := s)
         (st0 := (redScale, greenScale, blueScale, alphaScale))
         (st' := st') (contents' := faces')
    as (this' & h' & Hrun & Hshow); try assumption.
  - intros a p i f st h0 Hp Hf. cbn [m]. step (Private_get_live _ _ _ Hp).
    rewrite (bind_Done _ _ _ _ _ (Array_at_lookup _ _ _ Hf h0)).
    destruct f as [x |]; [| reflexivity].
    unfold bind, Image_get, in_bounds, Image_put, ret, raise, G.
    destruct (images h0 !! x) as [[img |] |]; try reflexivity.
    destruct (greyscale_pixels (normalized_scales st) img) as [img' |];
      simpl; [| reflexivity].
    destruct (images h0 !! x) as [[img0 |] |]; reflexivity.
  - exists this', h', faces'. split; [exact Hrun |]. split; [exact Hshow |].
    split.
    + eapply Forall2_impl; [exact Hrel |].
      intros [img |] [img' |]; try tauto.
      now intros (st0 & Hext & _).
    + intros i img Himg. exact (Hat i img Himg).
Qed.

(** A texture of 4 x 2 white pixels with equal weights: every sample
    becomes (1 * 1/4 + 1 * 1/4 + 1 * 1/4) + 1 * 1/4. *)
Lemma toGreyScale_loaded_4x2 :
  exists this' h' img',
    toGreyScale F32.one F32.one F32.one F32.one (Tex (Some 0%nat)) loaded_4x2
    = Done (this', h')
    /\ observe this' h' = Some (shot img')
    /\ load_channel 2 3 img' = Some F32.one.
Proof.
  destruct (toGreyScale_equal_channels F32.one F32.one F32.one F32.one
              (Tex (Some 0%nat)) loaded_4x2 (shot (plain 4 2 F32.one))
              eq_refl eq_refl eq_refl)
    as (this' & h' & faces' & Hrun & Hobs & Hrel & Hfaces).
  destruct (Hfaces 0%nat _ eq_refl) as (img' & Hface & Hgrey).
  destruct faces' as [| f rest]; [discriminate Hface |].
  injection Hface as ->.
  assert (rest = []) as ->.
  { apply Forall2_length in Hrel.
    destruct rest; [reflexivity | discriminate Hrel]. }
  exists this', h', img'. split; [exact Hrun |]. split; [exact Hobs |].
  rewrite (Hgrey 2 3 ltac:(lia) ltac:(simpl; lia)).
  vm_compute. reflexivity.
Defined.

(** ** Drawing a border *)

Section WriteLoop.

(** A loop whose round [i] stores [V j] at the samples [j] with
    [touched i j] and leaves the others. *)
Variables (img0 : FloatImage) (V : Z -> float) (touched : Z -> Z -> bool).
Variable body : Z -> FloatImage -> option FloatImage.

Lemma write_loop_returns idxs :
  (forall i f, i ∈ idxs -> extents f = extents img0 ->
     exists f', body i f = Some f'
                /\ extents f' = extents img0
                /\ forall j, Image.read f' j
                             = if touched i j then Some (V j)
                               else Image.read f j) ->
  forall f, extents f = extents img0 ->
    exists f', fold_range idxs body f = Some f'
               /\ extents f' = extents img0
               /\ forall j, Image.read f' j
                            = if existsb (fun i => touched i j) idxs
                              then Some (V j) else Image.read f j.
Proof.
  induction idxs as [| i idxs IH]; intros Hbody f Hext.
  - exists f. split; [reflexivity |]. split; [exact Hext | reflexivity].
  - destruct (Hbody i f ltac:(left) Hext) as (f1 & Hrun & Hext1 & Hread1).
    destruct (IH (fun i' f' Hi => Hbody i' f' ltac:(now right)) f1 Hext1)
      as (f' & Hfold & Hext' & Hread).
    exists f'. simpl. rewrite Hrun. simpl. split; [exact Hfold |].
    split; [exact Hext' |]. intros j. rewrite Hread, Hread1.
    destruct (touched i j), (existsb (fun i0 => touched i0 j) idxs); reflexivity.
Qed.

End WriteLoop.

Section Pixels.

Variable img : FloatImage.
Hypothesis Hready : Image_ready img = true.

Let w := m_width img.
Let ht := m_height img.

Lemma ready_extents :
  0 <= w /\ 0 <= ht /\ w * ht < 2 ^ 31
  /\ Z.of_nat (length (m_mem img)) = 4 * (w * ht).
Proof.
  destruct (Image_ready_count img Hready) as [(_ & _ & Hlen & _) _].
  unfold Image_ready, Image_valid, Image.sized in Hready.
  repeat (apply andb_prop in Hready as [Hready ?]).
  repeat match goal with
         | H : (_ <=? _) = true |- _ => apply Z.leb_le in H
         | H : (_ <? _) = true |- _ => apply Z.ltb_lt in H
         end.
  unfold w, ht. auto.
Qed.

Lemma index_range x y c :
  0 <= x < w -> 0 <= y < ht -> 0 <= c < 4 ->
  0 <= Image.index img x y c < Z.of_nat (length (m_mem img)).
Proof.
  intros Hx Hy Hc. destruct ready_extents as (_ & _ & _ & ->).
  unfold Image.index. fold w ht.
  assert (0 <= c * ht + y <= 4 * ht - 1) by nia.
  assert ((c * ht + y) * w <= (4 * ht - 1) * w)
    by (apply Z.mul_le_mono_nonneg_r; lia).
  assert (0 <= (c * ht + y) * w) by (apply Z.mul_nonneg_nonneg; lia).
  lia.
Qed.

Lemma index_inj x y c x' y' c' :
  0 <= x < w -> 0 <= y < ht -> 0 <= x' < w -> 0 <= y' < ht ->
  Image.index img x y c = Image.index img x' y' c' ->
  x = x' /\ y = y' /\ c = c'.
Proof.
  intros Hx Hy Hx' Hy'. unfold Image.index. fold w ht. intros Heq.
  destruct (Z.div_mod_unique w (c * ht + y) (c' * ht + y') x x') as [Hq Hr];
    [lia | lia | lia |].
  destruct (Z.div_mod_unique ht c c' y y') as [Hc Hyy]; [lia | lia | lia |].
  auto.
Qed.

Lemma index_plane x y c :
  0 <= x < w -> 0 <= y < ht -> Image.index img x y c / (w * ht) = c.
Proof.
  intros Hx Hy. unfold Image.index. fold w ht.
  symmetry. apply (Z.div_unique _ _ _ (y * w + x)); nia.
Qed.

Lemma index_extents f x y c :
  extents f = extents img -> Image.index f x y c = Image.index img x y c.
Proof.
  unfold extents, Image.index. intros [= Hw Hh _ _]. now rewrite Hw, Hh.
Qed.

(** Two groups of four stores, at the pixels (x, y) and (x', y'). *)
Lemma ring_round r g b a x y x' y' f :
  0 <= x < w -> 0 <= y < ht -> 0 <= x' < w -> 0 <= y' < ht ->
  extents f = extents img ->
  exists f',
    (f ← store_pixel x y 0 r f;
     f ← store_pixel x y 1 g f;
     f ← store_pixel x y 2 b f;
     f ← store_pixel x y 3 a f;
     f ← store_pixel x' y' 0 r f;
     f ← store_pixel x' y' 1 g f;
     f ← store_pixel x' y' 2 b f;
     store_pixel x' y' 3 a f) = Some f'
    /\ extents f' = extents img
    /\ forall j, Image.read f' j
                 = if ring_touched img x y x' y' j
                   then Some (channel_colour r g b a (j / (w * ht)))
                   else Image.read f j.
Proof.
  intros Hx Hy Hx' Hy' Hext.
  assert (Hstore : forall x y c v f,
             0 <= x < w -> 0 <= y < ht -> 0 <= c < 4 ->
             extents f = extents img ->
             exists f', store_pixel x y c v f = Some f'
                        /\ extents f' = extents img
                        /\ forall j, Image.read f' j
                                     = if j =? Image.index img x y c then Some v
                                       else Image.read f j).
  { intros x0 y0 c v f0 Hx0 Hy0 Hc Hext0. unfold store_pixel.
    rewrite (index_extents f0 _ _ _ Hext0).
    destruct (Image_write_read f0 (Image.index img x0 y0 c) v)
      as (f' & Hw & Hext' & Hread).
    { assert (Hlen : length (m_mem f0) = length (m_mem img))
        by (unfold extents in Hext0; congruence).
      rewrite Hlen. now apply index_range. }
    exists f'. split; [exact Hw |]. split; [congruence | exact Hread]. }
  destruct (Hstore x y 0 r f Hx Hy ltac:(lia) Hext) as (f1 & -> & He1 & Hr1).
  simpl.
  destruct (Hstore x y 1 g f1 Hx Hy ltac:(lia) He1) as (f2 & -> & He2 & Hr2).
  simpl.
  destruct (Hstore x y 2 b f2 Hx Hy ltac:(lia) He2) as (f3 & -> & He3 & Hr3).
  simpl.
  destruct (Hstore x y 3 a f3 Hx Hy ltac:(lia) He3) as (f4 & -> & He4 & Hr4).
  simpl.
  destruct (Hstore x' y' 0 r f4 Hx' Hy' ltac:(lia) He4) as (f5 & -> & He5 & Hr5).
  simpl.
  destruct (Hstore x' y' 1 g f5 Hx' Hy' ltac:(lia) He5) as (f6 & -> & He6 & Hr6).
  simpl.
  destruct (Hstore x' y' 2 b f6 Hx' Hy' ltac:(lia) He6) as (f7 & -> & He7 & Hr7).
  simpl.
  destruct (Hstore x' y' 3 a f7 Hx' Hy' ltac:(lia) He7) as (f8 & H8 & He8 & Hr8).
  exists f8. split; [exact H8 |]. split; [exact He8 |].
  intros j. rewrite Hr8, Hr7, Hr6, Hr5, Hr4, Hr3, Hr2, Hr1.
  unfold ring_touched.
  repeat match goal with
         | |- context [j =? Image.index img ?u ?v ?c] =>
             destruct (Z.eqb_spec j (Image.index img u v c)) as [-> | ?];
             [rewrite index_plane by assumption; reflexivity | cbn [orb]]
         end.
  reflexivity.
Qed.

End Pixels.

Lemma ring_touched_spec img x0 y0 x1 y1 x y c :
  Image_ready img = true ->
  0 <= x0 < m_width img -> 0 <= y0 < m_height img ->
  0 <= x1 < m_width img -> 0 <= y1 < m_height img ->
  0 <= x < m_width img -> 0 <= y < m_height img -> 0 <= c < 4 ->
  ring_touched img x0 y0 x1 y1 (Image.index img x y c) = true
  <-> (x = x0 /\ y = y0) \/ (x = x1 /\ y = y1).
Proof.
  intros Hready Hx0 Hy0 Hx1 Hy1 Hx Hy Hc. unfold ring_touched.
  rewrite !orb_true_iff, !Z.eqb_eq. split.
  - intros Hany.
    repeat match goal with
           | H : _ \/ _ |- _ => destruct H as [H | H]
           end;
      apply (index_inj img) in Hany; try assumption;
      destruct Hany as (-> & -> & _); auto.
  - intros [[-> ->] | [-> ->]];
      assert (Hcases : c = 0 \/ c = 1 \/ c = 2 \/ c = 3) by lia;
      destruct Hcases as [-> | [-> | [-> | ->]]]; tauto.
Qed.

Lemma existsb_seqZ (f : Z -> bool) n :
  existsb f (seqZ 0 n) = true <-> exists i, 0 <= i < n /\ f i = true.
Proof.
  rewrite existsb_exists. split; intros (i & Hi & Hf); exists i;
    (split; [| exact Hf]).
  - apply list_elem_of_In, elem_of_seqZ in Hi. lia.
  - apply list_elem_of_In, elem_of_seqZ. lia.
Qed.

(** The pixel loops of [setBorder] on one face. *)
Lemma border_ring r g b a img :
  Image_drawable img = true ->
  exists img',
    border_pixels r g b a img = Some img'
    /\ extents img' = extents img
    /\ forall x y c,
         0 <= x < m_width img -> 0 <= y < m_height img -> 0 <= c < 4 ->
         Image.read img' (Image.index img' x y c)
         = if on_border (m_width img) (m_height img) x y
           then Some (channel_colour r g b a c)
           else Image.read img (Image.index img x y c).
Proof.
  unfold Image_drawable.
  intros [[Hready Hw%Z.leb_le]%andb_prop Hh%Z.leb_le]%andb_prop.
  destruct (ready_extents img Hready) as (_ & _ & Hsmall & _).
  set (w := m_width img) in *. set (ht := m_height img) in *.
  assert (Hwi : Int.to_int w = w) by (apply to_int_small; nia).
  assert (Hhi : Int.to_int ht = ht) by (apply to_int_small; nia).
  set (V := fun j => channel_colour r g b a (j / (w * ht))).
  destruct (write_loop_returns img V
              (fun i j => ring_touched img i 0 i (ht - 1) j)
              (fun i f =>
                 f ← store_pixel i 0 0 r f;
                 f ← store_pixel i 0 1 g f;
                 f ← store_pixel i 0 2 b f;
                 f ← store_pixel i 0 3 a f;
                 f ← store_pixel i (ht - 1) 0 r f;
                 f ← store_pixel i (ht - 1) 1 g f;
                 f ← store_pixel i (ht - 1) 2 b f;
                 store_pixel i (ht - 1) 3 a f) (seqZ 0 w))
    with (f := img) as (f1 & Hrun1 & Hext1 & Hread1); [| reflexivity |].
  { intros i f Hi%elem_of_seqZ Hext.
    apply (ring_round img Hready); fold w ht; try lia. exact Hext. }
  destruct (write_loop_returns img V
              (fun i j => ring_touched img 0 i (w - 1) i j)
              (fun i f =>
                 f ← store_pixel 0 i 0 r f;
                 f ← store_pixel 0 i 1 g f;
                 f ← store_pixel 0 i 2 b f;
                 f ← store_pixel 0 i 3 a f;
                 f ← store_pixel (w - 1) i 0 r f;
                 f ← store_pixel (w - 1) i 1 g f;
                 f ← store_pixel (w - 1) i 2 b f;
                 store_pixel (w - 1) i 3 a f) (seqZ 0 ht))
    with (f := f1) as (f2 & Hrun2 & Hext2 & Hread2); [| exact Hext1 |].
  { intros i f Hi%elem_of_seqZ Hext.
    apply (ring_round img Hready); fold w ht; try lia. exact Hext. }
  exists f2. split; [| split; [exact Hext2 |]].
  - unfold border_pixels. fold w ht. rewrite Hwi, Hhi, Hrun1. simpl. exact Hrun2.
  - intros x y c Hx Hy Hc.
    rewrite (index_extents img f2 x y c Hext2), Hread2, Hread1.
    assert (H1 : existsb (fun i => ring_touched img i 0 i (ht - 1)
                                     (Image.index img x y c)) (seqZ 0 w) = true
                 <-> y = 0 \/ y = ht - 1).
    { rewrite existsb_seqZ. split.
      - intros (i & Hi & Ht).
        apply (ring_touched_spec img i 0 i (ht - 1) x y c Hready) in Ht;
          fold w ht; try lia.
      - intros Hy'. exists x. split; [lia |].
        apply (ring_touched_spec img x 0 x (ht - 1) x y c Hready);
          fold w ht; try lia. }
    assert (H2 : existsb (fun i => ring_touched img 0 i (w - 1) i
                                     (Image.index img x y c)) (seqZ 0 ht) = true
                 <-> x = 0 \/ x = w - 1).
    { rewrite existsb_seqZ. split.
      - intros (i & Hi & Ht).
        apply (ring_touched_spec img 0 i (w - 1) i x y c Hready) in Ht;
          fold w ht; try lia.
      - intros Hx'. exists y. split; [lia |].
        apply (ring_touched_spec img 0 y (w - 1) y x y c Hready);
          fold w ht; try lia. }
    assert (Hb : on_border w ht x y = true
                 <-> x = 0 \/ x = w - 1 \/ y = 0 \/ y = ht - 1).
    { unfold on_border. rewrite !orb_true_iff, !Z.eqb_eq. tauto. }
    assert (HV : V (Image.index img x y c) = channel_colour r g b a c).
    { unfold V, w, ht. now rewrite (index_plane img x y c Hx Hy). }
    rewrite HV.
    match goal with
    | |- (if ?e2 then _ else if ?e1 then _ else _) = _ =>
        assert (Hor : e2 || e1 = on_border w ht x y);
        [| rewrite <- Hor; destruct e2, e1; reflexivity]
    end.
    apply eq_true_iff_eq. rewrite orb_true_iff, Hb. split.
    + intros [He | He]; [apply H2 in He | apply H1 in He]; tauto.
    + intros [Hx' | [Hx' | [Hy' | Hy']]];
        [left; apply H2 | left; apply H2 | right; apply H1 | right; apply H1];
        tauto.
Qed.

Lemma rewrite_drawable_faces G (R : FloatImage -> FloatImage -> Prop) contents :
  (forall img, Image_drawable img = true ->
               exists img', G img = Some img' /\ R img img') ->
  faces_drawable contents = true ->
  exists contents',
    faces_rewritten G contents contents' /\ faces_related R contents contents'.
Proof.
  intros HG. induction contents as [| c cs IH]; intros Hready.
  - exists []. split; constructor.
  - simpl in Hready. apply andb_prop in Hready as [Hc Hcs].
    destruct (IH Hcs) as (cs' & Hrw & Hrel).
    destruct c as [img |].
    + destruct (HG img Hc) as (img' & Himg & HR).
      exists (Some img' :: cs'). split; constructor; assumption.
    + exists (None :: cs'). split; constructor; auto.
Qed.

(** [setBorder] gives the pixels of the outermost ring of every
    populated face the given colour and leaves the pixels inside as they
    are. *)
Theorem setBorder_draws_ring (r g b a : float) (this : TexImage) (h : Heap)
    (s : Snapshot) :
  observe this h = Some s ->
  exclusive_faces this h = true ->
  faces_drawable (s_faces s) = true ->
  exists this' h' faces',
    setBorder r g b a this h = Done (this', h')
    /\ observe this' h'
       = Some (mkSnapshot (s_type s) (s_wrapMode s) (s_alphaMode s)
                 (s_isNormalMap s) faces')
    /\ faces_related
         (fun img img' =>
            extents img' = extents img
            /\ forall x y c,
                 0 <= x < m_width img -> 0 <= y < m_height img -> 0 <= c < 4 ->
                 Image.read img' (Image.index img' x y c)
                 = if on_border (m_width img) (m_height img) x y
                   then Some (channel_colour r g b a c)
                   else Image.read img (Image.index img x y c))
         (s_faces s) faces'.
Proof.
  intros Hobs Hexcl Hready.
  destruct (rewrite_drawable_faces (border_pixels r g b a) _ (s_faces s)
              (border_ring r g b a) Hready)
    as (faces' & Hrw & Hrel).
  destruct (transform_returns (border_pixels r g b a)
              (fun this i =>
                 p <- Private_get (m this) ;;
                 img <- Array_at (Private.imageArray p) i ;;
                 match img with
                 | None => ret (@None unit)
                 | Some _ =>
                     f <- Image_get img ;;
                     f' <- in_bounds (border_pixels r g b a f) ;;
                     Image_put img f' ;;
                     ret None
                 end)) with (this := this) (h := h) (s := s) (contents' := faces')
    as (this' & h' & Hrun & Hshow); try assumption.
  - intros a0 p i f h0 Hp Hf. cbn [m]. step (Private_get_live _ _ _ Hp).
    rewrite (bind_Done _ _ _ _ _ (Array_at_lookup _ _ _ Hf h0)).
    now destruct f.
  - exists this', h', faces'. split; [exact Hrun |]. split; [exact Hshow |].
    exact Hrel.
Qed.

(** A black border around 3 x 3 white pixels: the corner turns black and
    the pixel in the middle stays white. *)
Lemma setBorder_loaded_3x3 :
  exists this' h' img',
    setBorder F32.zero F32.zero F32.zero F32.zero (Tex (Some 0%nat)) loaded_3x3
    = Done (this', h')
    /\ observe this' h' = Some (shot img')
    /\ Image.read img' (Image.index img' 0 0 0) = Some F32.zero
    /\ Image.read img' (Image.index img' 1 1 0) = Some F32.one.
Proof.
  destruct (setBorder_draws_ring F32.zero F32.zero F32.zero F32.zero
              (Tex (Some 0%nat)) loaded_3x3 (shot (plain 3 3 F32.one))
              eq_refl eq_refl eq_refl)
    as (this' & h' & faces' & Hrun & Hobs & Hrel).
  apply Forall2_cons_inv_l in Hrel as (c & cs & Hc & Hcs & ->).
  apply Forall2_nil_inv_l in Hcs as ->.
  destruct c as [img' |]; [| contradiction].
  destruct Hc as [_ Hpixels].
  exists this', h', img'. split; [exact Hrun |]. split; [exact Hobs |].
  split; [exact (Hpixels 0 0 0 ltac:(simpl; lia) ltac:(simpl; lia) ltac:(lia)) |
          exact (Hpixels 1 1 0 ltac:(simpl; lia) ltac:(simpl; lia) ltac:(lia))].
Defined.

(** ** Ingestion: what is refused *)

Section IngestionRefused.

Context `{Collaborators}.

Variables (this : TexImage) (h : Heap) (p : Private.t).
Hypothesis Hp : payload_at h this = Some p.
Hypothesis Hcount : Z.of_nat (length (Private.imageArray p)) < 2 ^ 32.

Lemma index_refused idx :
  - 2 ^ 31 <= idx < 2 ^ 31 ->
  ~ (0 <= idx < Z.of_nat (length (Private.imageArray p))) ->
  (idx <? 0) || (Z.of_nat (length (Private.imageArray p)) <=? Int.to_uint idx)
  = true.
Proof.
  intros Hint Hout. destruct (Z.ltb_spec idx 0); [reflexivity |].
  rewrite to_uint_small by lia. apply Z.leb_le. lia.
Qed.

Lemma index_accepted idx :
  0 <= idx < Z.of_nat (length (Private.imageArray p)) ->
  (idx <? 0) || (Z.of_nat (length (Private.imageArray p)) <=? Int.to_uint idx)
  = false.
Proof.
  intros Hin. destruct (Z.ltb_spec idx 0); [lia |].
  rewrite to_uint_small by lia. apply Z.leb_gt. lia.
Qed.

(** The three [setImage2D] overloads return false, and change nothing
    (a shared payload is not even cloned), when the face index is not
    the index of a face slot, and when the face there does not have the
    given width and height. *)
Theorem setImage2D_refuses (w ht idx : Z) :
  - 2 ^ 31 <= idx < 2 ^ 31 ->
  (~ (0 <= idx < Z.of_nat (length (Private.imageArray p)))
   \/ exists x img,
        Private.imageArray p !! Z.to_nat idx = Some (Some x)
        /\ images h !! x = Some (Some img)
        /\ 0 <= idx
        /\ (m_width img <> Int.to_uint w \/ m_height img <> Int.to_uint ht)) ->
  (forall format data,
      setImage2D format w ht idx data this h = Done ((false, this), h))
  /\ (forall format r g b a,
         setImage2D_planar format w ht idx r g b a this h
         = Done ((false, this), h))
  /\ (forall format decoder data,
         setImage2D_compressed format decoder w ht idx data this h
         = Done ((false, this), h)).
Proof.
  intros Hint Hcase.
  pose proof Hp as (a0 & Hm & Hpa)%payload_at_Some.
  destruct Hcase as [Hout | (x & img & Hslot & Himg & Hidx & Hsize)].
  - pose proof (index_refused idx Hint Hout) as Hrange.
    repeat split; intros.
    + unfold setImage2D. rewrite Hm. step (Private_get_live _ _ _ Hpa).
      now rewrite Hrange.
    + unfold setImage2D_planar. rewrite Hm. step (Private_get_live _ _ _ Hpa).
      now rewrite Hrange.
    + unfold setImage2D_compressed. rewrite Hm.
      step (Private_get_live _ _ _ Hpa). now rewrite Hrange.
  - assert (Hin : 0 <= idx < Z.of_nat (length (Private.imageArray p))).
    { apply lookup_lt_Some in Hslot. lia. }
    pose proof (index_accepted idx Hin) as Hrange.
    assert (Hat : Array_at (Private.imageArray p) idx h = Done (Some x, h)).
    { rewrite <- (Z2Nat.id idx) by lia. now apply Array_at_lookup. }
    assert (Hdiff : negb (m_width img =? Int.to_uint w)
                    || negb (m_height img =? Int.to_uint ht) = true).
    { destruct (Z.eqb_spec (m_width img) (Int.to_uint w)),
        (Z.eqb_spec (m_height img) (Int.to_uint ht)); try reflexivity.
      destruct Hsize; contradiction. }
    repeat split; intros.
    + unfold setImage2D. rewrite Hm. step (Private_get_live _ _ _ Hpa).
      rewrite Hrange. step Hat. step (Image_get_live _ _ _ Himg).
      now rewrite Hdiff.
    + unfold setImage2D_planar. rewrite Hm. step (Private_get_live _ _ _ Hpa).
      rewrite Hrange. step Hat. step (Image_get_live _ _ _ Himg).
      now rewrite Hdiff.
    + unfold setImage2D_compressed. rewrite Hm.
      step (Private_get_live _ _ _ Hpa). rewrite Hrange.
      destruct (negb (Format_eqb format Format_BC1)
                && negb (Format_eqb format Format_BC2)
                && negb (Format_eqb format Format_BC3)); [reflexivity |].
      step Hat. step (Image_get_live _ _ _ Himg). now rewrite Hdiff.
Qed.

End IngestionRefused.

(** Face 1 does not exist in a Plane texture of 4 x 2 pixels. *)
Lemma setImage2D_refuses_face_1 :
  setImage2D InputFormat_RGBA_32F 4 2 1 (FloatBuffer []) (Tex (Some 0%nat))
    loaded_4x2
  = Done ((false, Tex (Some 0%nat)), loaded_4x2).
Proof.
  refine (proj1 (setImage2D_refuses (Tex (Some 0%nat)) loaded_4x2 _ eq_refl
                   ltac:(simpl; lia) 4 2 1 ltac:(lia) _)
            InputFormat_RGBA_32F (FloatBuffer [])).
  left. simpl. lia.
Defined.

(** ** Ingestion: what is stored *)

Lemma detach_sole h a p :
  payloads h !! a = Some (Some p) -> Private.refCount p <= 1 ->
  detach (Tex (Some a)) h = Done (Tex (Some a), h).
Proof.
  intros Hp Hsole. unfold detach. cbn [m]. step (Private_get_live _ _ _ Hp).
  destruct (Z.ltb_spec 1 (Private.refCount p)); [lia | reflexivity].
Qed.

Lemma at_index_Some {A} (l : list A) i :
  0 <= i < Z.of_nat (length l) -> exists v, at_index l i = Some v.
Proof.
  intros Hi. unfold at_index. destruct (Z.ltb_spec i 0); [lia |].
  apply lookup_lt_is_Some. lia.
Qed.


(** One channel loop of the planar overload with 8-bit input:
    [dst[i] = float(src[i]) / 255.0f] for [dst = img->channel(c0)]. *)
Lemma plane_loop n img c0 (src : list Z) :
  four_planes n img -> 0 <= c0 < 4 -> n <= Z.of_nat (length src) ->
  exists img',
    fold_range (seqZ 0 n)
      (fun k i =>
         x ← at_index src k;
         store_channel c0 k (F32.div (F32.of_Z x) (F32.of_Z 255)) i) img
    = Some img'
    /\ extents img' = extents img
    /\ forall c k, 0 <= c < 4 -> 0 <= k < n ->
         load_channel c k img'
         = if c =? c0
           then (fun x => F32.div (F32.of_Z x) (F32.of_Z 255)) <$> at_index src k
           else load_channel c k img.
Proof.
  intros Hplanes Hc0 Hsrc.
  destruct (pixel_loop_returns img n
              (fun k c => if c =? c0
                          then F32.div (F32.of_Z (default 0 (at_index src k)))
                                 (F32.of_Z 255)
                          else sample img c k)
              (fun k i =>
                 x ← at_index src k;
                 store_channel c0 k (F32.div (F32.of_Z x) (F32.of_Z 255)) i)
              Hplanes)
    as (img' & Hrun & Hext & Hsamples).
  { intros k f Hk Hextf Hsame.
    pose proof (four_planes_extents _ _ _ Hextf Hplanes) as Hf.
    destruct (at_index_Some src k ltac:(lia)) as [v Hv]. rewrite Hv. simpl.
    destruct (store_channel_load _ f c0 k
                (F32.div (F32.of_Z v) (F32.of_Z 255)) Hf Hc0 Hk)
      as (f1 & H1 & He1 & Hl1).
    exists f1. split; [exact H1 |]. split; [congruence |].
    intros c j Hc Hj. rewrite (Hl1 c j Hc Hj).
    destruct (Z.eqb_spec j k) as [-> | Hne]; [| now rewrite andb_false_r].
    rewrite andb_true_r. destruct (Z.eqb_spec c c0); [reflexivity |].
    rewrite (Hsame c Hc). now apply load_channel_sample with n. }
  exists img'. split; [exact Hrun |]. split; [exact Hext |].
  intros c k Hc Hk. rewrite (Hsamples c k Hc Hk).
  destruct (Z.eqb_spec c c0).
  - destruct (at_index_Some src k ltac:(lia)) as [v ->]. reflexivity.
  - symmetry. now apply load_channel_sample with n.
Qed.

(** [memcpy] into one channel. *)
Lemma memcpy_channel_load n img c0 (src : list float) :
  four_planes n img -> 0 <= c0 < 4 -> n <= Z.of_nat (length src) ->
  exists img',
    memcpy_channel c0 src n img = Some img'
    /\ extents img' = extents img
    /\ forall c k, 0 <= c < 4 -> 0 <= k < n ->
         load_channel c k img'
         = if c =? c0 then at_index src k else load_channel c k img.
Proof.
  intros Hplanes Hc0 Hsrc.
  pose proof (channel_offset n img c0 Hplanes) as Hoff.
  destruct Hplanes as (Hcomp & Hn & Hlen & Hn0).
  unfold memcpy_channel, read_run. rewrite Hoff.
  assert (Hfit : c0 * n + n <= Z.of_nat (length (m_mem img))) by nia.
  assert (Hc0n : 0 <= c0 * n) by nia.
  repeat match goal with
         | |- context [?u <=? ?v] =>
             destruct (Z.leb_spec u v); [| lia]
         end.
  simpl. eexists. split; [reflexivity |].
  assert (Hl1 : length (take (Z.to_nat (c0 * n)) (m_mem img)) = Z.to_nat (c0 * n))
    by (rewrite length_take; lia).
  assert (Hl2 : length (take (Z.to_nat n) (drop (Z.to_nat 0) src)) = Z.to_nat n)
    by (rewrite length_take, length_drop; lia).
  split.
  - unfold extents. simpl. rewrite !length_app, Hl1, Hl2, length_drop.
    repeat f_equal. lia.
  - intros c k Hc Hk. unfold load_channel, Image.read, Image.channel. simpl.
    replace (c * m_width img * m_height img) with (c * n)
      by (rewrite <- Hn; ring).
    destruct (Z.ltb_spec (c * n + k) 0); [nia |].
    destruct (Z.eqb_spec c c0) as [-> | Hne].
    + rewrite lookup_app_r by lia. rewrite Hl1.
      rewrite lookup_app_l by lia.
      rewrite lookup_take_lt by lia. rewrite lookup_drop.
      unfold at_index. destruct (Z.ltb_spec k 0); [lia |].
      f_equal. lia.
    + destruct (Z.lt_ge_cases c c0).
      * rewrite lookup_app_l by nia. apply lookup_take_lt. nia.
      * rewrite lookup_app_r by nia. rewrite Hl1.
        rewrite lookup_app_r by nia. rewrite Hl2, lookup_drop.
        f_equal. nia.
Qed.

Section Ingestion.

(** Face [idx] of a texture whose payload is not shared: the image
    [img] at address [x]. *)
Variables (a : nat) (h : Heap) (p : Private.t) (idx : Z) (x : nat)
  (img : FloatImage).
Hypothesis Hp : payloads h !! a = Some (Some p).
Hypothesis Hsole : Private.refCount p <= 1.
Hypothesis Hidx : 0 <= idx < 2 ^ 31.
Hypothesis Hslot : Private.imageArray p !! Z.to_nat idx = Some (Some x).
Hypothesis Himg : images h !! x = Some (Some img).
Hypothesis Hready : Image_ready img = true.
Hypothesis Hw : m_width img < 2 ^ 31.
Hypothesis Hh : m_height img < 2 ^ 31.

Let w := m_width img.
Let ht := m_height img.
Let this := Tex (Some a).

Lemma ingestion_checks :
  (idx <? 0) || (Z.of_nat (length (Private.imageArray p)) <=? Int.to_uint idx)
  = false
  /\ Array_at (Private.imageArray p) idx h = Done (Some x, h)
  /\ negb (m_width img =? Int.to_uint w) || negb (m_height img =? Int.to_uint ht)
     = false
  /\ Int.to_int (w * ht) = w * ht
  /\ four_planes (w * ht) img.
Proof.
  destruct (Image_ready_count img Hready) as [Hplanes Hcount].
  destruct (ready_extents img Hready) as (Hw0 & Hh0 & _ & _).
  split; [| split; [| split; [| split]]].
  - destruct (Z.ltb_spec idx 0); [lia |]. rewrite to_uint_small by lia.
    apply Z.leb_gt. apply lookup_lt_Some in Hslot. lia.
  - rewrite <- (Z2Nat.id idx) by lia. now apply Array_at_lookup.
  - unfold w, ht. rewrite !to_uint_small by lia. now rewrite !Z.eqb_refl.
  - exact Hcount.
  - exact Hplanes.
Qed.

(** The interleaved overload with 32-bit float RGBA input returns true
    and stores component [c] of pixel [k] of the buffer, [src[4 * k + c]],
    as sample [k] of channel [c] of the face; nothing else changes. *)
Theorem setImage2D_RGBA_32F_deinterleaves (src : list float) :
  4 * (w * ht) <= Z.of_nat (length src) ->
  exists img',
    setImage2D InputFormat_RGBA_32F w ht idx (FloatBuffer src) this h
    = Done ((true, this), mkHeap (<[x := Some img']> (images h)) (payloads h))
    /\ extents img' = extents img
    /\ forall c k, 0 <= c < 4 -> 0 <= k < w * ht ->
         load_channel c k img' = src !! Z.to_nat (4 * k + c).
Proof.
  intros Hsrc.
  destruct ingestion_checks as (Hrange & Hat & Hsize & Hcount & Hplanes).
  destruct (pixel_loop_returns img (w * ht)
              (fun k c => default F32.zero (src !! Z.to_nat (4 * k + c)))
              (fun k i =>
                 r ← at_index src (4 * k + 0);
                 i ← store_channel 0 k r i;
                 g ← at_index src (4 * k + 1);
                 i ← store_channel 1 k g i;
                 b ← at_index src (4 * k + 2);
                 i ← store_channel 2 k b i;
                 a ← at_index src (4 * k + 3);
                 store_channel 3 k a i) Hplanes)
    as (img' & Hrun & Hext & Hsamples).
  { intros k f Hk Hextf _.
    pose proof (four_planes_extents _ _ _ Hextf Hplanes) as Hf.
    assert (Hsrc_at : forall c, 0 <= c < 4 ->
               at_index src (4 * k + c)
               = Some (default F32.zero (src !! Z.to_nat (4 * k + c)))).
    { intros c Hc. unfold at_index.
      destruct (Z.ltb_spec (4 * k + c) 0); [lia |].
      destruct (lookup_lt_is_Some_2 src (Z.to_nat (4 * k + c)) ltac:(lia))
        as [v ->].
      reflexivity. }
    rewrite (Hsrc_at 0) by lia. simpl.
    destruct (store_channel_load _ f 0 k
                (default F32.zero (src !! Z.to_nat (4 * k + 0))) Hf ltac:(lia) Hk)
      as (f1 & -> & He1 & Hl1).
    pose proof (four_planes_extents _ _ _ He1 Hf) as Hf1. simpl.
    rewrite (Hsrc_at 1) by lia. simpl.
    destruct (store_channel_load _ f1 1 k
                (default F32.zero (src !! Z.to_nat (4 * k + 1))) Hf1 ltac:(lia) Hk)
      as (f2 & -> & He2 & Hl2).
    pose proof (four_planes_extents _ _ _ He2 Hf1) as Hf2. simpl.
    rewrite (Hsrc_at 2) by lia. simpl.
    destruct (store_channel_load _ f2 2 k
                (default F32.zero (src !! Z.to_nat (4 * k + 2))) Hf2 ltac:(lia) Hk)
      as (f3 & -> & He3 & Hl3).
    pose proof (four_planes_extents _ _ _ He3 Hf2) as Hf3. simpl.
    rewrite (Hsrc_at 3) by lia. simpl.
    destruct (store_channel_load _ f3 3 k
                (default F32.zero (src !! Z.to_nat (4 * k + 3))) Hf3 ltac:(lia) Hk)
      as (f4 & H4 & He4 & Hl4).
    exists f4. split; [exact H4 |]. split; [congruence |].
    intros c j Hc Hj.
    rewrite (Hl4 c j Hc Hj), (Hl3 c j Hc Hj), (Hl2 c j Hc Hj), (Hl1 c j Hc Hj).
    destruct (Z.eqb_spec j k) as [-> | Hne]; [| now rewrite !andb_false_r].
    rewrite !andb_true_r.
    destruct (Z.eqb_spec c 3) as [-> | ?]; [reflexivity |].
    destruct (Z.eqb_spec c 2) as [-> | ?]; [reflexivity |].
    destruct (Z.eqb_spec c 1) as [-> | ?]; [reflexivity |].
    destruct (Z.eqb_spec c 0) as [-> | ?]; [reflexivity | lia]. }
  exists img'. split; [| split; [exact Hext |]].
  - unfold setImage2D, this. cbn [m]. step (Private_get_live _ _ _ Hp).
    rewrite Hrange. step Hat. step (Image_get_live _ _ _ Himg).
    rewrite Hsize. step (detach_sole _ _ _ Hp Hsole).
    step (Image_get_live _ _ _ Himg). rewrite Hcount, Hrun.
    rewrite (bind_Done _ _ h img' h) by reflexivity.
    step (Image_put_live _ _ _ img' Himg). reflexivity.
  - intros c k Hc Hk. rewrite (Hsamples c k Hc Hk).
    destruct (lookup_lt_is_Some_2 src (Z.to_nat (4 * k + c)) ltac:(lia))
      as [v ->].
    reflexivity.
Qed.

(** The planar overload returns true and stores buffer [r] in channel 0,
    [g] in channel 1, [b] in channel 2 and [a] in channel 3 of the face:
    8-bit input divided by 255, 32-bit float input as it is. *)
Theorem setImage2D_planar_stores_planes :
  (forall rsrc gsrc bsrc asrc : list Z,
      w * ht <= Z.of_nat (length rsrc) -> w * ht <= Z.of_nat (length gsrc) ->
      w * ht <= Z.of_nat (length bsrc) -> w * ht <= Z.of_nat (length asrc) ->
      exists img',
        setImage2D_planar InputFormat_BGRA_8UB w ht idx (ByteBuffer rsrc)
          (ByteBuffer gsrc) (ByteBuffer bsrc) (ByteBuffer asrc) this h
        = Done ((true, this), mkHeap (<[x := Some img']> (images h)) (payloads h))
        /\ extents img' = extents img
        /\ forall c k, 0 <= c < 4 -> 0 <= k < w * ht ->
             load_channel c k img'
             = (fun v => F32.div (F32.of_Z v) (F32.of_Z 255))
                 <$> at_index (planar_source rsrc gsrc bsrc asrc c) k)
  /\ (forall rsrc gsrc bsrc asrc : list float,
         w * ht <= Z.of_nat (length rsrc) -> w * ht <= Z.of_nat (length gsrc) ->
         w * ht <= Z.of_nat (length bsrc) -> w * ht <= Z.of_nat (length asrc) ->
         exists img',
           setImage2D_planar InputFormat_RGBA_32F w ht idx (FloatBuffer rsrc)
             (FloatBuffer gsrc) (FloatBuffer bsrc) (FloatBuffer asrc) this h
           = Done ((true, this),
                   mkHeap (<[x := Some img']> (images h)) (payloads h))
           /\ extents img' = extents img
           /\ forall c k, 0 <= c < 4 -> 0 <= k < w * ht ->
                load_channel c k img'
                = at_index (planar_source rsrc gsrc bsrc asrc c) k).
Proof.
  destruct ingestion_checks as (Hrange & Hat & Hsize & Hcount & Hplanes).
  split; intros rsrc gsrc bsrc asrc Hr Hg Hb Ha.
  - destruct (plane_loop _ img 0 rsrc Hplanes ltac:(lia) Hr)
      as (f1 & H1 & He1 & Hl1).
    pose proof (four_planes_extents _ _ _ He1 Hplanes) as Hf1.
    destruct (plane_loop _ f1 1 gsrc Hf1 ltac:(lia) Hg)
      as (f2 & H2 & He2 & Hl2).
    pose proof (four_planes_extents _ _ _ He2 Hf1) as Hf2.
    destruct (plane_loop _ f2 2 bsrc Hf2 ltac:(lia) Hb)
      as (f3 & H3 & He3 & Hl3).
    pose proof (four_planes_extents _ _ _ He3 Hf2) as Hf3.
    destruct (plane_loop _ f3 3 asrc Hf3 ltac:(lia) Ha)
      as (f4 & H4 & He4 & Hl4).
    exists f4. split; [| split; [congruence |]].
    + unfold setImage2D_planar, this. cbn [m]. step (Private_get_live _ _ _ Hp).
      rewrite Hrange. step Hat. step (Image_get_live _ _ _ Himg).
      rewrite Hsize. step (detach_sole _ _ _ Hp Hsole).
      step (Image_get_live _ _ _ Himg). rewrite Hcount. cbv zeta.
      rewrite H1. cbn [mbind option_bind]. rewrite H2. cbn [mbind option_bind].
      rewrite H3. cbn [mbind option_bind]. rewrite H4.
      rewrite (bind_Done _ _ h f4 h) by reflexivity.
      step (Image_put_live _ _ _ f4 Himg). reflexivity.
    + intros c k Hc Hk.
      rewrite (Hl4 c k Hc Hk), (Hl3 c k Hc Hk), (Hl2 c k Hc Hk), (Hl1 c k Hc Hk).
      unfold planar_source.
      destruct (Z.eqb_spec c 3) as [-> | ?]; [reflexivity |].
      destruct (Z.eqb_spec c 2) as [-> | ?]; [reflexivity |].
      destruct (Z.eqb_spec c 1) as [-> | ?]; [reflexivity |].
      destruct (Z.eqb_spec c 0) as [-> | ?]; [reflexivity | lia].
  - destruct (memcpy_channel_load _ img 0 rsrc Hplanes ltac:(lia) Hr)
      as (f1 & H1 & He1 & Hl1).
    pose proof (four_planes_extents _ _ _ He1 Hplanes) as Hf1.
    destruct (memcpy_channel_load _ f1 1 gsrc Hf1 ltac:(lia) Hg)
      as (f2 & H2 & He2 & Hl2).
    pose proof (four_planes_extents _ _ _ He2 Hf1) as Hf2.
    destruct (memcpy_channel_load _ f2 2 bsrc Hf2 ltac:(lia) Hb)
      as (f3 & H3 & He3 & Hl3).
    pose proof (four_planes_extents _ _ _ He3 Hf2) as Hf3.
    destruct (memcpy_channel_load _ f3 3 asrc Hf3 ltac:(lia) Ha)
      as (f4 & H4 & He4 & Hl4).
    exists f4. split; [| split; [congruence |]].
    + unfold setImage2D_planar, this. cbn [m]. step (Private_get_live _ _ _ Hp).
      rewrite Hrange. step Hat. step (Image_get_live _ _ _ Himg).
      rewrite Hsize. step (detach_sole _ _ _ Hp Hsole).
      step (Image_get_live _ _ _ Himg). rewrite Hcount. cbv zeta.
      rewrite H1. cbn [mbind option_bind]. rewrite H2. cbn [mbind option_bind].
      rewrite H3. cbn [mbind option_bind]. rewrite H4.
      rewrite (bind_Done _ _ h f4 h) by reflexivity.
      step (Image_put_live _ _ _ f4 Himg). reflexivity.
    + intros c k Hc Hk.
      rewrite (Hl4 c k Hc Hk), (Hl3 c k Hc Hk), (Hl2 c k Hc Hk), (Hl1 c k Hc Hk).
      unfold planar_source.
      destruct (Z.eqb_spec c 3) as [-> | ?]; [reflexivity |].
      destruct (Z.eqb_spec c 2) as [-> | ?]; [reflexivity |].
      destruct (Z.eqb_spec c 1) as [-> | ?]; [reflexivity |].
      destruct (Z.eqb_spec c 0) as [-> | ?]; [reflexivity | lia].
Qed.

End Ingestion.

(** One pixel, R G B A = 1 2 3 4, into a texture of one pixel. *)
Lemma setImage2D_RGBA_32F_one_pixel :
  exists img',
    setImage2D InputFormat_RGBA_32F 1 1 0
      (FloatBuffer [F32.of_Z 1; F32.of_Z 2; F32.of_Z 3; F32.of_Z 4])
      (Tex (Some 0%nat)) (held_texture 1)
    = Done ((true, Tex (Some 0%nat)),
            mkHeap (<[0%nat := Some img']> (images (held_texture 1)))
              (payloads (held_texture 1)))
    /\ load_channel 2 0 img' = Some (F32.of_Z 3).
Proof.
  destruct (setImage2D_RGBA_32F_deinterleaves 0%nat (held_texture 1) _ 0 0%nat
              (plain 1 1 F32.zero) eq_refl ltac:(simpl; lia) ltac:(lia)
              eq_refl eq_refl eq_refl ltac:(simpl; lia) ltac:(simpl; lia)
              [F32.of_Z 1; F32.of_Z 2; F32.of_Z 3; F32.of_Z 4]
              ltac:(simpl; lia))
    as (img' & Hrun & _ & Hsamples).
  exists img'. split; [exact Hrun |].
  exact (Hsamples 2 0 ltac:(lia) ltac:(simpl; lia)).
Defined.

(** One opaque red pixel in 8-bit planes: byte 255 becomes 1.0. *)
Lemma setImage2D_planar_one_pixel :
  exists img',
    setImage2D_planar InputFormat_BGRA_8UB 1 1 0 (ByteBuffer [255])
      (ByteBuffer [0]) (ByteBuffer [0]) (ByteBuffer [255])
      (Tex (Some 0%nat)) (held_texture 1)
    = Done ((true, Tex (Some 0%nat)),
            mkHeap (<[0%nat := Some img']> (images (held_texture 1)))
              (payloads (held_texture 1)))
    /\ load_channel 0 0 img' = Some F32.one
    /\ load_channel 1 0 img' = Some F32.zero.
Proof.
  destruct (proj1 (setImage2D_planar_stores_planes 0%nat (held_texture 1) _ 0
                     0%nat (plain 1 1 F32.zero) eq_refl ltac:(simpl; lia)
                     ltac:(lia) eq_refl eq_refl eq_refl ltac:(simpl; lia)
                     ltac:(simpl; lia))
              [255] [0] [0] [255] ltac:(simpl; lia) ltac:(simpl; lia)
              ltac:(simpl; lia) ltac:(simpl; lia))
    as (img' & Hrun & _ & Hsamples).
  exists img'. split; [exact Hrun |]. split.
  - rewrite (Hsamples 0 0 ltac:(lia) ltac:(simpl; lia)). vm_compute. reflexivity.
  - rewrite (Hsamples 1 0 ltac:(lia) ltac:(simpl; lia)). vm_compute. reflexivity.
Defined.

(** ** The next mipmap level of every face *)

Lemma first_mapped_lookup {A} (g : A -> A) (k : nat) :
  forall (cs : list A) (i : nat),
    first_mapped g k cs !! i
    = if decide (i < k)%nat then g <$> cs !! i else cs !! i.
Proof.
  unfold first_mapped.
  induction k as [| k IH]; intros cs i.
  - rewrite take_0, drop_0. simpl. destruct (decide (i < 0)%nat); [lia | reflexivity].
  - destruct cs as [| c cs].
    + simpl. rewrite lookup_nil. now destruct (decide (i < S k)%nat).
    + destruct i as [| i]; simpl.
      * reflexivity.
      * rewrite IH.
        destruct (decide (i < k)%nat), (decide (S i < S k)%nat);
          reflexivity || lia.
Qed.

Lemma first_mapped_all {A} (g : A -> A) (cs : list A) :
  first_mapped g (length cs) cs = map g cs.
Proof.
  unfold first_mapped. rewrite firstn_all, drop_all. apply app_nil_r.
Qed.

Lemma first_mapped_length {A} (g : A -> A) k (cs : list A) :
  length (first_mapped g k cs) = length cs.
Proof.
  unfold first_mapped. rewrite length_app, length_map, <- length_app.
  now rewrite take_drop.
Qed.

Lemma mipmap_of_new `{Collaborators} mode filter wm src :
  match mode, filter with
  | AlphaMode_Transparency, MipmapFilter_Box =>
      Image_new (Image_downSample BoxFilter wm (Some 3) src)
  | AlphaMode_Transparency, MipmapFilter_Triangle =>
      Image_new (Image_downSample TriangleFilter wm (Some 3) src)
  | AlphaMode_Transparency, MipmapFilter_Kaiser =>
      Image_new (Image_downSample (KaiserFilter 3) wm (Some 3) src)
  | AlphaMode_None, MipmapFilter_Box =>
      Image_new (Image_fastDownSample src)
  | AlphaMode_None, MipmapFilter_Triangle =>
      Image_new (Image_downSample TriangleFilter wm None src)
  | AlphaMode_None, MipmapFilter_Kaiser =>
      Image_new (Image_downSample (KaiserFilter 3) wm None src)
  end = Image_new (mipmap_of mode filter wm src).
Proof. now destruct mode, filter. Qed.

Lemma mipmap_of_extents `{Collaborators} mode filter wm src :
  m_width (mipmap_of mode filter wm src) = Z.max 1 (m_width src / 2)
  /\ m_height (mipmap_of mode filter wm src) = Z.max 1 (m_height src / 2)
  /\ m_componentNum (mipmap_of mode filter wm src) = m_componentNum src.
Proof. now destruct mode, filter. Qed.

Section MipmapLevel.

Context `{Collaborators}.

Variables (filter : MipmapFilter) (a : ptr) (h1 : Heap) (p1 : Private.t)
  (cs : list (option FloatImage)).
Hypothesis Hcs :
  Forall2 (fun f c => face_at h1 f = Some c) (Private.imageArray p1) cs.

Let level := mipmap_of (Private.alphaMode p1) filter (Private.wrapMode p1).

(** One round of the loop: face [k] gets its next level. *)
Lemma mip_round (k : nat) h :
  mip_rounds filter a h1 p1 cs k h -> (k < length cs)%nat ->
  returns (buildNextMipmap_face filter (Private.wrapMode p1) (Tex (Some a))
             (Z.of_nat k)) h
    (fun r h' => r = None /\ mip_rounds filter a h1 p1 cs (S k) h').
Proof.
  intros (p & Hp & Hfields & Href & Hall & Hdist & Hlater & Hlen & Hdel & Hframe
          & Hpay) Hk.
  pose proof (Forall2_length _ _ _ Hcs) as Hn1.
  pose proof (Forall2_length _ _ _ Hall) as Hn.
  rewrite first_mapped_length in Hn.
  assert (Hslot : exists f, Private.imageArray p !! k = Some f)
    by (apply lookup_lt_is_Some; lia).
  destruct Hslot as [f Hf].
  assert (Hf1 : Private.imageArray p1 !! k = Some f)
    by (now rewrite <- (Hlater k (le_n k))).
  destruct (Forall2_lookup_l _ _ _ _ _ Hall Hf) as (c & Hc & Hat).
  rewrite first_mapped_lookup in Hc.
  destruct (decide (k < k)%nat) as [? | _]; [lia |].
  assert (Htaken : forall y,
             y ∈ omap id (take (S k) (Private.imageArray p1)) <->
             y ∈ omap id (take k (Private.imageArray p1)) \/ f = Some y).
  { intros y. rewrite !in_taken_faces. split.
    - intros (i & Hi & Hy). destruct (decide (i = k)) as [-> | Hne].
      + right. congruence.
      + left. exists i. split; [lia | exact Hy].
    - intros [(i & Hi & Hy) | ->]; [exists i | exists k]; split; auto; lia. }
  unfold buildNextMipmap_face. cbn [m].
  apply returns_bind. eapply returns_Done; [exact (Private_get_live _ _ _ Hp) |].
  apply returns_bind. eapply returns_Done; [exact (Array_at_lookup _ _ _ Hf h) |].
  destruct f as [x |].
  - simpl in Hat.
    destruct (images h !! x) as [[src |] |] eqn:Hsrc; try discriminate.
    injection Hat as <-.
    apply returns_bind. eapply returns_Done; [exact (Image_get_live _ _ _ Hsrc) |].
    rewrite mipmap_of_new.
    destruct Hfields as (Hty & Hwm & Ham & Hnm). rewrite <- Ham. fold level.
    apply returns_bind. eapply returns_Done; [reflexivity |].
    set (fresh := length (images h)).
    set (h2 := mkHeap (images h ++ [Some (level src)]) (payloads h)).
    apply returns_bind.
    eapply returns_Done; [exact (Private_get_live h2 _ _ Hp) |].
    apply returns_bind.
    eapply returns_Done; [exact (Array_at_lookup _ _ _ Hf h2) |].
    assert (Hx2 : images h2 !! x = Some (Some src))
      by (unfold h2; simpl; now apply lookup_app_l_Some).
    apply returns_bind.
    eapply returns_Done; [exact (Image_delete_live _ _ _ Hx2) |].
    set (h3 := mkHeap (<[x := None]> (images h2)) (payloads h2)).
    apply returns_bind.
    eapply returns_Done; [exact (Private_modify_live h3 _ _ _ Hp) |].
    apply returns_ret. split; [reflexivity |].
    rewrite Nat2Z.id.
    set (p' := Private.set_imageArray
                 (<[k := Some fresh]> (Private.imageArray p)) p).
    assert (Hxlt : (x < fresh)%nat) by (now apply lookup_lt_Some in Hsrc).
    assert (Hfresh : <[x := None]> (images h ++ [Some (level src)]) !! fresh
                     = Some (Some (level src))).
    { rewrite list_lookup_insert_ne by lia.
      now rewrite lookup_app_r, Nat.sub_diag by (unfold fresh; lia). }
    assert (Hold : forall y, y <> x -> (y < fresh)%nat ->
                     <[x := None]> (images h ++ [Some (level src)]) !! y
                     = images h !! y).
    { intros y Hne Hy. rewrite list_lookup_insert_ne by auto.
      now apply lookup_app_l. }
    assert (Hbelow : forall i y, Private.imageArray p !! i = Some (Some y) ->
                       (y < fresh)%nat).
    { intros i y Hi.
      destruct (Forall2_lookup_l _ _ _ _ _ Hall Hi) as (c & _ & Hy).
      simpl in Hy. destruct (images h !! y) as [[img |] |] eqn:Himg;
        try discriminate.
      now apply lookup_lt_Some in Himg. }
    exists p'. unfold h3, h2. cbn [images payloads].
    split; [apply list_lookup_insert_eq; now apply lookup_lt_Some in Hp |].
    split; [repeat split; assumption |].
    split; [exact Href |].
    split; [| split; [| split; [| split; [| split; [| split]]]]].
    + apply Forall2_same_length_lookup_2.
      * cbn. now rewrite length_insert, first_mapped_length.
      * intros i f' c' Hi Hc'. cbn in Hi.
        rewrite first_mapped_lookup in Hc'.
        destruct (decide (i = k)) as [-> | Hne].
        -- rewrite list_lookup_insert_eq in Hi by lia. injection Hi as <-.
           destruct (decide (k < S k)%nat); [| lia].
           rewrite Hc in Hc'. injection Hc' as <-. simpl.
           now rewrite Hfresh.
        -- rewrite list_lookup_insert_ne in Hi by auto.
           assert (Hc0 : first_mapped (option_map level) k cs !! i = Some c').
           { rewrite first_mapped_lookup.
             destruct (decide (i < k)%nat), (decide (i < S k)%nat);
               assumption || lia. }
           pose proof (Forall2_lookup_lr _ _ _ _ _ _ Hall Hi Hc0) as Hface.
           destruct f' as [y |]; [| exact Hface]. simpl in Hface |- *.
           rewrite Hold; [exact Hface | | exact (Hbelow _ _ Hi)].
           intros ->. apply Hne. exact (Hdist _ _ _ Hi Hf).
    + intros i j y Hi Hj. cbn in Hi, Hj.
      destruct (decide (i = k)) as [-> | Hni], (decide (j = k)) as [-> | Hnj];
        try reflexivity.
      * rewrite list_lookup_insert_eq in Hi by lia. injection Hi as <-.
        rewrite list_lookup_insert_ne in Hj by auto.
        pose proof (Hbelow _ _ Hj). lia.
      * rewrite list_lookup_insert_eq in Hj by lia. injection Hj as <-.
        rewrite list_lookup_insert_ne in Hi by auto.
        pose proof (Hbelow _ _ Hi). lia.
      * rewrite list_lookup_insert_ne in Hi, Hj by auto.
        exact (Hdist _ _ _ Hi Hj).
    + intros i Hi. cbn. rewrite list_lookup_insert_ne by lia.
      apply Hlater. lia.
    + rewrite length_insert, length_app. simpl. lia.
    + intros y [Hy | [= <-]]%Htaken.
      * pose proof (Hdel y Hy) as Hnone.
        destruct (decide (y = x)) as [-> | Hne];
          [apply list_lookup_insert_eq; rewrite length_app; simpl;
           fold fresh; lia |].
        rewrite Hold; [exact Hnone | exact Hne |].
        now apply lookup_lt_Some in Hnone.
      * apply list_lookup_insert_eq. rewrite length_app. simpl. fold fresh. lia.
    + intros y Hy Hnot.
      assert (Hne : y <> x) by (intros ->; apply Hnot, Htaken; now right).
      rewrite Hold; [| exact Hne | unfold fresh; lia].
      apply Hframe; [exact Hy |]. intros Hin. apply Hnot, Htaken. now left.
    + intros b Hb. rewrite list_lookup_insert_ne by auto. now apply Hpay.
  - apply returns_ret. split; [reflexivity |].
    simpl in Hat. injection Hat as <-.
    exists p. split; [exact Hp |]. split; [exact Hfields |].
    split; [exact Href |].
    split; [| split; [exact Hdist |
              split; [intros i Hi; apply Hlater; lia |
              split; [exact Hlen | split; [| split; [| exact Hpay]]]]]].
    + assert (Heq : first_mapped (option_map level) (S k) cs
                    = first_mapped (option_map level) k cs).
      { apply list_eq. intros i. rewrite !first_mapped_lookup.
        destruct (decide (i < k)%nat), (decide (i < S k)%nat);
          try reflexivity; try lia.
        replace i with k by lia. now rewrite Hc. }
      unfold level in Heq. rewrite Heq. exact Hall.
    + intros y [Hy | [=]]%Htaken. now apply Hdel.
    + intros y Hy Hnot. apply Hframe; [exact Hy |].
      intros Hin. apply Hnot, Htaken. now left.
Qed.

(** The rounds from [k] on. *)
Lemma mip_loop (d : nat) :
  forall (k : nat) h,
    mip_rounds filter a h1 p1 cs k h -> (k + d = length cs)%nat ->
    returns (for_each (seqZ (Z.of_nat k) (Z.of_nat d))
               (buildNextMipmap_face filter (Private.wrapMode p1) (Tex (Some a))))
      h (fun r h' => r = None /\ mip_rounds filter a h1 p1 cs (length cs) h').
Proof.
  induction d as [| d IH]; intros k h Hk Hsum.
  - eapply returns_Done; [apply for_each_nil |]. split; [reflexivity |].
    now replace (length cs) with k by lia.
  - rewrite seqZ_of_nat_S. apply returns_for_each_cons. apply returns_bind.
    eapply returns_weaken; [apply (mip_round k h Hk); lia |].
    intros r h2 (-> & Hk2). apply (IH (S k) h2 Hk2). lia.
Qed.

End MipmapLevel.

Lemma faces_related_map (R : FloatImage -> FloatImage -> Prop)
    (g : FloatImage -> FloatImage) (cs : list (option FloatImage)) :
  (forall img, R img (g img)) ->
  faces_related R cs (map (option_map g) cs).
Proof.
  intros HR. unfold faces_related.
  induction cs as [| [img |] cs IH]; simpl; constructor; auto.
Qed.

Section NextMipmap.

Context `{Collaborators}.

(** [buildNextMipmap] on a texture whose face 0, if it has one, is
    populated and not yet 1 x 1: the call returns true; every populated
    face is replaced by its next level, an image with both extents
    halved (at least 1) made by the downsampling that alpha mode and
    filter select, and absent faces stay absent; type, wrap mode, alpha
    mode and normal-map flag are kept.  On a payload that is not shared
    the handle stays, the images the faces had are deleted, every other
    image and every other payload is as before. *)
Theorem buildNextMipmap_replaces_faces (filter : MipmapFilter)
    (this : TexImage) (h : Heap) (s : Snapshot) :
  observe this h = Some s ->
  exclusive_faces this h = true ->
  (forall f, s_faces s !! 0%nat = Some f ->
     exists img, f = Some img
       /\ 0 <= m_width img < 2 ^ 31 /\ 0 <= m_height img < 2 ^ 31
       /\ (m_width img <> 1 \/ m_height img <> 1)) ->
  exists this' h' faces',
    buildNextMipmap filter this h = Done ((true, this'), h')
    /\ observe this' h'
       = Some (mkSnapshot (s_type s) (s_wrapMode s) (s_alphaMode s)
                 (s_isNormalMap s) faces')
    /\ faces'
       = map (option_map (mipmap_of (s_alphaMode s) filter (s_wrapMode s)))
           (s_faces s)
    /\ faces_related
         (fun img img' =>
            m_width img' = Z.max 1 (m_width img / 2)
            /\ m_height img' = Z.max 1 (m_height img / 2)
            /\ m_componentNum img' = m_componentNum img)
         (s_faces s) faces'
    /\ forall p, payload_at h this = Some p -> Private.refCount p <= 1 ->
         this' = this
         /\ (forall y, (y < length (images h))%nat ->
               images h' !! y
               = if bool_decide (y ∈ omap id (Private.imageArray p))
                 then Some None else images h !! y)
         /\ (forall b, m this <> Some b -> payloads h' !! b = payloads h !! b).
Proof.
  intros Hobs Hexcl Hface0.
  destruct (observe_Some _ _ _ Hobs) as (p & Hp & Hall & _).
  pose proof Hp as (a & Hm & Hpa)%payload_at_Some.
  destruct this as [mthis]. simpl in Hm. subst mthis.
  destruct (detach_ready _ _ _ Hobs)
    as (a1 & h1 & p1 & Hdet & Hp1 & Hfields1 & Hall1 & Hdist1 & _ & _).
  specialize (Hdist1 Hexcl).
  assert (Hwm : s_wrapMode s = Private.wrapMode p1)
    by (rewrite Hfields1; reflexivity).
  assert (Ham : s_alphaMode s = Private.alphaMode p1)
    by (rewrite Hfields1; reflexivity).
  assert (Hty : s_type s = Private.type p1) by (rewrite Hfields1; reflexivity).
  assert (Hnm : s_isNormalMap s = Private.isNormalMap p1)
    by (rewrite Hfields1; reflexivity).
  pose proof (Forall2_length _ _ _ Hall1) as Hlen1.
  assert (Hinit : mip_rounds filter a1 h1 p1 (s_faces s) 0 h1).
  { exists p1. split; [exact Hp1 |]. split; [repeat split |].
    split; [reflexivity |]. split; [exact Hall1 |]. split; [exact Hdist1 |].
    split; [reflexivity |]. split; [reflexivity |].
    split; [| split; reflexivity].
    intros y Hy. rewrite take_0 in Hy. simpl in Hy. inversion Hy. }
  destruct (mip_loop filter a1 h1 p1 (s_faces s) Hall1 (length (s_faces s))
              0%nat h1 Hinit eq_refl)
    as (r & h' & Hrun & -> & p' & Hp' & (Hty' & Hwm' & Ham' & Hnm') & Href'
        & Hall' & _ & _ & _ & Hdel & Hframe & Hpay).
  change (Z.of_nat 0) with 0 in Hrun.
  rewrite first_mapped_all in Hall'.
  exists (Tex (Some a1)), h'. eexists.
  split; [| split; [| split; [reflexivity | split]]].
  - unfold buildNextMipmap. cbn [m]. step (Private_get_live _ _ _ Hpa).
    rewrite (bind_Done _ _ h false h).
    + cbv beta iota. step Hdet. cbn [m]. step (Private_get_live _ _ _ Hp1).
      rewrite Hlen1. step Hrun. reflexivity.
    + destruct (Z.ltb_spec 0 (Z.of_nat (length (Private.imageArray p))));
        [| reflexivity].
      assert (Hslot : exists f, Private.imageArray p !! 0%nat = Some f)
        by (apply lookup_lt_is_Some; lia).
      destruct Hslot as [f Hf].
      destruct (Forall2_lookup_l _ _ _ _ _ Hall Hf) as (c & Hc & Hat).
      destruct (Hface0 c Hc) as (img & -> & Hw & Hht & Hbig).
      destruct f as [x |]; [| discriminate Hat]. simpl in Hat.
      destruct (images h !! x) as [[img0 |] |] eqn:Hx; try discriminate Hat.
      injection Hat as ->.
      pose proof (Array_at_lookup _ 0%nat _ Hf h) as Hat0.
      change (Z.of_nat 0) with 0 in Hat0.
      step Hat0. step (Image_get_live _ _ _ Hx).
      rewrite !to_int_small by lia.
      destruct (Z.eqb_spec (m_width img) 1), (Z.eqb_spec (m_height img) 1);
        reflexivity || lia.
  - rewrite Hty, Hwm, Ham, Hnm, Hty', Hwm', Ham', Hnm'.
    apply observe_intro; [apply payload_at_Some; eauto |].
    rewrite <- Ham', <- Hwm'. exact Hall'.
  - apply faces_related_map. intros img. apply mipmap_of_extents.
  - intros p0 Hp0 Hsole.
    assert (p0 = p) by congruence. subst p0.
    rewrite (detach_sole h a p Hpa Hsole) in Hdet.
    injection Hdet as <- <-.
    assert (p1 = p) by congruence. subst p1.
    split; [reflexivity |]. split.
    + intros y Hy.
      rewrite <- (firstn_all (Private.imageArray p)), Hlen1.
      destruct (bool_decide_reflect
                  (y ∈ omap id (take (length (s_faces s))
                                  (Private.imageArray p)))) as [Hin | Hout].
      * now apply Hdel.
      * now apply Hframe.
    + intros b Hb. apply Hpay. simpl in Hb. congruence.
Qed.

End NextMipmap.

(** The texture of 4 x 2 pixels gets a face of 2 x 1 pixels, and its old
    image is deleted. *)
Lemma buildNextMipmap_loaded_4x2 :
  exists h' img',
    buildNextMipmap MipmapFilter_Box (Tex (Some 0%nat)) loaded_4x2
    = Done ((true, Tex (Some 0%nat)), h')
    /\ observe (Tex (Some 0%nat)) h' = Some (shot img')
    /\ m_width img' = 2 /\ m_height img' = 1
    /\ images h' !! 0%nat = Some None.
Proof.
  destruct (buildNextMipmap_replaces_faces MipmapFilter_Box (Tex (Some 0%nat))
              loaded_4x2 (shot (plain 4 2 F32.one)) eq_refl eq_refl)
    as (this' & h' & faces' & Hrun & Hobs & -> & Hrel & Hsole).
  { intros f [= <-]. exists (plain 4 2 F32.one). simpl. repeat split; lia. }
  destruct (Hsole _ eq_refl ltac:(simpl; lia)) as (-> & Himages & _).
  eexists h', _. split; [exact Hrun |]. split; [exact Hobs |].
  split; [reflexivity |]. split; [reflexivity |].
  exact (Himages 0%nat ltac:(simpl; lia)).
Defined.

(** ** Copying a channel *)

(** The plane copy of [copyChannel] on two images of four planes of [n]
    samples. *)
Lemma copy_plane_load n d s dc sc :
  four_planes n d -> four_planes n s -> n < 2 ^ 32 ->
  0 <= dc < 4 -> 0 <= sc < 4 ->
  exists d', copy_plane d dc s sc (Int.to_uint n) = Some d'
             /\ extents d' = extents d
             /\ forall c k, 0 <= c < 4 -> 0 <= k < n ->
                  load_channel c k d'
                  = if c =? dc then load_channel sc k s else load_channel c k d.
Proof.
  intros Hd Hs Hn Hdc Hsc.
  pose proof (channel_offset n d dc Hd) as Hoffd.
  pose proof (channel_offset n s sc Hs) as Hoffs.
  pose proof (fun c => channel_offset n d c Hd) as Hchan.
  destruct Hd as (_ & Hnd & Hlend & Hn0). destruct Hs as (_ & Hns & Hlens & _).
  unfold copy_plane, read_run.
  rewrite (to_uint_small dc), (to_uint_small sc), (to_uint_small n) by lia.
  rewrite Hoffd, Hoffs.
  assert (0 <= dc * n /\ dc * n + n <= Z.of_nat (length (m_mem d))) by nia.
  assert (0 <= sc * n /\ sc * n + n <= Z.of_nat (length (m_mem s))) by nia.
  repeat match goal with
         | |- context [?u <=? ?v] => destruct (Z.leb_spec u v); [| lia]
         end.
  simpl. eexists. split; [reflexivity |].
  assert (Hl1 : length (take (Z.to_nat (dc * n)) (m_mem d)) = Z.to_nat (dc * n))
    by (rewrite length_take; lia).
  assert (Hl2 : length (take (Z.to_nat n) (drop (Z.to_nat (sc * n)) (m_mem s)))
                = Z.to_nat n)
    by (rewrite length_take, length_drop; lia).
  split.
  - unfold extents. simpl. rewrite !length_app, Hl1, Hl2, length_drop.
    repeat f_equal. lia.
  - intros c k Hc Hk. unfold load_channel at 1. unfold Image.read, Image.channel.
    simpl.
    replace (c * m_width d * m_height d) with (c * n) by (rewrite <- Hnd; ring).
    destruct (Z.ltb_spec (c * n + k) 0); [nia |].
    destruct (Z.eqb_spec c dc) as [-> | Hne].
    + rewrite lookup_app_r by lia. rewrite Hl1.
      rewrite lookup_app_l by lia.
      rewrite lookup_take_lt by lia. rewrite lookup_drop.
      unfold load_channel, Image.read. rewrite Hoffs.
      destruct (Z.ltb_spec (sc * n + k) 0); [nia |].
      f_equal. lia.
    + unfold load_channel, Image.read. rewrite Hchan.
      destruct (Z.ltb_spec (c * n + k) 0); [nia |].
      destruct (Z.lt_ge_cases c dc).
      * rewrite lookup_app_l by nia. apply lookup_take_lt. nia.
      * rewrite lookup_app_r by nia. rewrite Hl1.
        rewrite lookup_app_r by nia. rewrite Hl2, lookup_drop.
        f_equal. nia.
Qed.

Section CopyChannel.

(** The destination, the payload [p] at [a], is not shared; the source
    is the payload [q] at [b].  An image may be a face of both only in
    the same slot (as when a texture is copied into itself). *)
Variables (a b : ptr) (h : Heap) (p q : Private.t).
Variables (ds cs : list (option FloatImage)) (srcChannel dstChannel : Z).
Hypothesis Hp : payloads h !! a = Some (Some p).
Hypothesis Hq : payloads h !! b = Some (Some q).
Hypothesis Hsole : Private.refCount p <= 1.
Hypothesis Hds :
  Forall2 (fun f c => face_at h f = Some c) (Private.imageArray p) ds.
Hypothesis Hcs :
  Forall2 (fun f c => face_at h f = Some c) (Private.imageArray q) cs.
Hypothesis Hdistinct : faces_distinct (Private.imageArray p).
Hypothesis Hcross : forall i j x,
  Private.imageArray p !! i = Some (Some x) ->
  Private.imageArray q !! j = Some (Some x) -> i = j.
Hypothesis Hpaired : faces_paired ds cs.
Hypothesis Hsc : 0 <= srcChannel < 4.
Hypothesis Hdc : 0 <= dstChannel < 4.

Let rounds := copy_rounds dstChannel srcChannel h (Private.imageArray p) ds cs.

Lemma live_face faces contents (i : nat) img :
  Forall2 (fun f c => face_at h f = Some c) faces contents ->
  contents !! i = Some (Some img) ->
  exists x, faces !! i = Some (Some x) /\ images h !! x = Some (Some img).
Proof.
  intros Hall Hi.
  destruct (Forall2_lookup_r _ _ _ _ _ Hall Hi) as ([x |] & Hf & Hat);
    [| discriminate Hat].
  exists x. split; [exact Hf |]. simpl in Hat.
  destruct (images h !! x) as [[img' |] |]; congruence.
Qed.

(** One round: the pair at [k] is accepted and its plane copied. *)
Lemma copy_round (k : nat) hk :
  rounds k hk -> (k < length ds)%nat ->
  returns (copyChannel_face (Tex (Some b)) srcChannel dstChannel (Tex (Some a))
             (Z.of_nat k)) hk
    (fun r h' => r = None /\ rounds (S k) h').
Proof.
  intros (Hpay & Hdone & Hframe) Hk.
  destruct (lookup_lt_is_Some_2 ds k Hk) as [cd Hcd].
  destruct (Forall2_lookup_l _ _ _ _ _ Hpaired Hcd) as (cc & Hcc & Hpair).
  destruct cd as [d |], cc as [s |]; try contradiction.
  destruct Hpair as (Hvd & Hvs & Hw & Hht).
  destruct (live_face _ _ _ _ Hds Hcd) as (x & Hx & Hd).
  destruct (live_face _ _ _ _ Hcs Hcc) as (y & Hy & Hs).
  assert (Hxk : images hk !! x = Some (Some d)).
  { rewrite Hframe; [exact Hd |]. intros i Hi Hix.
    pose proof (Hdistinct _ _ _ Hix Hx). lia. }
  assert (Hyk : images hk !! y = Some (Some s)).
  { rewrite Hframe; [exact Hs |]. intros i Hi Hiy.
    pose proof (Hcross _ _ _ Hiy Hy). lia. }
  assert (Hpk : payloads hk !! a = Some (Some p)) by (now rewrite Hpay).
  assert (Hqk : payloads hk !! b = Some (Some q)) by (now rewrite Hpay).
  pose proof (Image_valid_four_planes d Hvd) as Hfd.
  pose proof (Image_valid_four_planes s Hvs) as Hfs.
  rewrite Hw, Hht in Hfs.
  assert (Hsmall : m_width d * m_height d < 2 ^ 32).
  { unfold Image_valid in Hvd. apply andb_prop in Hvd as [_ Hlt].
    now apply Z.ltb_lt in Hlt. }
  destruct (copy_plane_load _ d s dstChannel srcChannel Hfd Hfs Hsmall Hdc Hsc)
    as (d' & Hcopy & Hext & Hload).
  unfold copyChannel_face. cbn [m].
  apply returns_bind. eapply returns_Done; [exact (Private_get_live _ _ _ Hpk) |].
  apply returns_bind. eapply returns_Done; [exact (Array_at_lookup _ _ _ Hx hk) |].
  apply returns_bind. eapply returns_Done; [exact (Private_get_live _ _ _ Hqk) |].
  apply returns_bind. eapply returns_Done; [exact (Array_at_lookup _ _ _ Hy hk) |].
  apply returns_bind. eapply returns_Done; [exact (Image_get_live _ _ _ Hyk) |].
  apply returns_bind. eapply returns_Done; [exact (Image_get_live _ _ _ Hxk) |].
  destruct Hfd as (Hcd4 & _). destruct Hfs as (Hcs4 & _).
  rewrite Hcd4, Hcs4. change (4 =? 4) with true.
  apply returns_bind. eapply returns_Done; [reflexivity |].
  apply returns_bind. eapply returns_Done; [reflexivity |].
  rewrite Hw, Hht, !Z.eqb_refl. cbn [negb orb].
  rewrite Hcopy.
  apply returns_bind. eapply returns_Done; [reflexivity |].
  apply returns_bind.
  eapply returns_Done; [exact (Image_put_live _ _ _ d' Hxk) |].
  apply returns_ret. split; [reflexivity |].
  split; [exact Hpay | split].
  - intros i x0 d0 s0 Hi Hx0 Hd0 Hs0. cbn [images].
    destruct (decide (i = k)) as [-> | Hne].
    + assert (x0 = x) by congruence. assert (d0 = d) by congruence.
      assert (s0 = s) by congruence. subst x0 d0 s0.
      exists d'. split; [| split; assumption].
      apply list_lookup_insert_eq. now apply lookup_lt_Some in Hxk.
    + destruct (Hdone i x0 d0 s0 ltac:(lia) Hx0 Hd0 Hs0) as (d0' & Hd0' & Hcopied).
      exists d0'. split; [| exact Hcopied].
      rewrite list_lookup_insert_ne; [exact Hd0' |].
      intros <-. apply Hne. symmetry. exact (Hdistinct _ _ _ Hx Hx0).
  - intros y0 Hy0. cbn [images].
    rewrite list_lookup_insert_ne
      by (intros <-; exact (Hy0 k ltac:(lia) Hx)).
    apply Hframe. intros i Hi. apply Hy0. lia.
Qed.

Lemma copy_loop (n : nat) :
  forall (k : nat) hk,
    rounds k hk -> (k + n = length ds)%nat ->
    returns (for_each (seqZ (Z.of_nat k) (Z.of_nat n))
               (copyChannel_face (Tex (Some b)) srcChannel dstChannel
                  (Tex (Some a)))) hk
      (fun r h' => r = None /\ rounds (length ds) h').
Proof.
  induction n as [| n IH]; intros k hk Hk Hsum.
  - eapply returns_Done; [apply for_each_nil |]. split; [reflexivity |].
    now replace (length ds) with k by lia.
  - rewrite seqZ_of_nat_S. apply returns_for_each_cons. apply returns_bind.
    eapply returns_weaken; [apply (copy_round k hk Hk); lia |].
    intros r h2 (-> & Hk2). apply (IH (S k) h2 Hk2). lia.
Qed.

(** [copyChannel] on accepted pairs returns true, and leaves in every
    face of the destination the image it had with plane [dstChannel]
    replaced by plane [srcChannel] of the source face; the other planes,
    the extents, the fields of the texture, and every image that is not
    a face of the destination are as before. *)
Theorem copyChannel_copies_planes :
  exists h' faces',
    copyChannel (Tex (Some b)) srcChannel dstChannel (Tex (Some a)) h
    = Done ((true, Tex (Some a)), h')
    /\ observe (Tex (Some a)) h'
       = Some (mkSnapshot (Private.type p) (Private.wrapMode p)
                 (Private.alphaMode p) (Private.isNormalMap p) faces')
    /\ length faces' = length ds
    /\ (forall i d s, ds !! i = Some (Some d) -> cs !! i = Some (Some s) ->
          exists d', faces' !! i = Some (Some d')
                     /\ plane_copied dstChannel srcChannel d s d')
    /\ payloads h' = payloads h
    /\ forall y, y ∉ omap id (Private.imageArray p) ->
         images h' !! y = images h !! y.
Proof.
  pose proof (Forall2_length _ _ _ Hds) as Hnd.
  pose proof (Forall2_length _ _ _ Hcs) as Hnc.
  pose proof (Forall2_length _ _ _ Hpaired) as Hnp.
  assert (Hinit : rounds 0 h).
  { split; [reflexivity |]. split; [intros; lia | reflexivity]. }
  destruct (copy_loop (length ds) 0 h Hinit eq_refl)
    as (r & h' & Hrun & -> & Hpay & Hdone & Hframe).
  change (Z.of_nat 0) with 0 in Hrun.
  assert (Hfaces : is_Some (mapM (face_at h') (Private.imageArray p))).
  { apply mapM_is_Some_2, Forall_lookup_2. intros i f Hf. simpl.
    destruct (Forall2_lookup_l _ _ _ _ _ Hds Hf) as (cd & Hcd & Hat).
    destruct (Forall2_lookup_l _ _ _ _ _ Hpaired Hcd) as (cc & Hcc & Hpair).
    destruct cd as [d |], cc as [s |]; try contradiction.
    destruct f as [x |]; [| discriminate Hat].
    destruct (Hdone i x d s ltac:(apply lookup_lt_Some in Hcd; lia) Hf Hcd Hcc)
      as (d' & Hd' & _).
    simpl. rewrite Hd'. eauto. }
  destruct Hfaces as [faces' Hfaces]. apply mapM_Some in Hfaces.
  exists h', faces'. split; [| split; [| split; [| split; [| split]]]].
  - unfold copyChannel.
    step (faceCount_live h (Tex (Some a)) p
            ltac:(apply payload_at_Some; eauto)).
    step (faceCount_live h (Tex (Some b)) q
            ltac:(apply payload_at_Some; eauto)).
    replace (length (Private.imageArray q)) with (length (Private.imageArray p))
      by congruence.
    rewrite Z.eqb_refl. cbn [negb].
    step (detach_sole h a p Hp Hsole). cbn [m].
    step (Private_get_live _ _ _ Hp). rewrite Hnd. step Hrun. reflexivity.
  - apply observe_intro; [| exact Hfaces].
    apply payload_at_Some. exists a. split; [reflexivity |]. now rewrite Hpay.
  - apply Forall2_length in Hfaces. congruence.
  - intros i d s Hd Hs.
    destruct (live_face _ _ _ _ Hds Hd) as (x & Hx & _).
    destruct (Hdone i x d s ltac:(apply lookup_lt_Some in Hd; lia) Hx Hd Hs)
      as (d' & Hd' & Hcopied).
    exists d'. split; [| exact Hcopied].
    destruct (Forall2_lookup_l _ _ _ _ _ Hfaces Hx) as (c & Hc & Hat).
    simpl in Hat. rewrite Hd' in Hat. congruence.
  - exact Hpay.
  - intros y Hy. apply Hframe. intros i _ Hi. apply Hy.
    apply list_elem_of_omap. exists (Some y). split; [| reflexivity].
    eapply list_elem_of_lookup_2. exact Hi.
Qed.

End CopyChannel.

(** The alpha plane of a white texture of 2 x 1 pixels goes into the red
    plane of a black one. *)
Lemma copyChannel_two_planes_2x1 :
  exists h' d',
    copyChannel (Tex (Some 1%nat)) 3 0 (Tex (Some 0%nat)) two_planes_2x1
    = Done ((true, Tex (Some 0%nat)), h')
    /\ observe (Tex (Some 0%nat)) h' = Some (shot d')
    /\ load_channel 0 1 d' = Some F32.one
    /\ load_channel 1 1 d' = Some F32.zero.
Proof.
  destruct (copyChannel_copies_planes 0%nat 1%nat two_planes_2x1 _ _
              [Some (plain 2 1 F32.zero)] [Some (plain 2 1 F32.one)] 3 0
              eq_refl eq_refl ltac:(simpl; lia))
    as (h' & faces' & Hrun & Hobs & Hlen & Hcopied & _).
  - repeat constructor.
  - repeat constructor.
  - intros [| i] [| j] x Hi Hj; try discriminate Hi; try discriminate Hj.
    reflexivity.
  - intros [| i] [| j] x Hi Hj; try discriminate Hi; try discriminate Hj.
    simpl in Hi, Hj. congruence.
  - constructor; [| constructor]. repeat split; reflexivity.
  - lia.
  - lia.
  - destruct (Hcopied 0%nat _ _ eq_refl eq_refl) as (d' & Hd' & _ & Hsamples).
    destruct faces' as [| f [| ? ?]]; try discriminate Hlen.
    simpl in Hd'. injection Hd' as ->.
    exists h', d'. split; [exact Hrun |]. split; [exact Hobs |].
    split; [exact (Hsamples 0 1 ltac:(lia) ltac:(simpl; lia)) |
            exact (Hsamples 1 1 ltac:(lia) ltac:(simpl; lia))].
Defined.

(** ** Error metrics: the sentinel and the pixel loop *)

(** Both error metrics return [FLT_MAX], and leave the heap alone, when
    the two textures differ in their number of face slots, and when face
    0 of one of them is absent. *)
Theorem rootMeanSquaredError_sentinel (reference this : TexImage) (h : Heap)
    (p q : Private.t) :
  payload_at h this = Some p -> payload_at h reference = Some q ->
  Z.of_nat (length (Private.imageArray p)) < 2 ^ 31 ->
  Z.of_nat (length (Private.imageArray q)) < 2 ^ 31 ->
  (length (Private.imageArray p) <> length (Private.imageArray q)
   \/ Private.imageArray p !! 0%nat = Some None
   \/ Private.imageArray q !! 0%nat = Some None) ->
  rootMeanSquaredError_rgb reference this h = Done (F32.FLT_MAX, h)
  /\ rootMeanSquaredError_alpha reference this h = Done (F32.FLT_MAX, h).
Proof.
  intros Hp Hq Hsp Hsq Hcase.
  destruct (decide (length (Private.imageArray p)
                    = length (Private.imageArray q))) as [Hlen | Hne];
    [| now apply (rootMeanSquaredError_face_counts_differ _ _ _ p q)].
  destruct Hcase as [Hne | Habsent]; [contradiction |].
  assert (Hslots : exists f g, Private.imageArray p !! 0%nat = Some f
                               /\ Private.imageArray q !! 0%nat = Some g
                               /\ (f = None \/ g = None)).
  { destruct Habsent as [Hf | Hg].
    - destruct (lookup_lt_is_Some_2 (Private.imageArray q) 0%nat) as [g Hg].
      { apply lookup_lt_Some in Hf. lia. }
      exists None, g. auto.
    - destruct (lookup_lt_is_Some_2 (Private.imageArray p) 0%nat) as [f Hf].
      { apply lookup_lt_Some in Hg. lia. }
      exists f, None. auto. }
  destruct Hslots as (f & g & Hf & Hg & Hnone).
  exact (rootMeanSquaredError_first_face_absent _ _ _ p q f g Hp Hq Hlen Hsp
           Hf Hg Hnone).
Qed.

(** A Cube without populated faces against itself. *)
Lemma rootMeanSquaredError_of_empty_cube :
  rootMeanSquaredError_rgb (Tex (Some 0%nat)) (Tex (Some 0%nat)) empty_cube
  = Done (F32.FLT_MAX, empty_cube)
  /\ rootMeanSquaredError_alpha (Tex (Some 0%nat)) (Tex (Some 0%nat)) empty_cube
     = Done (F32.FLT_MAX, empty_cube).
Proof.
  apply (rootMeanSquaredError_sentinel (Tex (Some 0%nat)) (Tex (Some 0%nat))
           empty_cube _ _ eq_refl eq_refl);
    [simpl; lia | simpl; lia |].
  right. left. reflexivity.
Defined.

(** The black texture of 2 x 1 pixels against the white one: the pixel
    loop leaves the buffer. *)
Lemma rootMeanSquaredError_two_planes_2x1 :
  rootMeanSquaredError_rgb (Tex (Some 1%nat)) (Tex (Some 0%nat)) two_planes_2x1
  = Fault OutOfBounds
  /\ rootMeanSquaredError_alpha (Tex (Some 1%nat)) (Tex (Some 0%nat))
       two_planes_2x1
     = Fault OutOfBounds.
Proof.
  apply (rootMeanSquaredError_out_of_bounds (Tex (Some 1%nat)) (Tex (Some 0%nat))
           two_planes_2x1 _ _ 0%nat 1%nat (plain 2 1 F32.zero)
           (plain 2 1 F32.one) eq_refl eq_refl eq_refl);
    try reflexivity; simpl; lia.
Defined.

(** ** Assignment *)

(** [operator=] between two handles on different payloads moves one
    holder: the count of the assigned payload goes up by one, and the
    payload the handle had is released, which frees it and deletes its
    face images when the handle was its only holder.  Assigning a handle
    to itself changes nothing, unless the payload has no holder on
    record. *)
Theorem TexImage_assign_moves_a_holder (tex this : TexImage) (h : Heap)
    (s : Snapshot) (a b : nat) (p q : Private.t) :
  observe this h = Some s ->
  exclusive_faces this h = true ->
  m this = Some a -> m tex = Some b ->
  payloads h !! a = Some (Some p) -> payloads h !! b = Some (Some q) ->
  (a = b -> Private.refCount p <> 0 ->
   TexImage_assign tex this h = Done (tex, h))
  /\ (a <> b ->
      exists h',
        TexImage_assign tex this h = Done (tex, h')
        /\ payloads h' !! b
           = Some (Some (Private.set_refCount (Private.refCount q + 1) q))
        /\ (Private.refCount p = 1 ->
            payloads h' !! a = Some None
            /\ (forall i y, Private.imageArray p !! i = Some (Some y) ->
                            images h' !! y = Some None)
            /\ (forall y, (forall i, Private.imageArray p !! i <> Some (Some y)) ->
                          images h' !! y = images h !! y))
        /\ (Private.refCount p <> 1 ->
            images h' = images h
            /\ payloads h' !! a
               = Some (Some (Private.set_refCount (Private.refCount p - 1) p)))).
Proof.
  intros Hobs Hexcl Hm Hmt Hpa Hqb.
  destruct (observe_Some _ _ _ Hobs) as (p0 & Hp0 & Hall & _).
  assert (p0 = p) as ->.
  { apply payload_at_Some in Hp0 as (c & Hc & Hpc). congruence. }
  unfold exclusive_faces in Hexcl. rewrite Hp0 in Hexcl.
  apply bool_decide_eq_true, NoDup_faces_distinct in Hexcl.
  assert (Hb : (b < length (payloads h))%nat) by (now apply lookup_lt_Some in Hqb).
  assert (Ha : (a < length (payloads h))%nat) by (now apply lookup_lt_Some in Hpa).
  set (q1 := Private.set_refCount (Private.refCount q + 1) q).
  set (h1 := mkHeap (images h) (<[b := Some q1]> (payloads h))).
  assert (Hadd : addRef (Some b) h = Done (tt, h1)).
  { unfold addRef.
    exact (Private_modify_live _ _ _
             (fun p => Private.set_refCount (Private.refCount p + 1) p) Hqb). }
  destruct tex as [mtex], this as [mthis]. simpl in Hm, Hmt. subst mtex mthis.
  split.
  - intros <- Hcount. assert (q = p) by congruence. subst q.
    assert (Hp1 : payloads h1 !! a = Some (Some q1))
      by (unfold h1; simpl; now apply list_lookup_insert_eq).
    assert (Hrel : release (Some a) h1 = Done (tt, h)).
    { unfold release. step (Private_get_live _ _ _ Hp1).
      replace (Private.refCount q1 - 1) with (Private.refCount p)
        by (unfold q1; simpl; lia).
      destruct (Z.eqb_spec (Private.refCount p) 0); [contradiction |].
      rewrite (Private_put_live _ _ _
                 (Private.set_refCount (Private.refCount p) q1) Hp1).
      unfold h1. simpl. rewrite list_insert_insert_eq.
      replace (Private.set_refCount (Private.refCount p) q1) with p
        by (now destruct p).
      rewrite list_insert_id by exact Hpa. now rewrite Heap_eta. }
    unfold TexImage_assign. cbn [m]. step Hadd. step Hrel. reflexivity.
  - intros Hne.
    assert (Hp1 : payloads h1 !! a = Some (Some p)).
    { unfold h1. simpl. rewrite list_lookup_insert_ne by auto. exact Hpa. }
    destruct (release_returns h1 a p Hp1 (observed_faces_live _ _ _ Hall) Hexcl)
      as (u & h' & Hrel & Hpost).
    exists h'. split; [| split; [| split]].
    + unfold TexImage_assign. cbn [m]. step Hadd. step Hrel. reflexivity.
    + destruct (Private.refCount p - 1 =? 0).
      * destruct Hpost as [-> _]. unfold h1. simpl.
        rewrite list_lookup_insert_ne by auto.
        now apply list_lookup_insert_eq.
      * rewrite Hpost. unfold h1. simpl.
        rewrite list_lookup_insert_ne by auto.
        now apply list_lookup_insert_eq.
    + intros Hone. rewrite Hone in Hpost. simpl in Hpost.
      destruct Hpost as [Hpay Himgs]. split; [| split].
      * rewrite Hpay. apply list_lookup_insert_eq. unfold h1. simpl.
        now rewrite length_insert.
      * intros i y Hi. apply Himgs. eauto.
      * intros y Hno. now apply Himgs.
    + intros Hmore. destruct (Z.eqb_spec (Private.refCount p - 1) 0); [lia |].
      rewrite Hpost. simpl. split; [reflexivity |].
      apply list_lookup_insert_eq. now rewrite length_insert.
Qed.

(** The handle on the black texture of 2 x 1 pixels is given the white
    one: the black image is deleted, the white one has two holders. *)
Lemma TexImage_assign_two_planes_2x1 :
  exists h',
    TexImage_assign (Tex (Some 1%nat)) (Tex (Some 0%nat)) two_planes_2x1
    = Done (Tex (Some 1%nat), h')
    /\ payloads h' !! 0%nat = Some None
    /\ images h' !! 0%nat = Some None
    /\ images h' !! 1%nat = Some (Some (plain 2 1 F32.one)).
Proof.
  destruct (TexImage_assign_moves_a_holder (Tex (Some 1%nat)) (Tex (Some 0%nat))
              two_planes_2x1 (shot (plain 2 1 F32.zero)) 0%nat 1%nat _ _
              eq_refl eq_refl eq_refl eq_refl eq_refl eq_refl)
    as [_ Hmove].
  destruct (Hmove ltac:(lia)) as (h' & Hrun & _ & Hlast & _).
  destruct (Hlast eq_refl) as (Hpay & Hdel & Hkept).
  exists h'. split; [exact Hrun |]. split; [exact Hpay |].
  split; [exact (Hdel 0%nat 0%nat eq_refl) |].
  rewrite Hkept; [reflexivity |].
  intros [| i]; discriminate.
Defined.

(** ** Resizing *)

Section Resize.

Context `{FaceOperations}.

(** [resize] to the width and height face 0 has returns at once: the
    payload is not cloned and no face is touched, whatever the extents
    of the other faces are.  On a texture without face slots whose
    payload is not shared it changes nothing either. *)
Theorem resize_to_extents_of_face_0 (w ht : Z) (filter : ResizeFilter)
    (this : TexImage) (h : Heap) (p : Private.t) :
  payload_at h this = Some p ->
  ((exists x img, Private.imageArray p !! 0%nat = Some (Some x)
                  /\ images h !! x = Some (Some img)
                  /\ Int.to_uint w = m_width img
                  /\ Int.to_uint ht = m_height img)
   \/ (Private.imageArray p = [] /\ Private.refCount p <= 1)) ->
  resize w ht filter this h = Done (this, h).
Proof.
  intros (a & Hm & Hpa)%payload_at_Some Hcase.
  destruct this as [mthis]. simpl in Hm. subst mthis.
  unfold resize. cbn [m]. step (Private_get_live _ _ _ Hpa).
  destruct Hcase as [(x & img & Hx & Himg & Hw & Hht) | [Hnone Hsole]].
  - assert (Hpos : (0 <? Z.of_nat (length (Private.imageArray p))) = true).
    { apply Z.ltb_lt. apply lookup_lt_Some in Hx. lia. }
    rewrite Hpos.
    pose proof (Array_at_lookup _ 0%nat _ Hx h) as Hat.
    change (Z.of_nat 0) with 0 in Hat.
    rewrite (bind_Done _ _ h true h); [reflexivity |].
    step Hat. step (Image_get_live _ _ _ Himg).
    now rewrite Hw, Hht, !Z.eqb_refl.
  - rewrite Hnone. cbn [length Z.of_nat Z.ltb Z.compare].
    rewrite (bind_Done _ _ h false h) by reflexivity. cbv beta iota.
    step (detach_sole h a p Hpa Hsole). cbn [m].
    step (Private_get_live _ _ _ Hpa). rewrite Hnone. reflexivity.
Qed.

End Resize.

(** The texture of 4 x 2 pixels is resized to 4 x 2. *)
Lemma resize_loaded_4x2 :
  resize 4 2 ResizeFilter_Kaiser (Tex (Some 0%nat)) loaded_4x2
  = Done (Tex (Some 0%nat), loaded_4x2).
Proof.
  apply (resize_to_extents_of_face_0 4 2 ResizeFilter_Kaiser (Tex (Some 0%nat))
           loaded_4x2 _ eq_refl).
  left. exists 0%nat, (plain 4 2 F32.one). repeat split; reflexivity.
Defined.

(** *** The extents [resize] with a maximal extent asks for *)

Lemma pow2_exponent_le j e : 0 <= j <= e -> 2 ^ j <= 2 ^ e.
Proof. intros Hj. apply Z.pow_le_mono_r; lia. Qed.

Lemma pow2_small e : 0 <= e <= 30 -> 1 <= 2 ^ e < 2 ^ 31.
Proof.
  intros He. split.
  - change 1 with (2 ^ 0). apply Z.pow_le_mono_r; lia.
  - apply Z.pow_lt_mono_r; lia.
Qed.

(** Rounding to the next power of two stays below a power of two that
    bounds the argument. *)
Lemma next_within v e :
  0 <= e <= 30 -> 1 <= v <= 2 ^ e ->
  exists j, 0 <= j <= e /\ Int.to_int (nextPowerOfTwo (Int.to_uint v)) = 2 ^ j
            /\ (v = 2 ^ e -> j = e).
Proof.
  intros He Hv. pose proof (pow2_small e He) as Hsmall.
  rewrite to_uint_small by lia.
  destruct (nextPowerOfTwo_least_above v ltac:(lia)) as (Hnext & Hj & Hup).
  assert (Hle : Z.log2_up v <= e) by (apply Z.log2_up_le_pow2; lia).
  exists (Z.log2_up v). split; [lia |]. split.
  - rewrite Hnext. apply to_int_small.
    pose proof (pow2_small (Z.log2_up v) ltac:(lia)). lia.
  - intros ->. apply Z.log2_up_pow2. lia.
Qed.

Lemma previous_within v e :
  0 <= e <= 30 -> 1 <= v <= 2 ^ e ->
  exists j, 0 <= j <= e /\ Int.to_int (previousPowerOfTwo (Int.to_uint v)) = 2 ^ j
            /\ (v = 2 ^ e -> j = e).
Proof.
  intros He Hv. pose proof (pow2_small e He) as Hsmall.
  rewrite to_uint_small by lia.
  rewrite (previousPowerOfTwo_log2 v) by lia.
  destruct (pow2_log2_bounds v ltac:(lia)) as [Hl Hb].
  assert (Hle : Z.log2 v <= e).
  { destruct (Z.le_gt_cases (Z.log2 v) e) as [| Hgt]; [assumption |].
    assert (2 ^ (e + 1) <= 2 ^ Z.log2 v) by (apply Z.pow_le_mono_r; lia).
    rewrite Z.pow_add_r in * by lia. lia. }
  exists (Z.log2 v). split; [lia |]. split.
  - apply to_int_small. pose proof (pow2_small (Z.log2 v) ltac:(lia)). lia.
  - intros ->. apply Z.log2_pow2. lia.
Qed.

Lemma nearest_within v e :
  0 <= e <= 30 -> 1 <= v <= 2 ^ e ->
  exists j, 0 <= j <= e /\ Int.to_int (nearestPowerOfTwo (Int.to_uint v)) = 2 ^ j
            /\ (v = 2 ^ e -> j = e).
Proof.
  intros He Hv. pose proof (pow2_small e He) as Hsmall.
  destruct (next_within v e He Hv) as (jn & Hjn & Hn & Hne).
  destruct (previous_within v e He Hv) as (jp & Hjp & Hp & Hpe).
  rewrite to_uint_small in * by lia.
  unfold nearestPowerOfTwo.
  destruct (Int.to_uint (nextPowerOfTwo v - v)
            <=? Int.to_uint (v - previousPowerOfTwo v)); eauto.
Qed.

Section ResizeMax.

Context `{FaceOperations}.

(** [resize] with a maximal extent, on a texture whose face 0 has
    extents [w0] x [h0]: it calls [resize] with a width and a height from
    1 to the bound, which is the maximal extent or, with a rounding
    policy, the greatest power of two not above it.  When face 0 exceeds
    the bound, the larger of the two is the bound itself.  With a
    rounding policy both are powers of two, and on a Cube they are
    equal. *)
Theorem resize_max_extents (maxExtent : Z) (roundMode : RoundMode)
    (filter : ResizeFilter) (this : TexImage) (h : Heap) (p : Private.t)
    (x : nat) (img : FloatImage) :
  payload_at h this = Some p ->
  Private.imageArray p !! 0%nat = Some (Some x) ->
  images h !! x = Some (Some img) ->
  1 <= m_width img < 2 ^ 16 -> 1 <= m_height img < 2 ^ 16 ->
  1 <= maxExtent < 2 ^ 15 ->
  exists w' h',
    resize_max maxExtent roundMode filter this h
    = (this' <- resize w' h' filter this ;; ret (Some this')) h
    /\ 1 <= w' <= extent_bound roundMode maxExtent
    /\ 1 <= h' <= extent_bound roundMode maxExtent
    /\ extent_bound roundMode maxExtent <= maxExtent
    /\ (extent_bound roundMode maxExtent < Z.max (m_width img) (m_height img) ->
        Z.max w' h' = extent_bound roundMode maxExtent)
    /\ (roundMode <> RoundMode_None -> power_of_two w' /\ power_of_two h')
    /\ (roundMode = RoundMode_None ->
        Z.max (m_width img) (m_height img) <= maxExtent ->
        Private.type p = TextureType_2D ->
        w' = m_width img /\ h' = m_height img)
    /\ (Private.type p = TextureType_Cube -> w' = h').
Proof.
  intros Hp Hx Himg Hw Hht Hmax.
  pose proof Hp as (a & Hm & Hpa)%payload_at_Some.
  destruct this as [mthis]. simpl in Hm. subst mthis.
  set (w0 := m_width img) in *. set (h0 := m_height img) in *.
  set (E := extent_bound roundMode maxExtent).
  destruct (pow2_log2_bounds maxExtent ltac:(lia)) as [Hlog HE2].
  assert (Hlog14 : Z.log2 maxExtent <= 14).
  { assert (Z.log2 maxExtent < 15) by (apply Z.log2_lt_pow2; lia). lia. }
  (* the bound as the code computes it *)
  assert (HE : (if negb (RoundMode_eqb roundMode RoundMode_None)
                then Int.to_int (previousPowerOfTwo (Int.to_uint maxExtent))
                else maxExtent) = E).
  { unfold E, extent_bound.
    destruct roundMode; cbn [RoundMode_eqb negb]; try reflexivity;
      rewrite to_uint_small by lia;
      rewrite (previousPowerOfTwo_log2 maxExtent) by lia;
      apply to_int_small; pose proof (pow2_small (Z.log2 maxExtent)); lia. }
  assert (HEle : 1 <= E <= maxExtent).
  { unfold E, extent_bound.
    pose proof (pow2_small (Z.log2 maxExtent) ltac:(lia)).
    destruct roundMode; lia. }
  assert (HEpow : roundMode <> RoundMode_None -> E = 2 ^ Z.log2 maxExtent).
  { unfold E, extent_bound. destruct roundMode; congruence. }
  set (maxwh := Z.max w0 h0).
  set (scale := negb (E =? 0) && (E <? maxwh)).
  (* the scaled extents *)
  assert (Hscaled : forall v, 1 <= v <= maxwh ->
            let v1 := if scale
                      then Z.max (Int.to_int (Int.to_int (v * E) ÷ maxwh)) 1
                      else v in
            1 <= v1 <= E /\ (E < maxwh -> v = maxwh -> v1 = E)
            /\ (maxwh <= E -> v1 = v)).
  { intros v Hv. unfold scale.
    destruct (Z.eqb_spec E 0) as [? | _]; [lia |]. cbn [negb andb].
    destruct (Z.ltb_spec E maxwh) as [Hlt | Hge]; cbv zeta.
    - assert (Hprod : 0 <= v * E < 2 ^ 31) by (unfold maxwh in *; nia).
      rewrite (to_int_small (v * E)) by exact Hprod.
      rewrite Z.quot_div_nonneg by lia.
      assert (Hq : 0 <= v * E / maxwh <= E).
      { split; [apply Z.div_pos; lia |].
        apply Z.div_le_upper_bound; [lia |]. nia. }
      rewrite to_int_small by lia.
      split; [lia |]. split; [| lia].
      intros _ ->. rewrite Z.mul_comm, Z.div_mul by lia. lia.
    - split; [lia |]. split; [lia | reflexivity]. }
  destruct (Hscaled w0 ltac:(unfold maxwh; lia)) as (Hw1 & Hw1max & Hw1same).
  destruct (Hscaled h0 ltac:(unfold maxwh; lia)) as (Hh1 & Hh1max & Hh1same).
  cbv zeta in Hw1, Hw1max, Hw1same, Hh1, Hh1max, Hh1same.
  set (w1 := if scale then Z.max (Int.to_int (Int.to_int (w0 * E) ÷ maxwh)) 1
             else w0) in *.
  set (h1 := if scale then Z.max (Int.to_int (Int.to_int (h0 * E) ÷ maxwh)) 1
             else h0) in *.
  (* the rounded extents *)
  set (rounded := fun v =>
         match roundMode with
         | RoundMode_ToNextPowerOfTwo =>
             Int.to_int (nextPowerOfTwo (Int.to_uint v))
         | RoundMode_ToNearestPowerOfTwo =>
             Int.to_int (nearestPowerOfTwo (Int.to_uint v))
         | RoundMode_ToPreviousPowerOfTwo =>
             Int.to_int (previousPowerOfTwo (Int.to_uint v))
         | RoundMode_None => v
         end).
  assert (Hround : forall v, 1 <= v <= E ->
            1 <= rounded v <= E /\ (v = E -> rounded v = E)
            /\ (roundMode <> RoundMode_None -> power_of_two (rounded v))
            /\ (roundMode = RoundMode_None -> rounded v = v)).
  { intros v Hv. unfold rounded.
    destruct roundMode.
    - split; [lia |]. split; [auto |]. split; [congruence | reflexivity].
    - pose proof (HEpow ltac:(discriminate)) as HEq. rewrite HEq in Hv |- *.
      destruct (next_within v (Z.log2 maxExtent) ltac:(lia) Hv)
        as (j & Hj & -> & Hje).
      pose proof (pow2_exponent_le j _ Hj). pose proof (pow2_small j ltac:(lia)).
      split; [lia |]. split; [intros Hve; now rewrite (Hje Hve) |].
      split; [intros _; exists j; split; [lia | reflexivity] | discriminate].
    - pose proof (HEpow ltac:(discriminate)) as HEq. rewrite HEq in Hv |- *.
      destruct (nearest_within v (Z.log2 maxExtent) ltac:(lia) Hv)
        as (j & Hj & -> & Hje).
      pose proof (pow2_exponent_le j _ Hj). pose proof (pow2_small j ltac:(lia)).
      split; [lia |]. split; [intros Hve; now rewrite (Hje Hve) |].
      split; [intros _; exists j; split; [lia | reflexivity] | discriminate].
    - pose proof (HEpow ltac:(discriminate)) as HEq. rewrite HEq in Hv |- *.
      destruct (previous_within v (Z.log2 maxExtent) ltac:(lia) Hv)
        as (j & Hj & -> & Hje).
      pose proof (pow2_exponent_le j _ Hj). pose proof (pow2_small j ltac:(lia)).
      split; [lia |]. split; [intros Hve; now rewrite (Hje Hve) |].
      split; [intros _; exists j; split; [lia | reflexivity] | discriminate]. }
  destruct (Hround w1 Hw1) as (Hw2 & Hw2max & Hw2pow & Hw2same).
  destruct (Hround h1 Hh1) as (Hh2 & Hh2max & Hh2pow & Hh2same).
  set (cube := TextureType_eqb (Private.type p) TextureType_Cube).
  set (h3 := if cube then Z.max (rounded w1) (rounded h1) else rounded h1).
  set (w3 := if cube then h3 else rounded w1).
  exists w3, h3. split; [| split; [| split; [| split; [| split; [| split; [| split]]]]]].
  - unfold resize_max. cbn [m]. step (Private_get_live _ _ _ Hpa).
    assert (Hpos : (0 <? Z.of_nat (length (Private.imageArray p))) = true).
    { apply Z.ltb_lt. apply lookup_lt_Some in Hx. lia. }
    rewrite Hpos.
    pose proof (Array_at_lookup _ 0%nat _ Hx h) as Hat.
    change (Z.of_nat 0) with 0 in Hat.
    step Hat. step (Image_get_live _ _ _ Himg). cbv zeta.
    fold w0 h0. rewrite (to_int_small w0), (to_int_small h0) by lia.
    rewrite HE. fold maxwh. fold scale.
    replace (scale && (maxwh =? 0)) with false
      by (destruct scale, (Z.eqb_spec maxwh 0); try reflexivity;
          unfold maxwh in *; lia).
    step (Private_get_live _ _ _ Hpa). reflexivity.
  - unfold w3, h3. destruct cube; lia.
  - unfold h3. destruct cube; lia.
  - lia.
  - intros Hexceeds.
    assert (rounded w1 = E \/ rounded h1 = E) as Hside.
    { destruct (Z.max_spec w0 h0) as [[_ Hmx] | [_ Hmx]]; fold maxwh in Hmx.
      - right. apply Hh2max, Hh1max; [exact Hexceeds | now symmetry].
      - left. apply Hw2max, Hw1max; [exact Hexceeds | now symmetry]. }
    unfold w3, h3. destruct cube; lia.
  - intros Hmode. specialize (Hw2pow Hmode). specialize (Hh2pow Hmode).
    unfold w3, h3. destruct cube; [| auto].
    destruct (Z.max_spec (rounded w1) (rounded h1)) as [[_ ->] | [_ ->]]; auto.
  - intros Hnone Hfits H2d.
    unfold w3, h3, cube. rewrite H2d. cbn [TextureType_eqb].
    rewrite (Hw2same Hnone), (Hh2same Hnone).
    assert (HEmax : E = maxExtent) by (unfold E; now rewrite Hnone).
    split; [apply Hw1same | apply Hh1same]; fold maxwh in Hfits; lia.
  - intros Hcube. unfold w3, h3, cube. rewrite Hcube. reflexivity.
Qed.

End ResizeMax.

(** The texture of 4 x 2 pixels, limited to an extent of 3 with rounding
    to the nearest power of two, is resized to 2 x 1. *)
Lemma resize_max_loaded_4x2 :
  exists w' h',
    resize_max 3 RoundMode_ToNearestPowerOfTwo ResizeFilter_Box
      (Tex (Some 0%nat)) loaded_4x2
    = (this' <- resize w' h' ResizeFilter_Box (Tex (Some 0%nat)) ;;
       ret (Some this')) loaded_4x2
    /\ Z.max w' h' = 2 /\ power_of_two w' /\ power_of_two h'.
Proof.
  destruct (resize_max_extents 3 RoundMode_ToNearestPowerOfTwo ResizeFilter_Box
              (Tex (Some 0%nat)) loaded_4x2 _ 0%nat (plain 4 2 F32.one)
              eq_refl eq_refl eq_refl)
    as (w' & h' & Hrun & _ & _ & _ & Hmax & Hpow & _); try (simpl; lia).
  exists w', h'. split; [exact Hrun |].
  split; [exact (Hmax ltac:(simpl; lia)) | exact (Hpow ltac:(discriminate))].
Defined.

(** ** Alpha test coverage *)

Section Coverage.

Context `{FaceOperations}.

Variables (alphaRef : float) (a : ptr) (h : Heap) (p : Private.t)
  (cs : list (option FloatImage)).
Hypothesis Hp : payloads h !! a = Some (Some p).
Hypothesis Hcs :
  Forall2 (fun f c => face_at h f = Some c) (Private.imageArray p) cs.

Let add_coverage (c : float) (img : FloatImage) : float :=
  F32.add c (Image_alphaTestCoverage alphaRef 3 img).

Lemma coverage_loop (d : nat) :
  forall (k : nat) (n : Z) (c : float),
    (k + d = length cs)%nat -> 0 <= n -> n + Z.of_nat d < 2 ^ 31 ->
    for_fold (R := Empty_set) (seqZ (Z.of_nat k) (Z.of_nat d))
      (fun i (s : Z * float) =>
         p <- Private_get (Some a) ;;
         img <- Array_at (Private.imageArray p) i ;;
         match img with
         | None => ret (inl s)
         | Some _ =>
             f <- Image_get img ;;
             ret (inl (Int.to_int (fst s + 1),
                       F32.add (snd s) (Image_alphaTestCoverage alphaRef 3 f)))
         end) (n, c) h
    = Done (inl (n + Z.of_nat (length (omap id (drop k cs))),
                 fold_left add_coverage (omap id (drop k cs)) c), h).
Proof.
  induction d as [| d IH]; intros k n c Hk Hn Hbound.
  - rewrite drop_ge by lia. simpl. now rewrite Z.add_0_r.
  - pose proof (Forall2_length _ _ _ Hcs) as Hlen.
    destruct (lookup_lt_is_Some_2 (Private.imageArray p) k ltac:(lia)) as [f Hf].
    destruct (Forall2_lookup_l _ _ _ _ _ Hcs Hf) as (c0 & Hc0 & Hat).
    rewrite (drop_S _ _ _ Hc0). rewrite seqZ_of_nat_S. cbn [for_fold].
    assert (Hbody :
      (p <- Private_get (Some a) ;;
       img <- Array_at (Private.imageArray p) (Z.of_nat k) ;;
       match img with
       | None => ret (inl (n, c))
       | Some _ =>
           f <- Image_get img ;;
           ret (inl (Int.to_int (fst (n, c) + 1),
                     F32.add (snd (n, c))
                       (Image_alphaTestCoverage alphaRef 3 f)))
       end) h
      = Done (@inl _ Empty_set
                (match c0 with Some img => (n + 1, add_coverage c img) | None => (n, c) end),
              h)).
    { step (Private_get_live _ _ _ Hp). step (Array_at_lookup _ _ _ Hf h).
      destruct f as [x |]; simpl in Hat.
      - destruct (images h !! x) as [[img |] |] eqn:Hx; try discriminate Hat.
        injection Hat as <-. step (Image_get_live _ _ _ Hx).
        cbn [fst snd]. now rewrite to_int_small by lia.
      - now injection Hat as <-. }
    step Hbody.
    destruct c0 as [img |].
    + rewrite (IH (S k) (n + 1) (add_coverage c img)) by lia.
      assert (Hcons : omap id (Some img :: drop (S k) cs)
                      = img :: omap id (drop (S k) cs)) by reflexivity.
      rewrite Hcons. cbn [length fold_left].
      now replace (n + 1 + Z.of_nat (length (omap id (drop (S k) cs))))
        with (n + Z.of_nat (S (length (omap id (drop (S k) cs))))) by lia.
    + rewrite (IH (S k) n c) by lia. reflexivity.
Qed.

End Coverage.

Section MeanCoverage.

Context `{FaceOperations}.

(** [alphaTestCoverage] returns the mean of the coverage of the
    populated faces, summed in the order of the faces from 0.0; absent
    faces are skipped and do not count, and without a populated face the
    result is 0.0.  Nothing is changed. *)
Theorem alphaTestCoverage_mean (alphaRef : float) (this : TexImage) (h : Heap)
    (s : Snapshot) :
  observe this h = Some s ->
  Z.of_nat (length (s_faces s)) < 2 ^ 31 ->
  alphaTestCoverage alphaRef this h
  = Done (mean_coverage alphaRef (omap id (s_faces s)), h).
Proof.
  intros Hobs Hsmall.
  destruct (observe_Some _ _ _ Hobs) as (p & Hp & Hall & _).
  apply payload_at_Some in Hp as (a & Hm & Hpa).
  destruct this as [mthis]. simpl in Hm. subst mthis.
  pose proof (Forall2_length _ _ _ Hall) as Hlen.
  unfold alphaTestCoverage. cbn [m]. step (Private_get_live _ _ _ Hpa).
  rewrite Hlen.
  pose proof (coverage_loop alphaRef a h p (s_faces s) Hpa Hall
                (length (s_faces s)) 0%nat 0 F32.zero eq_refl ltac:(lia)
                ltac:(lia)) as Hloop.
  change (Z.of_nat 0) with 0 in Hloop. step Hloop.
  rewrite drop_0. unfold mean_coverage.
  destruct (omap id (s_faces s)) as [| img imgs]; [reflexivity |].
  cbn [length]. rewrite Z.add_0_l.
  destruct (Z.ltb_spec 0 (Z.of_nat (S (length imgs)))); [reflexivity | lia].
Qed.

End MeanCoverage.

(** A Cube without populated faces has a coverage of 0.0. *)
Lemma alphaTestCoverage_of_empty_cube :
  alphaTestCoverage (F32.div F32.one (F32.of_Z 2)) (Tex (Some 0%nat)) empty_cube
  = Done (F32.zero, empty_cube).
Proof.
  exact (alphaTestCoverage_mean (F32.div F32.one (F32.of_Z 2)) (Tex (Some 0%nat))
           empty_cube _ eq_refl ltac:(simpl; lia)).
Defined.
